(** * nikopoke battle engine: a shallow embedding and its checked properties

    The engine is JavaScript.  Its numbers are modelled as follows: hit
    points, stats, stage values, slots, turn counters and damage amounts,
    which the engine only ever produces through [Math.floor] or integer
    literals, are [Z]; everything that can be fractional (RNG draws,
    accuracies, move power after ability multipliers, speeds, the damage
    formula before flooring) is an exact rational [Q], so the rounding of
    IEEE doubles is not modelled.  Exceptions raised by the JavaScript
    ([TypeError] on a property read of [undefined], [Error] thrown by the
    move validator) are the [Throw] outcome of [Res].  Objects used as tables
    ([moves], [learnsets], the type chart, the ability and status
    registries) are read on their own properties only: ids and type names
    are taken not to be names of [Object.prototype] such as "constructor"
    ([inheritedName]).  The properties of the type chart and of the move
    validator, which are about arbitrary names, state this as a hypothesis,
    and the validator's test [!moves[id]] counts an inherited name as
    present, as the object read does. *)

From Stdlib Require Import ZArith QArith Qround Qpower List String Ascii Bool Lia DecimalString.
From Stdlib Require Import Permutation Sorted Lqa.
Import ListNotations.
Local Open Scope string_scope.
Local Open Scope list_scope.
Local Open Scope Z_scope.

(** ** JavaScript helpers *)

Notation "a +++ b" := (String.append a b) (at level 60, right associativity).

(** Outcome of running JavaScript: a value, an exception, or (for the one
    unbounded [while] loop of the engine) the loop budget running out. *)
Inductive Res (A : Type) : Type :=
| Ok (a : A)
| Throw (err : string)
| Timeout.
Arguments Ok {A} a.
Arguments Throw {A} err.
Arguments Timeout {A}.

Definition resBind {A B} (r : Res A) (k : A -> Res B) : Res B :=
  match r with
  | Ok a => k a
  | Throw e => Throw e
  | Timeout => Timeout
  end.

Definition showZ (z : Z) : string := NilZero.string_of_int (Z.to_int z).

(** The exception of [x.name] when [x] is [undefined] or [null]. *)
Definition typeErrorName : string :=
  "TypeError: Cannot read properties of undefined (reading 'name')".

(** [`${x}`] for a string that may be [undefined]. *)
Definition showOptStr (s : option string) : string :=
  match s with Some x => x | None => "undefined"%string end.

(** [Array.prototype.includes] on an array of strings. *)
Definition includes (l : list string) (x : string) : bool :=
  existsb (String.eqb x) l.

(** The own property names of [Object.prototype].  A table that is a plain
    object answers the read of one of them with the inherited member, which
    is an object or a function, hence truthy. *)
Definition objectPrototypeNames : list string :=
  ["constructor"; "__defineGetter__"; "__defineSetter__"; "hasOwnProperty";
   "__lookupGetter__"; "__lookupSetter__"; "isPrototypeOf"; "propertyIsEnumerable";
   "toString"; "valueOf"; "__proto__"; "toLocaleString"].

Definition inheritedName (key : string) : bool := includes objectPrototypeNames key.

(** [String.prototype.includes]. *)
Definition strIncludes (s sub : string) : bool :=
  match index 0 sub s with Some _ => true | None => false end.

(** [String.prototype.toLowerCase], on the ASCII letters. *)
Definition lowerAscii (c : ascii) : ascii :=
  let n := nat_of_ascii c in
  if andb (Nat.leb 65 n) (Nat.leb n 90) then ascii_of_nat (n + 32) else c.

Fixpoint toLowerCase (s : string) : string :=
  match s with
  | EmptyString => EmptyString
  | String c r => String (lowerAscii c) (toLowerCase r)
  end.

(** A JavaScript object used as a string-keyed map, in insertion order. *)
Definition JsObj (V : Type) : Type := list (string * V).

Fixpoint objGet {V} (o : JsObj V) (k : string) : option V :=
  match o with
  | [] => None
  | (k', v) :: r => if String.eqb k' k then Some v else objGet r k
  end.

Fixpoint objSet {V} (o : JsObj V) (k : string) (v : V) : JsObj V :=
  match o with
  | [] => [(k, v)]
  | (k', v') :: r =>
      if String.eqb k' k then (k', v) :: r else (k', v') :: objSet r k v
  end.

(** [arr[i]] for a numeric index: [undefined] outside the array. *)
Definition arrGet {A} (l : list A) (i : Z) : option A :=
  if i <? 0 then None else nth_error l (Z.to_nat i).

(** In-place write [arr[i] = f(arr[i])] at an index that holds an element. *)
Fixpoint updNat {A} (l : list A) (n : nat) (f : A -> A) : list A :=
  match l, n with
  | [], _ => []
  | x :: r, O => f x :: r
  | x :: r, S n' => x :: updNat r n' f
  end.

Definition arrUpd {A} (l : list A) (i : Z) (f : A -> A) : list A :=
  if i <? 0 then l else updNat l (Z.to_nat i) f.

(** Mutation of the element [Array.prototype.find] returns. *)
Fixpoint updFirst {A} (p : A -> bool) (f : A -> A) (l : list A) : list A :=
  match l with
  | [] => []
  | x :: r => if p x then f x :: r else x :: updFirst p f r
  end.

(** [Array.prototype.findIndex]. *)
Fixpoint findIndexFrom {A} (p : A -> bool) (l : list A) (i : nat) : option nat :=
  match l with
  | [] => None
  | x :: r => if p x then Some i else findIndexFrom p r (S i)
  end.

Definition findIndex {A} (p : A -> bool) (l : list A) : option nat :=
  findIndexFrom p l 0.

Definition optEqb {A} (eqb : A -> A -> bool) (a b : option A) : bool :=
  match a, b with
  | Some x, Some y => eqb x y
  | None, None => true
  | _, _ => false
  end.

Definition isSome {A} (o : option A) : bool :=
  match o with Some _ => true | None => false end.

(** Comparisons on rationals as booleans. *)
Definition Qgtb (a b : Q) : bool := negb (Qle_bool a b).
Definition Qltb (a b : Q) : bool := negb (Qle_bool b a).
Definition Qmaxq (a b : Q) : Q := if Qle_bool a b then b else a.
Definition Qminq (a b : Q) : Q := if Qle_bool a b then a else b.

(** ** Data model (core/state.js, data/moves, the event and effect records) *)

(** A number or a [{min, max}] range (effect durations, repeat counts). *)
Inductive NumOrRange : Type :=
| Num (n : Z)
| Range (min max : Z).

(** The scalar fields a status [data] object is read for. *)
Record DataFields : Type := mkDataFields {
  d_itemId : option string;
  d_moveId : option string;
  d_mode : option string;
  d_sourceId : option string;
  d_targetId : option string;
  d_timing : option string;
  d_turns : option Z;
  d_triggerTurn : option Z
}.

Definition noData : DataFields :=
  mkDataFields None None None None None None None None.

Inductive Condition : Type :=
| CTargetHasStatus (statusId : string)
| CTargetHpLt (value : option Q)
| CFieldHasStatus (statusId : string)
| CWeatherIsSunny
| CWeatherIsRaining
| CWeatherIsHail
| CWeatherIsSandstorm
| CUserType (typeId : string)
| CUserHasStatus (statusId : string)
| CTargetHasItem
| CUserHasItem
| COther.

Record Threshold : Type := mkThreshold {
  th_ratio : option Q;
  th_power : option Q
}.

Record OhkoSpec : Type := mkOhko {
  oh_respectTypeImmunity : option bool;
  oh_immuneTypes : option (list string);
  oh_failIfTargetHigherLevel : option bool;
  oh_requiredType : option string;
  oh_nonMatchingTypeAccuracy : option Q;
  oh_baseAccuracy : option Q;
  oh_levelScaling : option bool
}.

Set Warnings "-register-all".

(** The declarative effect records of a move definition, one constructor per
    [effect.type] handled by [applyEffect]; [FxOther] is any other type. *)
Inductive Effect : Type :=
| FxProtect
| FxDamage (power accuracy : option Q) (name : option string)
| FxSpeedBasedDamage (thresholds : list Threshold) (basePower accuracy : option Q)
| FxApplyStatus (statusId : string) (target : option string) (chance : option Q)
    (duration : option NumOrRange) (stack : option bool) (data : option DataFields)
| FxOhko (spec : OhkoSpec)
| FxApplyFieldStatus (statusId : string) (duration : option Z) (stack : option bool)
    (data : option DataFields)
| FxRemoveStatus (statusId : string) (target : option string)
| FxRemoveFieldStatus (statusId : string)
| FxLog (message : string)
| FxCureAllStatus (target : option string)
| FxReplaceStatus (target : option string) (from to : string) (duration : option Z)
    (data : option DataFields)
| FxModifyStage (target : option string) (stages : option (JsObj Z))
    (clamp fail_if_no_change show_event : option bool)
| FxClearStages (target : option string) (show_event : option bool)
| FxResetStages (target : option string) (show_event : option bool)
| FxDisableMove (target : option string) (duration : option Z) (moveId : option string)
| FxChance (p : option Q) (thenFx : option (list Effect)) (elseFx : option (list Effect))
| FxRepeat (times : option NumOrRange) (effects : option (list Effect))
| FxConditional (cond : Condition) (thenFx elseFx : option (list Effect))
| FxDamageRatio (ratioMaxHp : option Q) (target : option string)
| FxDelay (afterTurns : option Z) (timing : option string)
    (effects : option (list Effect)) (target : option string)
| FxOverTime (duration : option Z) (timing : option string)
    (effects : option (list Effect)) (target : option string)
| FxRandomMove (pool : option string)
| FxApplyItem (target : option string) (itemId : option string)
| FxRemoveItem (target : option string)
| FxConsumeItem (target : option string) (markBerryConsumed : bool)
| FxSelfSwitch
| FxForceSwitch (target : option string)
| FxOther.

(** [effect.type] as the string the engine compares. *)
Definition effectType (e : Effect) : string :=
  match e with
  | FxProtect => "protect"
  | FxDamage _ _ _ => "damage"
  | FxSpeedBasedDamage _ _ _ => "speed_based_damage"
  | FxApplyStatus _ _ _ _ _ _ => "apply_status"
  | FxOhko _ => "ohko"
  | FxApplyFieldStatus _ _ _ _ => "apply_field_status"
  | FxRemoveStatus _ _ => "remove_status"
  | FxRemoveFieldStatus _ => "remove_field_status"
  | FxLog _ => "log"
  | FxCureAllStatus _ => "cure_all_status"
  | FxReplaceStatus _ _ _ _ _ => "replace_status"
  | FxModifyStage _ _ _ _ _ => "modify_stage"
  | FxClearStages _ _ => "clear_stages"
  | FxResetStages _ _ => "reset_stages"
  | FxDisableMove _ _ _ => "disable_move"
  | FxChance _ _ _ => "chance"
  | FxRepeat _ _ => "repeat"
  | FxConditional _ _ _ => "conditional"
  | FxDamageRatio _ _ => "damage_ratio"
  | FxDelay _ _ _ _ => "delay"
  | FxOverTime _ _ _ _ => "over_time"
  | FxRandomMove _ => "random_move"
  | FxApplyItem _ _ => "apply_item"
  | FxRemoveItem _ => "remove_item"
  | FxConsumeItem _ _ => "consume_item"
  | FxSelfSwitch => "self_switch"
  | FxForceSwitch _ => "force_switch"
  | FxOther => "other"
  end%string.

Record Move : Type := mkMove {
  m_id : string;
  m_name : string;
  m_type : option string;
  m_category : option string;
  m_pp : option Z;
  m_priority : option Z;
  m_critRate : option Z;
  m_tags : list string;
  m_effects : option (list Effect)
}.

Record StatusData : Type := mkStatusData {
  sd_fields : DataFields;
  sd_effects : option (list Effect)
}.

Definition emptyData : StatusData := mkStatusData noData None.

(** A volatile status on a creature, and an entry of [field.global]. *)
Record Status : Type := mkStatus {
  s_id : string;
  s_remainingTurns : option Z;
  s_data : StatusData
}.

Definition Stages : Type := JsObj Z.

Definition zeroStages : Stages :=
  [("atk", 0); ("def", 0); ("spa", 0); ("spd", 0); ("spe", 0); ("acc", 0); ("eva", 0)]%string.

(** [volatileData]: the per-creature scratch ([{}] is [noVolatile]). *)
Record VolatileData : Type := mkVolatile {
  protectSuccessCount : option Z;
  lastMove : option string
}.

Definition noVolatile : VolatileData := mkVolatile None None.

(** Values stored in [abilityData]: [true] flags and a copied ability id. *)
Inductive AbilityFlag : Type :=
| FlagTrue
| FlagStr (s : string).

Record Creature : Type := mkCreature {
  c_id : string;
  c_name : string;
  c_speciesId : string;
  c_level : Z;
  c_types : list string;
  c_moves : list string;
  c_ability : string;
  c_item : option string;
  c_hp : Z;
  c_maxHp : Z;
  c_statuses : list Status;
  c_stages : Stages;
  c_movePp : JsObj (option Z);
  c_attack : Z;
  c_defense : Z;
  c_spAttack : Z;
  c_spDefense : Z;
  c_speed : Z;
  c_abilityData : JsObj AbilityFlag;
  c_volatileData : VolatileData
}.

Record Player : Type := mkPlayer {
  p_id : string;
  p_name : string;
  p_team : list Creature;
  p_activeSlot : Z;
  p_lastFaintedAbility : option string
}.

Record Field : Type := mkField {
  f_global : list Status
}.

Inductive ActionType : Type := TMove | TSwitch | TUseItem | TWait.

(** An action as submitted, and as normalized into the history (where
    [a_priority] holds the sort key of the recorded turn). *)
Record Action : Type := mkAction {
  a_playerId : string;
  a_type : option ActionType;
  a_moveId : option string;
  a_targetId : option string;
  a_slot : option Z;
  a_priority : option Q
}.

Record TurnRecord : Type := mkTurnRecord {
  tr_turn : Z;
  tr_actions : list Action;
  tr_log : list string;
  tr_rng : list Q
}.

Record History : Type := mkHistory {
  h_turns : list TurnRecord
}.

Record State : Type := mkState {
  players : list Player;
  field : Field;
  turn : Z;
  log : list string;
  history : option History
}.

(** The [meta] record of an event; an absent [meta] reads like [noMeta]. *)
Record Meta : Type := mkMeta {
  mt_source : option string;
  mt_target : option string;
  mt_moveId : option string;
  mt_cancellable : bool;
  mt_parentalBond : bool;
  mt_bounced : bool;
  mt_ohko : bool;
  mt_competitive : bool;
  mt_opportunist : bool;
  mt_from : option string
}.

Definition noMeta : Meta :=
  mkMeta None None None false false false false false false None.

(** [{ moveId: ctx.move?.id, source: ctx.attackerPlayerId }] *)
Definition moveMeta (moveId : option string) (source : string) : Meta :=
  mkMeta (Some source) None moveId false false false false false false None.

(** [{ source, target, moveId, cancellable: true }] and its flagged variants. *)
Definition damageMeta (source target : string) (moveId : option string)
    (parentalBond ohko : bool) : Meta :=
  mkMeta (Some source) (Some target) moveId true parentalBond false ohko false false None.

Definition sourceMeta (source : string) : Meta :=
  mkMeta (Some source) None None false false false false false false None.

Definition fromMeta (from : string) : Meta :=
  mkMeta None None None false false false false false false (Some from).

(** The closed set of events; the optional fields are the ones [applyEvent]
    destructures with a default. *)
Inductive Event : Type :=
| EvLog (message : string) (meta : Meta)
| EvSwitch (playerId : string) (slot : Z)
| EvDamage (targetId : string) (amount : Z) (meta : Meta)
| EvApplyStatus (targetId statusId : string) (duration : option Z)
    (stack : option bool) (data : option StatusData) (meta : Meta)
| EvRemoveStatus (targetId statusId : string) (meta : Meta)
| EvCureAllStatus (targetId : string) (meta : Meta)
| EvReplaceStatus (targetId from to : string) (duration : option Z)
    (data : option StatusData) (meta : Meta)
| EvApplyFieldStatus (statusId : string) (duration : option Z)
    (stack : option bool) (data : option StatusData) (meta : Meta)
| EvRemoveFieldStatus (statusId : string) (meta : Meta)
| EvRandomMove (pool : option string) (meta : Meta)
| EvModifyStage (targetId : string) (stages : option (JsObj Z))
    (clamp failIfNoChange showEvent : option bool) (meta : Meta)
| EvClearStages (targetId : string) (showEvent : option bool) (meta : Meta)
| EvResetStages (targetId : string) (showEvent : option bool) (meta : Meta)
| EvSelfSwitch (targetId : string)
| EvForceSwitch (targetId : string).

Definition eventType (e : Event) : string :=
  match e with
  | EvLog _ _ => "log"
  | EvSwitch _ _ => "switch"
  | EvDamage _ _ _ => "damage"
  | EvApplyStatus _ _ _ _ _ _ => "apply_status"
  | EvRemoveStatus _ _ _ => "remove_status"
  | EvCureAllStatus _ _ => "cure_all_status"
  | EvReplaceStatus _ _ _ _ _ _ => "replace_status"
  | EvApplyFieldStatus _ _ _ _ _ => "apply_field_status"
  | EvRemoveFieldStatus _ _ => "remove_field_status"
  | EvRandomMove _ _ => "random_move"
  | EvModifyStage _ _ _ _ _ _ => "modify_stage"
  | EvClearStages _ _ _ => "clear_stages"
  | EvResetStages _ _ _ => "reset_stages"
  | EvSelfSwitch _ => "self_switch"
  | EvForceSwitch _ => "force_switch"
  end%string.

(** [event.targetId] *)
Definition eventTargetId (e : Event) : option string :=
  match e with
  | EvDamage t _ _ | EvApplyStatus t _ _ _ _ _ | EvRemoveStatus t _ _
  | EvCureAllStatus t _ | EvReplaceStatus t _ _ _ _ _
  | EvModifyStage t _ _ _ _ _ | EvClearStages t _ _ | EvResetStages t _ _
  | EvSelfSwitch t | EvForceSwitch t => Some t
  | EvLog _ _ | EvSwitch _ _ | EvApplyFieldStatus _ _ _ _ _
  | EvRemoveFieldStatus _ _ | EvRandomMove _ _ => None
  end.

(** [event.meta] *)
Definition eventMeta (e : Event) : Meta :=
  match e with
  | EvLog _ m | EvDamage _ _ m | EvApplyStatus _ _ _ _ _ m | EvRemoveStatus _ _ m
  | EvCureAllStatus _ m | EvReplaceStatus _ _ _ _ _ m
  | EvApplyFieldStatus _ _ _ _ m | EvRemoveFieldStatus _ m | EvRandomMove _ m
  | EvModifyStage _ _ _ _ _ m | EvClearStages _ _ m | EvResetStages _ _ m => m
  | EvSwitch _ _ | EvSelfSwitch _ | EvForceSwitch _ => noMeta
  end.

(** ** Record updates (the in-place writes of the JavaScript) *)

Definition setHp (c : Creature) (v : Z) : Creature :=
  mkCreature (c_id c) (c_name c) (c_speciesId c) (c_level c) (c_types c) (c_moves c)
    (c_ability c) (c_item c) v (c_maxHp c) (c_statuses c) (c_stages c) (c_movePp c)
    (c_attack c) (c_defense c) (c_spAttack c) (c_spDefense c) (c_speed c)
    (c_abilityData c) (c_volatileData c).

Definition setStatuses (c : Creature) (v : list Status) : Creature :=
  mkCreature (c_id c) (c_name c) (c_speciesId c) (c_level c) (c_types c) (c_moves c)
    (c_ability c) (c_item c) (c_hp c) (c_maxHp c) v (c_stages c) (c_movePp c)
    (c_attack c) (c_defense c) (c_spAttack c) (c_spDefense c) (c_speed c)
    (c_abilityData c) (c_volatileData c).

Definition setStages (c : Creature) (v : Stages) : Creature :=
  mkCreature (c_id c) (c_name c) (c_speciesId c) (c_level c) (c_types c) (c_moves c)
    (c_ability c) (c_item c) (c_hp c) (c_maxHp c) (c_statuses c) v (c_movePp c)
    (c_attack c) (c_defense c) (c_spAttack c) (c_spDefense c) (c_speed c)
    (c_abilityData c) (c_volatileData c).

Definition setAbilityData (c : Creature) (v : JsObj AbilityFlag) : Creature :=
  mkCreature (c_id c) (c_name c) (c_speciesId c) (c_level c) (c_types c) (c_moves c)
    (c_ability c) (c_item c) (c_hp c) (c_maxHp c) (c_statuses c) (c_stages c) (c_movePp c)
    (c_attack c) (c_defense c) (c_spAttack c) (c_spDefense c) (c_speed c)
    v (c_volatileData c).

Definition setVolatileData (c : Creature) (v : VolatileData) : Creature :=
  mkCreature (c_id c) (c_name c) (c_speciesId c) (c_level c) (c_types c) (c_moves c)
    (c_ability c) (c_item c) (c_hp c) (c_maxHp c) (c_statuses c) (c_stages c) (c_movePp c)
    (c_attack c) (c_defense c) (c_spAttack c) (c_spDefense c) (c_speed c)
    (c_abilityData c) v.

Definition setItem (c : Creature) (v : option string) : Creature :=
  mkCreature (c_id c) (c_name c) (c_speciesId c) (c_level c) (c_types c) (c_moves c)
    (c_ability c) v (c_hp c) (c_maxHp c) (c_statuses c) (c_stages c) (c_movePp c)
    (c_attack c) (c_defense c) (c_spAttack c) (c_spDefense c) (c_speed c)
    (c_abilityData c) (c_volatileData c).

Definition setMovePp (c : Creature) (v : JsObj (option Z)) : Creature :=
  mkCreature (c_id c) (c_name c) (c_speciesId c) (c_level c) (c_types c) (c_moves c)
    (c_ability c) (c_item c) (c_hp c) (c_maxHp c) (c_statuses c) (c_stages c) v
    (c_attack c) (c_defense c) (c_spAttack c) (c_spDefense c) (c_speed c)
    (c_abilityData c) (c_volatileData c).

Definition setTypes (c : Creature) (v : list string) : Creature :=
  mkCreature (c_id c) (c_name c) (c_speciesId c) (c_level c) v (c_moves c)
    (c_ability c) (c_item c) (c_hp c) (c_maxHp c) (c_statuses c) (c_stages c) (c_movePp c)
    (c_attack c) (c_defense c) (c_spAttack c) (c_spDefense c) (c_speed c)
    (c_abilityData c) (c_volatileData c).

Definition setAbility (c : Creature) (v : string) : Creature :=
  mkCreature (c_id c) (c_name c) (c_speciesId c) (c_level c) (c_types c) (c_moves c)
    v (c_item c) (c_hp c) (c_maxHp c) (c_statuses c) (c_stages c) (c_movePp c)
    (c_attack c) (c_defense c) (c_spAttack c) (c_spDefense c) (c_speed c)
    (c_abilityData c) (c_volatileData c).

Definition setTeam (p : Player) (v : list Creature) : Player :=
  mkPlayer (p_id p) (p_name p) v (p_activeSlot p) (p_lastFaintedAbility p).

Definition setActiveSlot (p : Player) (v : Z) : Player :=
  mkPlayer (p_id p) (p_name p) (p_team p) v (p_lastFaintedAbility p).

Definition setLastFaintedAbility (p : Player) (v : option string) : Player :=
  mkPlayer (p_id p) (p_name p) (p_team p) (p_activeSlot p) v.

Definition setPlayers (s : State) (v : list Player) : State :=
  mkState v (field s) (turn s) (log s) (history s).

Definition setField (s : State) (v : Field) : State :=
  mkState (players s) v (turn s) (log s) (history s).

Definition setTurn (s : State) (v : Z) : State :=
  mkState (players s) (field s) v (log s) (history s).

Definition setLog (s : State) (v : list string) : State :=
  mkState (players s) (field s) (turn s) v (history s).

Definition setHistory (s : State) (v : option History) : State :=
  mkState (players s) (field s) (turn s) (log s) v.

(** [state.log.push(line)] *)
Definition pushLog (s : State) (line : string) : State :=
  setLog s (log s ++ [line]).

(** ** core/utils.js *)

Definition Qof (z : Z) : Q := inject_Z z.

Definition stageMultiplier (stage : option Z) : Q :=
  let s := Z.max (-6) (Z.min 6 (match stage with Some v => v | None => 0 end)) in
  if 0 <=? s then (Qof (2 + s) / 2)%Q else (2 / Qof (2 - s))%Q.

Definition isDamageEffect (e : Effect) : bool :=
  String.eqb (effectType e) "damage".

Definition moveEffects (m : option Move) : list Effect :=
  match m with
  | Some mv => match m_effects mv with Some l => l | None => [] end
  | None => []
  end.

(** [move?.category] when it is truthy. *)
Definition moveCategoryField (m : option Move) : option string :=
  match m with
  | Some mv =>
      match m_category mv with
      | Some c => if String.eqb c "" then None else Some c
      | None => None
      end
  | None => None
  end.

Definition isStatusMove (m : option Move) : bool :=
  match moveCategoryField m with
  | Some c => String.eqb c "status"
  | None => negb (existsb isDamageEffect (moveEffects m))
  end.

Definition isReflectableStatusEvent (type : string) : bool :=
  includes ["apply_status"; "remove_status"; "replace_status"; "modify_stage";
            "clear_stages"; "reset_stages"; "disable_move"; "cure_all_status"]%string type.

Definition findPlayer (s : State) (playerId : string) : option Player :=
  find (fun p => String.eqb (p_id p) playerId) (players s).

Definition activeOf (p : Player) : option Creature :=
  arrGet (p_team p) (p_activeSlot p).

Definition getActiveCreature (s : State) (playerId : string) : option Creature :=
  match findPlayer s playerId with
  | Some p => activeOf p
  | None => None
  end.

(** A write through the reference [getActiveCreature] returned. *)
Definition updPlayer (s : State) (playerId : string) (f : Player -> Player) : State :=
  setPlayers s (updFirst (fun p => String.eqb (p_id p) playerId) f (players s)).

Definition updActive (s : State) (playerId : string) (f : Creature -> Creature) : State :=
  updPlayer s playerId (fun p => setTeam p (arrUpd (p_team p) (p_activeSlot p) f)).

Definition hasStatus (c : Creature) (statusId : string) : bool :=
  existsb (fun s => String.eqb (s_id s) statusId) (c_statuses c).

(** ** abilities/index.js: the value and check hooks of the registry *)

(** [getWeather] *)
Definition getWeather (s : State) : option string :=
  match find (fun e => orb (String.eqb (s_id e) "sun") (String.eqb (s_id e) "rain"))
             (f_global (field s)) with
  | Some e => Some (s_id e)
  | None => None
  end.

(** The value hooks, each with the context fields its handlers read. *)
Inductive ValueHook : Type :=
| OnModifyPower (move : option Move) (category : string) (target : option Creature)
| OnDefensivePower (move : option Move) (category : string) (attacker : option Creature)
| OnModifyOffense (category : string) (turn : option Z)
| OnModifyDefense (category : string) (turn : option Z)
| OnModifyAccuracy (move : option Move) (category : string) (target : option Creature)
| OnModifyCritChance (target : option Creature)
| OnModifySpeed (weather : option string) (turn : option Z)
| OnModifyPriority (move : option Move).

Definition moveTypeIs (m : option Move) (t : string) : bool :=
  match m with
  | Some mv => optEqb String.eqb (m_type mv) (Some t)
  | None => false
  end.

Definition turnLe5 (t : option Z) : bool :=
  match t with Some n => n <=? 5 | None => false end.

(** [registry[ability][hook]] applied to [value]; [None] when the ability has
    no handler for the hook. *)
Definition abilityValueHandler (ability : string) (h : ValueHook)
    (player : Player) (active : Creature) (value : Q) : option Q :=
  let ab := String.eqb ability in
  match h with
  | OnModifyPower move category target =>
      if ab "sharpness" then
        Some (if match move with Some mv => includes (m_tags mv) "slicing" | None => false end
              then value * (3 # 2) else value)%Q
      else if ab "technician" then
        Some (if Qle_bool value 60 then value * (3 # 2) else value)%Q
      else if ab "steelworker" then
        Some (if moveTypeIs move "steel" then value * (3 # 2) else value)%Q
      else if ab "hustle" then
        Some (if String.eqb category "physical" then value * (3 # 2) else value)%Q
      else if ab "pure_power" then
        Some (if String.eqb category "physical" then value * 2 else value)%Q
      else if ab "guts" then
        Some (if andb (String.eqb category "physical")
                      (Nat.ltb 0 (List.length (c_statuses active)))
              then value * (3 # 2) else value)%Q
      else None
  | OnDefensivePower move category attacker =>
      if ab "thick_fat" then
        Some (if orb (moveTypeIs move "fire") (moveTypeIs move "ice")
              then value * (1 # 2) else value)%Q
      else None
  | OnModifyOffense category turn =>
      if ab "unaware" then Some value
      else if ab "slow_start" then
        Some (if andb (turnLe5 turn) (String.eqb category "physical")
              then value * (1 # 2) else value)%Q
      else None
  | OnModifyDefense category turn =>
      if ab "fur_coat" then
        Some (if String.eqb category "physical" then value * 2 else value)%Q
      else None
  | OnModifyAccuracy move category target =>
      if ab "hustle" then
        Some (if String.eqb category "physical" then value * (4 # 5) else value)%Q
      else if ab "compound_eyes" then Some (value * (13 # 10))%Q
      else None
  | OnModifyCritChance target =>
      if ab "merciless" then
        Some (if match target with
                 | Some t => orb (hasStatus t "poison") (hasStatus t "toxic")
                 | None => false
                 end
              then 999 else value)%Q
      else if ab "super_luck" then Some (value + 1)%Q
      else None
  | OnModifySpeed weather turn =>
      if ab "slow_start" then
        Some (if turnLe5 turn then value * (1 # 2) else value)%Q
      else if ab "quick_feet" then
        Some (if Nat.ltb 0 (List.length (c_statuses active))
              then value * (3 # 2) else value)%Q
      else if ab "swift_swim" then
        Some (if optEqb String.eqb weather (Some "rain"%string) then value * 2 else value)%Q
      else if ab "chlorophyll" then
        Some (if optEqb String.eqb weather (Some "sun"%string) then value * 2 else value)%Q
      else None
  | OnModifyPriority move =>
      if ab "prankster" then
        Some (if isStatusMove move then value + 1 else value)%Q
      else None
  end.

(** [runAbilityValueHook] *)
Definition runAbilityValueHook (s : State) (playerId : string) (h : ValueHook)
    (initialValue : Q) : Q :=
  match findPlayer s playerId with
  | None => initialValue
  | Some player =>
      match getActiveCreature s playerId with
      | None => initialValue
      | Some active =>
          if String.eqb (c_ability active) "" then initialValue
          else match abilityValueHandler (c_ability active) h player active initialValue with
               | Some v => v
               | None => initialValue
               end
      end
  end.

(** The [onModifyStage] value hook works on a stage map (Contrary, Simple). *)
Definition abilityStageHandler (ability : string) (stages : JsObj Z) : option (JsObj Z) :=
  if String.eqb ability "contrary" then
    Some (map (fun kv => (fst kv, - snd kv)) stages)
  else if String.eqb ability "simple" then
    Some (map (fun kv => (fst kv, snd kv * 2)) stages)
  else None.

Definition runAbilityStageHook (s : State) (playerId : string) (stages : JsObj Z)
    : JsObj Z :=
  match findPlayer s playerId with
  | None => stages
  | Some player =>
      match getActiveCreature s playerId with
      | None => stages
      | Some active =>
          if String.eqb (c_ability active) "" then stages
          else match abilityStageHandler (c_ability active) stages with
               | Some v => v
               | None => stages
               end
      end
  end.

(** The check hooks, each with the context fields its handlers read. *)
Inductive CheckHook : Type :=
| OnCheckStatusImmunity (statusId : string)
| OnImmunity (source type : string)
| OnCheckItem
| OnTrap (targetId : string)
| OnSkillLink.

Definition abilityCheckHandler (ability : string) (h : CheckHook)
    (s : State) (player : Player) (active : Creature) : option bool :=
  let ab := String.eqb ability in
  match h with
  | OnCheckStatusImmunity statusId =>
      if ab "immunity" then
        Some (orb (String.eqb statusId "poison") (String.eqb statusId "toxic"))
      else if ab "insomnia" then Some (String.eqb statusId "sleep")
      else if ab "own_tempo" then Some (String.eqb statusId "confusion")
      else None
  | OnImmunity source type =>
      if orb (orb (ab "own_tempo") (ab "clear_body"))
             (orb (ab "white_smoke") (ab "hyper_cutter"))
      then Some (String.eqb type "intimidate")
      else None
  | OnCheckItem =>
      if orb (ab "klutz") (ab "unnerve") then Some false else None
  | OnTrap targetId =>
      if ab "shadow_tag" then
        if orb (String.eqb targetId "") (String.eqb targetId (p_id player)) then Some false
        else match getActiveCreature s targetId with
             | Some t => if String.eqb (c_ability t) "shadow_tag" then Some false
                         else Some true
             | None => Some true
             end
      else None
  | OnSkillLink =>
      if ab "skill_link" then Some true else None
  end.

(** [runAbilityCheckHook] *)
Definition runAbilityCheckHook (s : State) (playerId : string) (h : CheckHook)
    (defaultValue : bool) : bool :=
  match findPlayer s playerId with
  | None => defaultValue
  | Some player =>
      match getActiveCreature s playerId with
      | None => defaultValue
      | Some active =>
          if String.eqb (c_ability active) "" then defaultValue
          else match abilityCheckHandler (c_ability active) h s player active with
               | Some b => b
               | None => defaultValue
               end
      end
  end.

(** ** core/events.js: the event applier *)

Definition NON_VOLATILE : list string :=
  ["burn"; "poison"; "toxic"; "paralysis"; "sleep"; "freeze"].

Definition stageOr0 (st : Stages) (k : string) : Z :=
  match objGet st k with Some v => v | None => 0 end.

Definition formatStages (st : Stages) : string :=
  "atk " +++ showZ (stageOr0 st "atk") +++ ", def " +++ showZ (stageOr0 st "def")
  +++ ", spa " +++ showZ (stageOr0 st "spa") +++ ", spd " +++ showZ (stageOr0 st "spd")
  +++ ", spe " +++ showZ (stageOr0 st "spe").

Definition pendingSwitch : Status := mkStatus "pending_switch" None emptyData.

(** [if (!statuses.some(pending_switch)) statuses.push(pending_switch)] *)
Definition pushPendingSwitch (c : Creature) : Creature :=
  if hasStatus c "pending_switch" then c
  else setStatuses c (c_statuses c ++ [pendingSwitch]).

(** The reset of the outgoing creature in the [switch] case. *)
Definition resetOutgoing (c : Creature) : Creature :=
  setVolatileData
    (setAbilityData
       (setStatuses (setStages c zeroStages)
          (filter (fun s => includes NON_VOLATILE (s_id s)) (c_statuses c)))
       [])
    noVolatile.

Definition clampStage (clamp : bool) (n : Z) : Z :=
  if clamp then Z.max (-6) (Z.min 6 n) else n.

(** The [for (const [key, delta] of Object.entries(adjusted))] loop. *)
Definition applyStageDeltas (clamp : bool) (adjusted : JsObj Z) (st : Stages) : Stages :=
  fold_left
    (fun acc kv => objSet acc (fst kv) (clampStage clamp (stageOr0 acc (fst kv) + snd kv)))
    adjusted st.

Definition orDefault {A} (o : option A) (d : A) : A :=
  match o with Some v => v | None => d end.

Definition newStatus (statusId : string) (duration : option Z) (data : option StatusData)
    : Status :=
  mkStatus statusId duration (orDefault data emptyData).

Definition applyEvent (state : State) (event : Event) : Res State :=
  let next := state in
  match event with
  | EvLog message _ =>
      if String.eqb message "" then Ok next else Ok (pushLog next message)
  | EvSwitch playerId slot =>
      match findPlayer next playerId with
      | None => Ok next
      | Some player =>
          let incoming := arrGet (p_team player) slot in
          let next1 :=
            updPlayer next playerId
              (fun p => setActiveSlot
                          (setTeam p (arrUpd (p_team p) (p_activeSlot p) resetOutgoing))
                          slot) in
          match incoming with
          | None => Throw typeErrorName
          | Some inc =>
              Ok (pushLog next1 (p_name player +++ " sent out " +++ c_name inc +++ "!"))
          end
      end
  | EvApplyStatus targetId statusId duration stack data _ =>
      match getActiveCreature next targetId with
      | None => Ok next
      | Some target =>
          if runAbilityCheckHook next targetId (OnCheckStatusImmunity statusId) false then
            Ok (pushLog next (c_name target +++ " is immune to " +++ statusId +++ "."))
          else if andb (hasStatus target statusId) (negb (orDefault stack false)) then
            Ok (pushLog next (c_name target +++ " already has " +++ statusId +++ "."))
          else
            Ok (pushLog
                  (updActive next targetId
                     (fun c => setStatuses c (c_statuses c ++ [newStatus statusId duration data])))
                  (c_name target +++ " is now " +++ statusId +++ "."))
      end
  | EvRemoveStatus targetId statusId _ =>
      match getActiveCreature next targetId with
      | None => Ok next
      | Some target =>
          let kept := filter (fun s => negb (String.eqb (s_id s) statusId)) (c_statuses target) in
          let next1 := updActive next targetId (fun c => setStatuses c kept) in
          if Nat.eqb (List.length (c_statuses target)) (List.length kept) then Ok next1
          else Ok (pushLog next1 (c_name target +++ " is no longer " +++ statusId +++ "."))
      end
  | EvCureAllStatus targetId _ =>
      match getActiveCreature next targetId with
      | None => Ok next
      | Some target =>
          if Nat.ltb 0 (List.length (c_statuses target)) then
            Ok (pushLog (updActive next targetId (fun c => setStatuses c []))
                  (c_name target +++ "'s statuses were cured."))
          else Ok next
      end
  | EvReplaceStatus targetId from to duration data _ =>
      match getActiveCreature next targetId with
      | None => Ok next
      | Some target =>
          if negb (hasStatus target from) then Ok next
          else
            Ok (pushLog
                  (updActive next targetId
                     (fun c => setStatuses c
                        (filter (fun s => negb (String.eqb (s_id s) from)) (c_statuses c)
                         ++ [newStatus to duration data])))
                  (c_name target +++ "'s " +++ from +++ " changed to " +++ to +++ "."))
      end
  | EvApplyFieldStatus statusId duration stack data _ =>
      let g := f_global (field next) in
      match findIndex (fun s => String.eqb (s_id s) statusId) g with
      | Some i =>
          if negb (orDefault stack false) then
            Ok (setField next
                  (mkField (updNat g i (fun _ => newStatus statusId duration data))))
          else Ok (setField next (mkField (g ++ [newStatus statusId duration data])))
      | None => Ok (setField next (mkField (g ++ [newStatus statusId duration data])))
      end
  | EvRemoveFieldStatus statusId _ =>
      Ok (setField next
            (mkField (filter (fun s => negb (String.eqb (s_id s) statusId))
                        (f_global (field next)))))
  | EvRandomMove _ _ => Ok next
  | EvModifyStage targetId stages clamp failIfNoChange showEvent _ =>
      match getActiveCreature next targetId with
      | None => Ok next
      | Some c =>
          let adjusted := runAbilityStageHook next targetId (orDefault stages []) in
          let before := c_stages c in
          let after := applyStageDeltas (orDefault clamp true) adjusted before in
          let next1 := updActive next targetId (fun c => setStages c after) in
          let changed :=
            existsb (fun kv => negb (optEqb Z.eqb (objGet before (fst kv))
                                            (objGet after (fst kv)))) adjusted in
          if andb (negb changed) (orDefault failIfNoChange false) then
            Ok (pushLog next1 (c_name c +++ "'s stats did not change."))
          else if andb changed (orDefault showEvent true) then
            Ok (pushLog next1 (c_name c +++ "'s stages: " +++ formatStages before
                               +++ " -> " +++ formatStages after))
          else Ok next1
      end
  | EvClearStages targetId showEvent _ =>
      match getActiveCreature next targetId with
      | None => Ok next
      | Some target =>
          let next1 := updActive next targetId (fun c => setStages c zeroStages) in
          if orDefault showEvent true then
            Ok (pushLog next1 (c_name target +++ "'s stages were cleared ("
                               +++ formatStages (c_stages target) +++ " -> "
                               +++ formatStages zeroStages +++ ")."))
          else Ok next1
      end
  | EvResetStages targetId showEvent _ =>
      match getActiveCreature next targetId with
      | None => Ok next
      | Some target =>
          let next1 := updActive next targetId (fun c => setStages c zeroStages) in
          if orDefault showEvent true then
            Ok (pushLog next1 (c_name target +++ "'s stages were reset ("
                               +++ formatStages (c_stages target) +++ " -> "
                               +++ formatStages zeroStages +++ ")."))
          else Ok next1
      end
  | EvDamage targetId amount _ =>
      match getActiveCreature next targetId with
      | None => Ok next
      | Some target =>
          let before := c_hp target in
          let after := Z.max 0 (before - amount) in
          let next1 :=
            pushLog (updActive next targetId (fun c => setHp c after))
              (c_name target +++ " took " +++ showZ amount +++ " damage ("
               +++ showZ before +++ " -> " +++ showZ after +++ ")") in
          if after =? 0 then
            let next2 := pushLog next1 (c_name target +++ " fainted!") in
            Ok (updActive
                  (updPlayer next2 targetId
                     (fun p => setLastFaintedAbility p (Some (c_ability target))))
                  targetId pushPendingSwitch)
          else Ok next1
      end
  | EvSelfSwitch targetId | EvForceSwitch targetId =>
      Ok (updActive next targetId pushPendingSwitch)
  end.

(** [applyEvents] (effects/index.js) *)
Fixpoint applyEvents (state : State) (events : list Event) : Res State :=
  match events with
  | [] => Ok state
  | ev :: rest =>
      resBind (applyEvent state ev) (fun next => applyEvents next rest)
  end.

(** ** The random source

    [rng] is a JavaScript closure; it is modelled by the stream of numbers it
    will return ([rng_src]), the number of draws made so far ([rng_pos]) and
    the list [rngRecorder] pushes every draw onto ([rng_log]). *)
Record RngSt : Type := mkRng {
  rng_src : nat -> Q;
  rng_pos : nat;
  rng_log : list Q
}.

(** Computations that draw random numbers and may throw. *)
Definition M (A : Type) : Type := RngSt -> Res (A * RngSt).

Definition ret {A} (a : A) : M A := fun r => Ok (a, r).

Definition bind {A B} (m : M A) (k : A -> M B) : M B :=
  fun r => resBind (m r) (fun ar => k (fst ar) (snd ar)).

Notation "x <- c1 ;; c2" := (bind c1 (fun x => c2))
  (at level 61, c1 at next level, right associativity).
Notation "' pat <- c1 ;; c2" := (bind c1 (fun x => match x with pat => c2 end))
  (at level 61, pat pattern, c1 at next level, right associativity).

Definition liftRes {A} (r : Res A) : M A :=
  fun g => resBind r (fun a => Ok (a, g)).

Definition throw {A} (err : string) : M A := fun _ => Throw err.

Definition timeout {A} : M A := fun _ => Timeout.

(** [rngRecorder()]: one draw, recorded. *)
Definition draw : M Q :=
  fun g =>
    let v := rng_src g (rng_pos g) in
    Ok (v, mkRng (rng_src g) (S (rng_pos g)) (rng_log g ++ [v])).

(** [for (const ev of events) next = applyEvent(next, ev)] inside [M]. *)
Definition applyEventsM (state : State) (events : list Event) : M State :=
  liftRes (applyEvents state events).

(** ** data/type_chart.js *)

Record ChartEntry : Type := mkChart {
  superEffective : list string;
  resists : list string;
  weakTo : list string
}.

(** [typeChart]: the table [rawTypes] after [normalizeList] (split on commas,
    trimmed, lower-cased; "None" is the empty list), keyed by lower-cased type. *)
Definition typeChart : JsObj ChartEntry :=
  [ ("normal", mkChart ["fighting"] [] ["fighting"]);
    ("fire", mkChart ["grass"; "ice"; "bug"; "steel"]
               ["grass"; "ice"; "bug"; "steel"; "fairy"] ["water"; "ground"; "rock"]);
    ("water", mkChart ["fire"; "ground"; "rock"] ["steel"; "fire"; "water"]
                ["electric"; "grass"]);
    ("electric", mkChart ["water"; "flying"] ["flying"; "steel"; "electric"] ["ground"]);
    ("grass", mkChart ["water"; "ground"; "rock"] ["ground"; "water"; "grass"]
                ["fire"; "ice"; "poison"; "flying"; "bug"]);
    ("ice", mkChart ["flying"; "ground"; "grass"; "dragon"] ["ice"]
              ["fire"; "fighting"; "rock"; "steel"]);
    ("fighting", mkChart ["normal"; "ice"; "rock"; "dark"; "steel"] ["rock"; "bug"; "dark"]
                   ["flying"; "psychic"; "fairy"]);
    ("poison", mkChart ["grass"; "fairy"] ["grass"; "fighting"; "poison"; "bug"]
                 ["ground"; "psychic"]);
    ("ground", mkChart ["fire"; "electric"; "poison"; "rock"; "steel"] ["poison"; "rock"]
                 ["water"; "grass"; "ice"]);
    ("flying", mkChart ["fighting"; "bug"; "grass"] ["fighting"; "bug"; "grass"]
                 ["electric"; "ice"; "rock"]);
    ("psychic", mkChart ["fighting"; "poison"] ["fighting"; "psychic"]
                  ["bug"; "ghost"; "dark"]);
    ("bug", mkChart ["grass"; "psychic"; "dark"] ["grass"; "fighting"; "ground"]
              ["fire"; "flying"; "rock"]);
    ("rock", mkChart ["flying"; "bug"; "fire"; "ice"] ["normal"; "flying"; "poison"; "fire"]
               ["water"; "grass"; "fighting"; "ground"; "steel"]);
    ("ghost", mkChart ["ghost"; "psychic"] ["poison"; "bug"] ["ghost"; "dark"]);
    ("dragon", mkChart ["dragon"] ["grass"; "fire"; "water"; "electric"]
                 ["ice"; "dragon"; "fairy"]);
    ("dark", mkChart ["ghost"; "psychic"] ["ghost"; "dark"] ["fighting"; "bug"; "fairy"]);
    ("steel", mkChart ["ice"; "rock"; "fairy"]
                ["normal"; "flying"; "rock"; "bug"; "steel"; "grass"; "psychic"; "ice";
                 "dragon"; "fairy"]
                ["fire"; "water"; "ground"]);
    ("fairy", mkChart ["fighting"; "dragon"; "dark"] ["fighting"; "bug"; "dark"]
                ["poison"; "steel"]) ].

Definition typeImmunities : JsObj (list string) :=
  [ ("normal", ["ghost"]);
    ("ghost", ["normal"; "fighting"]);
    ("steel", ["poison"]);
    ("flying", ["ground"]);
    ("dark", ["psychic"]);
    ("ground", ["electric"]);
    ("fairy", ["dragon"]) ].

(** The [for (const targetType of targets)] loop of [getTypeEffectiveness],
    with the multiplier accumulated so far. *)
Fixpoint typeLoop (moveKey : string) (targets : list string) (multiplier : Q) : Q :=
  match targets with
  | [] => multiplier
  | targetType :: rest =>
      if match objGet typeImmunities targetType with
         | Some imm => includes imm moveKey
         | None => false
         end
      then 0%Q
      else
        match objGet typeChart targetType with
        | None => typeLoop moveKey rest multiplier
        | Some chart =>
            let m1 := if includes (weakTo chart) moveKey then (multiplier * 2)%Q
                      else multiplier in
            let m2 := if includes (resists chart) moveKey then (m1 * (1 # 2))%Q else m1 in
            typeLoop moveKey rest m2
        end
  end.

Definition getTypeEffectiveness (moveType : option string) (targetTypes : list string) : Q :=
  match moveType with
  | None => 1%Q
  | Some t =>
      if String.eqb t "" then 1%Q
      else typeLoop (toLowerCase t) (map toLowerCase targetTypes) 1%Q
  end.

(** ** The engine proper, over the move table [data/moves] *)

Section Engine.

(** [moves]: the table of move definitions, keyed by move id. *)
Variable moves : JsObj Move.

(** [moves[id]]; an [undefined] id reads the property named "undefined". *)
Definition lookupMove (moveId : option string) : option Move :=
  objGet moves (showOptStr moveId).

(** *** abilities/index.js: state helpers *)

Definition flagTruthy (o : option AbilityFlag) : bool :=
  match o with
  | Some FlagTrue => true
  | Some (FlagStr s) => negb (String.eqb s "")
  | None => false
  end.

Definition abilityFlag (c : Creature) (key : string) : bool :=
  flagTruthy (objGet (c_abilityData c) key).

Definition markAbilityUsed (state : State) (playerId key : string) : State :=
  updActive state playerId
    (fun c => setAbilityData c (objSet (c_abilityData c) key FlagTrue)).

Definition setWeather (state : State) (id : string) (turns : option Z) : State :=
  setField state
    (mkField
       (filter (fun e => andb (negb (String.eqb (s_id e) "sun"))
                              (negb (String.eqb (s_id e) "rain")))
               (f_global (field state))
        ++ [mkStatus id turns emptyData])).

Definition BAN_COPY_ABILITIES : list string :=
  ["receiver"; "power_of_alchemy"; "trace"; "wonder_guard"; "forecast"; "flower_gift";
   "multitype"; "illusion"; "imposter"; "stance_change"; "power_construct"; "schooling";
   "comatose"; "shields_down"; "disguise"; "battle_bond"; "rk_system"; "ice_face";
   "gulp_missile"; "hung_switch"; "commander"; "quark_drive"; "protosynthesis"].

(** What a lifecycle handler returns: [{state, events, preventAction,
    overrideAction, eventTransforms}], every field optional. *)
Record Transform : Type := mkTransform {
  t_type : string;
  t_from : option string;
  t_targetId : option string;
  t_to : option (list Event);
  t_priority : option Q
}.

Record HookResult : Type := mkHookResult {
  hr_state : option State;
  hr_events : option (list Event);
  hr_preventAction : bool;
  hr_overrideAction : option Action;
  hr_eventTransforms : option (list Transform)
}.

Definition emptyResult : HookResult := mkHookResult None None false None None.

Definition stateEvents (s : State) (evs : list Event) : HookResult :=
  mkHookResult (Some s) (Some evs) false None None.

Definition onlyEvents (evs : list Event) : HookResult :=
  mkHookResult None (Some evs) false None None.

Definition modifyStageEvent (targetId : string) (stages : JsObj Z) (meta : Meta) : Event :=
  EvModifyStage targetId (Some stages) None None None meta.

Definition logEvent (message : string) : Event := EvLog message noMeta.

Definition copyFaintedAbility (state : State) (player : Player) (abilityId : string)
    : HookResult :=
  match p_lastFaintedAbility player with
  | None => emptyResult
  | Some last =>
      if String.eqb last "" then emptyResult
      else if orb (String.eqb last abilityId) (includes BAN_COPY_ABILITIES last)
      then emptyResult
      else
        match getActiveCreature state (p_id player) with
        | None => emptyResult
        | Some c =>
            if negb (String.eqb (c_ability c) abilityId) then emptyResult
            else
              stateEvents
                (updActive state (p_id player)
                   (fun c => setAbilityData (setAbility c last)
                               (objSet (c_abilityData c) "copiedAbility" (FlagStr last))))
                [logEvent (c_name c +++ " copied " +++ last +++ "!")]
        end
  end.

(** The lifecycle hook points. *)
Inductive Hook : Type :=
| OnSwitchIn
| OnBeforeAction
| OnTurnStart
| OnTurnEnd
| OnEventTransform.

Definition moodyStats : list string := ["atk"; "def"; "spa"; "spd"; "spe"].

(** [stats[Math.floor(rng() * stats.length)]] *)
Definition moodyPick : M (option string) :=
  r <- draw ;; ret (arrGet moodyStats (Qfloor (r * 5))).

(** [while (down === up) down = stats[...]]: [fuel] bounds the iterations. *)
Fixpoint moodyDown (fuel : nat) (up down : option string) : M (option string) :=
  if negb (optEqb String.eqb down up) then ret down
  else match fuel with
       | O => timeout
       | S fuel' => d <- moodyPick ;; moodyDown fuel' up d
       end.

(** The intimidate loop over [next.players]. *)
Definition intimidateEvents (next : State) (player : Player) : list Event :=
  flat_map
    (fun other =>
       if String.eqb (p_id other) (p_id player) then []
       else match getActiveCreature next (p_id other) with
            | None => []
            | Some _ =>
                if runAbilityCheckHook next (p_id other)
                     (OnImmunity (p_id player) "intimidate") false
                then []
                else [modifyStageEvent (p_id other) [("atk", -1)] (sourceMeta (p_id player))]
            end)
    (players next).

(** [registry[ability][hook]] for the lifecycle hooks an ability implements;
    [action] is the [ctx.action.action] of [onBeforeAction]. *)
Definition abilityHookHandler (fuel : nat) (ability : string) (hook : Hook)
    (state : State) (player : Player) (active : Creature) (action : option Action)
    : option (M HookResult) :=
  let ab := String.eqb ability in
  match hook with
  | OnSwitchIn =>
      if ab "intimidate" then Some (
        if abilityFlag active "intimidateUsed" then ret emptyResult
        else
          let next := markAbilityUsed state (p_id player) "intimidateUsed" in
          ret (stateEvents next (intimidateEvents next player)))
      else if ab "download" then Some (
        if abilityFlag active "downloadUsed" then ret emptyResult
        else
          match find (fun p => negb (String.eqb (p_id p) (p_id player))) (players state) with
          | None => ret emptyResult
          | Some targetPlayer =>
              match getActiveCreature state (p_id targetPlayer) with
              | None => ret emptyResult
              | Some target =>
                  let raise := if c_defense target <? c_spDefense target then "atk" else "spa" in
                  let next := markAbilityUsed state (p_id player) "downloadUsed" in
                  ret (stateEvents next
                         [modifyStageEvent (p_id player) [(raise, 1)] (sourceMeta (p_id player))])
              end
          end)
      else if ab "drought" then Some (
        if abilityFlag active "droughtUsed" then ret emptyResult
        else
          let next := markAbilityUsed state (p_id player) "droughtUsed" in
          let next := setWeather next "sun" (Some 5) in
          next <- liftRes (applyEvent next (logEvent "The sunlight turned harsh.")) ;;
          ret (stateEvents next []))
      else if ab "receiver" then Some (ret (copyFaintedAbility state player "receiver"))
      else if ab "power_of_alchemy" then
        Some (ret (copyFaintedAbility state player "power_of_alchemy"))
      else None
  | OnTurnEnd =>
      if ab "moody" then Some (
        up <- moodyPick ;;
        down <- moodyDown fuel up up ;;
        ret (onlyEvents
               [modifyStageEvent (p_id player)
                  (objSet [(showOptStr up, 2)] (showOptStr down) (-1))
                  (sourceMeta (p_id player))]))
      else None
  | OnBeforeAction =>
      if ab "libero" then Some (
        match lookupMove (match action with Some a => a_moveId a | None => None end) with
        | None => ret emptyResult
        | Some move =>
            match m_type move with
            | None => ret emptyResult
            | Some mtype =>
                if String.eqb mtype "" then ret emptyResult
                else if abilityFlag active "liberoUsed" then ret emptyResult
                else
                  match getActiveCreature state (p_id player) with
                  | None => ret emptyResult
                  | Some _ =>
                      ret (stateEvents
                             (updActive state (p_id player)
                                (fun c => setAbilityData (setTypes c [mtype])
                                            (objSet (c_abilityData c) "liberoUsed" FlagTrue)))
                             [logEvent (c_name active +++ " transformed into " +++ mtype
                                        +++ " type!")])
                  end
            end
        end)
      else None
  | OnTurnStart => None
  | OnEventTransform => None
  end.

(** The [{state, events, overrideAction, preventAction}] [runAbilityHooks],
    [runStatusHooks] and [runFieldHooks] return. *)
Record Hooked : Type := mkHooked {
  hk_state : State;
  hk_events : list Event;
  hk_preventAction : bool;
  hk_overrideAction : option Action;
  hk_eventTransforms : list Transform
}.

Definition unhooked (s : State) : Hooked := mkHooked s [] false None [].

(** [runAbilityHooks] *)
Definition runAbilityHooks (fuel : nat) (state : State) (playerId : string) (hook : Hook)
    (action : option Action) : M Hooked :=
  match findPlayer state playerId with
  | None => ret (unhooked state)
  | Some player =>
      match getActiveCreature state playerId with
      | None => ret (unhooked state)
      | Some active =>
          match abilityHookHandler fuel (c_ability active) hook state player active action with
          | None => ret (unhooked state)
          | Some handler =>
              result <- handler ;;
              ret (mkHooked (orDefault (hr_state result) state)
                            (orDefault (hr_events result) [])
                            (hr_preventAction result)
                            (hr_overrideAction result)
                            [])
          end
      end
  end.

(** [runAllAbilityHooks] *)
Fixpoint runAllAbilityHooksLoop (fuel : nat) (ps : list Player) (hook : Hook)
    (workingState : State) (events : list Event) : M (State * list Event) :=
  match ps with
  | [] => ret (workingState, events)
  | player :: rest =>
      result <- runAbilityHooks fuel workingState (p_id player) hook None ;;
      runAllAbilityHooksLoop fuel rest hook (hk_state result) (events ++ hk_events result)
  end.

Definition runAllAbilityHooks (fuel : nat) (state : State) (hook : Hook)
    : M (State * list Event) :=
  runAllAbilityHooksLoop fuel (players state) hook state [].

(** *** abilities/index.js: event interceptors and reactors *)

(** [{ ...event, targetId, meta }] *)
Definition retarget (e : Event) (t : string) (m : Meta) : Event :=
  match e with
  | EvDamage _ a _ => EvDamage t a m
  | EvApplyStatus _ sid d st da _ => EvApplyStatus t sid d st da m
  | EvRemoveStatus _ sid _ => EvRemoveStatus t sid m
  | EvCureAllStatus _ _ => EvCureAllStatus t m
  | EvReplaceStatus _ f to d da _ => EvReplaceStatus t f to d da m
  | EvModifyStage _ sg c f sh _ => EvModifyStage t sg c f sh m
  | EvClearStages _ sh _ => EvClearStages t sh m
  | EvResetStages _ sh _ => EvResetStages t sh m
  | other => other
  end.

Definition truthyStr (o : option string) : bool :=
  match o with Some s => negb (String.eqb s "") | None => false end.

Definition eventStages (e : Event) : JsObj Z :=
  match e with
  | EvModifyStage _ (Some sg) _ _ _ _ => sg
  | _ => []
  end.

Definition eventAmount (e : Event) : Z :=
  match e with EvDamage _ a _ => a | _ => 0 end.

(** [onlyPositiveStages] *)
Definition onlyPositiveStages (stages : JsObj Z) : JsObj Z :=
  filter (fun kv => 0 <? snd kv) stages.

(** [registry[ability].onTryHit]; the outer [option] is the presence of the
    handler, the inner one its [null] result. *)
Definition abilityOnTryHit (ability : string) (event : Event) (player : Player)
    (active : Creature) : option (option (list Event)) :=
  let meta := eventMeta event in
  if String.eqb ability "magic_bounce" then
    Some (
      match mt_source meta, eventTargetId event with
      | Some sourceId, Some targetId =>
          if andb (andb (isReflectableStatusEvent (eventType event))
                        (negb (String.eqb sourceId "")))
                  (andb (negb (String.eqb sourceId targetId))
                        (andb (negb (mt_bounced meta))
                              (isStatusMove (lookupMove (mt_moveId meta)))))
          then
            Some [ logEvent (c_name active +++ " bounced the move back!");
                   retarget event sourceId
                     (mkMeta (Some targetId) (mt_target meta) (mt_moveId meta)
                        (mt_cancellable meta) (mt_parentalBond meta) true (mt_ohko meta)
                        (mt_competitive meta) (mt_opportunist meta) (mt_from meta)) ]
          else None
      | _, _ => None
      end)
  else if String.eqb ability "lightning_rod" then
    Some (
      if andb (String.eqb (eventType event) "damage")
              (moveTypeIs (lookupMove (mt_moveId meta)) "electric")
      then Some [ modifyStageEvent (p_id player) [("spa", 1)] (sourceMeta (p_id player));
                  logEvent (c_name active +++ " drew in the electricity!") ]
      else None)
  else None.

Definition isDamageOn (event : Event) (playerId : string) : bool :=
  andb (String.eqb (eventType event) "damage")
       (optEqb String.eqb (eventTargetId event) (Some playerId)).

(** [registry[ability].onAfterEvent] *)
Definition abilityOnAfterEvent (ability : string) (state : State) (event : Event)
    (player : Player) (active : Creature) : option (option (list Event)) :=
  let meta := eventMeta event in
  let me := p_id player in
  if String.eqb ability "stamina" then
    Some (if isDamageOn event me
          then Some [modifyStageEvent me [("def", 1)] (sourceMeta me)]
          else None)
  else if String.eqb ability "cotton_down" then
    Some (if isDamageOn event me
          then Some (flat_map
                       (fun other =>
                          if String.eqb (p_id other) me then []
                          else [modifyStageEvent (p_id other) [("spe", -1)] (sourceMeta me)])
                       (players state))
          else None)
  else if String.eqb ability "berserk" then
    Some (if andb (isDamageOn event me)
                  (andb (c_maxHp active <? 2 * c_hp active)
                        (2 * (c_hp active - eventAmount event) <=? c_maxHp active))
          then Some [modifyStageEvent me [("spa", 1)] (sourceMeta me)]
          else None)
  else if String.eqb ability "competitive" then
    Some (if andb (andb (String.eqb (eventType event) "modify_stage")
                        (optEqb String.eqb (eventTargetId event) (Some me)))
                  (andb (truthyStr (mt_source meta))
                        (andb (negb (optEqb String.eqb (mt_source meta) (Some me)))
                              (negb (mt_competitive meta))))
          then
            if existsb (fun kv => snd kv <? 0) (eventStages event)
            then Some [modifyStageEvent me [("spa", 2)]
                         (mkMeta (Some me) None None false false false false true false None)]
            else None
          else None)
  else if String.eqb ability "opportunist" then
    Some (if andb (String.eqb (eventType event) "modify_stage")
                  (andb (negb (optEqb String.eqb (eventTargetId event) (Some me)))
                        (negb (mt_opportunist meta)))
          then
            let boosts := onlyPositiveStages (eventStages event) in
            if Nat.ltb 0 (List.length boosts)
            then Some [modifyStageEvent me boosts
                         (mkMeta (Some me) None None false false false false false true None)]
            else None
          else None)
  else None.

(** The reactor pass over [state.players] for one processed event. *)
Definition reactions (state : State) (processedEv : Event) : list Event :=
  flat_map
    (fun player =>
       match getActiveCreature state (p_id player) with
       | None => []
       | Some active =>
           match abilityOnAfterEvent (c_ability active) state processedEv player active with
           | Some (Some evs) => evs
           | _ => []
           end
       end)
    (players state).

(** The interceptor step: [currentEvents] for one raw event. *)
Definition intercept (state : State) (ev : Event) : list Event :=
  match eventTargetId ev with
  | Some targetId =>
      if String.eqb targetId "" then [ev]
      else
        match findPlayer state targetId, getActiveCreature state targetId with
        | Some targetPlayer, Some targetCreature =>
            match abilityOnTryHit (c_ability targetCreature) ev targetPlayer targetCreature with
            | Some (Some replacement) => replacement
            | _ => [ev]
            end
        | _, _ => [ev]
        end
  | None => [ev]
  end.

(** [applyAbilityEventModifiers] *)
Definition applyAbilityEventModifiers (state : State) (events : list Event) : list Event :=
  flat_map
    (fun ev =>
       flat_map (fun processedEv => processedEv :: reactions state processedEv)
                (intercept state ev))
    events.

(** *** effects/index.js: helpers of the effect compiler *)

(** The compiler context [ctx]; [ctx.rng] is the monad [M]. *)
Record Ctx : Type := mkCtx {
  attacker : option Creature;
  target : option Creature;
  move : option Move;
  attackerPlayerId : string;
  targetPlayerId : string;
  ctx_turn : option Z;
  parentalBondHit : bool
}.

(** [ctxWithTurn.turn = ctx.turn ?? state.turn ?? 0] *)
Definition turnOf (state : State) (ctx : Ctx) : Z :=
  orDefault (ctx_turn ctx) (turn state).

Definition currentCreature (state : State) (playerId : string) : option Creature :=
  match findPlayer state playerId with
  | Some player => arrGet (p_team player) (p_activeSlot player)
  | None => None
  end.

Definition resolveTarget (target : option string) (ctx : Ctx) : string :=
  match target with
  | Some t => if String.eqb t "self" then attackerPlayerId ctx else targetPlayerId ctx
  | None => targetPlayerId ctx
  end.

Definition isItemStatus (statusId : string) : bool :=
  orb (String.eqb statusId "item") (String.eqb statusId "berry").

Definition hasItem (creature : option Creature) : bool :=
  match creature with
  | None => false
  | Some c =>
      if truthyStr (c_item c) then true
      else existsb (fun s => isItemStatus (s_id s)) (c_statuses c)
  end.

Definition getItemId (creature : option Creature) : option string :=
  match creature with
  | None => None
  | Some c =>
      if truthyStr (c_item c) then c_item c
      else match find (fun s => isItemStatus (s_id s)) (c_statuses c) with
           | Some status =>
               match d_itemId (sd_fields (s_data status)) with
               | Some i => Some i
               | None => Some (s_id status)
               end
           | None => None
           end
  end.

Definition itemData (itemId : string) : StatusData :=
  mkStatusData (mkDataFields (Some itemId) None None None None None None None) None.

Definition setItemStatus (c : Creature) (itemId : string) : Creature :=
  let statusObj := mkStatus "item" None (itemData itemId) in
  let c1 := setItem c (Some itemId) in
  match findIndex (fun s => isItemStatus (s_id s)) (c_statuses c) with
  | Some i => setStatuses c1 (updNat (c_statuses c) i (fun _ => statusObj))
  | None => setStatuses c1 (c_statuses c ++ [statusObj])
  end.

Definition clearItemStatus (c : Creature) : Creature :=
  setStatuses (setItem c None)
    (filter (fun s => negb (isItemStatus (s_id s))) (c_statuses c)).

Definition getMoveCategory (m : option Move) : string :=
  match moveCategoryField m with
  | Some c => c
  | None => if existsb isDamageEffect (moveEffects m) then "physical" else "status"
  end.

Definition moveId_ (m : option Move) : option string :=
  match m with Some mv => Some (m_id mv) | None => None end.

Definition moveType_ (m : option Move) : option string :=
  match m with Some mv => m_type mv | None => None end.

Definition moveName_ (m : option Move) : option string :=
  match m with Some mv => Some (m_name mv) | None => None end.

Definition computeSpeed (state : State) (playerId : string) (turn : Z) : Q :=
  match currentCreature state playerId with
  | None => 0%Q
  | Some creature =>
      let stage := stageOr0 (c_stages creature) "spe" in
      let speed := (Qof (c_speed creature) * stageMultiplier (Some stage))%Q in
      runAbilityValueHook state playerId (OnModifySpeed (getWeather state) (Some turn)) speed
  end.

Definition modifyMovePower (basePower : Q) (state : State) (attacker target : Creature)
    (ctx : Ctx) : Q :=
  let power :=
    runAbilityValueHook state (attackerPlayerId ctx)
      (OnModifyPower (move ctx) (getMoveCategory (move ctx)) (Some target)) basePower in
  if negb (String.eqb (targetPlayerId ctx) "") then
    runAbilityValueHook state (targetPlayerId ctx)
      (OnDefensivePower (move ctx) (getMoveCategory (move ctx)) (Some attacker)) power
  else power.

Definition resolveOffenseDefense (state : State) (attacker target : Creature)
    (category : string) (ctx : Ctx) (isCritical : bool) : Q * Q :=
  let special := String.eqb category "special" in
  let offense := if special then c_spAttack attacker else c_attack attacker in
  let defense := if special then c_spDefense target else c_defense target in
  let offenseStageKey := if special then "spa" else "atk" in
  let defenseStageKey := if special then "spd" else "def" in
  let atkStage := stageOr0 (c_stages attacker) offenseStageKey in
  let defStage := stageOr0 (c_stages target) defenseStageKey in
  let defStage := if String.eqb (c_ability attacker) "unaware" then 0 else defStage in
  let atkStage := if String.eqb (c_ability target) "unaware" then 0 else atkStage in
  let atkStage := if isCritical then Z.max 0 atkStage else atkStage in
  let defStage := if isCritical then Z.min 0 defStage else defStage in
  let atk := (Qof offense * stageMultiplier (Some atkStage))%Q in
  let def := Qmaxq 1 (Qof defense * stageMultiplier (Some defStage))%Q in
  let atk := runAbilityValueHook state (attackerPlayerId ctx)
               (OnModifyOffense category (Some (turnOf state ctx))) atk in
  let def := runAbilityValueHook state (targetPlayerId ctx)
               (OnModifyDefense category (Some (turnOf state ctx))) def in
  (atk, def).

(** The crit stage of [rollCritical]: [move.critRate] through the
    [onModifyCritChance] hook. *)
Definition critStageOf (state : State) (target : Creature) (ctx : Ctx) : Q :=
  let critStage :=
    match move ctx with
    | Some mv => match m_critRate mv with Some r => Qof r | None => 0%Q end
    | None => 0%Q
    end in
  runAbilityValueHook state (attackerPlayerId ctx) (OnModifyCritChance (Some target))
    critStage.

(** [chance >= 1 ? true : roll < chance] for the chance of a crit stage. *)
Definition isCritRoll (critStage roll : Q) : bool :=
  let chance := if Qeq_bool critStage 1 then (1 # 8)%Q
                else if Qeq_bool critStage 2 then (1 # 2)%Q else 1%Q in
  if Qle_bool 1 chance then true else Qltb roll chance.

(** [rollCritical]: the roll is drawn only when the crit stage is positive
    (and never for the Parental Bond follow-up hit). *)
Definition rollCritical (state : State) (attacker target : Creature) (ctx : Ctx) : M bool :=
  if parentalBondHit ctx then ret false
  else
    let critStage := critStageOf state target ctx in
    if Qle_bool critStage 0 then ret false
    else
      roll <- draw ;;
      ret (isCritRoll critStage roll).

Definition randomRange : Q * Q := ((17 # 20)%Q, 1%Q).

(** The arithmetic of [calcDamage] once the crit flag and the damage roll
    [r] are known (the type effectiveness is not 0 here).  [raw] is the exact
    rational; the engine floors the product of doubles, which differs by one
    when rounding puts it on the other side of an integer. *)
Definition damageFormula (power : option Q) (att tgt : Creature) (state : State) (ctx : Ctx)
    (crit : bool) (r : Q) : Z :=
  let category := getMoveCategory (move ctx) in
  let movePower := modifyMovePower (orDefault power 0%Q) state att tgt ctx in
  let level := c_level att in
  let stab := if match moveType_ (move ctx) with
                 | Some t => includes (c_types att) t
                 | None => false
                 end then (3 # 2)%Q else 1%Q in
  let typeEffectiveness := getTypeEffectiveness (moveType_ (move ctx)) (c_types tgt) in
  let '(atk, def) := resolveOffenseDefense state att tgt category ctx crit in
  let base := ((((Qof level * 2) / 5 + 2) * movePower * atk) / def / 50 + 2)%Q in
  let roll := (fst randomRange + (snd randomRange - fst randomRange) * r)%Q in
  let raw := (base * roll * (if crit then 3 # 2 else 1) * stab * typeEffectiveness)%Q in
  Z.max 1 (Qfloor raw).

Definition calcDamage (power : option Q) (attacker target : option Creature)
    (state : State) (ctx : Ctx) : M Z :=
  match attacker, target with
  | Some att, Some tgt =>
      crit <- rollCritical state att tgt ctx ;;
      if Qeq_bool (getTypeEffectiveness (moveType_ (move ctx)) (c_types tgt)) 0 then ret 0
      else
        r <- draw ;;
        ret (damageFormula power att tgt state ctx crit r)
  | _, _ => ret 0
  end.

Definition fieldHasAnyStatus (state : State) (ids : list string) : bool :=
  existsb (fun e => includes ids (s_id e)) (f_global (field state)).

Definition evaluateCondition (state : State) (cond : Condition) (ctx : Ctx) : bool :=
  match cond with
  | CTargetHasStatus statusId =>
      let target := currentCreature state (targetPlayerId ctx) in
      if andb (isItemStatus statusId) (hasItem target) then true
      else match target with Some t => hasStatus t statusId | None => false end
  | CTargetHpLt value =>
      match currentCreature state (targetPlayerId ctx) with
      | None => false
      | Some t =>
          if c_maxHp t =? 0 then c_hp t <? 0
          else Qltb (Qof (c_hp t) / Qof (c_maxHp t))%Q (orDefault value 0%Q)
      end
  | CFieldHasStatus statusId =>
      existsb (fun e => String.eqb (s_id e) statusId) (f_global (field state))
  | CWeatherIsSunny => fieldHasAnyStatus state ["sunny_weather"; "sunny_day"; "sun"]
  | CWeatherIsRaining => fieldHasAnyStatus state ["rain"; "rainy_weather"; "rain_dance"]
  | CWeatherIsHail => fieldHasAnyStatus state ["hail"; "hail_weather"; "snow"]
  | CWeatherIsSandstorm => fieldHasAnyStatus state ["sandstorm"; "sandstorm_weather"]
  | CUserType typeId =>
      match attacker ctx with Some a => includes (c_types a) typeId | None => false end
  | CUserHasStatus statusId =>
      match currentCreature state (attackerPlayerId ctx) with
      | Some a => hasStatus a statusId
      | None => false
      end
  | CTargetHasItem => hasItem (currentCreature state (targetPlayerId ctx))
  | CUserHasItem => hasItem (currentCreature state (attackerPlayerId ctx))
  | COther => false
  end.

(** [passesChance] *)
Definition passesChance (chance : option Q) : M bool :=
  match chance with
  | None => ret true
  | Some c => r <- draw ;; ret (Qle_bool r c)
  end.

(** *** effects/index.js: [applyEffect], one definition per [case]

    [applyEffect] returns the events it built; where the JavaScript also
    writes to the creature objects of [state] in place (protect counter, held
    items), the written state is returned next to the events. *)

Definition Built : Type := (list Event * State)%type.

Definition built (evs : list Event) (s : State) : M Built := ret (evs, s).

(** [ctx.attacker.name]: a [TypeError] when [ctx.attacker] is missing. *)
Definition attackerName (ctx : Ctx) : M string :=
  match attacker ctx with
  | Some a => ret (c_name a)
  | None => throw typeErrorName
  end.

Definition ctxMeta (ctx : Ctx) : Meta :=
  moveMeta (moveId_ (move ctx)) (attackerPlayerId ctx).

(** [for (let i = 0; i < successCount; i++) chance *= 0.5] *)
Fixpoint halve (n : nat) (chance : Q) : Q :=
  match n with
  | O => chance
  | S k => halve k (chance * (1 # 2))%Q
  end.

Definition setProtectCount (c : Creature) (n : Z) : Creature :=
  setVolatileData c (mkVolatile (Some n) (lastMove (c_volatileData c))).

(** [case "protect"] *)
Definition fxProtect (state : State) (ctx : Ctx) : M Built :=
  match currentCreature state (attackerPlayerId ctx) with
  | None => built [] state
  | Some attackerCreature =>
      let successCount :=
        orDefault (protectSuccessCount (c_volatileData attackerCreature)) 0 in
      let chance := halve (Z.to_nat successCount) 1%Q in
      r <- draw ;;
      if Qgtb r chance then
        name <- attackerName ctx ;;
        built [logEvent (name +++ "'s protect failed!")]
              (updActive state (attackerPlayerId ctx) (fun c => setProtectCount c 0))
      else
        built [EvApplyStatus (attackerPlayerId ctx) "protect" (Some 1) None None
                 (ctxMeta ctx)]
              (updActive state (attackerPlayerId ctx)
                 (fun c => setProtectCount c (successCount + 1)))
  end.

(** [case "damage"] *)
Definition fxDamage (state : State) (power accuracy : option Q) (name : option string)
    (ctx : Ctx) : M Built :=
  let attackerCreature := currentCreature state (attackerPlayerId ctx) in
  let targetCreature := currentCreature state (targetPlayerId ctx) in
  let category := getMoveCategory (move ctx) in
  let accuracy :=
    runAbilityValueHook state (attackerPlayerId ctx)
      (OnModifyAccuracy (move ctx) category targetCreature) (orDefault accuracy 1%Q) in
  r <- draw ;;
  if Qgtb r accuracy then
    an <- attackerName ctx ;;
    match move ctx with
    | None => throw typeErrorName
    | Some mv =>
        built [EvLog (an +++ "'s " +++ m_name mv +++ " missed!") (ctxMeta ctx)] state
    end
  else
    amount <- calcDamage power attackerCreature targetCreature state ctx ;;
    let attackerName := match attacker ctx with Some a => c_name a | None => "Unknown" end in
    let moveName := orDefault (moveName_ (move ctx)) (orDefault name "move") in
    let events :=
      [ EvLog (attackerName +++ " used " +++ moveName +++ "!") (ctxMeta ctx);
        EvDamage (targetPlayerId ctx) amount
          (damageMeta (attackerPlayerId ctx) (targetPlayerId ctx) (moveId_ (move ctx))
             false false) ] in
    if match attackerCreature with
       | Some a => String.eqb (c_ability a) "parental_bond"
       | None => false
       end
    then
      let secondPower := (orDefault power 0 * (1 # 4))%Q in
      secondAmount <-
        calcDamage (Some secondPower) attackerCreature targetCreature state
          (mkCtx (attacker ctx) (target ctx) (move ctx) (attackerPlayerId ctx)
             (targetPlayerId ctx) (ctx_turn ctx) true) ;;
      built (events ++
             [EvDamage (targetPlayerId ctx) secondAmount
                (damageMeta (attackerPlayerId ctx) (targetPlayerId ctx)
                   (moveId_ (move ctx)) true false)])
            state
    else built events state.

(** A stable sort, as [Array.prototype.sort] is: [before a b] says that [a]
    may stay in front of [b] (the comparator is not positive). *)
Fixpoint insertSorted {A} (before : A -> A -> bool) (x : A) (l : list A) : list A :=
  match l with
  | [] => [x]
  | y :: r => if before x y then x :: y :: r else y :: insertSorted before x r
  end.

Definition stableSort {A} (before : A -> A -> bool) (l : list A) : list A :=
  fold_right (insertSorted before) [] l.

Definition thRatio (t : Threshold) : Q := orDefault (th_ratio t) 0%Q.

(** [case "speed_based_damage"]: the power handed to the damage case. *)
Definition chosenPower (state : State) (thresholds : list Threshold) (basePower : option Q)
    (ctx : Ctx) : Q :=
  let attackerSpeed := computeSpeed state (attackerPlayerId ctx) (turnOf state ctx) in
  let targetSpeed := computeSpeed state (targetPlayerId ctx) (turnOf state ctx) in
  (* [ratio]: [None] is [Infinity] *)
  let ratio := if Qle_bool targetSpeed 0 then None
               else Some (attackerSpeed / targetSpeed)%Q in
  let sorted := stableSort (fun a b => Qle_bool (thRatio b) (thRatio a)) thresholds in
  let initial :=
    match basePower with
    | Some p => p
    | None => match last (map Some sorted) None with
              | Some t => orDefault (th_power t) 0%Q
              | None => 0%Q
              end
    end in
  match find (fun t => match ratio with
                       | None => true
                       | Some r => Qle_bool (thRatio t) r
                       end) sorted with
  | Some t => orDefault (th_power t) initial
  | None => initial
  end.

(** [case "apply_status"] *)
Definition fxApplyStatus (state : State) (statusId : string) (target : option string)
    (chance : option Q) (duration : option NumOrRange) (stack : option bool)
    (data : option DataFields) (ctx : Ctx) : M Built :=
  if isItemStatus statusId then
    let targetId := resolveTarget target ctx in
    match currentCreature state targetId with
    | None => built [] state
    | Some tgt =>
        let itemId :=
          match data with
          | Some d => orDefault (d_itemId d) statusId
          | None => statusId
          end in
        let giver := match attacker ctx with Some a => c_name a | None => "Someone" end in
        built [EvLog (giver +++ " gave " +++ itemId +++ " to " +++ c_name tgt +++ ".")
                 (ctxMeta ctx)]
              (updActive state targetId (fun c => setItemStatus c itemId))
    end
  else
    ok <- passesChance chance ;;
    if negb ok then
      an <- attackerName ctx ;;
      built [EvLog (an +++ "'s " +++ statusId +++ " failed to apply.") (ctxMeta ctx)] state
    else
      let targetId := resolveTarget target ctx in
      dur <- match duration with
             | None => ret None
             | Some (Num n) => ret (Some n)
             | Some (Range min max) =>
                 r <- draw ;;
                 ret (Some (min + Qfloor (r * Qof (max - min + 1))))
             end ;;
      let d := orDefault data noData in
      let d :=
        if optEqb String.eqb (d_sourceId d) (Some "self") then
          mkDataFields (d_itemId d) (d_moveId d) (d_mode d) (Some (attackerPlayerId ctx))
            (d_targetId d) (d_timing d) (d_turns d) (d_triggerTurn d)
        else d in
      built [EvApplyStatus targetId statusId dur (Some (orDefault stack false))
               (Some (mkStatusData d None)) (ctxMeta ctx)]
            state.

(** [case "ohko"] *)
Definition fxOhko (state : State) (spec : OhkoSpec) (ctx : Ctx) : M Built :=
  match currentCreature state (attackerPlayerId ctx),
        currentCreature state (targetPlayerId ctx) with
  | Some att, Some tgt =>
      let moveName := orDefault (moveName_ (move ctx)) "The move" in
      let noEffect :=
        built [EvLog (moveName +++ " doesn't affect " +++ c_name tgt +++ "!") (ctxMeta ctx)]
              state in
      if andb (andb (orDefault (oh_respectTypeImmunity spec) true)
                    (truthyStr (moveType_ (move ctx))))
              (Qeq_bool (getTypeEffectiveness (moveType_ (move ctx)) (c_types tgt)) 0)
      then noEffect
      else if match oh_immuneTypes spec with
              | Some imm => existsb (fun t => includes imm t) (c_types tgt)
              | None => false
              end
      then noEffect
      else
        let attackerLevel := c_level att in
        let targetLevel := c_level tgt in
        if andb (negb (optEqb Bool.eqb (oh_failIfTargetHigherLevel spec) (Some false)))
                (attackerLevel <? targetLevel)
        then
          built [EvLog (moveName +++ " failed against the higher-level target.")
                   (ctxMeta ctx)] state
        else
          let baseAccuracy :=
            match oh_requiredType spec, oh_nonMatchingTypeAccuracy spec with
            | Some rt, Some nm =>
                if andb (negb (String.eqb rt "")) (negb (includes (c_types att) rt))
                then nm else orDefault (oh_baseAccuracy spec) (3 # 10)%Q
            | _, _ => orDefault (oh_baseAccuracy spec) (3 # 10)%Q
            end in
          let accuracy :=
            if negb (optEqb Bool.eqb (oh_levelScaling spec) (Some false))
            then (baseAccuracy + Qof (attackerLevel - targetLevel) / 100)%Q
            else baseAccuracy in
          let accuracy := Qmaxq 0 (Qminq 1 accuracy) in
          let category := getMoveCategory (move ctx) in
          let accuracy :=
            runAbilityValueHook state (attackerPlayerId ctx)
              (OnModifyAccuracy (move ctx) category (Some tgt)) accuracy in
          r <- draw ;;
          if Qgtb r accuracy then
            built [EvLog (c_name att +++ "'s " +++ orDefault (moveName_ (move ctx)) "OHKO move"
                          +++ " missed!") (ctxMeta ctx)] state
          else
            built [ EvLog (c_name att +++ " used "
                           +++ orDefault (moveName_ (move ctx)) "an OHKO move" +++ "!")
                      (ctxMeta ctx);
                    EvDamage (targetPlayerId ctx) (c_hp tgt)
                      (damageMeta (attackerPlayerId ctx) (targetPlayerId ctx)
                         (moveId_ (move ctx)) false true) ]
                  state
  | _, _ => built [] state
  end.

(** [case "remove_status"] *)
Definition fxRemoveStatus (state : State) (statusId : string) (target : option string)
    (ctx : Ctx) : M Built :=
  let targetId := resolveTarget target ctx in
  if isItemStatus statusId then
    match currentCreature state targetId with
    | None => built [] state
    | Some tgt =>
        let remover := match attacker ctx with Some a => c_name a | None => "Someone" end in
        built [EvLog (remover +++ " removed the held item from " +++ c_name tgt +++ ".")
                 (ctxMeta ctx)]
              (updActive state targetId clearItemStatus)
    end
  else built [EvRemoveStatus targetId statusId (ctxMeta ctx)] state.

(** [case "damage_ratio"].  The product [maxHp * ratioMaxHp] is the exact
    rational; the engine floors the product of doubles, which differs by
    one when rounding puts the double product on the other side of an integer
    (100 * 0.29: 28 in the engine, 29 here).  A product that is not positive
    is not positive in both. *)
Definition fxDamageRatio (state : State) (ratioMaxHp : option Q) (target : option string)
    (ctx : Ctx) : M Built :=
  let targetId := resolveTarget target ctx in
  match currentCreature state targetId with
  | None => built [] state
  | Some tgt =>
      let amount := Z.max 1 (Qfloor (Qof (c_maxHp tgt) * orDefault ratioMaxHp 0)%Q) in
      built [EvDamage targetId amount
               (damageMeta (attackerPlayerId ctx) targetId (moveId_ (move ctx)) false false)]
            state
  end.

(** [case "delay"] *)
Definition fxDelay (state : State) (afterTurns : option Z) (timing : option string)
    (effects : option (list Effect)) (target : option string) (ctx : Ctx) : M Built :=
  let targetId := resolveTarget target ctx in
  built [EvApplyStatus targetId "delayed_effect" (Some (orDefault afterTurns 0 + 1)) None
           (Some (mkStatusData
                    (mkDataFields None None None (Some (attackerPlayerId ctx)) (Some targetId)
                       (Some (orDefault timing "turn_end")) None
                       (Some (turnOf state ctx + orDefault afterTurns 0)))
                    (Some (orDefault effects []))))
           (ctxMeta ctx)]
        state.

(** [case "over_time"] *)
Definition fxOverTime (state : State) (duration : option Z) (timing : option string)
    (effects : option (list Effect)) (target : option string) (ctx : Ctx) : M Built :=
  let targetId := resolveTarget target ctx in
  built [EvApplyStatus targetId "over_time_effect" duration None
           (Some (mkStatusData
                    (mkDataFields None None None (Some (attackerPlayerId ctx)) (Some targetId)
                       (Some (orDefault timing "turn_end")) None None)
                    (Some (orDefault effects []))))
           (ctxMeta ctx)]
        state.

(** [case "apply_item"], [case "remove_item"], [case "consume_item"] *)
Definition fxApplyItem (state : State) (target itemId : option string) (ctx : Ctx)
    : M Built :=
  let targetId := resolveTarget target ctx in
  match currentCreature state targetId with
  | None => built [] state
  | Some tgt =>
      let item := orDefault itemId "item" in
      built [EvLog (c_name tgt +++ " received " +++ item +++ ".") (ctxMeta ctx)]
            (updActive state targetId (fun c => setItemStatus c item))
  end.

Definition fxRemoveItem (state : State) (target : option string) (ctx : Ctx) : M Built :=
  let targetId := resolveTarget target ctx in
  match currentCreature state targetId with
  | None => built [] state
  | Some tgt =>
      built [EvLog (if hasItem (Some tgt) then c_name tgt +++ "'s item was removed!"
                    else c_name tgt +++ " has no item.") (ctxMeta ctx)]
            (updActive state targetId clearItemStatus)
  end.

Definition berryConsumed : Status := mkStatus "berry_consumed" None emptyData.

Definition consumesBerry (itemId : option string) : bool :=
  match itemId with
  | Some i => andb (negb (String.eqb i "")) (strIncludes i "berry")
  | None => false
  end.

Definition fxConsumeItem (state : State) (target : option string) (markBerryConsumed : bool)
    (ctx : Ctx) : M Built :=
  let targetId := resolveTarget target ctx in
  match currentCreature state targetId with
  | None => built [] state
  | Some tgt =>
      if negb (hasItem (Some tgt)) then
        built [EvLog (c_name tgt +++ " has no item to consume.") (ctxMeta ctx)] state
      else
        let itemId := getItemId (Some tgt) in
        let mark := orb markBerryConsumed (consumesBerry itemId) in
        built [EvLog (c_name tgt +++ " consumed its " +++ orDefault itemId "item" +++ "!")
                 (ctxMeta ctx)]
              (updActive state targetId
                 (fun c => let c1 := clearItemStatus c in
                           if mark then setStatuses c1 (c_statuses c1 ++ [berryConsumed])
                           else c1))
  end.

(** The cases that lower one effect to one event. *)
Definition fxDirect (state : State) (effect : Effect) (ctx : Ctx) : list Event :=
  let meta := ctxMeta ctx in
  match effect with
  | FxApplyFieldStatus statusId duration stack data =>
      [EvApplyFieldStatus statusId duration (Some (orDefault stack false))
         (Some (mkStatusData (orDefault data noData) None)) meta]
  | FxRemoveFieldStatus statusId => [EvRemoveFieldStatus statusId meta]
  | FxLog message => if String.eqb message "" then [] else [EvLog message meta]
  | FxCureAllStatus target => [EvCureAllStatus (resolveTarget target ctx) meta]
  | FxReplaceStatus target from to duration data =>
      [EvReplaceStatus (resolveTarget target ctx) from to duration
         (match data with Some d => Some (mkStatusData d None) | None => None end) meta]
  | FxModifyStage target stages clamp fail_if_no_change show_event =>
      [EvModifyStage (resolveTarget target ctx) (Some (orDefault stages []))
         (Some (orDefault clamp true)) (Some (orDefault fail_if_no_change false))
         (Some (orDefault show_event true)) meta]
  | FxClearStages target show_event =>
      [EvClearStages (resolveTarget target ctx) (Some (orDefault show_event true)) meta]
  | FxResetStages target show_event =>
      [EvResetStages (resolveTarget target ctx) (Some (orDefault show_event true)) meta]
  | FxDisableMove target duration moveId =>
      [EvApplyStatus (resolveTarget target ctx) "disable_move" duration None
         (Some (mkStatusData
                  (mkDataFields None moveId None None None None None None) None)) meta]
  | FxRandomMove pool => [EvRandomMove (Some (orDefault pool "all")) meta]
  | FxSelfSwitch => [EvSelfSwitch (attackerPlayerId ctx)]
  | FxForceSwitch target => [EvForceSwitch (resolveTarget target ctx)]
  | _ => []
  end.

(** The [for (let i = 0; i < times; i += 1)] loop of the repeat case. *)
Fixpoint repeatLoop (n : nat) (body : State -> M Built) (state : State)
    (collected : list Event) : M Built :=
  match n with
  | O => built collected state
  | S k =>
      '(evs, state1) <- body state ;;
      repeatLoop k body state1 (collected ++ evs)
  end.

(** [times]: the resolved repeat count of [case "repeat"]. *)
Definition repeatTimes (state : State) (times : option NumOrRange) (ctx : Ctx) : M Z :=
  match times with
  | None => ret 1
  | Some (Num n) => ret n
  | Some (Range min max) =>
      if runAbilityCheckHook state (attackerPlayerId ctx) OnSkillLink false then ret max
      else
        r <- draw ;;
        ret (min + Qfloor (r * Qof (max - min + 1)))
  end.

(** [applyEffect], with [applyEffects(state, effects, ctx, true)] as its
    local loop over a nested effect list. *)
Fixpoint applyEffect (state : State) (effect : Effect) (ctx : Ctx) {struct effect}
    : M Built :=
  let applyEffectsOf :=
    fix go (effects : list Effect) (state : State) {struct effects} : M Built :=
      match effects with
      | [] => built [] state
      | eff :: rest =>
          '(evs1, state1) <- applyEffect state eff ctx ;;
          '(evs2, state2) <- go rest state1 ;;
          built (evs1 ++ evs2) state2
      end in
  match effect with
  | FxProtect => fxProtect state ctx
  | FxDamage power accuracy name => fxDamage state power accuracy name ctx
  | FxSpeedBasedDamage thresholds basePower accuracy =>
      fxDamage state (Some (chosenPower state thresholds basePower ctx))
        (Some (orDefault accuracy 1%Q)) None ctx
  | FxApplyStatus statusId target chance duration stack data =>
      fxApplyStatus state statusId target chance duration stack data ctx
  | FxOhko spec => fxOhko state spec ctx
  | FxRemoveStatus statusId target => fxRemoveStatus state statusId target ctx
  | FxChance p thenFx elseFx =>
      roll <- draw ;;
      if Qle_bool roll (orDefault p 0%Q) then
        match thenFx with
        | Some l => applyEffectsOf l state
        | None => built [] state
        end
      else
        match elseFx with
        | Some l => applyEffectsOf l state
        | None => built [] state
        end
  | FxRepeat times effects =>
      n <- repeatTimes state times ctx ;;
      '(collected, state1) <-
        repeatLoop (Z.to_nat n)
          (match effects with
           | Some l => applyEffectsOf l
           | None => built []
           end) state [] ;;
      if 1 <? n
      then built (collected ++ [logEvent ("Hit " +++ showZ n +++ " time(s)!")]) state1
      else built collected state1
  | FxConditional cond thenFx elseFx =>
      match (if evaluateCondition state cond ctx then thenFx else elseFx) with
      | Some l => applyEffectsOf l state
      | None => built [] state
      end
  | FxDamageRatio ratioMaxHp target => fxDamageRatio state ratioMaxHp target ctx
  | FxDelay afterTurns timing effects target =>
      fxDelay state afterTurns timing effects target ctx
  | FxOverTime duration timing effects target =>
      fxOverTime state duration timing effects target ctx
  | FxApplyItem target itemId => fxApplyItem state target itemId ctx
  | FxRemoveItem target => fxRemoveItem state target ctx
  | FxConsumeItem target markBerryConsumed =>
      fxConsumeItem state target markBerryConsumed ctx
  | FxOther => built [] state
  | direct => built (fxDirect state direct ctx) state
  end.

(** [applyEffects(state, effects, ctx, true)]: the built events only. *)
Fixpoint applyEffectsEvents (state : State) (effects : list Effect) (ctx : Ctx)
    : M Built :=
  match effects with
  | [] => built [] state
  | eff :: rest =>
      '(evs1, state1) <- applyEffect state eff ctx ;;
      '(evs2, state2) <- applyEffectsEvents state1 rest ctx ;;
      built (evs1 ++ evs2) state2
  end.

(** [applyEffects(state, effects, ctx)]: build, then apply. *)
Definition applyEffects (state : State) (effects : list Effect) (ctx : Ctx) : M State :=
  '(events, state1) <- applyEffectsEvents state effects ctx ;;
  applyEventsM state1 events.

(** *** statuses/index.js: the status registry *)

(** What a status handler receives: [{state, player, status, hook, ...ctx}].
    A field effect is dispatched through the same registry with neither
    [player] nor [status]; [ha_action] is [ctx.action.action]. *)
Record HandlerArgs : Type := mkArgs {
  ha_state : State;
  ha_player : option (Player * Creature);
  ha_status : option Status;
  ha_hook : Hook;
  ha_action : option Action;
  ha_move : option Move;
  ha_events : list Event
}.

(** What a status handler returns.  [sr_fresh] says that [sr_state] is a new
    object (the state went through [applyEvent], which clones);
    [sr_writeTurns] is the in-place write [status.data.turns = v]. *)
Record StatusResult : Type := mkSResult {
  sr_state : option State;
  sr_fresh : bool;
  sr_events : option (list Event);
  sr_preventAction : bool;
  sr_overrideAction : option Action;
  sr_eventTransforms : option (list Transform);
  sr_writeTurns : option Z
}.

Definition noResult : StatusResult := mkSResult None false None false None None None.

Definition evResult (evs : list Event) : StatusResult :=
  mkSResult None false (Some evs) false None None None.

Definition preventResult (evs : list Event) : StatusResult :=
  mkSResult None false (Some evs) true None None None.

Definition overrideResult (a : Action) (evs : option (list Event)) : StatusResult :=
  mkSResult None false evs false (Some a) None None.

Definition typeError (prop : string) : string :=
  "TypeError: Cannot read properties of undefined (reading '" +++ prop +++ "')".

(** [player.active] / [player.id] on the handler's [player]. *)
Definition withPlayer {A} (args : HandlerArgs) (k : Player -> Creature -> M A) : M A :=
  match ha_player args with
  | Some (p, c) => k p c
  | None => throw (typeError "active")
  end.

(** [status.data] on the handler's [status]. *)
Definition withStatus {A} (args : HandlerArgs) (k : Status -> M A) : M A :=
  match ha_status args with
  | Some s => k s
  | None => throw (typeError "data")
  end.

(** [status?.data?.f] *)
Definition statusField {A} (args : HandlerArgs) (f : DataFields -> option A) : option A :=
  match ha_status args with
  | Some s => f (sd_fields (s_data s))
  | None => None
  end.

(** [{ ...action.action, moveId }] *)
Definition withMoveId (a : option Action) (moveId : string) : Action :=
  match a with
  | Some x => mkAction (a_playerId x) (a_type x) (Some moveId) (a_targetId x) (a_slot x)
                (a_priority x)
  | None => mkAction "" None (Some moveId) None None None
  end.

Definition actionMoveId (a : option Action) : option string :=
  match a with Some x => a_moveId x | None => None end.

(** [findLastMoveFromHistory] *)
Definition lastMoveOfTurn (playerId : string) (actions : list Action) : option string :=
  match find (fun a => andb (String.eqb (a_playerId a) playerId) (truthyStr (a_moveId a)))
             (rev actions) with
  | Some a => a_moveId a
  | None => None
  end.

Fixpoint firstSome {A B} (f : A -> option B) (l : list A) : option B :=
  match l with
  | [] => None
  | x :: r => match f x with Some b => Some b | None => firstSome f r end
  end.

Definition findLastMoveFromHistory (state : State) (playerId : string) : option string :=
  match history state with
  | Some h => firstSome (fun t => lastMoveOfTurn playerId (tr_actions t)) (rev (h_turns h))
  | None => None
  end.

(** [matchesTiming] *)
Definition matchesTiming (hook : Hook) (timing : string) : bool :=
  if String.eqb timing "" then true
  else
    let t := toLowerCase timing in
    if String.eqb t "turn_start" then match hook with OnTurnStart => true | _ => false end
    else if String.eqb t "turn_end" then match hook with OnTurnEnd => true | _ => false end
    else true.

Definition scheduledCtx (state : State) (targetId attackerId : string) : Ctx :=
  mkCtx (getActiveCreature state attackerId) (getActiveCreature state targetId) None
    attackerId targetId (Some (turn state)) false.

(** The common tail of [handleDelayed] and [handleOverTime]. *)
Definition runScheduled (args : HandlerArgs) (status : Status) : M StatusResult :=
  let state := ha_state args in
  let data := sd_fields (s_data status) in
  targetId <- match d_targetId data with
              | Some t => ret t
              | None => withPlayer args (fun p _ => ret (p_id p))
              end ;;
  attackerId <- match d_sourceId data with
                | Some t => ret t
                | None => withPlayer args (fun p _ => ret (p_id p))
                end ;;
  '(events, state1) <-
    applyEffectsEvents state (orDefault (sd_effects (s_data status)) [])
      (scheduledCtx state targetId attackerId) ;;
  newState <- applyEventsM state1 events ;;
  ret (mkSResult (Some newState) (Nat.ltb 0 (List.length events)) None false None None None).

Definition handleDelayed (args : HandlerArgs) : M StatusResult :=
  withStatus args (fun status =>
    let data := sd_fields (s_data status) in
    let timing := orDefault (d_timing data) "turn_end" in
    if negb (matchesTiming (ha_hook args) timing) then ret noResult
    else
      match d_triggerTurn data with
      | None => ret noResult
      | Some triggerTurn =>
          if turn (ha_state args) <? triggerTurn then ret noResult
          else runScheduled args status
      end).

Definition handleOverTime (args : HandlerArgs) : M StatusResult :=
  withStatus args (fun status =>
    let timing := orDefault (d_timing (sd_fields (s_data status))) "turn_end" in
    if negb (matchesTiming (ha_hook args) timing) then ret noResult
    else runScheduled args status).

(** The residual-damage handlers: [Math.max(1, Math.floor(maxHp / d))]. *)
Definition residual (c : Creature) (d : Z) : Z := Z.max 1 (c_maxHp c / d).

Definition protectedType (t : string) : bool :=
  includes ["damage"; "apply_status"; "modify_stage"] t.

(** The loop of [protect.onEventTransform] over the incoming events. *)
Fixpoint protectTransforms (player : Player) (active : Creature) (incoming : list Event)
    (protectedTypes : list string) : list Transform :=
  match incoming with
  | [] => []
  | ev :: rest =>
      if andb (protectedType (eventType ev))
              (andb (negb (optEqb String.eqb (mt_source (eventMeta ev)) (Some (p_id player))))
                    (negb (includes protectedTypes (eventType ev))))
      then
        mkTransform "replace_event" (Some (eventType ev)) (Some (p_id player))
          (Some [logEvent (c_name active +++ " protected itself!")]) None
        :: protectTransforms player active rest (eventType ev :: protectedTypes)
      else protectTransforms player active rest protectedTypes
  end.

(** [registry[id][hook]] of statuses/index.js. *)
Definition statusHookHandler (id : string) (hook : Hook)
    : option (HandlerArgs -> M StatusResult) :=
  let st := String.eqb id in
  match hook with
  | OnTurnEnd =>
      if st "burn" then Some (fun args => withPlayer args (fun p c =>
        ret (evResult [ EvDamage (p_id p) (residual c 16) (fromMeta "burn");
                        logEvent (c_name c +++ " is hurt by its burn!") ])))
      else if st "poison" then Some (fun args => withPlayer args (fun p c =>
        ret (evResult [ EvDamage (p_id p) (residual c 8) (fromMeta "poison");
                        logEvent (c_name c +++ " is hurt by poison!") ])))
      else if st "leech_seed" then Some (fun args => withStatus args (fun status =>
        match d_sourceId (sd_fields (s_data status)) with
        | None => ret noResult
        | Some targetId =>
            if String.eqb targetId "" then ret noResult
            else
              match getActiveCreature (ha_state args) targetId with
              | None => ret noResult
              | Some healer =>
                  if c_hp healer <=? 0 then ret noResult
                  else withPlayer args (fun p c =>
                    ret (evResult
                           [ logEvent (c_name c +++ "'s health is sapped by Leech Seed!");
                             EvDamage (p_id p) (residual c 8) (fromMeta "leech_seed");
                             EvDamage targetId (- residual c 8)
                               (fromMeta "leech_seed_heal") ]))
              end
        end))
      else if st "curse" then Some (fun args => withPlayer args (fun p c =>
        ret (evResult [ logEvent (c_name c +++ " is afflicted by the curse!");
                        EvDamage (p_id p) (residual c 4) (fromMeta "curse") ])))
      else if st "yawn" then Some (fun args => withStatus args (fun status =>
        let turns := orDefault (d_turns (sd_fields (s_data status))) 1 in
        if 0 <? turns then
          withPlayer args (fun p c =>
            ret (mkSResult None false
                   (Some [logEvent (c_name c +++ " is getting drowsy...")])
                   false None None (Some (turns - 1))))
        else
          r <- draw ;;
          withPlayer args (fun p c =>
            ret (evResult
                   [ EvRemoveStatus (p_id p) "yawn" noMeta;
                     EvApplyStatus (p_id p) "sleep" (Some (2 + Qfloor (r * 3))) None None
                       noMeta ]))))
      else if st "delayed_effect" then Some handleDelayed
      else if st "over_time_effect" then Some handleOverTime
      else None
  | OnTurnStart =>
      if st "delayed_effect" then Some handleDelayed else None
  | OnBeforeAction =>
      if st "paralysis" then Some (fun args =>
        r <- draw ;;
        if Qltb r (1 # 4) then ret (preventResult [logEvent "It is fully paralyzed!"])
        else ret noResult)
      else if st "sleep" then Some (fun args => withPlayer args (fun p c =>
        ret (preventResult [logEvent (c_name c +++ " is fast asleep.")])))
      else if st "freeze" then Some (fun args =>
        r <- draw ;;
        withPlayer args (fun p c =>
          if Qltb r (1 # 5) then
            ret (evResult [ EvRemoveStatus (p_id p) "freeze" noMeta;
                            logEvent (c_name c +++ " thawed out!") ])
          else ret (preventResult [logEvent (c_name c +++ " is frozen solid!")])))
      else if st "confusion" then Some (fun args =>
        r <- draw ;;
        if Qltb r (33 # 100) then
          withPlayer args (fun p c =>
            ret (preventResult
                   [ logEvent (c_name c +++ " hurt itself in its confusion!");
                     EvDamage (p_id p) (residual c 10) (fromMeta "confusion") ]))
        else ret noResult)
      else if st "flinch" then Some (fun args =>
        ret (preventResult [logEvent "It flinched!"]))
      else if st "lock_move" then Some (fun args =>
        let mode := statusField args d_mode in
        withPlayer args (fun p c =>
          let lastMove :=
            match lastMove (c_volatileData c) with
            | Some m => Some m
            | None => findLastMoveFromHistory (ha_state args) (p_id p)
            end in
          match lastMove, statusField args d_moveId with
          | Some lm, dm =>
              if andb (optEqb String.eqb mode (Some "force_last_move"))
                      (negb (String.eqb lm ""))
              then ret (overrideResult (withMoveId (ha_action args) lm)
                          (Some [logEvent (c_name c +++ " is locked into " +++ lm +++ "!")]))
              else if andb (optEqb String.eqb mode (Some "force_specific")) (truthyStr dm)
              then ret (overrideResult (withMoveId (ha_action args) (orDefault dm ""))
                          (Some [logEvent (c_name c +++ " must use " +++ orDefault dm ""
                                           +++ "!")]))
              else ret noResult
          | None, dm =>
              if andb (optEqb String.eqb mode (Some "force_specific")) (truthyStr dm)
              then ret (overrideResult (withMoveId (ha_action args) (orDefault dm ""))
                          (Some [logEvent (c_name c +++ " must use " +++ orDefault dm ""
                                           +++ "!")]))
              else ret noResult
          end))
      else if st "disable_move" then Some (fun args =>
        match statusField args d_moveId with
        | Some moveId =>
            if String.eqb moveId "" then ret noResult
            else if optEqb String.eqb (actionMoveId (ha_action args)) (Some moveId) then
              withPlayer args (fun p c =>
                ret (preventResult [logEvent (c_name c +++ " cannot use " +++ moveId +++ "!")]))
            else ret noResult
        | None => ret noResult
        end)
      else if st "encore" then Some (fun args =>
        match statusField args d_moveId with
        | Some moveId =>
            if String.eqb moveId "" then ret noResult
            else if negb (optEqb String.eqb (actionMoveId (ha_action args)) (Some moveId)) then
              withPlayer args (fun p c =>
                ret (overrideResult (withMoveId (ha_action args) moveId)
                       (Some [logEvent (c_name c +++ " received an encore!")])))
            else ret noResult
        | None => ret noResult
        end)
      else if st "taunt" then Some (fun args =>
        match ha_move args with
        | Some mv =>
            if optEqb String.eqb (m_category mv) (Some "status") then
              withPlayer args (fun p c =>
                ret (preventResult
                       [logEvent (c_name c +++ " can't use " +++ m_name mv
                                  +++ " after the taunt!")]))
            else ret noResult
        | None => ret noResult
        end)
      else if st "charging_solar_beam" then Some (fun args => withStatus args (fun status =>
        let data := sd_fields (s_data status) in
        if andb (optEqb String.eqb (d_mode data) (Some "force_specific"))
                (truthyStr (d_moveId data))
        then ret (overrideResult (withMoveId (ha_action args) (orDefault (d_moveId data) ""))
                    None)
        else ret noResult))
      else None
  | OnEventTransform =>
      if st "protect" then Some (fun args =>
        match ha_events args with
        | [] => ret noResult
        | _ =>
            withPlayer args (fun p c =>
              let incoming :=
                filter (fun e => optEqb String.eqb (eventTargetId e) (Some (p_id p)))
                       (ha_events args) in
              match incoming with
              | [] => ret noResult
              | _ => ret (mkSResult None false None false None
                            (Some (protectTransforms p c incoming [])) None)
              end)
        end)
      else None
  | OnSwitchIn => None
  end.

(** *** statuses/index.js: dispatch *)

Definition setStatusTurns (s : Status) (v : Z) : Status :=
  let d := sd_fields (s_data s) in
  mkStatus (s_id s) (s_remainingTurns s)
    (mkStatusData
       (mkDataFields (d_itemId d) (d_moveId d) (d_mode d) (d_sourceId d) (d_targetId d)
          (d_timing d) (Some v) (d_triggerTurn d))
       (sd_effects (s_data s))).

(** The [k]-th status that is not an item entry.  The item writes of the
    effect compiler are the only in-place changes to a status array, and they
    add, replace or drop item entries only (or push at the end), so this is
    where the status object a handler was given sits in the array. *)
Fixpoint updNthNonItem (l : list Status) (k : nat) (f : Status -> Status) : list Status :=
  match l with
  | [] => []
  | s :: r =>
      if isItemStatus (s_id s) then s :: updNthNonItem r k f
      else match k with
           | O => f s :: r
           | S k' => s :: updNthNonItem r k' f
           end
  end.

(** The [for (const status of statuses)] loop of [runStatusHooks].
    [replaced] records that an earlier handler returned a new state object:
    an in-place write to a status of the original state is then lost. *)
Fixpoint statusLoop (statuses : list Status) (k : nat) (replaced : bool)
    (playerId : string) (proxy : Player * Creature) (hook : Hook)
    (action : option Action) (mv : option Move) (events : list Event)
    (acc : Hooked) : M Hooked :=
  match statuses with
  | [] => ret acc
  | status :: rest =>
      let k' := if isItemStatus (s_id status) then k else S k in
      match statusHookHandler (s_id status) hook with
      | None => statusLoop rest k' replaced playerId proxy hook action mv events acc
      | Some handler =>
          result <- handler (mkArgs (hk_state acc) (Some proxy) (Some status) hook action
                               mv events) ;;
          let working := orDefault (sr_state result) (hk_state acc) in
          let working :=
            match sr_writeTurns result with
            | Some v =>
                if replaced then working
                else updActive working playerId
                       (fun c => setStatuses c
                          (updNthNonItem (c_statuses c) k (fun s => setStatusTurns s v)))
            | None => working
            end in
          statusLoop rest k' (orb replaced (sr_fresh result)) playerId proxy hook action mv
            events
            (mkHooked working
               (hk_events acc ++ orDefault (sr_events result) [])
               (orb (hk_preventAction acc) (sr_preventAction result))
               (match sr_overrideAction result with
                | Some a => Some a
                | None => hk_overrideAction acc
                end)
               (hk_eventTransforms acc ++ orDefault (sr_eventTransforms result) []))
      end
  end.

(** [runStatusHooks] *)
Definition runStatusHooks (state : State) (playerId : string) (hook : Hook)
    (action : option Action) (mv : option Move) (events : list Event) : M Hooked :=
  match findPlayer state playerId with
  | None => ret (unhooked state)
  | Some player =>
      match getActiveCreature state playerId with
      | None => ret (unhooked state)
      | Some active =>
          statusLoop (c_statuses active) 0 false playerId (player, active) hook action mv
            events (unhooked state)
      end
  end.

(** [runFieldHooks]: [field.global.forEach(e => runEffect(e, null))] *)
Fixpoint fieldLoop (effects : list Status) (hook : Hook) (events : list Event)
    (acc : Hooked) : M Hooked :=
  match effects with
  | [] => ret acc
  | effect :: rest =>
      match statusHookHandler (s_id effect) hook with
      | None => fieldLoop rest hook events acc
      | Some handler =>
          result <- handler (mkArgs (hk_state acc) None None hook None None events) ;;
          fieldLoop rest hook events
            (mkHooked (orDefault (sr_state result) (hk_state acc))
               (hk_events acc ++ orDefault (sr_events result) [])
               false None
               (hk_eventTransforms acc ++ orDefault (sr_eventTransforms result) []))
      end
  end.

Definition runFieldHooks (state : State) (hook : Hook) (events : list Event) : M Hooked :=
  fieldLoop (f_global (field state)) hook events (unhooked state).

(** The duration tick on one list of statuses. *)
Definition tickList (l : list Status) : list Status :=
  filter (fun s => match s_remainingTurns s with
                   | None => true
                   | Some n => 0 <? n
                   end)
    (map (fun s => match s_remainingTurns s with
                   | None => s
                   | Some n => mkStatus (s_id s) (Some (n - 1)) (s_data s)
                   end) l).

(** [tickStatuses] *)
Definition tickStatuses (state : State) : State :=
  setPlayers state
    (map (fun player =>
            setTeam player
              (arrUpd (p_team player) (p_activeSlot player)
                 (fun active => setStatuses active (tickList (c_statuses active)))))
         (players state)).

(** [tickFieldEffects] *)
Definition tickFieldEffects (state : State) : State :=
  setField state (mkField (tickList (f_global (field state)))).

(** *** core/battle.js *)

(** An action with its sort keys [_priority], [_speed], [_rand]. *)
Record Ordered : Type := mkOrdered {
  o_action : Action;
  o_priority : Q;
  o_speed : Q;
  o_rand : Q
}.

Definition creatureSpeed (state : State) (playerId : string) : Q :=
  match getActiveCreature state playerId with
  | None => 0%Q
  | Some creature =>
      let speed := (Qof (c_speed creature)
                    * stageMultiplier (objGet (c_stages creature) "spe"))%Q in
      runAbilityValueHook state playerId
        (OnModifySpeed (getWeather state) (Some (turn state))) speed
  end.

Definition isBattleOver (state : State) : bool :=
  existsb (fun player => negb (existsb (fun c => 0 <? c_hp c) (p_team player)))
          (players state).

Definition getActionPriority (state : State) (action : Action) (mv : option Move) : Q :=
  let base :=
    match a_priority action with
    | Some p => p
    | None => match mv with
              | Some m => match m_priority m with Some p => Qof p | None => 0%Q end
              | None => 0%Q
              end
    end in
  runAbilityValueHook state (a_playerId action) (OnModifyPriority mv) base.

Definition isSwitch (a : Action) : bool :=
  match a_type a with Some TSwitch => true | _ => false end.

Definition isUseItem (a : Action) : bool :=
  match a_type a with Some TUseItem => true | _ => false end.

(** The [.map((a) => ...)] that attaches the sort keys, one draw per action. *)
Fixpoint keyActions (next : State) (actions : list Action) : M (list Ordered) :=
  match actions with
  | [] => ret []
  | a :: rest =>
      o <- (if isSwitch a then
              r <- draw ;; ret (mkOrdered a 10000 0 r)
            else
              let priority := getActionPriority next a (lookupMove (a_moveId a)) in
              let speed := creatureSpeed next (a_playerId a) in
              r <- draw ;; ret (mkOrdered a priority speed r)) ;;
      os <- keyActions next rest ;;
      ret (o :: os)
  end.

(** The comparator of the [.sort(...)] is not positive on [(a, b)]. *)
Definition actionBefore (a b : Ordered) : bool :=
  if negb (Qeq_bool (o_priority b) (o_priority a)) then Qltb (o_priority b) (o_priority a)
  else if negb (Qeq_bool (o_speed b) (o_speed a)) then Qltb (o_speed b) (o_speed a)
  else Qle_bool (o_rand a) (o_rand b).

(** [ordered] *)
Definition orderActions (next : State) (actions : list Action) : M (list Ordered) :=
  keyed <- keyActions next actions ;;
  ret (stableSort actionBefore keyed).

(** [collectEventTransforms] *)
Fixpoint collectStatusTransforms (state : State) (ps : list Player) (events : list Event)
    : M (list Transform) :=
  match ps with
  | [] => ret []
  | player :: rest =>
      result <- runStatusHooks state (p_id player) OnEventTransform None None events ;;
      more <- collectStatusTransforms state rest events ;;
      ret (hk_eventTransforms result ++ more)
  end.

Definition transformPriority (t : Transform) : Q := orDefault (t_priority t) 0%Q.

Definition collectEventTransforms (state : State) (events : list Event)
    : M (list Transform) :=
  fromStatuses <- collectStatusTransforms state (players state) events ;;
  fieldResult <- runFieldHooks state OnEventTransform events ;;
  ret (stableSort (fun a b => Qle_bool (transformPriority b) (transformPriority a))
         (fromStatuses ++ hk_eventTransforms fieldResult)).

(** The [(!t.targetId || t.targetId === ev.targetId)] test. *)
Definition transformTargets (t : Transform) (ev : Event) : bool :=
  orb (negb (truthyStr (t_targetId t)))
      (optEqb String.eqb (t_targetId t) (eventTargetId ev)).

(** [applyEventTransforms]; the handlers of the registry set [from] only, so
    [t.target] and [t.targetType] are always [undefined] here. *)
Definition applyEventTransforms (events : list Event) (transforms : list Transform)
    : list Event :=
  match transforms with
  | [] => events
  | _ =>
      flat_map
        (fun ev =>
           if existsb (fun t => andb (String.eqb (t_type t) "cancel_event")
                                  (andb (optEqb String.eqb (t_from t) (Some (eventType ev)))
                                        (transformTargets t ev))) transforms
           then []
           else
             match find (fun t => andb (String.eqb (t_type t) "replace_event")
                                    (andb (optEqb String.eqb (t_from t) (Some (eventType ev)))
                                          (transformTargets t ev))) transforms with
             | Some replace => orDefault (t_to replace) []
             | None => [ev]
             end)
        events
  end.

(** [ensureMovePp]: the creature after the lazy initialisation, and the
    remaining PP ([None] is [null], unlimited). *)
Definition ensureMovePp (creature : Creature) (moveId : string) (moveDef : option Move)
    : Creature * option Z :=
  match objGet (c_movePp creature) moveId with
  | Some remaining => (creature, remaining)
  | None =>
      let pp := match moveDef with Some m => m_pp m | None => None end in
      (setMovePp creature (objSet (c_movePp creature) moveId pp), pp)
  end.

Definition hasMovePp (creature : Creature) (moveId : string) (moveDef : option Move)
    : Creature * bool :=
  let '(c, remaining) := ensureMovePp creature moveId moveDef in
  (c, match remaining with None => true | Some n => 0 <? n end).

Definition consumeMovePp (creature : Creature) (moveId : string) (moveDef : option Move)
    : Creature * bool :=
  let '(c, remaining) := ensureMovePp creature moveId moveDef in
  match remaining with
  | None => (c, true)
  | Some n =>
      if n <=? 0 then (c, false)
      else (setMovePp c (objSet (c_movePp c) moveId (Some (n - 1))), true)
  end.

Definition categoryIs (cat : string) (id : string) : bool :=
  match objGet moves id with
  | Some m => optEqb String.eqb (m_category m) (Some cat)
  | None => false
  end.

(** The [candidates.filter(...)] of [chooseRandomMove]; [hasMovePp]
    initialises the PP entry of every candidate it looks at. *)
Fixpoint filterWithPp (attacker : option Creature) (candidates : list string)
    : option Creature * list string :=
  match candidates with
  | [] => (attacker, [])
  | id :: rest =>
      match objGet moves id with
      | None => filterWithPp attacker rest
      | Some def =>
          match attacker with
          | None => let '(a, l) := filterWithPp attacker rest in (a, id :: l)
          | Some c =>
              let '(c1, ok) := hasMovePp c id (Some def) in
              let '(a, l) := filterWithPp (Some c1) rest in
              (a, if ok then id :: l else l)
          end
      end
  end.

(** [chooseRandomMove]; the state carries the PP entries initialised on the
    way, the draw happens only when a candidate is left. *)
Definition chooseRandomMove (state : State) (pool : string) (attackerId : string)
    : M (option string * State) :=
  let allMoveIds := map fst moves in
  let attacker :=
    if String.eqb attackerId "" then None else getActiveCreature state attackerId in
  let candidates :=
    if String.eqb pool "self_moves" then
      match attacker with
      | Some active => match c_moves active with [] => allMoveIds | l => l end
      | None => allMoveIds
      end
    else if String.eqb pool "physical" then filter (categoryIs "physical") allMoveIds
    else if String.eqb pool "special" then filter (categoryIs "special") allMoveIds
    else if String.eqb pool "status" then filter (categoryIs "status") allMoveIds
    else allMoveIds in
  let '(attacker1, filtered) := filterWithPp attacker candidates in
  let state1 :=
    match attacker1 with
    | Some c => updActive state attackerId (fun _ => c)
    | None => state
    end in
  match filtered with
  | [] => ret (None, state1)
  | _ =>
      r <- draw ;;
      ret (arrGet filtered (Qfloor (r * Qof (Z.of_nat (List.length filtered)))), state1)
  end.

(** Apply the events a hook phase returned to the state it returned. *)
Definition settle (h : Hooked) : M State := applyEventsM (hk_state h) (hk_events h).

(** [Object.assign(action, overrideAction)] *)
Definition assignAction (action : Action) (override : option Action) : Action :=
  match override with
  | None => action
  | Some o =>
      mkAction (if String.eqb (a_playerId o) "" then a_playerId action else a_playerId o)
        (match a_type o with Some t => Some t | None => a_type action end)
        (match a_moveId o with Some t => Some t | None => a_moveId action end)
        (match a_targetId o with Some t => Some t | None => a_targetId action end)
        (match a_slot o with Some t => Some t | None => a_slot action end)
        (match a_priority o with Some t => Some t | None => a_priority action end)
  end.

Definition setOAction (o : Ordered) (a : Action) : Ordered :=
  mkOrdered a (o_priority o) (o_speed o) (o_rand o).

Definition effectCtx (next : State) (attackerId targetId : string) (mv : Move) : Ctx :=
  mkCtx (getActiveCreature next attackerId) (getActiveCreature next targetId) (Some mv)
    attackerId targetId (Some (turn next)) false.

(** The inline expansion of [random_move] sentinels. *)
Fixpoint expandRandomMoves (next : State) (finalEvents : list Event)
    (attackerId targetId freshName : string) : M (list Event * State) :=
  match finalEvents with
  | [] => ret ([], next)
  | ev :: rest =>
      match ev with
      | EvRandomMove pool _ =>
          '(chosenMoveId, next1) <- chooseRandomMove next (orDefault pool "all") attackerId ;;
          '(pushed, next2) <-
            (if negb (truthyStr chosenMoveId) then
               ret ([logEvent (freshName +++ " tried to use a random move but failed!")],
                    next1)
             else
               match lookupMove chosenMoveId with
               | None => ret ([], next1)
               | Some chosenMove =>
                   let id := orDefault chosenMoveId "" in
                   let '(next2, consumed) :=
                     match getActiveCreature next1 attackerId with
                     | None => (next1, true)
                     | Some attackerCurrent =>
                         let '(c, ok) := consumeMovePp attackerCurrent id (Some chosenMove) in
                         (updActive next1 attackerId (fun _ => c), ok)
                     end in
                   if negb consumed then
                     ret ([logEvent (freshName +++ " has no PP left for "
                                     +++ m_name chosenMove +++ "!")], next2)
                   else
                     '(subEvents, next3) <-
                       applyEffectsEvents next2 (orDefault (m_effects chosenMove) [])
                         (effectCtx next2 attackerId targetId chosenMove) ;;
                     ret (logEvent (freshName +++ " used " +++ m_name chosenMove
                                    +++ "! (random)") :: subEvents, next3)
               end) ;;
          '(more, next3) <- expandRandomMoves next2 rest attackerId targetId freshName ;;
          ret (pushed ++ more, next3)
      | _ =>
          '(more, next1) <- expandRandomMoves next rest attackerId targetId freshName ;;
          ret (ev :: more, next1)
      end
  end.

(** The body of [for (const effect of move.effects)]. *)
Definition runEffect (next : State) (effect : Effect) (mv : Move)
    (attackerId targetId freshName : string) : M State :=
  '(effectEvents, next1) <- applyEffect next effect (effectCtx next attackerId targetId mv) ;;
  let abilityEvents := applyAbilityEventModifiers next1 effectEvents in
  transforms <- collectEventTransforms next1 abilityEvents ;;
  let finalEvents := applyEventTransforms abilityEvents transforms in
  '(expandedEvents, next2) <-
    expandRandomMoves next1 finalEvents attackerId targetId freshName ;;
  finalTransforms <- collectEventTransforms next2 expandedEvents ;;
  let finalTransformed := applyEventTransforms expandedEvents finalTransforms in
  applyEventsM next2 finalTransformed.

Fixpoint runEffects (next : State) (effects : list Effect) (mv : Move)
    (attackerId targetId freshName : string) : M State :=
  match effects with
  | [] => ret next
  | effect :: rest =>
      next1 <- runEffect next effect mv attackerId targetId freshName ;;
      runEffects next1 rest mv attackerId targetId freshName
  end.

(** How one iteration of the action loop ends. *)
Inductive Flow : Type := Continue | Break.

Definition logged (next : State) (message : string) : M State :=
  liftRes (applyEvent next (logEvent message)).

(** [attacker.name] for the player of the action. *)
Definition playerName (next : State) (playerId : string) : M string :=
  match findPlayer next playerId with
  | Some p => ret (p_name p)
  | None => throw typeErrorName
  end.

(** The switch branch of the action loop. *)
Definition runSwitch (fuel : nat) (next : State) (action : Action) : M State :=
  let playerId := a_playerId action in
  let trapped :=
    match getActiveCreature next playerId with
    | Some active =>
        if 0 <? c_hp active then
          if includes (c_types active) "ghost" then false
          else existsb (fun p => andb (negb (String.eqb (p_id p) playerId))
                                      (runAbilityCheckHook next (p_id p) (OnTrap playerId) false))
                       (players next)
        else false
    | None => false
    end in
  if trapped then
    name <- playerName next playerId ;;
    logged next (name +++ " couldn't switch out!")
  else
    (* an action without [slot] sends [slot: undefined]: no creature to send out *)
    next1 <- match a_slot action with
             | Some slot => liftRes (applyEvent next (EvSwitch playerId slot))
             | None => match findPlayer next playerId with
                       | Some _ => throw typeErrorName
                       | None => ret next
                       end
             end ;;
    switchResult <- runAbilityHooks fuel next1 playerId OnSwitchIn None ;;
    settle switchResult.

(** The use_item branch of the action loop. *)
Definition runUseItem (next : State) (action : Action) : M State :=
  let playerId := a_playerId action in
  let active := getActiveCreature next playerId in
  if negb (runAbilityCheckHook next playerId OnCheckItem true) then
    name <- playerName next playerId ;;
    logged next (name +++ " cannot use items!")
  else if negb (hasItem active) then
    name <- playerName next playerId ;;
    logged next (name +++ " has no item to use.")
  else
    let itemId := getItemId active in
    let next1 :=
      updActive next playerId
        (fun c => let c1 := clearItemStatus c in
                  if consumesBerry itemId
                  then setStatuses c1 (c_statuses c1 ++ [berryConsumed])
                  else c1) in
    name <- playerName next1 playerId ;;
    logged next1 (name +++ " used its " +++ orDefault itemId "item" +++ "!").

Definition hasProtectEffect (effects : list Effect) : bool :=
  existsb (fun e => String.eqb (effectType e) "protect") effects.

(** The move branch of the action loop: the state, the action as the
    [onBeforeAction] overrides left it, and whether the loop breaks. *)
Definition runMove (fuel : nat) (next : State) (action : Action)
    : M (State * Action * Flow) :=
  let playerId := a_playerId action in
  let active := getActiveCreature next playerId in
  let next :=
    match lookupMove (a_moveId action) with
    | Some actionMove =>
        match m_effects actionMove with
        | Some effects =>
            if negb (hasProtectEffect effects)
            then updActive next playerId (fun c => setProtectCount c 0)
            else next
        | None => next
        end
    | None => next
    end in
  if match active with Some a => c_hp a <=? 0 | None => true end then
    next1 <- logged next ("Player " +++ playerId +++ " cannot act.") ;;
    ret (next1, action, Continue)
  else
    let targetId :=
      match a_targetId action with
      | Some t => Some t
      | None =>
          match find (fun p => negb (String.eqb (p_id p) playerId)) (players next) with
          | Some p => Some (p_id p)
          | None => None
          end
      end in
    match match targetId with
          | Some t => match findPlayer next t with Some _ => Some t | None => None end
          | None => None
          end with
    | None =>
        next1 <- logged next ("No valid target for " +++ playerId +++ ".") ;;
        ret (next1, action, Continue)
    | Some targetId =>
        abilityBefore <- runAbilityHooks fuel next playerId OnBeforeAction (Some action) ;;
        next <- settle abilityBefore ;;
        if hk_preventAction abilityBefore then ret (next, action, Continue)
        else
          let action := assignAction action (hk_overrideAction abilityBefore) in
          beforeAction <-
            runStatusHooks next playerId OnBeforeAction (Some action)
              (lookupMove (a_moveId action)) [] ;;
          next <- settle beforeAction ;;
          if hk_preventAction beforeAction then ret (next, action, Continue)
          else
            let action := assignAction action (hk_overrideAction beforeAction) in
            fieldBefore <- runFieldHooks next OnBeforeAction [] ;;
            next <- settle fieldBefore ;;
            match getActiveCreature next (a_playerId action),
                  getActiveCreature next targetId with
            | Some attackerFresh, Some targetFresh =>
                if c_hp attackerFresh <=? 0 then ret (next, action, Continue)
                else
                  match lookupMove (a_moveId action) with
                  | None =>
                      next1 <- logged next ("Unknown move " +++ showOptStr (a_moveId action)) ;;
                      ret (next1, action, Continue)
                  | Some mv =>
                      let moveId := showOptStr (a_moveId action) in
                      let '(c1, hasPp) := hasMovePp attackerFresh moveId (Some mv) in
                      let next := updActive next (a_playerId action) (fun _ => c1) in
                      if negb hasPp then
                        next1 <- logged next (c_name attackerFresh +++ " has no PP left for "
                                              +++ m_name mv +++ "!") ;;
                        ret (next1, action, Continue)
                      else
                        let next :=
                          updActive next (a_playerId action)
                            (fun c => fst (consumeMovePp c moveId (Some mv))) in
                        let next :=
                          updActive next playerId
                            (fun c => setVolatileData c
                               (mkVolatile (protectSuccessCount (c_volatileData c))
                                  (a_moveId action))) in
                        match m_effects mv with
                        | None => throw "TypeError: move.effects is not iterable"
                        | Some effects =>
                            next1 <- runEffects next effects mv playerId targetId
                                       (c_name attackerFresh) ;;
                            ret (next1, action, if isBattleOver next1 then Break else Continue)
                        end
                  end
            | _, _ => ret (next, action, Continue)
            end
    end.

(** One iteration of [for (const action of ordered)]. *)
Definition runAction (fuel : nat) (next : State) (o : Ordered) : M (State * Ordered * Flow) :=
  let action := o_action o in
  if isSwitch action then
    next1 <- runSwitch fuel next action ;; ret (next1, o, Continue)
  else if isUseItem action then
    next1 <- runUseItem next action ;; ret (next1, o, Continue)
  else
    '(next1, action1, flow) <- runMove fuel next action ;;
    ret (next1, setOAction o action1, flow).

(** The action loop; the actions come back as the overrides left them. *)
Fixpoint runActions (fuel : nat) (next : State) (ordered : list Ordered)
    : M (State * list Ordered) :=
  match ordered with
  | [] => ret (next, [])
  | o :: rest =>
      '(next1, o1, flow) <- runAction fuel next o ;;
      match flow with
      | Break => ret (next1, o1 :: rest)
      | Continue =>
          '(next2, rest1) <- runActions fuel next1 rest ;;
          ret (next2, o1 :: rest1)
      end
  end.

(** [for (const player of next.players) { runStatusHooks(...); apply }] *)
Fixpoint statusPhase (next : State) (ps : list Player) (hook : Hook) : M State :=
  match ps with
  | [] => ret next
  | player :: rest =>
      result <- runStatusHooks next (p_id player) hook None None [] ;;
      next1 <- settle result ;;
      statusPhase next1 rest hook
  end.

Definition abilityPhase (fuel : nat) (next : State) (hook : Hook) : M State :=
  '(state1, events) <- runAllAbilityHooks fuel next hook ;;
  applyEventsM state1 events.

Definition fieldPhase (next : State) (hook : Hook) : M State :=
  result <- runFieldHooks next hook [] ;;
  settle result.

(** The entry [ordered.map(...)] writes into the history. *)
Definition normalizeAction (o : Ordered) : Action :=
  let a := o_action o in
  mkAction (a_playerId a) (a_type a) (a_moveId a) (a_targetId a) (a_slot a)
    (Some (o_priority o)).

Definition recordTurn (next : State) (ordered : list Ordered) (logStart : nat)
    (rngLog : list Q) : State :=
  let turns := match history next with Some h => h_turns h | None => [] end in
  setHistory next
    (Some (mkHistory
             (turns ++ [mkTurnRecord (turn next) (map normalizeAction ordered)
                          (skipn logStart (log next)) rngLog]))).

(** [stepBattle(state, actions, rng, {recordHistory})]: the monad state is
    [rng] with a fresh [rngLog]. *)
Definition stepBattleM (fuel : nat) (state : State) (actions : list Action)
    (recordHistory : bool) : M State :=
  let next := setTurn state (turn state + 1) in
  let logStart := List.length (log next) in
  next <- logged next ("--- Turn " +++ showZ (turn next) +++ " ---") ;;
  next <- abilityPhase fuel next OnTurnStart ;;
  next <- statusPhase next (players next) OnTurnStart ;;
  next <- fieldPhase next OnTurnStart ;;
  ordered <- orderActions next actions ;;
  '(next, ordered) <- runActions fuel next ordered ;;
  next <- statusPhase next (players next) OnTurnEnd ;;
  next <- abilityPhase fuel next OnTurnEnd ;;
  next <- fieldPhase next OnTurnEnd ;;
  let next := tickFieldEffects (tickStatuses next) in
  fun g =>
    Ok (if recordHistory then recordTurn next ordered logStart (rng_log g) else next, g).

(** [stepBattle] on a random source that has made [pos] draws so far:
    the new state and the number of draws made after the step. *)
Definition stepBattle (fuel : nat) (state : State) (actions : list Action)
    (src : nat -> Q) (pos : nat) (recordHistory : bool) : Res (State * nat) :=
  resBind (stepBattleM fuel state actions recordHistory (mkRng src pos []))
          (fun r => Ok (fst r, rng_pos (snd r))).

(** *** core/replay.js *)

(** The [rng] closure of [replayBattle] for one recorded turn: the recorded
    draws in order, then [Math.random()], whose values are the stream
    [random] read from position [rpos]. *)
Definition replayRng (recorded : list Q) (random : nat -> Q) (rpos : nat) : nat -> Q :=
  fun idx =>
    match nth_error recorded idx with
    | Some v => v
    | None => random (rpos + (idx - List.length recorded))%nat
    end.

Fixpoint replayTurns (fuel : nat) (next : State) (turns : list TurnRecord)
    (random : nat -> Q) (rpos : nat) : Res State :=
  match turns with
  | [] => Ok next
  | t :: rest =>
      resBind (stepBattle fuel next (tr_actions t) (replayRng (tr_rng t) random rpos) 0 false)
        (fun r => replayTurns fuel (fst r) rest random
                    (rpos + (snd r - List.length (tr_rng t)))%nat)
  end.

(** [replayBattle] *)
Definition replayBattle (fuel : nat) (initialState : State) (history : option History)
    (random : nat -> Q) : Res State :=
  replayTurns fuel initialState
    (match history with Some h => h_turns h | None => [] end) random 0.

(** *** core/state.js *)

Record PlayerInput : Type := mkPlayerInput {
  pi_id : string;
  pi_name : string;
  pi_team : list Creature
}.

Definition createBattleState (ps : list PlayerInput) : State :=
  mkState (map (fun p => mkPlayer (pi_id p) (pi_name p) (pi_team p) 0 None) ps)
    (mkField []) 0 [] None.

(** *** core/factory.js *)

(** [learnsets]: species id to the list of learnable move ids. *)
Variable learnsets : JsObj (list string).

Record BaseStats : Type := mkBaseStats {
  bs_hp : Z;
  bs_atk : Z;
  bs_def : Z;
  bs_spa : Z;
  bs_spd : Z;
  bs_spe : Z
}.

Record SpeciesData : Type := mkSpecies {
  sp_id : string;
  sp_name : string;
  sp_types : option (list string);
  sp_type : option (list string);
  sp_baseStats : BaseStats;
  sp_abilities : option (list string)
}.

(** The [options] object of [createCreature]; [op_evs] is a property a
    caller may put there. *)
Record Options : Type := mkOptions {
  op_moves : option (list string);
  op_ability : option string;
  op_name : option string;
  op_level : option Z;
  op_item : option string;
  op_evs : option BaseStats
}.

Definition calcStat (base : Z) (isHp : bool) (iv ev : Z) : Z :=
  let level := 50 in
  if isHp then ((base * 2 + iv + ev / 4) * level) / 100 + level + 10
  else ((base * 2 + iv + ev / 4) * level) / 100 + 5.

Definition joinComma (l : list string) : string := String.concat ", " l.

(** [moves[id]] as a truth value: a move of the table, or a member
    inherited from [Object.prototype]. *)
Definition knownMove (id : string) : bool :=
  orb (isSome (objGet moves id)) (inheritedName id).

(** [learnsets[speciesId]] is read on the own properties of the table, for
    a species id that is not a name of [Object.prototype] (for such a name the
    inherited member is not iterable and [new Set] raises a [TypeError]). *)
Definition validateMoves (speciesId : string) (requestedMoves : list string)
    : Res (list string) :=
  match requestedMoves with
  | [] => Ok []
  | _ =>
      match objGet learnsets speciesId with
      | None => Throw ("Error: No learnset found for species '" +++ speciesId +++ "'.")
      | Some learnable =>
          let unknownMoves :=
            filter (fun id => negb (knownMove id)) requestedMoves in
          match unknownMoves with
          | _ :: _ =>
              Throw ("Error: Unknown move id(s) for species '" +++ speciesId +++ "': "
                     +++ joinComma unknownMoves)
          | [] =>
              let invalid := filter (fun id => negb (includes learnable id)) requestedMoves in
              match invalid with
              | _ :: _ =>
                  Throw ("Error: Move(s) not allowed for species '" +++ speciesId +++ "': "
                         +++ joinComma invalid)
              | [] => Ok requestedMoves
              end
          end
      end
  end.

(** [createCreature]; [suffix] is the
    [Math.random().toString(36).slice(2, 7)] of the instance id. *)
Definition createCreature (species : SpeciesData) (options : Options) (suffix : string)
    : Res Creature :=
  let level := orDefault (op_level options) 50 in
  let iv := 31 in
  let ev := 0 in
  let types :=
    match sp_types species with
    | Some t => t
    | None => orDefault (sp_type species) []
    end in
  let b := sp_baseStats species in
  let hp := calcStat (bs_hp b) true iv ev in
  let atk := calcStat (bs_atk b) false iv ev in
  let def := calcStat (bs_def b) false iv ev in
  let spa := calcStat (bs_spa b) false iv ev in
  let spd := calcStat (bs_spd b) false iv ev in
  let spe := calcStat (bs_spe b) false iv ev in
  resBind (validateMoves (sp_id species) (orDefault (op_moves options) []))
    (fun validated =>
       Ok (mkCreature (sp_id species +++ "_" +++ suffix)
             (orDefault (op_name options) (sp_name species))
             (sp_id species) level types validated
             (match op_ability options with
              | Some a => a
              | None => match sp_abilities species with
                        | Some (a :: _) => a
                        | _ => "none"
                        end
              end)
             (op_item options)
             hp hp [] zeroStages [] atk def spa spd spe [] noVolatile)).

End Engine.

(** * Predicates and example data used by the properties *)



(** The ids [setWeather] and [getWeather] treat as weather. *)
Definition isSunRain (id : string) : bool :=
  orb (String.eqb id "sun") (String.eqb id "rain").

Definition countId (id : string) (l : list Status) : nat :=
  List.length (filter (fun e => String.eqb (s_id e) id) l).

(** A level-50 creature in the shape [createCreature] builds. *)
Definition exCreature (name ability : string) (types : list string) (hp maxHp speed : Z)
    : Creature :=
  mkCreature (toLowerCase name) name (toLowerCase name) 50 types ["tackle"] ability None
    hp maxHp [] zeroStages [] 50 50 50 50 speed [] noVolatile.

Definition alpha : Creature := exCreature "Alpha" "none" ["normal"] 50 100 10.
Definition beta : Creature := exCreature "Beta" "none" ["normal"] 100 100 10.
Definition gamma : Creature := exCreature "Gamma" "none" ["ground"] 100 100 10.

(** Two players, one creature each. *)
Definition exState : State :=
  createBattleState [mkPlayerInput "p1" "A" [alpha]; mkPlayerInput "p2" "B" [beta]].

(** Two players with a bench. *)
Definition exBenchState : State :=
  createBattleState [mkPlayerInput "p1" "A" [alpha; gamma];
                     mkPlayerInput "p2" "B" [beta; gamma]].

Definition exMove (id name : string) (type : option string) (category : string)
    (priority : option Z) (effects : list Effect) : string * Move :=
  (id, mkMove id name type (Some category) None priority None [] (Some effects)).

(** A small move table. *)
Definition exMoves : JsObj Move :=
  [ exMove "tackle" "Tackle" (Some "normal") "physical" None
      [FxDamage (Some 40%Q) (Some 1%Q) None];
    exMove "quick_attack" "Quick Attack" (Some "normal") "physical" (Some 1)
      [FxDamage (Some 40%Q) (Some 1%Q) None];
    exMove "thunder_shock" "Thunder Shock" (Some "electric") "special" None
      [FxDamage (Some 40%Q) (Some 1%Q) None];
    exMove "sunny_day" "Sunny Day" (Some "fire") "status" None
      [FxApplyFieldStatus "sun" (Some 5) None None];
    exMove "rain_dance" "Rain Dance" (Some "water") "status" None
      [FxApplyFieldStatus "rain" (Some 5) None None];
    exMove "protect" "Protect" (Some "normal") "status" (Some 4) [FxProtect] ].

(** A random source that returns the listed numbers, then [0]. *)
Definition listRng (l : list Q) : nat -> Q := fun i => nth i l 0%Q.

Definition moveAction (playerId moveId : string) : Action :=
  mkAction playerId (Some TMove) (Some moveId) None None None.

Definition switchAction (playerId : string) (slot : Z) : Action :=
  mkAction playerId (Some TSwitch) None None (Some slot) None.


(** The compiler context of Alpha (p1) acting on Beta (p2) with [mv]. *)
Definition exCtx (mv : option Move) : Ctx :=
  mkCtx (Some alpha) (Some beta) mv "p1" "p2" (Some 1) false.

Definition exRng (l : list Q) : RngSt := mkRng (listRng l) 0 [].

Definition exSpecies : SpeciesData :=
  mkSpecies "tatuta" "Tatuta" (Some ["water"]) None (mkBaseStats 80 70 60 90 65 100)
    (Some ["swift_swim"]).

Definition exLearnsets : JsObj (list string) := [("tatuta", ["tackle"; "rain_dance"])].

Definition exOptions (evs : option BaseStats) : Options :=
  mkOptions (Some ["tackle"]) None None None None evs.


Definition isDamageEvent (e : Event) : bool :=
  match e with EvDamage _ _ _ => true | _ => false end.



Definition tackle : Move :=
  mkMove "tackle" "Tackle" (Some "normal") (Some "physical") None None None []
    (Some [FxDamage (Some 40%Q) (Some 1%Q) None]).

(** The random source after [k] more draws, and the [i]-th next draw. *)
Definition advance (g : RngSt) (k : nat) : RngSt :=
  mkRng (rng_src g) (k + rng_pos g) (rng_log g ++ map (rng_src g) (seq (rng_pos g) k)).

Definition drawAt (g : RngSt) (i : nat) : Q := rng_src g (i + rng_pos g).

(** The sort key [stepBattle] gives an action whose tie-break draw is [r]. *)
Definition keyOf (moves : JsObj Move) (next : State) (a : Action) (r : Q) : Ordered :=
  if isSwitch a then mkOrdered a 10000 0 r
  else mkOrdered a (getActionPriority next a (lookupMove moves (a_moveId a)))
         (creatureSpeed next (a_playerId a)) r.

(** The keyed actions when the draws start [off] draws after [g]. *)
Fixpoint keyedFrom (moves : JsObj Move) (next : State) (g : RngSt) (off : nat)
    (actions : list Action) : list Ordered :=
  match actions with
  | [] => []
  | a :: rest => keyOf moves next a (drawAt g off) :: keyedFrom moves next g (S off) rest
  end.

(** Alpha seeded by p2's Leech Seed, Beta at full hit points. *)
Definition exSeededState : State :=
  createBattleState
    [mkPlayerInput "p1" "A"
       [setStatuses alpha
          [mkStatus "leech_seed" None
             (mkStatusData (mkDataFields None None None (Some "p2") None None None None)
                None)]];
     mkPlayerInput "p2" "B" [beta]].


Definition protectCountOf (st : State) (playerId : string) : option (option Z) :=
  option_map (fun c => protectSuccessCount (c_volatileData c))
    (currentCreature st playerId).

Definition withEvs (o : Options) (evs : option BaseStats) : Options :=
  mkOptions (op_moves o) (op_ability o) (op_name o) (op_level o) (op_item o) evs.

(** Whether [rollCritical] draws: not for the Parental Bond follow-up, and
    only at a positive crit stage. *)
Definition rollsCrit (st : State) (tgt : Creature) (ctx : Ctx) : bool :=
  andb (negb (parentalBondHit ctx)) (negb (Qle_bool (critStageOf st tgt ctx) 0)).

(** The number of draws of one hit after its accuracy roll. *)
Definition hitDraws (st : State) (tgt : Creature) (ctx : Ctx) : nat :=
  (if rollsCrit st tgt ctx then 1 else 0)
  + (if Qeq_bool (getTypeEffectiveness (moveType_ (move ctx)) (c_types tgt)) 0
     then 0 else 1).

(** The events of a hit whose rolls are the draws that follow [g]. *)
Definition hitEvents (st : State) (power : option Q) (name : option string) (ctx : Ctx)
    (g : RngSt) (att tgt : Creature) : list Event :=
  let k := if rollsCrit st tgt ctx then 1%nat else 0%nat in
  let crit := if rollsCrit st tgt ctx
              then isCritRoll (critStageOf st tgt ctx) (drawAt g 1) else false in
  let amount :=
    if Qeq_bool (getTypeEffectiveness (moveType_ (move ctx)) (c_types tgt)) 0 then 0
    else damageFormula power att tgt st ctx crit (drawAt g (1 + k)) in
  [ EvLog (match attacker ctx with Some a => c_name a | None => "Unknown" end
           +++ " used " +++ orDefault (moveName_ (move ctx)) (orDefault name "move") +++ "!")
      (ctxMeta ctx);
    EvDamage (targetPlayerId ctx) amount
      (damageMeta (attackerPlayerId ctx) (targetPlayerId ctx) (moveId_ (move ctx))
         false false) ].

(** [x] has at least the priority key of [y]. *)
Definition prioGe (x y : Ordered) : Prop := (o_priority y <= o_priority x)%Q.



(** * Frames and predicates used by the further properties *)

(** What no event writes on a creature: identity, level, types, moves,
    ability, item, maximum hit points, PP and base stats. *)
Definition creatureFrame (c : Creature) :=
  (c_id c, c_name c, c_speciesId c, c_level c, c_types c, c_moves c,
   (c_ability c, c_item c, c_maxHp c, c_movePp c),
   (c_attack c, c_defense c, c_spAttack c, c_spDefense c, c_speed c)).

Definition playerFrame (p : Player) :=
  (p_id p, p_name p, map creatureFrame (p_team p)).

Definition stateFrame (s : State) :=
  (map playerFrame (players s), turn s, history s).

(** [activeSlot] is an index into the team. *)
Definition slotOk (p : Player) : bool :=
  andb (0 <=? p_activeSlot p) (p_activeSlot p <? Z.of_nat (List.length (p_team p))).

Definition validSlots (s : State) : bool := forallb slotOk (players s).

(** The number of entries of a status id on a creature. *)
Definition statusCount (c : Creature) (statusId : string) : nat :=
  countId statusId (c_statuses c).

(** Every stage of a stage map lies in [-6, 6]. *)
Definition stagesInRange (st : Stages) : bool :=
  forallb (fun kv => andb (-6 <=? snd kv) (snd kv <=? 6)) st.

(** The multiplier one defender type contributes for a move type: x2 when
    the defender is weak to it, x1/2 when it resists it. *)
Definition typeFactor (moveKey targetType : string) : Q :=
  match objGet typeChart targetType with
  | None => 1%Q
  | Some chart =>
      ((if includes (weakTo chart) moveKey then 2 else 1)
       * (if includes (resists chart) moveKey then 1 # 2 else 1))%Q
  end.

(** The exponent of 2 in [typeFactor]. *)
Definition typeExponent (moveKey targetType : string) : Z :=
  match objGet typeChart targetType with
  | None => 0
  | Some chart =>
      (if includes (weakTo chart) moveKey then 1 else 0)
      - (if includes (resists chart) moveKey then 1 else 0)
  end.

Definition exponentSum (moveKey : string) (targets : list string) : Z :=
  fold_right (fun t acc => typeExponent moveKey t + acc) 0 targets.

(** The abilities that intercept or react to events ([onTryHit],
    [onAfterEvent]). *)
Definition reactiveAbilities : list string :=
  ["magic_bounce"; "lightning_rod"; "stamina"; "cotton_down"; "berserk"; "competitive";
   "opportunist"].

(** What is left of a status after [k] duration ticks. *)
Definition agedStatus (k : nat) (s : Status) : list Status :=
  match k, s_remainingTurns s with
  | O, _ => [s]
  | _, None => [s]
  | _, Some n =>
      if Z.of_nat k <? n
      then [mkStatus (s_id s) (Some (n - Z.of_nat k)) (s_data s)]
      else []
  end.

(** An event that Protect guards a player against: a damage, status or
    stage event aimed at the player by another source. *)
Definition foreignProtected (playerId : string) (ev : Event) : bool :=
  andb (optEqb String.eqb (eventTargetId ev) (Some playerId))
       (andb (protectedType (eventType ev))
             (negb (optEqb String.eqb (mt_source (eventMeta ev)) (Some playerId)))).

(** The event types of which such an event is among [events]. *)
Definition blockedTypes (playerId : string) (events : list Event) : list string :=
  map eventType (filter (foreignProtected playerId) events).

Definition protectLog (active : Creature) : Event :=
  logEvent (c_name active +++ " protected itself!").

(** [events] with every event aimed at the player, of a blocked type,
    replaced by the Protect log line, whatever the source of the event. *)
Definition shielded (playerId : string) (active : Creature) (events : list Event)
    : list Event :=
  flat_map
    (fun ev =>
       if andb (optEqb String.eqb (eventTargetId ev) (Some playerId))
               (includes (blockedTypes playerId events) (eventType ev))
       then [protectLog active] else [ev])
    events.

(** The transform Protect registers for an event type. *)
Definition protectTransform (playerId : string) (active : Creature) (type : string)
    : Transform :=
  mkTransform "replace_event" (Some type) (Some playerId) (Some [protectLog active]) None.

(** * ai/eval.js and ai/minimax.js: the callers that read the battle state *)

Definition AILMENTS : list string := ["poison"; "burn"; "paralysis"; "sleep"; "freeze"].

(** The body of the loop of [calculatePlayerScore] for one creature.  The
    ratio [hp / maxHp] is the exact quotient; a living creature with
    [maxHp = 0] (not a number in JavaScript) is outside the model. *)
Definition scoreCreature (score : Q) (creature : Creature) : Q :=
  if c_hp creature <=? 0 then score
  else
    let score := (score + Qof (c_hp creature) / Qof (c_maxHp creature) * 100)%Q in
    let score := (score + 50)%Q in
    let score := fold_left (fun s kv => (s + Qof (snd kv) * 10)%Q) (c_stages creature) score in
    fold_left (fun s status => if includes AILMENTS (s_id status) then (s - 20)%Q else s)
      (c_statuses creature) score.

Definition calculatePlayerScore (player : Player) : Q :=
  fold_left scoreCreature (p_team player) 0%Q.

Definition teamAlive (player : Player) : bool :=
  existsb (fun c => 0 <? c_hp c) (p_team player).

(** [evaluateState] *)
Definition evaluateState (state : State) (playerId : string) : Q :=
  match findPlayer state playerId,
        find (fun p => negb (String.eqb (p_id p) playerId)) (players state) with
  | Some player, Some opponent =>
      let playerAlive := teamAlive player in
      let opponentAlive := teamAlive opponent in
      if andb (negb playerAlive) opponentAlive then (-10000)%Q
      else if andb playerAlive (negb opponentAlive) then 10000%Q
      else if andb (negb playerAlive) (negb opponentAlive) then (-5000)%Q
      else (0 + calculatePlayerScore player - calculatePlayerScore opponent)%Q
  | _, _ => 0%Q
  end.

(** A team with the index of each slot. *)
Definition indexed {A} (l : list A) : list (Z * A) :=
  combine (map Z.of_nat (seq 0 (List.length l))) l.

Definition waitAction (playerId : string) : Action :=
  mkAction playerId (Some TWait) None None None None.

(** The switches [getAvailableActions] offers: the living creatures other
    than the active one.  (The second filter of the source compares objects,
    [p !== active]; the creatures of a team are distinct objects, so this is
    the comparison of the slot with [activeSlot].) *)
Definition availableSwitches (playerId : string) (player : Player) : list Action :=
  map (fun ic => switchAction playerId (fst ic))
      (filter (fun ic => andb (0 <? c_hp (snd ic)) (negb (fst ic =? p_activeSlot player)))
              (indexed (p_team player))).

(** The moves [getAvailableActions] offers: those whose PP entry is not 0. *)
Definition availableMoves (playerId : string) (active : Creature) : list Action :=
  map (moveAction playerId)
      (filter (fun moveId => negb (optEqb (optEqb Z.eqb) (objGet (c_movePp active) moveId)
                                          (Some (Some 0))))
              (c_moves active)).

(** [getAvailableActions]; [player.team] on a missing player is a TypeError. *)
Definition getAvailableActions (state : State) (playerId : string) : Res (list Action) :=
  match findPlayer state playerId with
  | None => Throw (typeError "team")
  | Some player =>
      let switches := availableSwitches playerId player in
      match getActiveCreature state playerId with
      | None =>
          match switches with
          | [] => Ok [waitAction playerId]
          | _ => Ok switches
          end
      | Some active =>
          if orb (c_hp active <=? 0) (hasStatus active "pending_switch") then
            match switches with
            | [] =>
                if c_hp active <=? 0 then Ok [waitAction playerId]
                else Ok (availableMoves playerId active ++ switches)
            | _ => Ok switches
            end
          else Ok (availableMoves playerId active ++ switches)
      end
  end.

(** * The roster, and what a computation of the engine may change *)

(** What a battle never writes on a creature: identity, level, moves,
    maximum hit points and base stats.  (Its types and its ability can
    change: Libero, Receiver.) *)
Definition rosterC (c : Creature) :=
  (c_id c, c_name c, c_speciesId c, c_level c, c_moves c, c_maxHp c,
   (c_attack c, c_defense c, c_spAttack c, c_spDefense c, c_speed c)).

Definition rosterP (p : Player) := (p_id p, p_name p, map rosterC (p_team p)).

Definition roster (s : State) := map rosterP (players s).

(** [s'] has the roster, the turn counter and the history of [s], and its
    log extends the log of [s]. *)
Definition grows (s s' : State) : Prop :=
  roster s' = roster s /\ turn s' = turn s /\ history s' = history s /\
  exists added, log s' = log s ++ added.

Definition growsOpt (s : State) (o : option State) : Prop :=
  match o with Some s' => grows s s' | None => True end.

(** The random source [g'] is [g] after some more draws. *)
Definition steps (g g' : RngSt) : Prop := exists k, g' = advance g k.

(** Every result of [m] satisfies [R], and [m] only draws from the random
    source. *)
Definition sound {A} (R : A -> Prop) (m : M A) : Prop :=
  forall g a g', m g = Ok (a, g') -> R a /\ steps g g'.

Definition anything {A} (_ : A) : Prop := True.

(** The state an effect returns next to its events. *)
Definition builtFrom (st : State) (b : Built) : Prop := grows st (snd b).

(** The turns recorded so far. *)
Definition recordedTurns (s : State) : list TurnRecord :=
  match history s with Some h => h_turns h | None => [] end.

Definition turnBanner (n : Z) : string := "--- Turn " +++ showZ n +++ " ---".

(** The number of effects nested in an effect: the measure of the
    recursion of [applyEffect]. *)
Fixpoint effectSize (e : Effect) : nat :=
  let sizes :=
    fix go (l : list Effect) : nat :=
      match l with
      | [] => O
      | x :: r => S (effectSize x + go r)
      end in
  match e with
  | FxChance _ thenFx elseFx =>
      S (match thenFx with Some l => sizes l | None => O end
         + match elseFx with Some l => sizes l | None => O end)
  | FxRepeat _ effects => S (match effects with Some l => sizes l | None => O end)
  | FxConditional _ thenFx elseFx =>
      S (match thenFx with Some l => sizes l | None => O end
         + match elseFx with Some l => sizes l | None => O end)
  | _ => O
  end.

Definition effectsSize (l : list Effect) : nat :=
  fold_right (fun x n => S (effectSize x + n)) O l.

Definition optEffectsSize (o : option (list Effect)) : nat :=
  match o with Some l => effectsSize l | None => O end.

(** The state a status handler returns, if any, grows from the state it
    was given. *)
Definition handled (args : HandlerArgs) (r : StatusResult) : Prop :=
  growsOpt (ha_state args) (sr_state r).

(** * ai/index.js: the default chooser and the auto battle *)

(** The nominal power of a move: the largest [power] of its damage effects;
    [None] is [-Infinity] (no damage effect). *)
Definition effectPower (e : Effect) : Q :=
  match e with
  | FxDamage power _ _ => orDefault power 0%Q
  | _ => 0%Q
  end.

Definition nominalPower (mv : Move) : option Q :=
  fold_left (fun max e => match max with
                          | None => Some (effectPower e)
                          | Some m => Some (Qmaxq m (effectPower e))
                          end)
            (filter isDamageEffect (orDefault (m_effects mv) [])) None.

(** [power > bestPower] *)
Definition beats (power bestPower : option Q) : bool :=
  match power, bestPower with
  | None, _ => false
  | Some _, None => true
  | Some p, Some b => Qgtb p b
  end.

(** The loop over [active.moves]: [(bestMoveId, bestPower)]. *)
Definition pickBest (moves : JsObj Move) (ids : list string) : option string * option Q :=
  fold_left (fun best moveId =>
               match objGet moves moveId with
               | None => best
               | Some mv =>
                   let power := nominalPower mv in
                   if beats power (snd best) then (Some moveId, power) else best
               end)
            ids (hd_error ids, None).

Definition targetedMove (playerId : string) (moveId : option string) (targetId : string)
    : Action :=
  mkAction playerId (Some TMove) moveId (Some targetId) None None.

(** The move branch of [chooseHighestPower]; an empty opponent id is falsy. *)
Definition chooseMove (moves : JsObj Move) (state : State) (playerId : string)
    (active : Creature) : option Action :=
  match find (fun p => negb (String.eqb (p_id p) playerId)) (players state) with
  | None => None
  | Some opponent =>
      if String.eqb (p_id opponent) "" then None
      else Some (targetedMove playerId (fst (pickBest moves (c_moves active))) (p_id opponent))
  end.

(** [player.team.findIndex((p, i) => p.hp > 0 && i !== player.activeSlot)] *)
Definition backupIndex (player : Player) : option nat :=
  findIndex (fun ic => andb (0 <? c_hp (snd ic)) (negb (fst ic =? p_activeSlot player)))
            (indexed (p_team player)).

(** [chooseHighestPower] *)
Definition chooseHighestPower (moves : JsObj Move) (state : State) (playerId : string)
    : option Action :=
  match findPlayer state playerId with
  | None => None
  | Some player =>
      match getActiveCreature state playerId with
      | None =>
          match backupIndex player with
          | Some i => Some (switchAction playerId (Z.of_nat i))
          | None => Some (waitAction playerId)
          end
      | Some active =>
          if orb (c_hp active <=? 0) (hasStatus active "pending_switch") then
            match backupIndex player with
            | Some i => Some (switchAction playerId (Z.of_nat i))
            | None =>
                if c_hp active <=? 0 then Some (waitAction playerId)
                else chooseMove moves state playerId active
            end
          else chooseMove moves state playerId active
      end
  end.

(** The actions of one turn of [runAutoBattle]: one per player that the
    chooser gives an action. *)
Definition chosenActions (chooser : State -> string -> option Action) (next : State)
    : list Action :=
  flat_map (fun player => match chooser next (p_id player) with
                          | Some action => [action]
                          | None => []
                          end)
           (players next).

(** The [while] loop of [runAutoBattle]; [left] is [100 - turns]. *)
Fixpoint autoLoop (moves : JsObj Move) (fuel : nat) (left : nat)
    (chooser : State -> string -> option Action) (next : State)
    (src : nat -> Q) (pos : nat) : Res (State * nat) :=
  match left with
  | O => Ok (next, pos)
  | S left' =>
      if isBattleOver next then Ok (next, pos)
      else
        match chosenActions chooser next with
        | [] => Ok (next, pos)
        | actions =>
            resBind (stepBattle moves fuel next actions src pos true)
              (fun r => autoLoop moves fuel left' chooser (fst r) src (snd r))
        end
  end.

(** [runAutoBattle(state, rng, chooser)] on a random source that has made
    [pos] draws so far. *)
Definition runAutoBattle (moves : JsObj Move) (fuel : nat) (state : State)
    (src : nat -> Q) (pos : nat) (chooser : State -> string -> option Action)
    : Res (State * nat) :=
  autoLoop moves fuel 100 chooser state src pos.

(** * Properties *)

(** ** Arrays and the player list *)

Lemma arrGet_arrUpd {A} (l : list A) (i : Z) (f : A -> A) :
  arrGet (arrUpd l i f) i = option_map f (arrGet l i).
Proof.
  unfold arrGet, arrUpd. destruct (i <? 0); [reflexivity|].
  generalize (Z.to_nat i) as n. clear i.
  induction l as [|x l IH]; intros [|n]; simpl; auto.
Qed.

Lemma arrGet_in_range {A} (l : list A) (i : Z) :
  0 <= i < Z.of_nat (List.length l) <-> exists x, arrGet l i = Some x.
Proof.
  unfold arrGet. destruct (Z.ltb_spec i 0) as [Hneg|Hpos].
  - split; [lia|intros [x Hx]; discriminate].
  - split.
    + intros [_ Hlt].
      destruct (nth_error l (Z.to_nat i)) eqn:E; [eauto|].
      apply nth_error_None in E. lia.
    + intros [x Hx]. split; [assumption|].
      assert (Z.to_nat i < List.length l)%nat by (apply nth_error_Some; congruence).
      lia.
Qed.

Lemma find_updFirst {A} (p : A -> bool) (f : A -> A) (l : list A) :
  (forall x, p x = true -> p (f x) = true) ->
  find p (updFirst p f l) = option_map f (find p l).
Proof.
  intros Hp. induction l as [|x l IH]; simpl; [reflexivity|].
  destruct (p x) eqn:E; simpl.
  - rewrite (Hp x E). reflexivity.
  - rewrite E. exact IH.
Qed.

Lemma findPlayer_updPlayer (s : State) (playerId : string) (g : Player -> Player) :
  (forall p, p_id (g p) = p_id p) ->
  findPlayer (updPlayer s playerId g) playerId = option_map g (findPlayer s playerId).
Proof.
  intros Hid. unfold findPlayer, updPlayer. simpl.
  apply find_updFirst. intros x Hx. rewrite Hid. exact Hx.
Qed.

Lemma getActive_updActive (s : State) (playerId : string) (f : Creature -> Creature) :
  getActiveCreature (updActive s playerId f) playerId
  = option_map f (getActiveCreature s playerId).
Proof.
  unfold getActiveCreature, updActive.
  rewrite findPlayer_updPlayer by reflexivity.
  destruct (findPlayer s playerId) as [p|]; simpl; [|reflexivity].
  unfold activeOf. simpl. apply arrGet_arrUpd.
Qed.

Lemma getActive_updPlayer (s : State) (playerId : string) (g : Player -> Player) :
  (forall p, p_id (g p) = p_id p) ->
  (forall p, activeOf (g p) = activeOf p) ->
  getActiveCreature (updPlayer s playerId g) playerId = getActiveCreature s playerId.
Proof.
  intros Hid Hact. unfold getActiveCreature.
  rewrite findPlayer_updPlayer by exact Hid.
  destruct (findPlayer s playerId) as [p|]; simpl; [apply Hact|reflexivity].
Qed.

Lemma findPlayer_pushLog (s : State) (line playerId : string) :
  findPlayer (pushLog s line) playerId = findPlayer s playerId.
Proof. reflexivity. Qed.

Lemma getActive_pushLog (s : State) (line playerId : string) :
  getActiveCreature (pushLog s line) playerId = getActiveCreature s playerId.
Proof. reflexivity. Qed.

Lemma hasStatus_pushPendingSwitch (c : Creature) :
  hasStatus (pushPendingSwitch c) "pending_switch" = true.
Proof.
  unfold pushPendingSwitch. destruct (hasStatus c "pending_switch") eqn:E; [exact E|].
  unfold hasStatus. simpl. rewrite existsb_app. simpl. apply orb_true_r.
Qed.

(** The hit points after a damage event on an existing target. *)
Lemma applyEvent_damage_hp (st : State) (targetId : string) (amount : Z) (meta : Meta)
    (tgt : Creature) :
  getActiveCreature st targetId = Some tgt ->
  exists st' tgt',
    applyEvent st (EvDamage targetId amount meta) = Ok st' /\
    getActiveCreature st' targetId = Some tgt' /\
    c_hp tgt' = Z.max 0 (c_hp tgt - amount).
Proof.
  intros Hact. unfold applyEvent. rewrite Hact.
  destruct (Z.max 0 (c_hp tgt - amount) =? 0).
  - eexists. eexists. split; [reflexivity|]. split.
    + rewrite getActive_updActive.
      rewrite getActive_updPlayer by reflexivity.
      rewrite !getActive_pushLog, getActive_updActive, Hact. reflexivity.
    + unfold pushPendingSwitch. destruct (hasStatus _ _); reflexivity.
  - eexists. eexists. split; [reflexivity|]. split.
    + rewrite getActive_pushLog, getActive_updActive, Hact. reflexivity.
    + reflexivity.
Qed.

(** ** The damage event (C2) *)

(** C2, as the code has it: a damage event on an existing target sets
    hp to [max(0, hp - amount)] for every amount, negative ones included (a
    heal is not clamped at maxHp); hp stays non-negative, stays within maxHp
    when the amount is non-negative, and on reaching 0 the target carries a
    [pending_switch] volatile and the owner's [lastFaintedAbility] is the
    target's ability. *)
Theorem damage_event_hp (st : State) (targetId : string) (amount : Z) (meta : Meta)
    (tgt : Creature) :
  getActiveCreature st targetId = Some tgt ->
  exists st' tgt',
    applyEvent st (EvDamage targetId amount meta) = Ok st' /\
    getActiveCreature st' targetId = Some tgt' /\
    c_hp tgt' = Z.max 0 (c_hp tgt - amount) /\
    c_maxHp tgt' = c_maxHp tgt /\
    0 <= c_hp tgt' /\
    (0 <= amount -> 0 <= c_hp tgt <= c_maxHp tgt -> c_hp tgt' <= c_maxHp tgt') /\
    (c_hp tgt' = 0 ->
       hasStatus tgt' "pending_switch" = true /\
       exists owner, findPlayer st' targetId = Some owner /\
                     p_lastFaintedAbility owner = Some (c_ability tgt)) /\
    (c_hp tgt' <> 0 -> c_statuses tgt' = c_statuses tgt).
Proof.
  intros Hact. unfold applyEvent. rewrite Hact.
  destruct (Z.eqb_spec (Z.max 0 (c_hp tgt - amount)) 0) as [Hz|Hnz].
  - eexists. exists (pushPendingSwitch (setHp tgt (Z.max 0 (c_hp tgt - amount)))).
    split; [reflexivity|].
    split.
    { rewrite getActive_updActive.
      rewrite getActive_updPlayer by reflexivity.
      rewrite !getActive_pushLog, getActive_updActive, Hact. reflexivity. }
    assert (Hhp : c_hp (pushPendingSwitch (setHp tgt (Z.max 0 (c_hp tgt - amount))))
                  = Z.max 0 (c_hp tgt - amount)).
    { unfold pushPendingSwitch. destruct (hasStatus _ _); reflexivity. }
    assert (Hmax : c_maxHp (pushPendingSwitch (setHp tgt (Z.max 0 (c_hp tgt - amount))))
                   = c_maxHp tgt).
    { unfold pushPendingSwitch. destruct (hasStatus _ _); reflexivity. }
    rewrite Hhp, Hmax.
    split; [reflexivity|]. split; [reflexivity|]. split; [lia|]. split; [lia|].
    split; [|intros Hne; lia].
    intros _. split.
    + apply hasStatus_pushPendingSwitch.
    + unfold getActiveCreature in Hact.
      destruct (findPlayer st targetId) as [p|] eqn:Hp; [|discriminate].
      eexists. split.
      * unfold updActive.
        rewrite findPlayer_updPlayer by reflexivity.
        rewrite findPlayer_updPlayer by reflexivity.
        rewrite !findPlayer_pushLog.
        rewrite findPlayer_updPlayer by reflexivity.
        rewrite Hp. reflexivity.
      * reflexivity.
  - eexists. exists (setHp tgt (Z.max 0 (c_hp tgt - amount))).
    split; [reflexivity|].
    split.
    { rewrite getActive_pushLog, getActive_updActive, Hact. reflexivity. }
    simpl.
    split; [reflexivity|]. split; [reflexivity|]. split; [lia|]. split; [lia|].
    split; [intros Hz; contradiction|reflexivity].
Qed.

(** The applier at a concrete damage event: Alpha (50/100) takes 30. *)
Lemma damage_event_hp_witness :
  getActiveCreature exState "p1" = Some alpha /\
  exists st' tgt',
    applyEvent exState (EvDamage "p1" 30 noMeta) = Ok st' /\
    getActiveCreature st' "p1" = Some tgt' /\
    c_hp tgt' = Z.max 0 (c_hp alpha - 30) /\
    c_maxHp tgt' = c_maxHp alpha /\
    0 <= c_hp tgt' /\
    (0 <= 30 -> 0 <= c_hp alpha <= c_maxHp alpha -> c_hp tgt' <= c_maxHp tgt') /\
    (c_hp tgt' = 0 ->
       hasStatus tgt' "pending_switch" = true /\
       exists owner, findPlayer st' "p1" = Some owner /\
                     p_lastFaintedAbility owner = Some (c_ability alpha)) /\
    (c_hp tgt' <> 0 -> c_statuses tgt' = c_statuses alpha).
Proof.
  split; [reflexivity|].
  apply (damage_event_hp exState "p1" 30 noMeta alpha). reflexivity.
Defined.

(** C2 as stated fails: a damage event with amount -80 on Alpha (50/100)
    leaves hp 130, above maxHp 100; and a turn of the resolver in which Leech
    Seed drains Alpha heals Beta from 100/100 to 112/100. *)
Lemma damage_heal_exceeds_maxHp :
  (exists st',
     applyEvent exState (EvDamage "p1" (-80) noMeta) = Ok st' /\
     option_map (fun c => (c_hp c, c_maxHp c)) (getActiveCreature st' "p1")
     = Some (130, 100)) /\
  exists final n,
    stepBattle exMoves 1 exSeededState [] (listRng []) 0 true = Ok (final, n) /\
    log final = [ "--- Turn 1 ---"; "Alpha's health is sapped by Leech Seed!";
                  "Alpha took 12 damage (50 -> 38)"; "Beta took -12 damage (100 -> 112)" ] /\
    option_map (fun c => (c_hp c, c_maxHp c)) (getActiveCreature final "p2")
    = Some (112, 100).
Proof.
  split; [eexists; split; reflexivity|].
  eexists. eexists. split; [vm_compute; reflexivity|]. split; vm_compute; reflexivity.
Qed.

(** ** The switch event (C10) *)

(** C10: on a switch event naming an existing player, a slot inside the
    team makes the applier succeed (outgoing creature reset, [activeSlot]
    moved, one log line); a slot outside the team makes it throw while it
    formats the log line, instead of returning a state. *)
Theorem switch_event_needs_valid_slot (st : State) (playerId : string) (slot : Z)
    (player : Player) :
  findPlayer st playerId = Some player ->
  (0 <= slot < Z.of_nat (List.length (p_team player)) ->
   exists st' player' incoming,
     applyEvent st (EvSwitch playerId slot) = Ok st' /\
     arrGet (p_team player) slot = Some incoming /\
     findPlayer st' playerId = Some player' /\
     p_activeSlot player' = slot /\
     p_team player' = arrUpd (p_team player) (p_activeSlot player) resetOutgoing /\
     log st' = log st ++ [p_name player +++ " sent out " +++ c_name incoming +++ "!"] /\
     forall outgoing,
       arrGet (p_team player) (p_activeSlot player) = Some outgoing ->
       exists outgoing',
         arrGet (p_team player') (p_activeSlot player) = Some outgoing' /\
         c_stages outgoing' = zeroStages /\
         c_statuses outgoing'
         = filter (fun s => includes NON_VOLATILE (s_id s)) (c_statuses outgoing) /\
         c_abilityData outgoing' = [] /\
         c_volatileData outgoing' = noVolatile) /\
  (~ 0 <= slot < Z.of_nat (List.length (p_team player)) ->
   applyEvent st (EvSwitch playerId slot) = Throw typeErrorName).
Proof.
  intros Hp. unfold applyEvent. rewrite Hp. split.
  - intros Hrange. apply arrGet_in_range in Hrange. destruct Hrange as [inc Hinc].
    rewrite Hinc. do 3 eexists.
    split; [reflexivity|]. split; [reflexivity|].
    split.
    { rewrite findPlayer_pushLog, findPlayer_updPlayer by reflexivity.
      rewrite Hp. reflexivity. }
    split; [reflexivity|]. split; [reflexivity|]. split; [reflexivity|].
    intros outgoing Hout. simpl. rewrite arrGet_arrUpd, Hout. simpl.
    eexists. split; [reflexivity|]. repeat split.
  - intros Hout. destruct (arrGet (p_team player) slot) as [inc|] eqn:E; [|reflexivity].
    exfalso. apply Hout. apply arrGet_in_range. eauto.
Qed.

(** The switch event at Alpha -> Gamma (slot 1 of a team of two). *)
Lemma switch_event_needs_valid_slot_witness :
  findPlayer exBenchState "p1" = Some (mkPlayer "p1" "A" [alpha; gamma] 0 None) /\
  0 <= 1 < Z.of_nat (List.length [alpha; gamma]) /\
  ~ 0 <= 2 < Z.of_nat (List.length [alpha; gamma]) /\
  (exists st', applyEvent exBenchState (EvSwitch "p1" 1) = Ok st') /\
  applyEvent exBenchState (EvSwitch "p1" 2) = Throw typeErrorName.
Proof.
  split; [reflexivity|]. split; [simpl; lia|]. split; [simpl; lia|].
  split.
  - destruct (switch_event_needs_valid_slot exBenchState "p1" 1
                (mkPlayer "p1" "A" [alpha; gamma] 0 None) eq_refl) as [Hin _].
    destruct Hin as (st' & _ & _ & Hok & _); [simpl; lia|].
    exists st'. exact Hok.
  - destruct (switch_event_needs_valid_slot exBenchState "p1" 2
                (mkPlayer "p1" "A" [alpha; gamma] 0 None) eq_refl) as [_ Hout].
    apply Hout. simpl. lia.
Defined.

(** ** Weather entries of the field (C6) *)

Lemma filter_filter_neg {A} (p : A -> bool) (l : list A) :
  filter p (filter (fun x => negb (p x)) l) = [].
Proof.
  induction l as [|x l IH]; simpl; [reflexivity|].
  destruct (p x) eqn:E; simpl; [exact IH|]. rewrite E. exact IH.
Qed.

Lemma filter_idem {A} (p : A -> bool) (l : list A) :
  filter p (filter p l) = filter p l.
Proof.
  induction l as [|x l IH]; simpl; [reflexivity|].
  destruct (p x) eqn:E; simpl; [rewrite E; f_equal|]; exact IH.
Qed.

Lemma findIndexFrom_some {A} (p : A -> bool) (l : list A) (i k : nat) :
  findIndexFrom p l i = Some k -> (0 < List.length (filter p l))%nat.
Proof.
  revert i. induction l as [|x l IH]; intros i; simpl; [discriminate|].
  destruct (p x); simpl; [lia|]. apply IH.
Qed.

Lemma findIndexFrom_none {A} (p : A -> bool) (l : list A) (i : nat) :
  findIndexFrom p l i = None -> filter p l = [].
Proof.
  revert i. induction l as [|x l IH]; intros i; simpl; [reflexivity|].
  destruct (p x); [discriminate|]. apply IH.
Qed.

(** Replacing the first match of [p] by another match keeps the count of
    matches and the non-matching elements. *)
Lemma findIndexFrom_replace {A} (p : A -> bool) (y : A) (l : list A) (i k : nat) :
  p y = true ->
  findIndexFrom p l i = Some (i + k)%nat ->
  List.length (filter p (updNat l k (fun _ => y))) = List.length (filter p l) /\
  filter (fun x => negb (p x)) (updNat l k (fun _ => y)) = filter (fun x => negb (p x)) l.
Proof.
  intros Hy. revert i k. induction l as [|x l IH]; intros i k; simpl; [discriminate|].
  destruct (p x) eqn:E.
  - intros H. injection H as H. assert (k = 0)%nat by lia. subst k. simpl.
    rewrite Hy. simpl. split; reflexivity.
  - intros H. destruct k as [|k].
    + exfalso. clear IH.
      assert (Hge : forall (l' : list A) (a b : nat),
                 findIndexFrom p l' a = Some b -> (a <= b)%nat).
      { induction l' as [|z l' IH']; simpl; intros a b Hab; [discriminate|].
        destruct (p z); [injection Hab; lia|]. apply IH' in Hab. lia. }
      apply Hge in H. lia.
    + simpl. rewrite E. simpl.
      destruct (IH (S i) k) as [IH1 IH2]; [rewrite H; f_equal; lia|].
      split; [exact IH1|f_equal; exact IH2].
Qed.





(** ** The effect compiler *)

(** *** damage_ratio (C5) *)

Lemma floor_of_nonpositive (m : Z) (r : Q) :
  0 <= m -> (r < 0)%Q -> Qfloor (Qof m * r) <= 0.
Proof.
  intros Hm Hr.
  change 0 with (Qfloor 0). apply Qfloor_resp_le.
  unfold Qle, Qlt, Qof in *. simpl in *. nia.
Qed.

(** C5: the effect compiler departs from the documented behaviour of
    damage_ratio, "Negative ratio heals".  For every negative [ratioMaxHp]
    (and a target whose [maxHp] is not negative) the product
    [maxHp * ratioMaxHp] is not positive, so its floor is at most 0 and
    [Math.max(1, ...)] makes the amount 1: the effect compiles, without
    drawing, to one damage event of amount 1, and the applier lowers the
    target's hp by 1 (not below 0) instead of raising it. *)
Theorem negative_ratio_deals_one_damage (st : State) (ratioMaxHp : Q)
    (target : option string) (ctx : Ctx) (g : RngSt) (tgt : Creature) :
  currentCreature st (resolveTarget target ctx) = Some tgt ->
  (ratioMaxHp < 0)%Q ->
  0 <= c_maxHp tgt ->
  let targetId := resolveTarget target ctx in
  let event := EvDamage targetId 1
                 (damageMeta (attackerPlayerId ctx) targetId (moveId_ (move ctx))
                    false false) in
  applyEffect st (FxDamageRatio (Some ratioMaxHp) target) ctx g = Ok (([event], st), g) /\
  exists st' tgt',
    applyEvent st event = Ok st' /\
    getActiveCreature st' targetId = Some tgt' /\
    c_hp tgt' = Z.max 0 (c_hp tgt - 1) /\
    c_hp tgt' <= Z.max 0 (c_hp tgt) /\
    (0 < c_hp tgt -> c_hp tgt' < c_hp tgt).
Proof.
  intros Hcur Hneg Hmax targetId event.
  split.
  { cbn [applyEffect]. unfold fxDamageRatio. rewrite Hcur. cbn [orDefault].
    pose proof (floor_of_nonpositive (c_maxHp tgt) ratioMaxHp Hmax Hneg) as Hfloor.
    rewrite (Z.max_l 1 _) by lia. reflexivity. }
  destruct (applyEvent_damage_hp st targetId 1
              (damageMeta (attackerPlayerId ctx) targetId (moveId_ (move ctx)) false false)
              tgt Hcur)
    as (st' & tgt' & Hok & Hget & Hhp).
  exists st', tgt'.
  split; [exact Hok|]. split; [exact Hget|]. split; [exact Hhp|].
  split; [rewrite Hhp; lia|]. intros Hpos. rewrite Hhp. lia.
Qed.

(** *** protect (C8) *)

Lemma halve_power (n : nat) (q : Q) : (halve n q == q * (1 # 2) ^ Z.of_nat n)%Q.
Proof.
  revert q. induction n as [|n IH]; intros q.
  - simpl. ring.
  - cbn [halve]. rewrite IH.
    replace (Z.of_nat (S n)) with (Z.of_nat n + 1) by lia.
    rewrite Qpower_plus by discriminate.
    rewrite Qpower_1_r. ring.
Qed.

Lemma Qgtb_false_iff (a b : Q) : Qgtb a b = false <-> (a <= b)%Q.
Proof.
  unfold Qgtb. rewrite negb_false_iff. apply Qle_bool_iff.
Qed.

(** C8: with the attacker's consecutive-success counter at [count], the
    protect effect makes exactly one draw [r]; it succeeds exactly when
    [r <= 0.5^count]: then the counter becomes [count + 1] and one
    [apply_status] event for a [protect] volatile of duration 1 on the
    attacker is emitted; otherwise the counter becomes 0 and the only event is
    the failure log line. *)
Theorem protect_semantics (st : State) (ctx : Ctx) (g : RngSt) (att a : Creature)
    (count : Z) :
  currentCreature st (attackerPlayerId ctx) = Some att ->
  attacker ctx = Some a ->
  orDefault (protectSuccessCount (c_volatileData att)) 0 = count ->
  0 <= count ->
  let r := rng_src g (rng_pos g) in
  let g1 := mkRng (rng_src g) (S (rng_pos g)) (rng_log g ++ [r]) in
  exists events st',
    applyEffect st FxProtect ctx g = Ok ((events, st'), g1) /\
    ((r <= (1 # 2) ^ count)%Q ->
     events = [EvApplyStatus (attackerPlayerId ctx) "protect" (Some 1) None None
                 (ctxMeta ctx)] /\
     protectCountOf st' (attackerPlayerId ctx) = Some (Some (count + 1))) /\
    (~ (r <= (1 # 2) ^ count)%Q ->
     events = [logEvent (c_name a +++ "'s protect failed!")] /\
     protectCountOf st' (attackerPlayerId ctx) = Some (Some 0)).
Proof.
  intros Hcur Hatt Hcount Hpos r g1.
  assert (Hchance : (halve (Z.to_nat count) 1 == (1 # 2) ^ count)%Q).
  { rewrite halve_power. rewrite Z2Nat.id by exact Hpos. ring. }
  assert (Hget : forall f, protectCountOf (updActive st (attackerPlayerId ctx) f)
                             (attackerPlayerId ctx)
                           = Some (protectSuccessCount (c_volatileData (f att)))).
  { intros f. unfold protectCountOf.
    change (currentCreature ?s ?p) with (getActiveCreature s p).
    rewrite getActive_updActive.
    change (getActiveCreature st (attackerPlayerId ctx))
      with (currentCreature st (attackerPlayerId ctx)).
    rewrite Hcur. reflexivity. }
  cbn [applyEffect]. unfold fxProtect. rewrite Hcur, Hcount.
  unfold bind, draw. cbn [resBind fst snd]. fold r. fold g1.
  destruct (Qgtb r (halve (Z.to_nat count) 1)) eqn:E.
  - unfold attackerName. rewrite Hatt. unfold ret, built. cbn [resBind fst snd].
    do 2 eexists. split; [reflexivity|]. split.
    + intros Hle. exfalso.
      assert (Qgtb r (halve (Z.to_nat count) 1) = false) as Hf.
      { apply Qgtb_false_iff. rewrite Hchance. exact Hle. }
      congruence.
    + intros _. split; [reflexivity|]. apply Hget.
  - unfold built, ret. do 2 eexists. split; [reflexivity|]. split.
    + intros _. split; [reflexivity|]. apply Hget.
    + intros Hnle. exfalso. apply Hnle.
      apply Qgtb_false_iff in E. rewrite <- Hchance. exact E.
Qed.

(** The theorem at ratio -1/2 aimed by Alpha (50/100) at itself: a damage
    event of amount 1, which lowers Alpha's hp to 49 where the documented
    behaviour is a heal. *)
Lemma negative_ratio_does_not_heal :
  currentCreature exState (resolveTarget (Some "self") (exCtx None)) = Some alpha /\
  (-1 # 2 < 0)%Q /\
  0 <= c_maxHp alpha /\
  applyEffect exState (FxDamageRatio (Some (-1 # 2)%Q) (Some "self")) (exCtx None) (exRng [])
  = Ok (([EvDamage "p1" 1 (damageMeta "p1" "p1" None false false)], exState), exRng []) /\
  exists st' tgt',
    applyEvent exState (EvDamage "p1" 1 (damageMeta "p1" "p1" None false false)) = Ok st' /\
    getActiveCreature st' "p1" = Some tgt' /\
    c_hp tgt' = 49.
Proof.
  split; [reflexivity|]. split; [reflexivity|]. split; [discriminate|].
  destruct (negative_ratio_deals_one_damage exState (-1 # 2)%Q (Some "self") (exCtx None)
              (exRng []) alpha eq_refl eq_refl ltac:(discriminate))
    as (Hfx & st' & tgt' & Hok & Hget & Hhp & _).
  split; [exact Hfx|]. exists st', tgt'.
  split; [exact Hok|]. split; [exact Hget|exact Hhp].
Defined.

(** The protect theorem at a first use (counter unset) with draw 1/2. *)
Lemma protect_semantics_witness :
  currentCreature exState (attackerPlayerId (exCtx None)) = Some alpha /\
  attacker (exCtx None) = Some alpha /\
  orDefault (protectSuccessCount (c_volatileData alpha)) 0 = 0 /\
  0 <= 0 /\
  exists events st',
    applyEffect exState FxProtect (exCtx None) (exRng [(1 # 2)%Q])
    = Ok ((events, st'), mkRng (listRng [(1 # 2)%Q]) 1 [(1 # 2)%Q]).
Proof.
  split; [reflexivity|]. split; [reflexivity|]. split; [reflexivity|]. split; [lia|].
  destruct (protect_semantics exState (exCtx None) (exRng [(1 # 2)%Q]) alpha alpha 0
              eq_refl eq_refl eq_refl (Z.le_refl 0)) as (events & st' & Hok & _).
  exists events, st'. exact Hok.
Defined.

(** ** The creature factory (C9) *)

(** C9, as the code has it: [createCreature] never reads an [evs] option,
    so the result is the same whatever EVs the caller supplies (none is
    validated, none enters a stat); it fails exactly when move validation
    fails, and on success every stat is the level-50 formula at IV 31, EV 0. *)
Theorem createCreature_ignores_evs (moves : JsObj Move) (learnsets : JsObj (list string))
    (species : SpeciesData) (options : Options) (evs : option BaseStats) (suffix : string) :
  createCreature moves learnsets species (withEvs options evs) suffix
  = createCreature moves learnsets species options suffix /\
  (forall err,
     createCreature moves learnsets species options suffix = Throw err <->
     validateMoves moves learnsets (sp_id species) (orDefault (op_moves options) [])
     = Throw err) /\
  createCreature moves learnsets species options suffix <> Timeout /\
  forall c,
    createCreature moves learnsets species options suffix = Ok c ->
    let b := sp_baseStats species in
    c_maxHp c = (bs_hp b * 2 + 31) * 50 / 100 + 60 /\
    c_hp c = c_maxHp c /\
    c_attack c = (bs_atk b * 2 + 31) * 50 / 100 + 5 /\
    c_defense c = (bs_def b * 2 + 31) * 50 / 100 + 5 /\
    c_spAttack c = (bs_spa b * 2 + 31) * 50 / 100 + 5 /\
    c_spDefense c = (bs_spd b * 2 + 31) * 50 / 100 + 5 /\
    c_speed c = (bs_spe b * 2 + 31) * 50 / 100 + 5.
Proof.
  split; [reflexivity|].
  unfold createCreature.
  destruct (validateMoves moves learnsets (sp_id species) (orDefault (op_moves options) []))
    as [validated|e|] eqn:E; cbn [resBind].
  - split; [intros err; split; discriminate|]. split; [discriminate|].
    intros c Hc. injection Hc as Hc. subst c. cbn.
    unfold calcStat. rewrite !Z.add_0_r. repeat split; try reflexivity; lia.
  - split; [intros err; split; intros H; injection H as H; subst; reflexivity|].
    split; [discriminate|].
    intros c Hc. discriminate.
  - exfalso. revert E. unfold validateMoves.
    destruct (orDefault (op_moves options) []); [discriminate|].
    destruct (objGet learnsets (sp_id species)); [|discriminate].
    destruct (filter _ _); [|discriminate].
    destruct (filter _ _); discriminate.
Qed.

(** C9 as stated fails: EVs of 300 in every stat (over both caps) are
    accepted, and the creature has the stats of the EV-free one (hp 155 for
    base 80). *)
Lemma evs_over_the_caps_are_accepted :
  exists c,
    createCreature exMoves exLearnsets exSpecies
      (exOptions (Some (mkBaseStats 300 300 300 300 300 300))) "abcde" = Ok c /\
    createCreature exMoves exLearnsets exSpecies (exOptions None) "abcde" = Ok c /\
    c_maxHp c = 155 /\ c_attack c = 90.
Proof. eexists. repeat split; reflexivity. Qed.

(** The factory at the example species, with and without EVs over the
    caps. *)
Lemma createCreature_ignores_evs_witness :
  createCreature exMoves exLearnsets exSpecies
    (withEvs (exOptions None) (Some (mkBaseStats 300 300 300 300 300 300))) "abcde"
  = createCreature exMoves exLearnsets exSpecies (exOptions None) "abcde" /\
  createCreature exMoves exLearnsets exSpecies (exOptions None) "abcde" <> Timeout.
Proof.
  destruct (createCreature_ignores_evs exMoves exLearnsets exSpecies (exOptions None)
              (Some (mkBaseStats 300 300 300 300 300 300)) "abcde") as (Hsame & _ & Hno & _).
  split; [exact Hsame|exact Hno].
Defined.

(** ** The damage effect (C7) *)

Lemma typeLoop_immune (moveKey : string) (targets : list string) (m : Q) :
  existsb (fun t => match objGet typeImmunities t with
                    | Some imm => includes imm moveKey
                    | None => false
                    end) targets = true ->
  typeLoop moveKey targets m = 0%Q.
Proof.
  revert m. induction targets as [|t rest IH]; intros m; cbn [typeLoop existsb];
    [discriminate|].
  destruct (match objGet typeImmunities t with
            | Some imm => includes imm moveKey
            | None => false
            end) eqn:E; cbn [orb].
  - reflexivity.
  - intros H. destruct (objGet typeChart t); apply IH; exact H.
Qed.








(** ** Order of the random draws (C3) *)

Lemma advance_0 (g : RngSt) : advance g 0 = g.
Proof. destruct g as [src pos lg]. unfold advance. simpl. rewrite app_nil_r. reflexivity. Qed.

Lemma advance_advance (g : RngSt) (a b : nat) : advance (advance g a) b = advance g (a + b).
Proof.
  destruct g as [src pos lg]. unfold advance. simpl.
  rewrite <- app_assoc, <- map_app.
  replace (seq (a + pos) b) with (seq (pos + a) b) by (f_equal; lia).
  rewrite <- seq_app. f_equal; lia.
Qed.

Lemma drawAt_advance (g : RngSt) (a i : nat) : drawAt (advance g a) i = drawAt g (a + i).
Proof. unfold drawAt, advance. simpl. f_equal. lia. Qed.

Lemma draw_advance (g : RngSt) : draw g = Ok (drawAt g 0, advance g 1).
Proof. reflexivity. Qed.

Lemma rollCritical_draws (st : State) (att tgt : Creature) (ctx : Ctx) (g : RngSt) :
  rollCritical st att tgt ctx g
  = if rollsCrit st tgt ctx
    then Ok (isCritRoll (critStageOf st tgt ctx) (drawAt g 0), advance g 1)
    else Ok (false, g).
Proof.
  unfold rollCritical, rollsCrit.
  destruct (parentalBondHit ctx); [reflexivity|].
  destruct (Qle_bool (critStageOf st tgt ctx) 0); reflexivity.
Qed.

(** The draws of [calcDamage]: the crit roll if any, then the damage roll
    unless the target is immune. *)
Lemma calcDamage_draws (power : option Q) (att tgt : Creature) (st : State) (ctx : Ctx)
    (g : RngSt) :
  let k := if rollsCrit st tgt ctx then 1%nat else 0%nat in
  let crit := if rollsCrit st tgt ctx
              then isCritRoll (critStageOf st tgt ctx) (drawAt g 0) else false in
  calcDamage power (Some att) (Some tgt) st ctx g
  = if Qeq_bool (getTypeEffectiveness (moveType_ (move ctx)) (c_types tgt)) 0
    then Ok (0, advance g k)
    else Ok (damageFormula power att tgt st ctx crit (drawAt g k), advance g (k + 1)).
Proof.
  intros k crit. unfold calcDamage, bind at 1. rewrite rollCritical_draws.
  subst k crit. destruct (rollsCrit st tgt ctx); cbn [resBind fst snd].
  - destruct (Qeq_bool _ 0); [reflexivity|].
    unfold bind. rewrite draw_advance. cbn [resBind fst snd]. unfold ret.
    rewrite advance_advance, drawAt_advance. reflexivity.
  - destruct (Qeq_bool _ 0); [rewrite advance_0; reflexivity|].
    unfold bind. rewrite draw_advance. reflexivity.
Qed.

Lemma bind_cong {A B} (m1 m2 : M A) (k1 k2 : A -> M B) :
  (forall g, m1 g = m2 g) -> (forall a g, k1 a g = k2 a g) ->
  forall g, bind m1 k1 g = bind m2 k2 g.
Proof.
  intros Hm Hk g. unfold bind. rewrite Hm.
  destruct (m2 g) as [[a g1]|e|]; cbn [resBind fst snd]; [apply Hk|reflexivity|reflexivity].
Qed.

Lemma bind_ok {A B} (m : M A) (k : A -> M B) (g g' : RngSt) (b : B) :
  bind m k g = Ok (b, g') -> exists a g1, m g = Ok (a, g1) /\ k a g1 = Ok (b, g').
Proof.
  unfold bind. destruct (m g) as [[a g1]|e|]; cbn [resBind fst snd]; try discriminate.
  intros H. exists a, g1. split; [reflexivity|exact H].
Qed.

(** The local loop of [applyEffect] is [applyEffectsEvents]. *)
Lemma applyEffectsOf_eq (ctx : Ctx) (effects : list Effect) :
  forall (st : State) (g : RngSt),
    (fix go (effects : list Effect) (state : State) {struct effects} : M Built :=
       match effects with
       | [] => built [] state
       | eff :: rest =>
           '(evs1, state1) <- applyEffect state eff ctx ;;
           '(evs2, state2) <- go rest state1 ;;
           built (evs1 ++ evs2) state2
       end) effects st g
    = applyEffectsEvents st effects ctx g.
Proof.
  induction effects as [|eff rest IH]; intros st g; [reflexivity|].
  cbn [applyEffectsEvents]. apply bind_cong; [reflexivity|].
  intros [evs1 st1] g1. apply bind_cong; [apply IH|reflexivity].
Qed.

Lemma repeatLoop_ext (n : nat) (b1 b2 : State -> M Built) :
  (forall s g, b1 s g = b2 s g) ->
  forall st collected g, repeatLoop n b1 st collected g = repeatLoop n b2 st collected g.
Proof.
  intros Hb. induction n as [|n IH]; intros st collected g; [reflexivity|].
  cbn [repeatLoop]. apply bind_cong; [apply Hb|].
  intros [evs st1] g1. apply IH.
Qed.

Lemma fxDamage_draws (st : State) (power accuracy : option Q) (name : option string)
    (ctx : Ctx) (g : RngSt) (att tgt : Creature) :
  currentCreature st (attackerPlayerId ctx) = Some att ->
  currentCreature st (targetPlayerId ctx) = Some tgt ->
  String.eqb (c_ability att) "parental_bond" = false ->
  Qgtb (drawAt g 0)
       (runAbilityValueHook st (attackerPlayerId ctx)
          (OnModifyAccuracy (move ctx) (getMoveCategory (move ctx)) (Some tgt))
          (orDefault accuracy 1%Q)) = false ->
  applyEffect st (FxDamage power accuracy name) ctx g
  = Ok ((hitEvents st power name ctx g att tgt, st), advance g (1 + hitDraws st tgt ctx)).
Proof.
  intros Hatt Htgt Hpb Hhit.
  cbn [applyEffect]. unfold fxDamage. rewrite Hatt, Htgt, Hpb.
  unfold bind at 1. rewrite draw_advance. cbn [resBind fst snd]. rewrite Hhit.
  unfold bind. rewrite calcDamage_draws. unfold hitEvents, hitDraws.
  destruct (Qeq_bool (getTypeEffectiveness (moveType_ (move ctx)) (c_types tgt)) 0);
    cbn [resBind fst snd]; unfold built, ret;
    rewrite advance_advance, ?drawAt_advance;
    destruct (rollsCrit st tgt ctx); reflexivity.
Qed.

(** The draws of an attacker without Parental Bond.  (1) A damage effect
    draws its accuracy roll first; on a hit it then draws a crit roll only
    when the crit stage is positive, and then the damage roll (none when the
    target is immune).  (2) A repeat effect over a [{min, max}] range without
    Skill Link draws its count before anything its hits draw.  (3) A status
    proc listed after the damage effect is decided by the draw that follows
    the damage rolls. *)
Theorem rng_consumption_order (st : State) (power accuracy : option Q)
    (name : option string) (ctx : Ctx) (g : RngSt) (att tgt a : Creature)
    (min max : Z) (effects : option (list Effect))
    (statusId : string) (target : option string) (chance : Q) (stack : option bool)
    (data : option DataFields) :
  currentCreature st (attackerPlayerId ctx) = Some att ->
  currentCreature st (targetPlayerId ctx) = Some tgt ->
  attacker ctx = Some a ->
  String.eqb (c_ability att) "parental_bond" = false ->
  Qgtb (drawAt g 0)
       (runAbilityValueHook st (attackerPlayerId ctx)
          (OnModifyAccuracy (move ctx) (getMoveCategory (move ctx)) (Some tgt))
          (orDefault accuracy 1%Q)) = false ->
  runAbilityCheckHook st (attackerPlayerId ctx) OnSkillLink false = false ->
  isItemStatus statusId = false ->
  applyEffect st (FxDamage power accuracy name) ctx g
  = Ok ((hitEvents st power name ctx g att tgt, st), advance g (1 + hitDraws st tgt ctx)) /\
  (let n := min + Qfloor (drawAt g 0 * Qof (max - min + 1)) in
   applyEffect st (FxRepeat (Some (Range min max)) effects) ctx g
   = bind (repeatLoop (Z.to_nat n)
             (fun s => applyEffectsEvents s (orDefault effects []) ctx) st [])
          (fun cs => if 1 <? n
                     then built (fst cs ++ [logEvent ("Hit " +++ showZ n +++ " time(s)!")])
                            (snd cs)
                     else built (fst cs) (snd cs))
          (advance g 1)) /\
  (let proc := drawAt g (1 + hitDraws st tgt ctx) in
   applyEffectsEvents st
     [FxDamage power accuracy name; FxApplyStatus statusId target (Some chance) None stack data]
     ctx g
   = Ok ((hitEvents st power name ctx g att tgt
          ++ (if Qle_bool proc chance
              then [EvApplyStatus (resolveTarget target ctx) statusId None
                      (Some (orDefault stack false))
                      (Some (mkStatusData
                               (let d := orDefault data noData in
                                if optEqb String.eqb (d_sourceId d) (Some "self")
                                then mkDataFields (d_itemId d) (d_moveId d) (d_mode d)
                                       (Some (attackerPlayerId ctx)) (d_targetId d)
                                       (d_timing d) (d_turns d) (d_triggerTurn d)
                                else d) None))
                      (ctxMeta ctx)]
              else [EvLog (c_name a +++ "'s " +++ statusId +++ " failed to apply.")
                      (ctxMeta ctx)]),
          st),
         advance g (1 + hitDraws st tgt ctx + 1))).
Proof.
  intros Hatt Htgt Ha Hpb Hhit Hskill Hitem.
  pose proof (fxDamage_draws st power accuracy name ctx g att tgt Hatt Htgt Hpb Hhit) as Hdmg.
  split; [exact Hdmg|]. split.
  - intros n. cbn [applyEffect]. unfold repeatTimes. rewrite Hskill.
    unfold bind at 1. unfold bind at 1. rewrite draw_advance. cbn [resBind fst snd].
    unfold ret. cbn [resBind fst snd]. fold n.
    apply bind_cong.
    + intros g1. apply repeatLoop_ext. intros s g2.
      destruct effects as [l|]; [apply applyEffectsOf_eq|reflexivity].
    + intros [collected st1] g1. cbn [fst snd]. destruct (1 <? n); reflexivity.
  - intros proc. cbn [applyEffectsEvents]. unfold bind at 1. rewrite Hdmg.
    cbn [resBind fst snd]. unfold bind at 1. unfold bind at 1.
    cbn [applyEffect]. unfold fxApplyStatus. rewrite Hitem.
    unfold passesChance. unfold bind at 1. unfold bind at 1. rewrite draw_advance.
    cbn [resBind fst snd]. unfold ret at 1. cbn [resBind fst snd].
    rewrite drawAt_advance, Nat.add_0_r, advance_advance. fold proc.
    destruct (Qle_bool proc chance); cbn [negb].
    + unfold bind, ret, built. cbn [resBind fst snd]. reflexivity.
    + unfold attackerName. rewrite Ha. unfold bind, ret, built. cbn [resBind fst snd].
      reflexivity.
Qed.

(** The draws of the crit-stage-0 Tackle below, as the theorem gives
    them. *)
Lemma rng_consumption_order_witness :
  currentCreature exState (attackerPlayerId (exCtx (Some tackle))) = Some alpha /\
  currentCreature exState (targetPlayerId (exCtx (Some tackle))) = Some beta /\
  attacker (exCtx (Some tackle)) = Some alpha /\
  String.eqb (c_ability alpha) "parental_bond" = false /\
  runAbilityCheckHook exState "p1" OnSkillLink false = false /\
  isItemStatus "burn" = false /\
  applyEffect exState (FxDamage (Some 40%Q) (Some 1%Q) None) (exCtx (Some tackle))
    (exRng [(1 # 2)%Q; 1%Q; (1 # 20)%Q])
  = Ok ((hitEvents exState (Some 40%Q) None (exCtx (Some tackle))
           (exRng [(1 # 2)%Q; 1%Q; (1 # 20)%Q]) alpha beta, exState),
        advance (exRng [(1 # 2)%Q; 1%Q; (1 # 20)%Q])
          (1 + hitDraws exState beta (exCtx (Some tackle)))).
Proof.
  repeat (split; [reflexivity|]).
  exact (proj1 (rng_consumption_order exState (Some 40%Q) (Some 1%Q) None
                  (exCtx (Some tackle)) (exRng [(1 # 2)%Q; 1%Q; (1 # 20)%Q])
                  alpha beta alpha 2 5 None "burn" None (1 # 10)%Q None None
                  eq_refl eq_refl eq_refl eq_refl eq_refl eq_refl eq_refl)).
Defined.

(** C3: the effect compiler departs from the documented order of the
    draws (accuracy roll, then for each hit a crit roll and a damage roll):
    [rollCritical] returns before drawing when the crit stage is 0.  Tackle
    (crit stage 0) consumes two draws, the accuracy roll and the damage roll,
    and the amount 29 is the one of damage roll 1 (the second draw), where the
    documented order makes the second draw the crit roll; with a 10% burn proc
    behind it, the proc is decided by the third draw, not the fourth. *)
Lemma crit_stage_zero_draws_no_crit_roll :
  applyEffect exState (FxDamage (Some 40%Q) (Some 1%Q) None) (exCtx (Some tackle))
    (exRng [(1 # 2)%Q; 1%Q; (1 # 20)%Q])
  = Ok (([ EvLog "Alpha used Tackle!" (moveMeta (Some "tackle") "p1");
           EvDamage "p2" 29 (damageMeta "p1" "p2" (Some "tackle") false false) ],
         exState),
        mkRng (listRng [(1 # 2)%Q; 1%Q; (1 # 20)%Q]) 2 [(1 # 2)%Q; 1%Q]) /\
  option_map (fun r => (List.length (fst (fst r)), rng_log (snd r)))
    (match applyEffectsEvents exState
             [ FxDamage (Some 40%Q) (Some 1%Q) None;
               FxApplyStatus "burn" (Some "target") (Some (1 # 10)%Q) None None None ]
             (exCtx (Some tackle)) (exRng [(1 # 2)%Q; 1%Q; (1 # 20)%Q]) with
     | Ok r => Some r
     | _ => None
     end)
  = Some (3%nat, [(1 # 2)%Q; 1%Q; (1 # 20)%Q]).
Proof. split; reflexivity. Qed.

(** ** Action ordering (C4) *)

Lemma keyActions_keyed (moves : JsObj Move) (next : State) (actions : list Action) :
  forall (g : RngSt) (off : nat),
    keyActions moves next actions (advance g off)
    = Ok (keyedFrom moves next g off actions, advance g (off + List.length actions)).
Proof.
  induction actions as [|a rest IH]; intros g off.
  - simpl. rewrite Nat.add_0_r. reflexivity.
  - cbn [keyActions keyedFrom List.length].
    assert (Hkey : (if isSwitch a
                    then r <- draw ;; ret (mkOrdered a 10000 0 r)
                    else r <- draw ;;
                         ret (mkOrdered a
                                (getActionPriority next a (lookupMove moves (a_moveId a)))
                                (creatureSpeed next (a_playerId a)) r)) (advance g off)
                   = Ok (keyOf moves next a (drawAt g off), advance g (S off))).
    { unfold keyOf. destruct (isSwitch a); unfold bind; rewrite draw_advance;
        cbn [resBind fst snd]; unfold ret;
        rewrite advance_advance, drawAt_advance, Nat.add_0_r, Nat.add_1_r; reflexivity. }
    unfold bind at 1. rewrite Hkey. cbn [resBind fst snd].
    unfold bind. rewrite IH. cbn [resBind fst snd]. unfold ret.
    replace (S off + List.length rest)%nat with (off + S (List.length rest))%nat by lia.
    reflexivity.
Qed.

Lemma keyedFrom_actions (moves : JsObj Move) (next : State) (g : RngSt) (off : nat)
    (actions : list Action) :
  map o_action (keyedFrom moves next g off actions) = actions.
Proof.
  revert off. induction actions as [|a rest IH]; intros off; [reflexivity|].
  cbn [keyedFrom map]. rewrite IH. f_equal. unfold keyOf. destruct (isSwitch a); reflexivity.
Qed.


Lemma insertSorted_perm {A} (before : A -> A -> bool) (x : A) (l : list A) :
  Permutation (insertSorted before x l) (x :: l).
Proof.
  induction l as [|y r IH]; simpl; [apply Permutation_refl|].
  destruct (before x y); [apply Permutation_refl|].
  apply Permutation_trans with (y :: x :: r); [constructor; exact IH|apply perm_swap].
Qed.

Lemma stableSort_perm {A} (before : A -> A -> bool) (l : list A) :
  Permutation (stableSort before l) l.
Proof.
  induction l as [|x l IH]; simpl; [constructor|].
  apply Permutation_trans with (x :: stableSort before l);
    [apply insertSorted_perm|constructor; exact IH].
Qed.

Lemma actionBefore_true (x y : Ordered) : actionBefore x y = true -> prioGe x y.
Proof.
  unfold actionBefore, prioGe.
  destruct (Qeq_bool (o_priority y) (o_priority x)) eqn:E; cbn [negb].
  - intros _. apply Qeq_bool_eq in E. rewrite E. apply Qle_refl.
  - unfold Qltb. rewrite negb_true_iff. intros H. apply Qlt_le_weak.
    apply Qnot_le_lt. intros Hle. apply Qle_bool_iff in Hle. congruence.
Qed.

Lemma actionBefore_false (x y : Ordered) : actionBefore x y = false -> prioGe y x.
Proof.
  unfold actionBefore, prioGe.
  destruct (Qeq_bool (o_priority y) (o_priority x)) eqn:E; cbn [negb].
  - intros _. apply Qeq_bool_eq in E. rewrite E. apply Qle_refl.
  - unfold Qltb. rewrite negb_false_iff. apply Qle_bool_iff.
Qed.

Lemma insertSorted_sorted (x : Ordered) (l : list Ordered) :
  StronglySorted prioGe l -> StronglySorted prioGe (insertSorted actionBefore x l).
Proof.
  induction l as [|y r IH]; intros Hs; simpl.
  - constructor; constructor.
  - inversion Hs as [|? ? Hr Hall]; subst.
    destruct (actionBefore x y) eqn:E.
    + constructor; [exact Hs|]. constructor; [apply actionBefore_true; exact E|].
      apply actionBefore_true in E.
      eapply Forall_impl; [|exact Hall]. intros z Hz. unfold prioGe in *.
      eapply Qle_trans; eassumption.
    + constructor; [apply IH; exact Hr|].
      apply actionBefore_false in E.
      eapply Permutation_Forall; [apply Permutation_sym, insertSorted_perm|].
      constructor; assumption.
Qed.

(** The sorted actions are in descending priority key. *)
Lemma stableSort_sorted (l : list Ordered) :
  StronglySorted prioGe (stableSort actionBefore l).
Proof.
  induction l as [|x l IH]; simpl; [constructor|]. apply insertSorted_sorted. exact IH.
Qed.

Lemma sorted_split (l1 l2 l3 : list Ordered) (x y : Ordered) :
  StronglySorted prioGe (l1 ++ x :: l2 ++ y :: l3) -> prioGe x y.
Proof.
  induction l1 as [|z l1 IH]; simpl; intros Hs.
  - inversion Hs as [|? ? _ Hall]; subst.
    rewrite Forall_forall in Hall. apply Hall. apply in_or_app. right. left. reflexivity.
  - inversion Hs; subst. apply IH. assumption.
Qed.










(** ** Replay (C1) *)

(** C1 fails on a speed tie.  Alpha and Beta (same speed) both use Tackle;
    the tie-break draws are 0.9 for p1 and 0.1 for p2, so p2 acts first and
    the history records the actions as [p2; p1].  [replayBattle] hands the
    recorded draws to the recorded action list, which gives p2 the draw 0.9
    and p1 the draw 0.1: p1 acts first, and the replayed log and hit points
    differ from the original run. *)
Lemma replay_diverges_on_speed_tie :
  exists final n replayed,
    stepBattle exMoves 1 exState [moveAction "p1" "tackle"; moveAction "p2" "tackle"]
      (listRng [(9 # 10)%Q; (1 # 10)%Q; (1 # 2)%Q; (1 # 2)%Q; (1 # 4)%Q; (3 # 4)%Q]) 0 true
    = Ok (final, n) /\
    n = 6%nat /\
    option_map (fun h => map (fun t => (map a_playerId (tr_actions t), tr_rng t)) (h_turns h))
      (history final)
    = Some [(["p2"; "p1"],
             [(9 # 10)%Q; (1 # 10)%Q; (1 # 2)%Q; (1 # 2)%Q; (1 # 4)%Q; (3 # 4)%Q])] /\
    (forall random, replayBattle exMoves 1 exState (history final) random = Ok replayed) /\
    log final = [ "--- Turn 1 ---"; "Beta used Tackle!"; "Alpha took 27 damage (50 -> 23)";
                  "Alpha used Tackle!"; "Beta took 28 damage (100 -> 72)" ] /\
    log replayed = [ "--- Turn 1 ---"; "Alpha used Tackle!"; "Beta took 27 damage (100 -> 73)";
                     "Beta used Tackle!"; "Alpha took 28 damage (50 -> 22)" ] /\
    log replayed <> log final /\
    option_map c_hp (getActiveCreature final "p1") = Some 23 /\
    option_map c_hp (getActiveCreature replayed "p1") = Some 22.
Proof.
  eexists. eexists. eexists.
  split; [vm_compute; reflexivity|].
  split; [reflexivity|].
  split; [vm_compute; reflexivity|].
  split; [intros random; vm_compute; reflexivity|].
  split; [vm_compute; reflexivity|].
  split; [vm_compute; reflexivity|].
  split; [vm_compute; discriminate|].
  split; vm_compute; reflexivity.
Qed.

(** * Further properties of the engine *)

(** ** Records, arrays and objects *)

Lemma state_eta (s : State) :
  mkState (players s) (field s) (turn s) (log s) (history s) = s.
Proof. destruct s; reflexivity. Qed.

Lemma updFirst_same {A} (p : A -> bool) (f : A -> A) (l : list A) (x : A) :
  find p l = Some x -> f x = x -> updFirst p f l = l.
Proof.
  induction l as [|y l IH]; simpl; [discriminate|].
  destruct (p y); intros H Hf.
  - injection H as ->. rewrite Hf. reflexivity.
  - rewrite (IH H Hf). reflexivity.
Qed.

Lemma updFirst_none {A} (p : A -> bool) (f : A -> A) (l : list A) :
  find p l = None -> updFirst p f l = l.
Proof.
  induction l as [|y l IH]; simpl; [reflexivity|].
  destruct (p y); [discriminate|]. intros H. rewrite (IH H). reflexivity.
Qed.

Lemma updFirst_updFirst {A} (p : A -> bool) (f g : A -> A) (l : list A) :
  (forall x, p (f x) = p x) ->
  updFirst p g (updFirst p f l) = updFirst p (fun x => g (f x)) l.
Proof.
  intros Hp. induction l as [|y l IH]; simpl; [reflexivity|].
  destruct (p y) eqn:E; simpl.
  - rewrite Hp, E. reflexivity.
  - rewrite E, IH. reflexivity.
Qed.

Lemma updFirst_ext {A} (p : A -> bool) (f g : A -> A) (l : list A) :
  (forall x, In x l -> f x = g x) -> updFirst p f l = updFirst p g l.
Proof.
  induction l as [|y l IH]; simpl; [reflexivity|]. intros H.
  destruct (p y).
  - rewrite (H y) by (left; reflexivity). reflexivity.
  - rewrite IH by (intros; apply H; right; assumption). reflexivity.
Qed.

Lemma updNat_same {A} (l : list A) (n : nat) (f : A -> A) (x : A) :
  nth_error l n = Some x -> f x = x -> updNat l n f = l.
Proof.
  revert n. induction l as [|y l IH]; intros [|n]; simpl; try discriminate.
  - intros H Hf. injection H as ->. rewrite Hf. reflexivity.
  - intros H Hf. rewrite (IH n H Hf). reflexivity.
Qed.

Lemma updNat_none {A} (l : list A) (n : nat) (f : A -> A) :
  nth_error l n = None -> updNat l n f = l.
Proof.
  revert n. induction l as [|y l IH]; intros [|n]; simpl; try discriminate; try reflexivity.
  intros H. rewrite (IH n H). reflexivity.
Qed.

Lemma updNat_updNat {A} (l : list A) (n : nat) (f g : A -> A) :
  updNat (updNat l n f) n g = updNat l n (fun x => g (f x)).
Proof.
  revert n. induction l as [|y l IH]; intros [|n]; simpl; try reflexivity.
  rewrite IH. reflexivity.
Qed.

Lemma updNat_length {A} (l : list A) (n : nat) (f : A -> A) :
  List.length (updNat l n f) = List.length l.
Proof.
  revert n. induction l as [|y l IH]; intros [|n]; simpl; try reflexivity.
  rewrite IH. reflexivity.
Qed.

Lemma updNat_map {A B} (h : A -> B) (l : list A) (n : nat) (f : A -> A) :
  (forall x, h (f x) = h x) -> map h (updNat l n f) = map h l.
Proof.
  intros Hh. revert n. induction l as [|y l IH]; intros [|n]; simpl; try reflexivity.
  - rewrite Hh. reflexivity.
  - rewrite IH. reflexivity.
Qed.

Lemma arrUpd_same {A} (l : list A) (i : Z) (f : A -> A) :
  (forall x, arrGet l i = Some x -> f x = x) -> arrUpd l i f = l.
Proof.
  unfold arrGet, arrUpd. destruct (i <? 0); [reflexivity|]. intros H.
  destruct (nth_error l (Z.to_nat i)) as [x|] eqn:E.
  - apply (updNat_same l _ f x E). apply H. reflexivity.
  - apply updNat_none. exact E.
Qed.

Lemma arrUpd_arrUpd {A} (l : list A) (i : Z) (f g : A -> A) :
  arrUpd (arrUpd l i f) i g = arrUpd l i (fun x => g (f x)).
Proof. unfold arrUpd. destruct (i <? 0); [reflexivity|]. apply updNat_updNat. Qed.

Lemma arrUpd_length {A} (l : list A) (i : Z) (f : A -> A) :
  List.length (arrUpd l i f) = List.length l.
Proof. unfold arrUpd. destruct (i <? 0); [reflexivity|]. apply updNat_length. Qed.

Lemma arrUpd_map {A B} (h : A -> B) (l : list A) (i : Z) (f : A -> A) :
  (forall x, h (f x) = h x) -> map h (arrUpd l i f) = map h l.
Proof. intros Hh. unfold arrUpd. destruct (i <? 0); [reflexivity|]. apply updNat_map, Hh. Qed.

Lemma setTeam_eta (p : Player) : setTeam p (p_team p) = p.
Proof. destruct p; reflexivity. Qed.

(** A write that leaves the active creature as it is leaves the state as it
    is. *)
Lemma updActive_same (s : State) (playerId : string) (f : Creature -> Creature) :
  (forall c, getActiveCreature s playerId = Some c -> f c = c) ->
  updActive s playerId f = s.
Proof.
  intros H. unfold updActive, updPlayer, setPlayers.
  unfold getActiveCreature, findPlayer in H.
  destruct (find (fun p => String.eqb (p_id p) playerId) (players s)) as [p|] eqn:E.
  - rewrite (updFirst_same _ _ _ p E); [apply state_eta|].
    rewrite arrUpd_same; [apply setTeam_eta|]. exact H.
  - rewrite (updFirst_none _ _ _ E). apply state_eta.
Qed.

Lemma updActive_updActive (s : State) (playerId : string) (f g : Creature -> Creature) :
  updActive (updActive s playerId f) playerId g = updActive s playerId (fun c => g (f c)).
Proof.
  unfold updActive, updPlayer, setPlayers. simpl. f_equal.
  rewrite updFirst_updFirst by reflexivity.
  apply updFirst_ext. intros p _. simpl. rewrite arrUpd_arrUpd. reflexivity.
Qed.

Lemma updActive_pushLog (s : State) (line playerId : string) (f : Creature -> Creature) :
  updActive (pushLog s line) playerId f = pushLog (updActive s playerId f) line.
Proof. reflexivity. Qed.

Lemma objGet_objSet {V} (o : JsObj V) (k : string) (v : V) :
  objGet (objSet o k v) k = Some v.
Proof.
  induction o as [|[k' v'] o IH]; simpl.
  - rewrite String.eqb_refl. reflexivity.
  - destruct (String.eqb k' k) eqn:E; simpl; rewrite E; [reflexivity|exact IH].
Qed.

Lemma objGet_objSet_other {V} (o : JsObj V) (k k' : string) (v : V) :
  k' <> k -> objGet (objSet o k v) k' = objGet o k'.
Proof.
  intros Hne. induction o as [|[k0 v0] o IH]; simpl.
  - destruct (String.eqb_spec k k'); [congruence|reflexivity].
  - destruct (String.eqb_spec k0 k); simpl.
    + subst k0. destruct (String.eqb_spec k k'); [congruence|reflexivity].
    + destruct (String.eqb k0 k'); [reflexivity|exact IH].
Qed.

(** ** What the event applier leaves alone *)

Lemma frame_pushLog (s : State) (line : string) : stateFrame (pushLog s line) = stateFrame s.
Proof. reflexivity. Qed.

Lemma frame_setField (s : State) (f : Field) : stateFrame (setField s f) = stateFrame s.
Proof. reflexivity. Qed.

Lemma frame_updPlayer (s : State) (playerId : string) (g : Player -> Player) :
  (forall p, playerFrame (g p) = playerFrame p) ->
  stateFrame (updPlayer s playerId g) = stateFrame s.
Proof.
  intros Hg. unfold stateFrame, updPlayer. simpl. f_equal. f_equal.
  induction (players s) as [|p l IH]; simpl; [reflexivity|].
  destruct (String.eqb (p_id p) playerId); simpl; [rewrite Hg|rewrite IH]; reflexivity.
Qed.

Lemma frame_updActive (s : State) (playerId : string) (f : Creature -> Creature) :
  (forall c, creatureFrame (f c) = creatureFrame c) ->
  stateFrame (updActive s playerId f) = stateFrame s.
Proof.
  intros Hf. apply frame_updPlayer. intros p. unfold playerFrame. simpl.
  rewrite arrUpd_map by exact Hf. reflexivity.
Qed.

Lemma frame_pushPendingSwitch (c : Creature) :
  creatureFrame (pushPendingSwitch c) = creatureFrame c.
Proof. unfold pushPendingSwitch. destruct (hasStatus c "pending_switch"); reflexivity. Qed.

Ltac frame_side :=
  intros; try apply frame_pushPendingSwitch; reflexivity.

Ltac frame_solve :=
  repeat first
    [ rewrite frame_pushLog
    | rewrite frame_setField
    | rewrite frame_updActive by frame_side
    | rewrite frame_updPlayer by (intros; unfold playerFrame; simpl;
                                  try rewrite arrUpd_map by frame_side; reflexivity) ];
  reflexivity.

Ltac log_solve :=
  first
    [ exists []; split; [simpl; rewrite ?app_nil_r; reflexivity|simpl; lia]
    | eexists [_]; split; [simpl; reflexivity|simpl; lia]
    | eexists [_; _]; split; [simpl; rewrite <- ?app_assoc; reflexivity|simpl; lia] ].

Ltac break_ok H :=
  repeat match type of H with
         | context [match ?x with _ => _ end] => destruct x eqn:?
         | context [if ?x then _ else _] => destruct x eqn:?
         end;
  try discriminate H; injection H as <-.


(** X1: whatever the event, a successful [applyEvent] leaves the turn
    counter, the history, the players, and on every creature its identity,
    level, types, moves, ability, item, maximum hit points, PP and base stats
    as they were; the log is the old log followed by at most two new lines. *)
Theorem applyEvent_frame (st st' : State) (ev : Event) :
  applyEvent st ev = Ok st' ->
  stateFrame st' = stateFrame st /\
  exists added, log st' = log st ++ added /\ (List.length added <= 2)%nat.
Proof.
  intros H. unfold applyEvent in H.
  destruct ev; break_ok H; (split; [frame_solve|log_solve]).
Qed.

(** The frame theorem at a damage event on Alpha. *)
Lemma applyEvent_frame_witness :
  exists st',
    applyEvent exState (EvDamage "p1" 30 noMeta) = Ok st' /\
    stateFrame st' = stateFrame exState.
Proof.
  eexists. split; [reflexivity|].
  exact (proj1 (applyEvent_frame exState _ (EvDamage "p1" 30 noMeta) eq_refl)).
Defined.

(** X2: an event aimed at a player id that has no active creature (no
    such player, or an [activeSlot] outside the team) returns the state
    unchanged: no log line, no error. *)
Theorem applyEvent_without_target (st : State) (ev : Event) (targetId : string) :
  eventTargetId ev = Some targetId ->
  getActiveCreature st targetId = None ->
  applyEvent st ev = Ok st.
Proof.
  intros Ht Hnone.
  assert (Hupd : forall f, updActive st targetId f = st).
  { intros f. apply updActive_same. intros c Hc. congruence. }
  destruct ev; simpl in Ht; try discriminate; injection Ht as ->;
    unfold applyEvent; rewrite ?Hnone; try reflexivity;
    rewrite Hupd; reflexivity.
Qed.

(** The theorem at a damage event for a player that is not in the battle. *)
Lemma applyEvent_without_target_witness :
  applyEvent exState (EvDamage "p3" 30 noMeta) = Ok exState.
Proof.
  exact (applyEvent_without_target exState (EvDamage "p3" 30 noMeta) "p3" eq_refl eq_refl).
Defined.

(** ** The active slot stays inside the team *)

Lemma slots_updPlayer (s : State) (playerId : string) (g : Player -> Player) :
  (forall p, findPlayer s playerId = Some p -> slotOk p = true -> slotOk (g p) = true) ->
  validSlots s = true -> validSlots (updPlayer s playerId g) = true.
Proof.
  unfold validSlots, updPlayer, findPlayer. simpl.
  induction (players s) as [|p l IH]; simpl; [reflexivity|].
  intros Hg H. apply andb_true_iff in H. destruct H as [Hp Hl].
  destruct (String.eqb (p_id p) playerId) eqn:E; simpl.
  - rewrite Hl, (Hg p) by auto. reflexivity.
  - rewrite Hp. apply IH; [exact Hg|exact Hl].
Qed.

Lemma slots_updActive (s : State) (playerId : string) (f : Creature -> Creature) :
  validSlots s = true -> validSlots (updActive s playerId f) = true.
Proof.
  apply slots_updPlayer. intros p _. unfold slotOk. simpl.
  rewrite arrUpd_length. trivial.
Qed.

Ltac slots_solve Hv :=
  repeat first
    [ exact Hv
    | apply slots_updActive
    | apply slots_updPlayer; [intros ? _; unfold slotOk; simpl; trivial|]
    | progress change (validSlots (pushLog ?s ?l)) with (validSlots s)
    | progress change (validSlots (setField ?s ?f)) with (validSlots s) ].

(** X3: every event keeps each player's [activeSlot] inside the team.
    If all active slots are valid indices before, they are after any event the
    applier accepts (a switch to a slot outside the team is not accepted). *)
Theorem applyEvent_keeps_slots_valid (st st' : State) (ev : Event) :
  validSlots st = true ->
  applyEvent st ev = Ok st' ->
  validSlots st' = true.
Proof.
  intros Hv H. unfold applyEvent in H.
  destruct ev; try (break_ok H; slots_solve Hv; fail).
  destruct (findPlayer st playerId) as [player|] eqn:Hp; [|injection H as <-; exact Hv].
  destruct (arrGet (p_team player) slot) as [inc|] eqn:Hinc; [|discriminate].
  injection H as <-.
  change (validSlots (pushLog ?s ?l)) with (validSlots s).
  apply slots_updPlayer; [|exact Hv].
  intros p Hfound _. rewrite Hp in Hfound. injection Hfound as <-.
  unfold slotOk. simpl. rewrite arrUpd_length.
  assert (Hr : 0 <= slot < Z.of_nat (List.length (p_team player))).
  { apply arrGet_in_range. eauto. }
  apply andb_true_iff. split; [apply Z.leb_le|apply Z.ltb_lt]; lia.
Qed.

(** The theorem at the switch of p1 to its second creature. *)
Lemma applyEvent_keeps_slots_valid_witness :
  validSlots exBenchState = true /\
  exists st', applyEvent exBenchState (EvSwitch "p1" 1) = Ok st' /\ validSlots st' = true.
Proof.
  split; [reflexivity|]. eexists. split; [reflexivity|].
  exact (applyEvent_keeps_slots_valid exBenchState _ (EvSwitch "p1" 1) eq_refl eq_refl).
Defined.

(** ** Status events *)

Lemma hasStatus_count (c : Creature) (statusId : string) :
  hasStatus c statusId = negb (Nat.eqb (statusCount c statusId) 0).
Proof.
  unfold hasStatus, statusCount, countId.
  induction (c_statuses c) as [|s l IH]; simpl; [reflexivity|].
  destruct (String.eqb (s_id s) statusId); simpl; [reflexivity|exact IH].
Qed.

Lemma filter_none_id {A} (p : A -> bool) (l : list A) :
  existsb p l = false -> filter (fun x => negb (p x)) l = l.
Proof.
  induction l as [|x l IH]; simpl; [reflexivity|].
  destruct (p x); simpl; [discriminate|]. intros H. rewrite (IH H). reflexivity.
Qed.

(** X4: an [apply_status] event without [stack] never duplicates a
    status.  On an existing target the number of entries of that id stays as
    it is when the target's ability makes it immune, and otherwise becomes
    [max 1 n]: one entry is pushed only when there was none.  The entries of
    every other id are untouched. *)
Theorem apply_status_never_duplicates (st : State) (targetId statusId : string)
    (duration : option Z) (stack : option bool) (data : option StatusData) (meta : Meta)
    (tgt : Creature) :
  getActiveCreature st targetId = Some tgt ->
  orDefault stack false = false ->
  exists st' tgt',
    applyEvent st (EvApplyStatus targetId statusId duration stack data meta) = Ok st' /\
    getActiveCreature st' targetId = Some tgt' /\
    statusCount tgt' statusId
    = (if runAbilityCheckHook st targetId (OnCheckStatusImmunity statusId) false
       then statusCount tgt statusId
       else Nat.max 1 (statusCount tgt statusId)) /\
    filter (fun s => negb (String.eqb (s_id s) statusId)) (c_statuses tgt')
    = filter (fun s => negb (String.eqb (s_id s) statusId)) (c_statuses tgt).
Proof.
  intros Hact Hstack. unfold applyEvent. rewrite Hact, Hstack.
  destruct (runAbilityCheckHook st targetId (OnCheckStatusImmunity statusId) false).
  - exists (pushLog st (c_name tgt +++ " is immune to " +++ statusId +++ ".")), tgt.
    rewrite getActive_pushLog. repeat split; assumption.
  - rewrite hasStatus_count. cbn [negb andb].
    destruct (statusCount tgt statusId) as [|n] eqn:Hn; cbn [Nat.eqb negb andb].
    + eexists. eexists. split; [reflexivity|].
      rewrite getActive_pushLog, getActive_updActive, Hact. split; [reflexivity|].
      unfold statusCount, countId in *. simpl. rewrite !filter_app. simpl.
      rewrite String.eqb_refl. simpl. rewrite length_app, Hn. split; [reflexivity|].
      apply app_nil_r.
    + exists (pushLog st (c_name tgt +++ " already has " +++ statusId +++ ".")), tgt.
      rewrite getActive_pushLog. repeat split; assumption.
Qed.

(** The theorem at a first burn on Beta. *)
Lemma apply_status_never_duplicates_witness :
  getActiveCreature exState "p2" = Some beta /\
  orDefault (@None bool) false = false /\
  exists st' tgt',
    applyEvent exState (EvApplyStatus "p2" "burn" None None None noMeta) = Ok st' /\
    getActiveCreature st' "p2" = Some tgt' /\
    statusCount tgt' "burn" = 1%nat.
Proof.
  split; [reflexivity|]. split; [reflexivity|].
  destruct (apply_status_never_duplicates exState "p2" "burn" None None None noMeta beta
              eq_refl eq_refl) as (st' & tgt' & Hok & Hget & Hcount & _).
  exists st', tgt'. repeat split; assumption.
Defined.

(** X5: applying a status the target does not have (and is not immune
    to) and then removing it gives the players and the field back exactly;
    only the two log lines remain. *)
Theorem apply_then_remove_status (st : State) (targetId statusId : string)
    (duration : option Z) (stack : option bool) (data : option StatusData)
    (meta meta' : Meta) (tgt : Creature) :
  getActiveCreature st targetId = Some tgt ->
  hasStatus tgt statusId = false ->
  runAbilityCheckHook st targetId (OnCheckStatusImmunity statusId) false = false ->
  exists st',
    applyEvents st [ EvApplyStatus targetId statusId duration stack data meta;
                     EvRemoveStatus targetId statusId meta' ] = Ok st' /\
    players st' = players st /\
    field st' = field st /\
    log st' = log st ++ [ c_name tgt +++ " is now " +++ statusId +++ ".";
                          c_name tgt +++ " is no longer " +++ statusId +++ "." ].
Proof.
  intros Hact Hhas Himm.
  assert (Hkept : filter (fun s => negb (String.eqb (s_id s) statusId))
                    (c_statuses tgt ++ [newStatus statusId duration data])
                  = c_statuses tgt).
  { rewrite filter_app. simpl. rewrite String.eqb_refl. simpl. rewrite app_nil_r.
    apply (filter_none_id (fun s => String.eqb (s_id s) statusId)). exact Hhas. }
  cbn [applyEvents]. unfold applyEvent at 1. rewrite Hact, Himm, Hhas. cbn [andb resBind].
  unfold applyEvent.
  rewrite getActive_pushLog, getActive_updActive, Hact. cbn [option_map].
  cbn [c_statuses setStatuses]. rewrite Hkept, length_app. cbn [List.length].
  replace (Nat.eqb (List.length (c_statuses tgt) + 1) (List.length (c_statuses tgt)))
    with false by (symmetry; apply Nat.eqb_neq; lia).
  cbn [resBind]. eexists. split; [reflexivity|].
  rewrite updActive_pushLog, updActive_updActive.
  rewrite updActive_same.
  - repeat split. simpl. rewrite <- app_assoc. reflexivity.
  - intros c Hc. rewrite Hact in Hc. injection Hc as <-. destruct tgt; reflexivity.
Qed.

(** The round trip at a burn on Beta. *)
Lemma apply_then_remove_status_witness :
  getActiveCreature exState "p2" = Some beta /\
  hasStatus beta "burn" = false /\
  runAbilityCheckHook exState "p2" (OnCheckStatusImmunity "burn") false = false /\
  exists st',
    applyEvents exState [ EvApplyStatus "p2" "burn" None None None noMeta;
                          EvRemoveStatus "p2" "burn" noMeta ] = Ok st' /\
    players st' = players exState.
Proof.
  split; [reflexivity|]. split; [reflexivity|]. split; [reflexivity|].
  destruct (apply_then_remove_status exState "p2" "burn" None None None noMeta noMeta beta
              eq_refl eq_refl eq_refl) as (st' & Hok & Hp & _).
  exists st'. split; assumption.
Defined.

(** ** Stage events *)

Lemma range_objSet (o : Stages) (k : string) (v : Z) :
  stagesInRange o = true -> -6 <= v <= 6 -> stagesInRange (objSet o k v) = true.
Proof.
  intros Ho Hv. unfold stagesInRange in *.
  induction o as [|[k' v'] o IH]; simpl in *.
  - rewrite andb_true_r. apply andb_true_iff. split; [apply Z.leb_le|apply Z.leb_le]; lia.
  - apply andb_true_iff in Ho. destruct Ho as [Hk Hrest].
    destruct (String.eqb k' k); simpl.
    + rewrite Hrest, andb_true_r. apply andb_true_iff.
      split; [apply Z.leb_le|apply Z.leb_le]; lia.
    + rewrite Hk. apply IH. exact Hrest.
Qed.

Lemma range_applyStageDeltas (adjusted : JsObj Z) (st : Stages) :
  stagesInRange st = true -> stagesInRange (applyStageDeltas true adjusted st) = true.
Proof.
  unfold applyStageDeltas. revert st.
  induction adjusted as [|[k d] adj IH]; intros st Hst; simpl; [exact Hst|].
  apply IH. apply range_objSet; [exact Hst|]. unfold clampStage. lia.
Qed.

Lemma applyStageDeltas_other (clamp : bool) (adjusted : JsObj Z) (st : Stages) (k : string) :
  ~ In k (map fst adjusted) ->
  objGet (applyStageDeltas clamp adjusted st) k = objGet st k.
Proof.
  unfold applyStageDeltas. revert st.
  induction adjusted as [|[k' d] adj IH]; intros st Hk; simpl; [reflexivity|].
  simpl in Hk. rewrite IH by tauto.
  apply objGet_objSet_other. intros ->. tauto.
Qed.

Lemma stageHook_keys (s : State) (playerId : string) (stages : JsObj Z) :
  map fst (runAbilityStageHook s playerId stages) = map fst stages.
Proof.
  unfold runAbilityStageHook.
  destruct (findPlayer s playerId); [|reflexivity].
  destruct (getActiveCreature s playerId) as [a|]; [|reflexivity].
  destruct (String.eqb (c_ability a) ""); [reflexivity|].
  unfold abilityStageHandler.
  destruct (String.eqb (c_ability a) "contrary"); [rewrite map_map; reflexivity|].
  destruct (String.eqb (c_ability a) "simple"); [rewrite map_map; reflexivity|].
  reflexivity.
Qed.

(** X6: a [modify_stage] event with [clamp] on (the default) keeps the
    stages of the target within [-6, 6] if they were, whatever the deltas and
    whatever Contrary or Simple make of them; a stage the event does not name
    keeps its value. *)
Theorem modify_stage_stays_in_range (st : State) (targetId : string)
    (stages : option (JsObj Z)) (clamp failIfNoChange showEvent : option bool)
    (meta : Meta) (c : Creature) :
  getActiveCreature st targetId = Some c ->
  stagesInRange (c_stages c) = true ->
  orDefault clamp true = true ->
  exists st' c',
    applyEvent st (EvModifyStage targetId stages clamp failIfNoChange showEvent meta)
    = Ok st' /\
    getActiveCreature st' targetId = Some c' /\
    stagesInRange (c_stages c') = true /\
    forall k, ~ In k (map fst (orDefault stages [])) ->
              objGet (c_stages c') k = objGet (c_stages c) k.
Proof.
  intros Hact Hrange Hclamp. unfold applyEvent. rewrite Hact, Hclamp.
  set (adjusted := runAbilityStageHook st targetId (orDefault stages [])).
  set (after := applyStageDeltas true adjusted (c_stages c)).
  assert (Hget : forall s', getActiveCreature s' targetId = getActiveCreature st targetId ->
                   getActiveCreature (updActive s' targetId (fun c0 => setStages c0 after))
                     targetId = Some (setStages c after)).
  { intros s' Hs'. rewrite getActive_updActive, Hs', Hact. reflexivity. }
  assert (Hres : stagesInRange (c_stages (setStages c after)) = true /\
                 forall k, ~ In k (map fst (orDefault stages [])) ->
                           objGet (c_stages (setStages c after)) k = objGet (c_stages c) k).
  { split; [apply range_applyStageDeltas; exact Hrange|].
    intros k Hk. apply applyStageDeltas_other. unfold adjusted.
    rewrite stageHook_keys. exact Hk. }
  destruct (andb _ _).
  - eexists. eexists. split; [reflexivity|]. rewrite getActive_pushLog.
    split; [apply Hget; reflexivity|exact Hres].
  - destruct (andb _ _).
    + eexists. eexists. split; [reflexivity|]. rewrite getActive_pushLog.
      split; [apply Hget; reflexivity|exact Hres].
    + eexists. eexists. split; [reflexivity|].
      split; [apply Hget; reflexivity|exact Hres].
Qed.

(** The theorem at a +12 attack boost on Alpha, which stops at +6. *)
Lemma modify_stage_stays_in_range_witness :
  getActiveCreature exState "p1" = Some alpha /\
  stagesInRange (c_stages alpha) = true /\
  orDefault (@None bool) true = true /\
  exists st' c',
    applyEvent exState (EvModifyStage "p1" (Some [("atk", 12)]) None None None noMeta)
    = Ok st' /\
    getActiveCreature st' "p1" = Some c' /\
    stagesInRange (c_stages c') = true.
Proof.
  split; [reflexivity|]. split; [reflexivity|]. split; [reflexivity|].
  destruct (modify_stage_stays_in_range exState "p1" (Some [("atk", 12)]) None None None
              noMeta alpha eq_refl eq_refl eq_refl) as (st' & c' & Hok & Hget & Hr & _).
  exists st', c'. repeat split; assumption.
Defined.

(** ** Field status events *)

Lemma field_eta (f : Field) : mkField (f_global f) = f.
Proof. destruct f; reflexivity. Qed.

Lemma countId_zero_find (id : string) (l : list Status) :
  countId id l = 0%nat ->
  findIndex (fun s => String.eqb (s_id s) id) l = None /\
  filter (fun s => negb (String.eqb (s_id s) id)) l = l.
Proof.
  unfold countId, findIndex. intros H. split.
  - destruct (findIndexFrom _ l 0) as [i|] eqn:E; [|reflexivity].
    apply findIndexFrom_some in E. lia.
  - apply (filter_none_id (fun s => String.eqb (s_id s) id)).
    induction l as [|s l IH]; simpl in *; [reflexivity|].
    destruct (String.eqb (s_id s) id); simpl in *; [discriminate|]. apply IH, H.
Qed.

(** X7: a [remove_field_status] event leaves no entry of that id on the
    field and keeps every other entry in place; applying a field status that
    is not on the field and then removing it gives back the very same state
    (field events write no log line). *)
Theorem field_status_round_trip (st : State) (statusId : string) (duration : option Z)
    (stack : option bool) (data : option StatusData) (meta meta' : Meta) :
  (exists st',
     applyEvent st (EvRemoveFieldStatus statusId meta') = Ok st' /\
     countId statusId (f_global (field st')) = 0%nat /\
     filter (fun s => negb (String.eqb (s_id s) statusId)) (f_global (field st'))
     = filter (fun s => negb (String.eqb (s_id s) statusId)) (f_global (field st))) /\
  (countId statusId (f_global (field st)) = 0%nat ->
   applyEvents st [ EvApplyFieldStatus statusId duration stack data meta;
                    EvRemoveFieldStatus statusId meta' ] = Ok st).
Proof.
  split.
  - eexists. split; [reflexivity|]. simpl. split.
    + unfold countId. rewrite (filter_filter_neg (fun s => String.eqb (s_id s) statusId)).
      reflexivity.
    + apply filter_idem.
  - intros H0. destruct (countId_zero_find _ _ H0) as [Hfind Hfilter].
    cbn [applyEvents]. unfold applyEvent at 1. rewrite Hfind. cbn [resBind].
    unfold applyEvent. cbn [resBind]. simpl.
    rewrite filter_app, Hfilter. simpl. rewrite String.eqb_refl. simpl.
    rewrite app_nil_r. unfold setField. simpl. rewrite field_eta. f_equal. apply state_eta.
Qed.

(** The round trip at a sun entry on the empty field. *)
Lemma field_status_round_trip_witness :
  countId "sun" (f_global (field exState)) = 0%nat /\
  applyEvents exState [ EvApplyFieldStatus "sun" (Some 5) None None noMeta;
                        EvRemoveFieldStatus "sun" noMeta ] = Ok exState.
Proof.
  split; [reflexivity|].
  exact (proj2 (field_status_round_trip exState "sun" (Some 5) None None noMeta noMeta)
           eq_refl).
Defined.

(** ** Type effectiveness *)

Lemma typeFactor_power (moveKey targetType : string) :
  (typeFactor moveKey targetType == 2 ^ typeExponent moveKey targetType)%Q.
Proof.
  unfold typeFactor, typeExponent. destruct (objGet typeChart targetType) as [chart|];
    [|reflexivity].
  destruct (includes (weakTo chart) moveKey), (includes (resists chart) moveKey);
    reflexivity.
Qed.



(** The loop of [getTypeEffectiveness] without an immune defender type. *)
Lemma typeLoop_product (moveKey : string) (targets : list string) (m : Q) :
  existsb (fun t => match objGet typeImmunities t with
                    | Some imm => includes imm moveKey
                    | None => false
                    end) targets = false ->
  (typeLoop moveKey targets m == m * 2 ^ exponentSum moveKey targets)%Q.
Proof.
  revert m. induction targets as [|t r IH]; intros m; cbn [typeLoop existsb exponentSum fold_right].
  - intros _. simpl. ring.
  - intros H. apply orb_false_iff in H. destruct H as [Ht Hr]. rewrite Ht.
    fold (exponentSum moveKey r).
    rewrite Qpower_plus by discriminate.
    rewrite <- typeFactor_power. unfold typeFactor.
    destruct (objGet typeChart t) as [chart|].
    + rewrite (IH _ Hr).
      destruct (includes (weakTo chart) moveKey), (includes (resists chart) moveKey); ring.
    + rewrite (IH _ Hr). ring.
Qed.




Lemma existsb_perm {A} (p : A -> bool) (l l' : list A) :
  Permutation l l' -> existsb p l = existsb p l'.
Proof.
  induction 1; simpl.
  - reflexivity.
  - rewrite IHPermutation. reflexivity.
  - destruct (p x), (p y); reflexivity.
  - congruence.
Qed.

Lemma exponentSum_perm (moveKey : string) (l l' : list string) :
  Permutation l l' -> exponentSum moveKey l = exponentSum moveKey l'.
Proof.
  unfold exponentSum. induction 1; simpl; lia.
Qed.

(** X9: for defender types none of which lower-cases to a name of
    [Object.prototype] (there the call raises a [TypeError], or not, depending
    on whether an immune type is listed before it), the type effectiveness
    does not depend on the order in which the defender's types are listed. *)
Theorem effectiveness_order_free (moveType : option string)
    (targetTypes targetTypes' : list string) :
  existsb (fun t => inheritedName (toLowerCase t)) targetTypes = false ->
  Permutation targetTypes targetTypes' ->
  existsb (fun t => inheritedName (toLowerCase t)) targetTypes' = false /\
  (getTypeEffectiveness moveType targetTypes == getTypeEffectiveness moveType targetTypes')%Q.
Proof.
  intros Hown Hperm.
  split; [rewrite <- (existsb_perm _ _ _ Hperm); exact Hown|].
  unfold getTypeEffectiveness.
  destruct moveType as [t|]; [|reflexivity].
  destruct (String.eqb t ""); [reflexivity|].
  assert (Hp : Permutation (map toLowerCase targetTypes) (map toLowerCase targetTypes'))
    by (apply Permutation_map; exact Hperm).
  set (imm := fun u => match objGet typeImmunities u with
                       | Some i => includes i (toLowerCase t)
                       | None => false
                       end).
  destruct (existsb imm (map toLowerCase targetTypes)) eqn:E.
  - rewrite (typeLoop_immune _ _ _ E).
    rewrite (existsb_perm imm _ _ Hp) in E. rewrite (typeLoop_immune _ _ _ E). reflexivity.
  - rewrite (typeLoop_product _ _ _ E).
    rewrite (existsb_perm imm _ _ Hp) in E. rewrite (typeLoop_product _ _ _ E).
    rewrite (exponentSum_perm _ _ _ Hp). reflexivity.
Qed.

(** The theorem at a grass move against ground/water and water/ground. *)
Lemma effectiveness_order_free_witness :
  existsb (fun t => inheritedName (toLowerCase t)) ["ground"; "water"] = false /\
  Permutation ["ground"; "water"] ["water"; "ground"] /\
  (getTypeEffectiveness (Some "grass") ["ground"; "water"]
   == getTypeEffectiveness (Some "grass") ["water"; "ground"])%Q.
Proof.
  split; [reflexivity|]. split; [apply perm_swap|].
  apply (proj2 (effectiveness_order_free (Some "grass") ["ground"; "water"]
                  ["water"; "ground"] eq_refl (perm_swap _ _ _))).
Defined.

(** ** Stage multipliers *)

Lemma clamped_cases (s : Z) :
  let a := Z.max (-6) (Z.min 6 s) in
  a = -6 \/ a = -5 \/ a = -4 \/ a = -3 \/ a = -2 \/ a = -1 \/ a = 0 \/
  a = 1 \/ a = 2 \/ a = 3 \/ a = 4 \/ a = 5 \/ a = 6.
Proof. simpl. lia. Qed.

Lemma stageMultiplier_clamped (s : Z) :
  stageMultiplier (Some s) = stageMultiplier (Some (Z.max (-6) (Z.min 6 s))).
Proof.
  unfold stageMultiplier.
  replace (Z.max (-6) (Z.min 6 (Z.max (-6) (Z.min 6 s)))) with (Z.max (-6) (Z.min 6 s))
    by lia.
  reflexivity.
Qed.

Ltac stage_cases s :=
  rewrite (stageMultiplier_clamped s);
  let H := fresh in
  pose proof (clamped_cases s) as H; cbv zeta in H;
  repeat (destruct H as [H|H]; [rewrite H|]); try rewrite H.

(** X10: the stage multiplier is 1 without a stage, lies between 1/4
    and 4, saturates outside [-6, 6], never decreases when the stage goes up,
    and the multiplier of [-s] is the reciprocal of the multiplier of [s]. *)
Theorem stageMultiplier_laws (s s' : Z) :
  (stageMultiplier None == 1)%Q /\
  ((1 # 4) <= stageMultiplier (Some s) <= 4)%Q /\
  (6 <= s -> (stageMultiplier (Some s) == 4)%Q) /\
  (s <= -6 -> (stageMultiplier (Some s) == 1 # 4)%Q) /\
  (stageMultiplier (Some s) * stageMultiplier (Some (- s)%Z) == 1)%Q /\
  (s <= s' -> (stageMultiplier (Some s) <= stageMultiplier (Some s'))%Q).
Proof.
  split; [reflexivity|].
  split; [stage_cases s; split; discriminate|].
  split; [intros H; rewrite (stageMultiplier_clamped s);
          replace (Z.max (-6) (Z.min 6 s)) with 6 by lia; reflexivity|].
  split; [intros H; rewrite (stageMultiplier_clamped s);
          replace (Z.max (-6) (Z.min 6 s)) with (-6) by lia; reflexivity|].
  split.
  - rewrite (stageMultiplier_clamped (- s)).
    replace (Z.max (-6) (Z.min 6 (- s))) with (- Z.max (-6) (Z.min 6 s)) by lia.
    stage_cases s; reflexivity.
  - intros Hle.
    rewrite (stageMultiplier_clamped s), (stageMultiplier_clamped s').
    assert (Hc : Z.max (-6) (Z.min 6 s) <= Z.max (-6) (Z.min 6 s')) by lia.
    revert Hc.
    pose proof (clamped_cases s) as H. pose proof (clamped_cases s') as H'.
    cbv zeta in H, H'.
    repeat (destruct H as [H|H]; [rewrite H|]); try rewrite H;
      repeat (destruct H' as [H'|H']; [rewrite H'|]); try rewrite H';
      intros Hc; try (exfalso; lia); discriminate.
Qed.

(** The monotonicity at stages -1 and 2. *)
Lemma stageMultiplier_laws_witness :
  -1 <= 2 /\ (stageMultiplier (Some (-1)%Z) <= stageMultiplier (Some 2%Z))%Q.
Proof.
  split; [lia|].
  apply (stageMultiplier_laws (-1) 2). lia.
Defined.

(** ** The creature factory *)

Lemma half_of_scaled (x : Z) : (x * 50) / 100 = x / 2.
Proof.
  replace 100 with (2 * 50) by reflexivity.
  apply Z.div_mul_cancel_r; discriminate.
Qed.

(** X11: at level 50 a stat is the base value plus half of the IV and a
    quarter of the EV (both rounded down), plus 5, or plus 60 for HP.  With
    the factory's constants (IV 31, EV 0) every created creature therefore has
    [maxHp = hp = base + 75] and every other stat [base + 20]. *)
Theorem stats_closed_form (moves : JsObj Move) (learnsets : JsObj (list string))
    (species : SpeciesData) (options : Options) (suffix : string)
    (base iv ev : Z) (isHp : bool) :
  calcStat base isHp iv ev = base + (iv + ev / 4) / 2 + (if isHp then 60 else 5) /\
  forall c,
    createCreature moves learnsets species options suffix = Ok c ->
    let b := sp_baseStats species in
    c_maxHp c = bs_hp b + 75 /\ c_hp c = bs_hp b + 75 /\
    c_attack c = bs_atk b + 20 /\ c_defense c = bs_def b + 20 /\
    c_spAttack c = bs_spa b + 20 /\ c_spDefense c = bs_spd b + 20 /\
    c_speed c = bs_spe b + 20.
Proof.
  assert (Hcalc : forall b h i e,
             calcStat b h i e = b + (i + e / 4) / 2 + (if h then 60 else 5)).
  { intros b h i e. unfold calcStat.
    rewrite half_of_scaled.
    replace (b * 2 + i + e / 4) with (b * 2 + (i + e / 4)) by lia.
    rewrite Z.div_add_l by discriminate. destruct h; lia. }
  split; [apply Hcalc|].
  intros c Hc b. unfold createCreature in Hc.
  destruct (validateMoves moves learnsets (sp_id species) (orDefault (op_moves options) []));
    cbn [resBind] in Hc; try discriminate.
  injection Hc as <-.
  cbn [c_maxHp c_hp c_attack c_defense c_spAttack c_spDefense c_speed].
  assert (Hhalf : forall x, (x * 2 + 31 + 0 / 4) * 50 / 100 = x + 15).
  { intros x. rewrite half_of_scaled. change (0 / 4) with 0.
    replace (x * 2 + 31 + 0) with (x * 2 + 31) by lia.
    rewrite Z.div_add_l by discriminate. reflexivity. }
  rewrite !Hhalf. subst b. repeat split; lia.
Qed.

(** The theorem at the example species (base HP 80, base attack 70). *)
Lemma stats_closed_form_witness :
  exists c,
    createCreature exMoves exLearnsets exSpecies (exOptions None) "abcde" = Ok c /\
    c_maxHp c = 80 + 75 /\ c_attack c = 70 + 20.
Proof.
  eexists. split; [reflexivity|].
  destruct (proj2 (stats_closed_form exMoves exLearnsets exSpecies (exOptions None) "abcde"
                     0 0 0 false) _ eq_refl) as (Hhp & _ & Hatk & _).
  split; [exact Hhp|exact Hatk].
Defined.

Lemma filter_nil_forall {A} (p : A -> bool) (l : list A) :
  filter p l = [] <-> forall x, In x l -> p x = false.
Proof.
  induction l as [|y l IH]; simpl.
  - split; [intros _ x []|reflexivity].
  - destruct (p y) eqn:E.
    + split; [discriminate|]. intros H. specialize (H y (or_introl eq_refl)). congruence.
    + rewrite IH. split.
      * intros H x [<-|Hx]; [exact E|apply H, Hx].
      * intros H x Hx. apply H. right. exact Hx.
Qed.

(** X12: for a species id that is not a name of [Object.prototype],
    [validateMoves] accepts a request exactly when it is empty, or the species
    has a learnset and every requested id passes the test [moves[id]] and is
    in the learnset; an accepted request is returned as it is (same ids, same
    order, duplicates kept).  A species without a learnset is rejected only
    for a non-empty request; an id that fails [moves[id]] is reported as
    unknown before any id that is not learnable, and when every id passes, the
    ids outside the learnset are reported as not allowed.  The test
    [moves[id]] is passed by the ids of the move table and by every name
    inherited from [Object.prototype] (such as "toString"), which is therefore
    never reported as unknown. *)
Theorem validateMoves_accepts (moves : JsObj Move) (learnsets : JsObj (list string))
    (speciesId : string) (requested : list string) :
  inheritedName speciesId = false ->
  (validateMoves moves learnsets speciesId requested = Ok requested <->
   requested = [] \/
   exists learnable,
     objGet learnsets speciesId = Some learnable /\
     forall id, In id requested ->
                knownMove moves id = true /\ includes learnable id = true) /\
  (forall l, validateMoves moves learnsets speciesId requested = Ok l -> l = requested) /\
  (requested <> [] -> objGet learnsets speciesId = None ->
   validateMoves moves learnsets speciesId requested
   = Throw ("Error: No learnset found for species '" +++ speciesId +++ "'.")) /\
  (forall learnable id,
     objGet learnsets speciesId = Some learnable ->
     In id requested -> knownMove moves id = false ->
     validateMoves moves learnsets speciesId requested
     = Throw ("Error: Unknown move id(s) for species '" +++ speciesId +++ "': "
              +++ joinComma (filter (fun id => negb (knownMove moves id)) requested))) /\
  (forall learnable id,
     objGet learnsets speciesId = Some learnable ->
     (forall id', In id' requested -> knownMove moves id' = true) ->
     In id requested -> includes learnable id = false ->
     validateMoves moves learnsets speciesId requested
     = Throw ("Error: Move(s) not allowed for species '" +++ speciesId +++ "': "
              +++ joinComma (filter (fun id => negb (includes learnable id)) requested))) /\
  (forall id, knownMove moves id = true <->
              isSome (objGet moves id) = true \/ inheritedName id = true).
Proof.
  intros _.
  assert (Hknown_iff : forall id, knownMove moves id = true <->
                                  isSome (objGet moves id) = true \/ inheritedName id = true).
  { intros id. unfold knownMove. apply orb_true_iff. }
  unfold validateMoves.
  destruct requested as [|r0 rest].
  { split; [split; [intros _; left; reflexivity|reflexivity]|].
    split; [intros l H; injection H as <-; reflexivity|].
    split; [intros H; exfalso; apply H; reflexivity|].
    split; [intros ? ? _ []|].
    split; [intros ? ? _ _ []|exact Hknown_iff]. }
  set (req := r0 :: rest).
  destruct (objGet learnsets speciesId) as [learnable|] eqn:Hl.
  - destruct (filter (fun id => negb (knownMove moves id)) req) as [|u us] eqn:Hu.
    + assert (Hknown : forall id, In id req -> knownMove moves id = true).
      { intros id Hin. apply (proj1 (filter_nil_forall _ _) Hu) in Hin.
        apply negb_false_iff. exact Hin. }
      destruct (filter (fun id => negb (includes learnable id)) req) as [|v vs] eqn:Hv.
      * split; [split; [intros _; right; exists learnable; split; [reflexivity|];
                        intros id Hin; split; [apply Hknown, Hin|];
                        apply (proj1 (filter_nil_forall _ _) Hv) in Hin;
                        apply negb_false_iff; exact Hin
                       |reflexivity]|].
        split; [intros l Hok; injection Hok as <-; reflexivity|].
        split; [intros _ Hnone; discriminate|].
        split; [intros learnable' id _ Hin Hno; rewrite (Hknown id Hin) in Hno;
                discriminate|].
        split; [|exact Hknown_iff].
        intros learnable' id Hl' _ Hin Hno. exfalso. injection Hl' as <-.
        apply (proj1 (filter_nil_forall _ _) Hv) in Hin.
        rewrite Hno in Hin. discriminate.
      * split; [split; [discriminate|]|].
        { intros [Hnil|(l' & Hl' & Hall)]; [discriminate|]. exfalso.
          injection Hl' as <-.
          assert (Hinv : In v (filter (fun id => negb (includes learnable id)) req))
            by (rewrite Hv; left; reflexivity).
          apply filter_In in Hinv. destruct Hinv as [Hin Hneg].
          destruct (Hall v Hin) as [_ Hinc]. rewrite Hinc in Hneg. discriminate. }
        split; [intros l Hok; discriminate|].
        split; [intros _ Hnone; discriminate|].
        split; [intros learnable' id _ Hin Hno; rewrite (Hknown id Hin) in Hno;
                discriminate|].
        split; [|exact Hknown_iff].
        intros learnable' id Hl' _ _ _. injection Hl' as <-. rewrite Hv. reflexivity.
    + split; [split; [discriminate|]|].
      { intros [Hnil|(l' & _ & Hall)]; [discriminate|]. exfalso.
        assert (Hinu : In u (filter (fun id => negb (knownMove moves id)) req))
          by (rewrite Hu; left; reflexivity).
        apply filter_In in Hinu. destruct Hinu as [Hin Hneg].
        destruct (Hall u Hin) as [Hk _]. rewrite Hk in Hneg. discriminate. }
      split; [intros l Hok; discriminate|].
      split; [intros _ Hnone; discriminate|].
      split; [intros _ _ _ _ _; reflexivity|].
      split; [|exact Hknown_iff].
      intros learnable' id _ Hall _ _. exfalso.
      assert (Hinu : In u (filter (fun id => negb (knownMove moves id)) req))
        by (rewrite Hu; left; reflexivity).
      apply filter_In in Hinu. destruct Hinu as [Hin Hneg].
      rewrite (Hall u Hin) in Hneg. discriminate.
  - split; [split; [discriminate|]|].
    { intros [Hnil|(l' & Hl' & _)]; discriminate. }
    split; [intros l Hok; discriminate|].
    split; [reflexivity|].
    split; [intros learnable id Hl'; discriminate|].
    split; [intros learnable id Hl'; discriminate|exact Hknown_iff].
Qed.

(** The theorem at the example species: two learnable moves are accepted,
    and the inherited name "toString" is reported as not allowed, not as
    unknown. *)
Lemma validateMoves_accepts_witness :
  inheritedName "tatuta" = false /\
  validateMoves exMoves exLearnsets "tatuta" ["tackle"; "rain_dance"]
  = Ok ["tackle"; "rain_dance"] /\
  validateMoves exMoves exLearnsets "tatuta" ["tackle"; "toString"]
  = Throw "Error: Move(s) not allowed for species 'tatuta': toString".
Proof.
  split; [reflexivity|]. split.
  - apply (proj1 (validateMoves_accepts exMoves exLearnsets "tatuta"
                    ["tackle"; "rain_dance"] eq_refl)).
    right. exists ["tackle"; "rain_dance"]. split; [reflexivity|].
    intros id [<-|[<-|[]]]; split; reflexivity.
  - destruct (validateMoves_accepts exMoves exLearnsets "tatuta" ["tackle"; "toString"]
                eq_refl) as (_ & _ & _ & _ & Hnot & _).
    apply (Hnot ["tackle"; "rain_dance"] "toString" eq_refl).
    + intros id [<-|[<-|[]]]; reflexivity.
    + right. left. reflexivity.
    + reflexivity.
Defined.

(** ** Held items *)

Lemma find_updNat_first {A} (p : A -> bool) (l : list A) (i k : nat) (y : A) :
  findIndexFrom p l i = Some (i + k)%nat -> p y = true ->
  find p (updNat l k (fun _ => y)) = Some y.
Proof.
  revert i k. induction l as [|x l IH]; intros i k; simpl; [discriminate|].
  destruct (p x) eqn:E.
  - intros H Hy. injection H as H. assert (k = 0)%nat by lia. subst k. simpl.
    rewrite Hy. reflexivity.
  - intros H Hy. destruct k as [|k].
    + exfalso.
      assert (Hge : forall (l' : list A) (a b : nat),
                 findIndexFrom p l' a = Some b -> (a <= b)%nat).
      { induction l' as [|z l' IH']; simpl; intros a b Hab; [discriminate|].
        destruct (p z); [injection Hab; lia|]. apply IH' in Hab. lia. }
      apply Hge in H. lia.
    + simpl. rewrite E. apply (IH (S i) k); [|exact Hy].
      rewrite H. f_equal. lia.
Qed.

Lemma find_app_last {A} (p : A -> bool) (l : list A) (y : A) :
  findIndexFrom p l 0 = None -> p y = true -> find p (l ++ [y]) = Some y.
Proof.
  intros Hnone Hy. apply findIndexFrom_none in Hnone.
  induction l as [|x l IH]; simpl in *; [rewrite Hy; reflexivity|].
  destruct (p x); [discriminate|]. apply IH. exact Hnone.
Qed.

(** X13: giving an item and reading it back.  After [setItemStatus c id]
    the creature has an item and [getItemId] returns [id] (also for the empty
    id, which is read from the item status entry); after [clearItemStatus] it
    has none; and clearing after giving is the same as clearing. *)
Theorem item_set_get_clear (c : Creature) (itemId : string) :
  hasItem (Some (setItemStatus c itemId)) = true /\
  getItemId (Some (setItemStatus c itemId)) = Some itemId /\
  hasItem (Some (clearItemStatus c)) = false /\
  getItemId (Some (clearItemStatus c)) = None /\
  clearItemStatus (setItemStatus c itemId) = clearItemStatus c.
Proof.
  set (isItem := fun s : Status => isItemStatus (s_id s)).
  set (statusObj := mkStatus "item" None (itemData itemId)).
  assert (Hfound : find isItem (c_statuses (setItemStatus c itemId)) = Some statusObj).
  { unfold setItemStatus. fold isItem. fold statusObj. unfold findIndex.
    destruct (findIndexFrom isItem (c_statuses c) 0) as [i|] eqn:E; simpl.
    - apply (find_updNat_first isItem _ 0 i); [exact E|reflexivity].
    - apply find_app_last; [exact E|reflexivity]. }
  assert (Hitem : c_item (setItemStatus c itemId) = Some itemId).
  { unfold setItemStatus. destruct (findIndex _ _); reflexivity. }
  assert (Hclean : forall l, existsb isItem (filter (fun s => negb (isItem s)) l) = false).
  { induction l as [|s l IH]; simpl; [reflexivity|].
    destruct (isItem s) eqn:E; simpl; [exact IH|]. rewrite E. exact IH. }
  split; [|split; [|split; [|split]]].
  - unfold hasItem. rewrite Hitem. destruct (truthyStr (Some itemId)); [reflexivity|].
    fold isItem. destruct (existsb isItem _) eqn:E; [reflexivity|].
    assert (Hall : forall x, In x (c_statuses (setItemStatus c itemId)) -> isItem x = false).
    { intros x Hx. destruct (isItem x) eqn:Ex; [|reflexivity].
      assert (existsb isItem (c_statuses (setItemStatus c itemId)) = true)
        by (apply existsb_exists; eauto). congruence. }
    apply find_some in Hfound. destruct Hfound as [Hin Hp].
    rewrite (Hall _ Hin) in Hp. discriminate.
  - unfold getItemId. rewrite Hitem. unfold truthyStr.
    destruct (String.eqb_spec itemId ""); cbn [negb]; [|reflexivity].
    fold isItem. rewrite Hfound. reflexivity.
  - unfold hasItem, clearItemStatus. simpl. fold isItem. apply Hclean.
  - unfold getItemId, clearItemStatus. simpl. fold isItem. clear Hfound.
    destruct (find isItem (filter _ (c_statuses c))) as [s|] eqn:E; [|reflexivity].
    apply find_some in E. destruct E as [Hin Hp].
    assert (existsb isItem (filter (fun s => negb (isItem s)) (c_statuses c)) = true)
      by (apply existsb_exists; eauto).
    rewrite Hclean in H. discriminate.
  - unfold clearItemStatus, setItemStatus. fold isItem. fold statusObj. unfold findIndex.
    destruct (findIndexFrom isItem (c_statuses c) 0) as [i|] eqn:E; simpl.
    + assert (Hf : filter (fun s => negb (isItemStatus (s_id s)))
                     (updNat (c_statuses c) i (fun _ => statusObj))
                   = filter (fun s => negb (isItemStatus (s_id s))) (c_statuses c))
        by apply (proj2 (findIndexFrom_replace isItem statusObj (c_statuses c) 0 i
                           eq_refl E)).
      destruct c; simpl in *. rewrite Hf. reflexivity.
    + destruct c; simpl. rewrite filter_app. simpl. rewrite app_nil_r. reflexivity.
Qed.

(** ** PP bookkeeping *)

(** X14: [hasMovePp] and [consumeMovePp] agree on whether a move can be
    used; a successful use of a move with finite PP lowers its entry by
    exactly one and keeps it non-negative, a move whose definition has no
    numeric PP is never counted down, and the PP entries of the other moves are
    not touched. *)
Theorem pp_check_and_consume (c : Creature) (moveId : string) (moveDef : option Move) :
  snd (hasMovePp c moveId moveDef) = snd (consumeMovePp c moveId moveDef) /\
  (forall n, snd (ensureMovePp c moveId moveDef) = Some n ->
     (snd (consumeMovePp c moveId moveDef) = true <-> 0 < n) /\
     objGet (c_movePp (fst (consumeMovePp c moveId moveDef))) moveId
     = Some (Some (if 0 <? n then n - 1 else n))) /\
  (snd (ensureMovePp c moveId moveDef) = None ->
   snd (consumeMovePp c moveId moveDef) = true /\
   objGet (c_movePp (fst (consumeMovePp c moveId moveDef))) moveId = Some None) /\
  (forall other, other <> moveId ->
     objGet (c_movePp (fst (consumeMovePp c moveId moveDef))) other
     = objGet (c_movePp c) other).
Proof.
  unfold hasMovePp, consumeMovePp, ensureMovePp.
  destruct (objGet (c_movePp c) moveId) as [remaining|] eqn:E.
  - destruct remaining as [n|]; cbn [fst snd].
    + destruct (Z.leb_spec n 0) as [Hle|Hgt]; cbn [fst snd].
      * replace (0 <? n) with false by (symmetry; apply Z.ltb_ge; lia).
        split; [reflexivity|]. split.
        { intros m Hm. injection Hm as <-.
          replace (0 <? n) with false by (symmetry; apply Z.ltb_ge; lia).
          split; [split; [discriminate|lia]|exact E]. }
        split; [discriminate|reflexivity].
      * replace (0 <? n) with true by (symmetry; apply Z.ltb_lt; lia).
        split; [reflexivity|]. split.
        { intros m Hm. injection Hm as <-.
          replace (0 <? n) with true by (symmetry; apply Z.ltb_lt; lia).
          split; [split; [lia|reflexivity]|]. simpl. apply objGet_objSet. }
        split; [discriminate|].
        intros other Hne. simpl. apply objGet_objSet_other. exact Hne.
    + split; [reflexivity|]. split; [discriminate|].
      split; [intros _; split; [reflexivity|exact E]|reflexivity].
  - set (pp := match moveDef with Some m => m_pp m | None => None end).
    destruct pp as [n|] eqn:Hpp; cbn [fst snd].
    + destruct (Z.leb_spec n 0) as [Hle|Hgt]; cbn [fst snd].
      * replace (0 <? n) with false by (symmetry; apply Z.ltb_ge; lia).
        split; [reflexivity|]. split.
        { intros m Hm. injection Hm as <-.
          replace (0 <? n) with false by (symmetry; apply Z.ltb_ge; lia).
          split; [split; [discriminate|lia]|]. simpl. apply objGet_objSet. }
        split; [discriminate|].
        intros other Hne. simpl. apply objGet_objSet_other. exact Hne.
      * replace (0 <? n) with true by (symmetry; apply Z.ltb_lt; lia).
        split; [reflexivity|]. split.
        { intros m Hm. injection Hm as <-.
          replace (0 <? n) with true by (symmetry; apply Z.ltb_lt; lia).
          split; [split; [lia|reflexivity]|]. simpl. apply objGet_objSet. }
        split; [discriminate|].
        intros other Hne. simpl.
        rewrite !objGet_objSet_other by exact Hne. reflexivity.
    + split; [reflexivity|]. split; [discriminate|].
      split; [intros _; split; [reflexivity|simpl; apply objGet_objSet]|].
      intros other Hne. simpl. apply objGet_objSet_other. exact Hne.
Qed.

(** ** Weather *)

Lemma find_after_filter {A} (p : A -> bool) (l : list A) (y : A) :
  find p (filter (fun x => negb (p x)) l ++ [y]) = if p y then Some y else None.
Proof.
  induction l as [|x l IH]; simpl; [reflexivity|].
  destruct (p x) eqn:E; simpl; [exact IH|]. rewrite E. exact IH.
Qed.

(** X15: [getWeather] after [setWeather].  Setting sun or rain makes
    [getWeather] report it, whatever the field held; setting any other id
    (hail, sandstorm) makes [getWeather] report no weather at all, since the
    previous sun or rain entry is dropped and the new one is not recognised. *)
Theorem getWeather_after_setWeather (st : State) (id : string) (turns : option Z) :
  getWeather (setWeather st id turns) = if isSunRain id then Some id else None.
Proof.
  unfold getWeather, setWeather. simpl.
  rewrite (filter_ext _ (fun e => negb (orb (String.eqb (s_id e) "sun")
                                            (String.eqb (s_id e) "rain"))))
    by (intros e; rewrite negb_orb; reflexivity).
  rewrite (find_after_filter (fun e => orb (String.eqb (s_id e) "sun")
                                           (String.eqb (s_id e) "rain"))).
  unfold isSunRain. simpl. destruct (orb _ _); reflexivity.
Qed.

(** ** Speed *)

(** X16: the speed the resolver orders actions by is the speed the effect
    compiler computes for speed-based damage in the same turn. *)
Theorem ordering_speed_is_effect_speed (st : State) (playerId : string) :
  creatureSpeed st playerId = computeSpeed st playerId (turn st).
Proof.
  unfold creatureSpeed, computeSpeed, currentCreature, getActiveCreature, activeOf.
  destruct (findPlayer st playerId) as [p|]; [|reflexivity].
  destruct (arrGet (p_team p) (p_activeSlot p)) as [c|]; [|reflexivity].
  unfold stageOr0, stageMultiplier. destruct (objGet (c_stages c) "spe"); reflexivity.
Qed.

(** ** Abilities *)

Lemma find_some_id (s : State) (playerId : string) (p : Player) :
  findPlayer s playerId = Some p -> p_id p = playerId /\ In p (players s).
Proof.
  unfold findPlayer. intros H. apply find_some in H. destruct H as [Hin Hid].
  split; [apply String.eqb_eq; exact Hid|exact Hin].
Qed.

(** X17: Intimidate fires once per switch-in.  On a creature whose
    [intimidateUsed] flag is not set the [onSwitchIn] hook draws nothing, sets
    the flag, and lowers the attack of the other players' active creatures by
    one stage (never the holder's own); run again on the state it returned, it
    returns that state with no event.  A switch event clears the flags of the
    outgoing creature, so the ability is armed again when it comes back. *)
Theorem intimidate_fires_once (moves : JsObj Move) (fuel : nat) (st : State)
    (playerId : string) (player : Player) (active : Creature) (g : RngSt) :
  findPlayer st playerId = Some player ->
  getActiveCreature st playerId = Some active ->
  c_ability active = "intimidate" ->
  abilityFlag active "intimidateUsed" = false ->
  exists h,
    runAbilityHooks moves fuel st playerId OnSwitchIn None g = Ok (h, g) /\
    stateFrame (hk_state h) = stateFrame st /\
    (forall e, In e (hk_events h) ->
       exists other, e = modifyStageEvent other [("atk", -1)] (sourceMeta playerId)
                     /\ other <> playerId) /\
    runAbilityHooks moves fuel (hk_state h) playerId OnSwitchIn None g
    = Ok (unhooked (hk_state h), g) /\
    forall key, abilityFlag (resetOutgoing active) key = false.
Proof.
  intros Hp Hact Hab Hflag.
  destruct (find_some_id _ _ _ Hp) as [Hid _].
  set (next := markAbilityUsed st playerId "intimidateUsed").
  exists (mkHooked next (intimidateEvents next player) false None []).
  split.
  { unfold runAbilityHooks. rewrite Hp, Hact, Hab. cbn [abilityHookHandler String.eqb
      Ascii.eqb Bool.eqb]. rewrite Hflag. rewrite Hid. reflexivity. }
  split.
  { cbn [hk_state]. unfold next, markAbilityUsed. apply frame_updActive. reflexivity. }
  split.
  { cbn [hk_events]. intros e He. unfold intimidateEvents in He.
    apply in_flat_map in He. destruct He as (other & _ & He).
    destruct (String.eqb_spec (p_id other) (p_id player)) as [Heq|Hne]; [destruct He|].
    destruct (getActiveCreature next (p_id other)); [|destruct He].
    destruct (runAbilityCheckHook _ _ _ _); [destruct He|].
    destruct He as [<-|[]]. exists (p_id other). rewrite Hid in *. split; [reflexivity|exact Hne]. }
  split.
  { cbn [hk_state]. unfold runAbilityHooks, next, markAbilityUsed.
    unfold updActive at 1. rewrite findPlayer_updPlayer by reflexivity. rewrite Hp.
    cbn [option_map]. fold (updActive st playerId
      (fun c => setAbilityData c (objSet (c_abilityData c) "intimidateUsed" FlagTrue))).
    rewrite getActive_updActive, Hact. cbn [option_map c_ability setAbilityData].
    rewrite Hab. cbn [abilityHookHandler String.eqb Ascii.eqb Bool.eqb].
    unfold abilityFlag. cbn [c_abilityData setAbilityData].
    rewrite objGet_objSet. reflexivity. }
  intros key. reflexivity.
Qed.

(** The theorem at an Intimidate holder facing Beta. *)
Lemma intimidate_fires_once_witness :
  let st := createBattleState
              [mkPlayerInput "p1" "A" [exCreature "Gyara" "intimidate" ["water"] 100 100 10];
               mkPlayerInput "p2" "B" [beta]] in
  exists h,
    runAbilityHooks exMoves 1 st "p1" OnSwitchIn None (exRng []) = Ok (h, exRng []) /\
    hk_events h = [modifyStageEvent "p2" [("atk", -1)] (sourceMeta "p1")].
Proof.
  intros st.
  destruct (intimidate_fires_once exMoves 1 st "p1"
              (mkPlayer "p1" "A" [exCreature "Gyara" "intimidate" ["water"] 100 100 10] 0 None)
              (exCreature "Gyara" "intimidate" ["water"] 100 100 10) (exRng [])
              eq_refl eq_refl eq_refl eq_refl) as (h & Hok & _).
  exists h. split; [exact Hok|].
  assert (Hh : Ok (h, exRng [])
               = runAbilityHooks exMoves 1 st "p1" OnSwitchIn None (exRng []))
    by (symmetry; exact Hok).
  vm_compute in Hh. injection Hh as ->. reflexivity.
Defined.

Lemma not_reactive (moves : JsObj Move) (ability : string) :
  includes reactiveAbilities ability = false ->
  (forall ev p c, abilityOnTryHit moves ability ev p c = None) /\
  (forall st ev p c, abilityOnAfterEvent ability st ev p c = None).
Proof.
  unfold includes, reactiveAbilities. cbn [existsb]. intros H.
  repeat (apply orb_false_iff in H; destruct H as [? H]).
  split.
  - intros ev p c. unfold abilityOnTryHit.
    repeat match goal with Hx : String.eqb ability _ = false |- _ => rewrite Hx; clear Hx end.
    reflexivity.
  - intros st ev p c. unfold abilityOnAfterEvent.
    repeat match goal with Hx : String.eqb ability _ = false |- _ => rewrite Hx; clear Hx end.
    reflexivity.
Qed.

Lemma flat_map_singleton {A} (l : list A) : flat_map (fun x => [x]) l = l.
Proof. induction l as [|x l IH]; simpl; [reflexivity|]. rewrite IH. reflexivity. Qed.

Lemma flat_map_nil {A B} (f : A -> list B) (l : list A) :
  (forall x, In x l -> f x = []) -> flat_map f l = [].
Proof.
  induction l as [|x l IH]; simpl; [reflexivity|]. intros H.
  rewrite (H x) by (left; reflexivity). apply IH. intros y Hy. apply H. right. exact Hy.
Qed.

(** X18: when no active creature has an intercepting or reacting ability
    (Magic Bounce, Lightning Rod, Stamina, Cotton Down, Berserk, Competitive,
    Opportunist), the ability pass returns the events it was given: nothing is
    added, dropped, retargeted or reordered. *)
Theorem ability_pass_is_identity (moves : JsObj Move) (st : State) (events : list Event) :
  (forall p c, In p (players st) -> getActiveCreature st (p_id p) = Some c ->
               includes reactiveAbilities (c_ability c) = false) ->
  applyAbilityEventModifiers moves st events = events.
Proof.
  intros Hnone.
  assert (Hreact : forall ev, reactions st ev = []).
  { intros ev. unfold reactions. apply flat_map_nil. intros p Hp.
    destruct (getActiveCreature st (p_id p)) as [c|] eqn:E; [|reflexivity].
    rewrite (proj2 (not_reactive moves _ (Hnone p c Hp E))). reflexivity. }
  assert (Hint : forall ev, intercept moves st ev = [ev]).
  { intros ev. unfold intercept.
    destruct (eventTargetId ev) as [t|]; [|reflexivity].
    destruct (String.eqb t ""); [reflexivity|].
    destruct (findPlayer st t) as [tp|] eqn:Ep; [|reflexivity].
    destruct (getActiveCreature st t) as [tc|] eqn:Ec; [|reflexivity].
    destruct (find_some_id _ _ _ Ep) as [Hid Hin]. rewrite <- Hid in Ec.
    rewrite (proj1 (not_reactive moves _ (Hnone tp tc Hin Ec))). reflexivity. }
  unfold applyAbilityEventModifiers.
  rewrite (flat_map_ext _ (fun ev => [ev])); [apply flat_map_singleton|].
  intros ev. rewrite Hint. simpl. rewrite Hreact. reflexivity.
Qed.

(** The theorem at the two plain creatures of the example state. *)
Lemma ability_pass_is_identity_witness :
  applyAbilityEventModifiers exMoves exState [EvDamage "p2" 10 noMeta]
  = [EvDamage "p2" 10 noMeta].
Proof.
  apply ability_pass_is_identity.
  intros p c [<-|[<-|[]]] Hc; injection Hc as <-; reflexivity.
Defined.

(** ** Durations *)

Lemma tickList_app (l1 l2 : list Status) : tickList (l1 ++ l2) = tickList l1 ++ tickList l2.
Proof. unfold tickList. rewrite map_app, filter_app. reflexivity. Qed.

Lemma tickList_aged (k : nat) (s : Status) :
  tickList (agedStatus k s) = agedStatus (S k) s.
Proof.
  unfold agedStatus, tickList.
  destruct k as [|k].
  - destruct (s_remainingTurns s) as [n|] eqn:E; cbn [map filter]; rewrite E.
    + cbn [s_remainingTurns]. change (Z.of_nat 1) with 1.
      destruct (Z.ltb_spec 0 (n - 1)), (Z.ltb_spec 1 n); try lia; reflexivity.
    + rewrite E. reflexivity.
  - destruct (s_remainingTurns s) as [n|] eqn:E.
    + destruct (Z.ltb_spec (Z.of_nat (S k)) n) as [Hlt|Hge].
      * cbn [map filter s_remainingTurns].
        destruct (Z.ltb_spec 0 (n - Z.of_nat (S k) - 1)) as [H1|H1];
          destruct (Z.ltb_spec (Z.of_nat (S (S k))) n) as [H2|H2]; try lia.
        -- cbn [s_id s_data]. do 3 f_equal. lia.
        -- reflexivity.
      * cbn [map filter]. destruct (Z.ltb_spec (Z.of_nat (S (S k))) n); [lia|reflexivity].
    + cbn [map filter]. rewrite E. rewrite E. reflexivity.
Qed.

Lemma tickList_iter (k : nat) (l : list Status) :
  Nat.iter k tickList l = flat_map (agedStatus k) l.
Proof.
  induction k as [|k IH].
  - simpl. symmetry. apply flat_map_singleton.
  - cbn [Nat.iter nat_rect]. change (nat_rect _ l (fun _ => tickList) k)
      with (Nat.iter k tickList l). rewrite IH. clear IH.
    induction l as [|s l IHl]; [reflexivity|].
    cbn [flat_map]. rewrite tickList_app, tickList_aged, IHl. reflexivity.
Qed.

(** X19: a field effect with [remainingTurns = n] is present for exactly
    the [n - 1] ticks that follow and is gone at the [n]-th; one without a
    duration is never removed.  After [k] ticks the field holds, in their
    order, the aged entries of the original field. *)
Theorem durations_count_down (st : State) (k : nat) :
  f_global (field (Nat.iter k tickFieldEffects st))
  = flat_map (agedStatus k) (f_global (field st)) /\
  (forall s n, s_remainingTurns s = Some n -> (0 < k)%nat ->
     agedStatus k s
     = if Z.of_nat k <? n
       then [mkStatus (s_id s) (Some (n - Z.of_nat k)) (s_data s)] else []) /\
  (forall s, s_remainingTurns s = None -> agedStatus k s = [s]).
Proof.
  split; [|split].
  - rewrite <- tickList_iter. induction k as [|k IH]; [reflexivity|].
    cbn [Nat.iter nat_rect].
    change (nat_rect _ st (fun _ => tickFieldEffects) k) with (Nat.iter k tickFieldEffects st).
    change (nat_rect _ (f_global (field st)) (fun _ => tickList) k)
      with (Nat.iter k tickList (f_global (field st))).
    rewrite <- IH. reflexivity.
  - intros s n Hs Hk. unfold agedStatus. rewrite Hs. destruct k; [lia|reflexivity].
  - intros s Hs. unfold agedStatus. rewrite Hs. destruct k; reflexivity.
Qed.

(** Five turns of sun on the example field: present after four ticks with
    one turn left, gone after the fifth. *)
Lemma durations_count_down_witness :
  let st := setWeather exState "sun" (Some 5) in
  map (fun e => (s_id e, s_remainingTurns e)) (f_global (field (Nat.iter 4 tickFieldEffects st)))
  = [("sun", Some 1)] /\
  f_global (field (Nat.iter 5 tickFieldEffects st)) = [].
Proof.
  intros st. split.
  - rewrite (proj1 (durations_count_down st 4)). reflexivity.
  - rewrite (proj1 (durations_count_down st 5)). reflexivity.
Defined.

(** ** Protect *)

Lemma includes_In (l : list string) (x : string) : includes l x = true <-> In x l.
Proof.
  unfold includes. rewrite existsb_exists. split.
  - intros (y & Hy & He). apply String.eqb_eq in He. subst. exact Hy.
  - intros H. exists x. split; [exact H|apply String.eqb_refl].
Qed.

Lemma includes_not_In (l : list string) (x : string) : includes l x = false <-> ~ In x l.
Proof.
  rewrite <- includes_In. destruct (includes l x); split; congruence.
Qed.

Lemma optEqb_string_sym (a b : option string) :
  optEqb String.eqb a b = optEqb String.eqb b a.
Proof. destruct a, b; simpl; try reflexivity. apply String.eqb_sym. Qed.

(** The transforms of [protect.onEventTransform], as a set. *)
Lemma protectTransforms_spec (p : Player) (c : Creature) (incoming : list Event)
    (seen : list string) (t : Transform) :
  In t (protectTransforms p c incoming seen) <->
  exists ty,
    t = protectTransform (p_id p) c ty /\
    In ty (map eventType
             (filter (fun ev => andb (protectedType (eventType ev))
                                     (negb (optEqb String.eqb (mt_source (eventMeta ev))
                                              (Some (p_id p))))) incoming)) /\
    ~ In ty seen.
Proof.
  revert seen. induction incoming as [|ev rest IH]; intros seen; cbn [protectTransforms].
  - simpl. split; [intros []|intros (ty & _ & [] & _)].
  - cbn [filter].
    destruct (protectedType (eventType ev)) eqn:Hpt; cbn [andb].
    + destruct (negb (optEqb String.eqb (mt_source (eventMeta ev)) (Some (p_id p)))) eqn:Hsrc;
        cbn [andb].
      * destruct (includes seen (eventType ev)) eqn:Hseen; cbn [negb map].
        -- rewrite IH. apply includes_In in Hseen. split.
           ++ intros (ty & Ht & Hin & Hns). exists ty. repeat split; auto. right. exact Hin.
           ++ intros (ty & Ht & [Heq|Hin] & Hns); [subst ty; contradiction|].
              exists ty. repeat split; auto.
        -- apply includes_not_In in Hseen. cbn [In]. rewrite IH. split.
           ++ intros [Ht|(ty & Ht & Hin & Hns)].
              ** exists (eventType ev). split; [symmetry; exact Ht|].
                 split; [left; reflexivity|exact Hseen].
              ** exists ty. split; [exact Ht|]. split; [right; exact Hin|].
                 intros Hs. apply Hns. right. exact Hs.
           ++ intros (ty & Ht & [Heq|Hin] & Hns).
              ** left. subst ty. symmetry. exact Ht.
              ** destruct (string_dec (eventType ev) ty) as [Heq|Hne].
                 --- left. subst ty. symmetry. exact Ht.
                 --- right. exists ty. split; [exact Ht|]. split; [exact Hin|].
                     intros [Hs|Hs]; [contradiction|apply Hns; exact Hs].
      * apply IH.
    + apply IH.
Qed.

Lemma filter_filter_and {A} (p q : A -> bool) (l : list A) :
  filter q (filter p l) = filter (fun x => andb (p x) (q x)) l.
Proof.
  induction l as [|x l IH]; simpl; [reflexivity|].
  destruct (p x); simpl; [destruct (q x); rewrite IH; reflexivity|exact IH].
Qed.

(** What [applyEventTransforms] does with a set of Protect transforms of one
    player that covers exactly the types in [blocked]. *)
Lemma apply_protect_transforms (playerId : string) (c : Creature) (blocked : list string)
    (transforms : list Transform) (events : list Event) :
  playerId <> "" ->
  (forall t, In t transforms <->
             exists ty, t = protectTransform playerId c ty /\ In ty blocked) ->
  applyEventTransforms events transforms
  = flat_map
      (fun ev =>
         if andb (optEqb String.eqb (eventTargetId ev) (Some playerId))
                 (includes blocked (eventType ev))
         then [protectLog c] else [ev])
      events.
Proof.
  intros Hid Hspec. unfold applyEventTransforms.
  destruct transforms as [|t0 ts] eqn:Et.
  - assert (Hb : forall ty, ~ In ty blocked).
    { intros ty Hty. apply (proj2 (Hspec (protectTransform playerId c ty))). eauto. }
    rewrite (flat_map_ext _ (fun ev => [ev])); [symmetry; apply flat_map_singleton|].
    intros ev. replace (includes blocked (eventType ev)) with false
      by (symmetry; apply includes_not_In; apply Hb).
    rewrite andb_false_r. reflexivity.
  - rewrite <- Et in *. clear Et t0 ts.
    apply flat_map_ext. intros ev.
    assert (Hcancel : existsb (fun t => andb (String.eqb (t_type t) "cancel_event")
                                 (andb (optEqb String.eqb (t_from t) (Some (eventType ev)))
                                       (transformTargets t ev))) transforms = false).
    { destruct (existsb _ transforms) eqn:E; [|reflexivity].
      apply existsb_exists in E. destruct E as (t & Hin & Ht).
      apply Hspec in Hin. destruct Hin as (ty & -> & _). discriminate. }
    rewrite Hcancel.
    assert (Hpred : forall ty,
               andb (String.eqb (t_type (protectTransform playerId c ty)) "replace_event")
                    (andb (optEqb String.eqb (t_from (protectTransform playerId c ty))
                             (Some (eventType ev)))
                          (transformTargets (protectTransform playerId c ty) ev))
               = andb (String.eqb ty (eventType ev))
                      (optEqb String.eqb (eventTargetId ev) (Some playerId))).
    { intros ty. unfold protectTransform, transformTargets, truthyStr.
      cbn [t_type t_from t_targetId]. rewrite String.eqb_refl.
      destruct (String.eqb_spec playerId ""); [contradiction|]. cbn [negb orb andb].
      rewrite (optEqb_string_sym (Some playerId)). reflexivity. }
    destruct (find _ transforms) as [r|] eqn:Ef.
    + apply find_some in Ef. destruct Ef as [Hin Hr].
      apply Hspec in Hin. destruct Hin as (ty & -> & Hty).
      rewrite Hpred in Hr. apply andb_true_iff in Hr. destruct Hr as [Hty' Htgt].
      apply String.eqb_eq in Hty'. subst ty. rewrite Htgt.
      rewrite (proj2 (includes_In _ _) Hty). reflexivity.
    + destruct (optEqb String.eqb (eventTargetId ev) (Some playerId)) eqn:Htgt;
        [|reflexivity].
      destruct (includes blocked (eventType ev)) eqn:Hinc; [|reflexivity].
      exfalso. apply includes_In in Hinc.
      assert (Hin : In (protectTransform playerId c (eventType ev)) transforms)
        by (apply Hspec; eauto).
      apply (find_none _ _ Ef) in Hin. rewrite Hpred, String.eqb_refl in Hin.
      cbn [andb] in Hin. congruence.
Qed.

Lemma protectTransforms_members (p : Player) (c : Creature) (events : list Event)
    (t : Transform) :
  In t (protectTransforms p c
          (filter (fun e => optEqb String.eqb (eventTargetId e) (Some (p_id p))) events) [])
  <-> exists ty, t = protectTransform (p_id p) c ty /\ In ty (blockedTypes (p_id p) events).
Proof.
  rewrite protectTransforms_spec. unfold blockedTypes.
  rewrite filter_filter_and. unfold foreignProtected.
  split.
  - intros (ty & Ht & Hin & _). eauto.
  - intros (ty & Ht & Hin). exists ty. repeat split; auto.
Qed.

Lemma protect_handler_only (id : string) :
  statusHookHandler id OnEventTransform
  = if String.eqb id "protect"
    then statusHookHandler "protect" OnEventTransform else None.
Proof.
  destruct (String.eqb_spec id "protect") as [->|Hne]; [reflexivity|].
  unfold statusHookHandler. apply String.eqb_neq in Hne. rewrite Hne. reflexivity.
Qed.

(** The Protect handler returns its transforms without drawing. *)
Lemma protect_handler_result (st : State) (p : Player) (c : Creature) (status : Status)
    (events : list Event) (g : RngSt) :
  exists result handler,
    statusHookHandler "protect" OnEventTransform = Some handler /\
    handler (mkArgs st (Some (p, c)) (Some status) OnEventTransform None None events) g
    = Ok (result, g) /\
    sr_state result = None /\ sr_writeTurns result = None /\
    orDefault (sr_eventTransforms result) []
    = protectTransforms p c
        (filter (fun e => optEqb String.eqb (eventTargetId e) (Some (p_id p))) events) [].
Proof.
  destruct events as [|e es].
  - exists noResult. eexists. repeat split; reflexivity.
  - destruct (filter (fun e0 => optEqb String.eqb (eventTargetId e0) (Some (p_id p)))
                (e :: es)) as [|i0 is0] eqn:E.
    + exists noResult. eexists. split; [reflexivity|].
      cbn [ha_events ha_player withPlayer]. rewrite E. repeat split; reflexivity.
    + eexists. eexists. split; [reflexivity|].
      cbn [ha_events ha_player withPlayer]. rewrite E.
      split; [reflexivity|]. repeat split; reflexivity.
Qed.

Lemma statusLoop_transforms (st : State) (playerId : string) (p : Player) (c : Creature)
    (events : list Event) (statuses : list Status) :
  forall (k : nat) (replaced : bool) (acc : Hooked) (g : RngSt),
    hk_state acc = st ->
    exists acc',
      statusLoop statuses k replaced playerId (p, c) OnEventTransform None None events acc g
      = Ok (acc', g) /\
      hk_state acc' = st /\
      forall t, In t (hk_eventTransforms acc') <->
                In t (hk_eventTransforms acc) \/
                (existsb (fun s => String.eqb (s_id s) "protect") statuses = true /\
                 In t (protectTransforms p c
                         (filter (fun e => optEqb String.eqb (eventTargetId e)
                                             (Some (p_id p))) events) [])).
Proof.
  induction statuses as [|status rest IH]; intros k replaced acc g Hst.
  - exists acc. split; [reflexivity|]. split; [exact Hst|].
    intros t. simpl. split; [auto|intros [H|[H _]]; [exact H|discriminate]].
  - cbn [statusLoop existsb]. rewrite protect_handler_only.
    destruct (String.eqb (s_id status) "protect") eqn:Eid.
    + destruct (protect_handler_result (hk_state acc) p c status events g)
        as (result & handler & Hh & Hrun & Hs & Hw & Ht).
      rewrite Hh. unfold bind at 1. rewrite Hrun. cbn [resBind fst snd].
      rewrite Hs, Hw. cbn [orDefault].
      match goal with
      | |- context [statusLoop rest ?k2 ?r2 _ _ _ _ _ _ ?acc2 g] =>
          destruct (IH k2 r2 acc2 g Hst) as (acc' & Hok & Hst' & Hin)
      end.
      exists acc'. split; [exact Hok|]. split; [exact Hst'|].
      intros t. rewrite Hin. cbn [hk_eventTransforms]. rewrite in_app_iff, Ht. cbn [orb].
      tauto.
    + destruct (IH (if isItemStatus (s_id status) then k else S k) replaced acc g Hst)
        as (acc' & Hok & Hst' & Hin).
      exists acc'. split; [exact Hok|]. split; [exact Hst'|].
      intros t. rewrite Hin. cbn [orb]. tauto.
Qed.

Lemma fieldLoop_no_protect (hook : Hook) (events : list Event) (effects : list Status) :
  hook = OnEventTransform ->
  existsb (fun e => String.eqb (s_id e) "protect") effects = false ->
  forall acc g, fieldLoop effects hook events acc g = Ok (acc, g).
Proof.
  intros -> H. induction effects as [|e rest IH]; intros acc g; [reflexivity|].
  cbn [existsb] in H. apply orb_false_iff in H. destruct H as [He Hrest].
  cbn [fieldLoop]. rewrite protect_handler_only, He. apply IH. exact Hrest.
Qed.

Lemma collectStatusTransforms_protect (st : State) (playerId : string) (p : Player)
    (c : Creature) (events : list Event) (g : RngSt) :
  findPlayer st playerId = Some p ->
  getActiveCreature st playerId = Some c ->
  hasStatus c "protect" = true ->
  (forall q c', In q (players st) -> p_id q <> playerId ->
                getActiveCreature st (p_id q) = Some c' -> hasStatus c' "protect" = false) ->
  forall ps, incl ps (players st) ->
    exists ts,
      collectStatusTransforms st ps events g = Ok (ts, g) /\
      forall t, In t ts <->
                (exists q, In q ps /\ p_id q = playerId) /\
                In t (protectTransforms p c
                        (filter (fun e => optEqb String.eqb (eventTargetId e)
                                            (Some (p_id p))) events) []).
Proof.
  intros Hp Hact Hprot Hothers.
  induction ps as [|q rest IH]; intros Hincl.
  - exists []. split; [reflexivity|]. intros t. split; [intros []|intros [(q & [] & _) _]].
  - destruct IH as (more & Hmore & Hin).
    { intros x Hx. apply Hincl. right. exact Hx. }
    cbn [collectStatusTransforms]. unfold runStatusHooks.
    destruct (String.eqb_spec (p_id q) playerId) as [Heq|Hne].
    + rewrite Heq, Hp, Hact.
      destruct (statusLoop_transforms st playerId p c events (c_statuses c) 0 false
                  (unhooked st) g eq_refl) as (acc' & Hok & _ & Ht).
      unfold bind at 1. rewrite Hok. cbn [resBind fst snd].
      unfold bind. rewrite Hmore. cbn [resBind fst snd]. unfold ret.
      eexists. split; [reflexivity|].
      intros t. rewrite in_app_iff, Ht, Hin. cbn [hk_eventTransforms unhooked].
      unfold hasStatus in Hprot. rewrite Hprot. split.
      * intros [[[]|[_ H]]|[_ H]]; (split; [exists q; split; [left; reflexivity|exact Heq]|exact H]).
      * intros [_ H]. left. right. split; [reflexivity|exact H].
    + assert (Hnone : exists acc',
                 match findPlayer st (p_id q) with
                 | Some player =>
                     match getActiveCreature st (p_id q) with
                     | Some active =>
                         statusLoop (c_statuses active) 0 false (p_id q) (player, active)
                           OnEventTransform None None events (unhooked st)
                     | None => ret (unhooked st)
                     end
                 | None => ret (unhooked st)
                 end g = Ok (acc', g) /\ hk_eventTransforms acc' = []).
      { destruct (findPlayer st (p_id q)) as [q'|] eqn:Eq;
          [|exists (unhooked st); split; reflexivity].
        destruct (getActiveCreature st (p_id q)) as [c'|] eqn:Ec;
          [|exists (unhooked st); split; reflexivity].
        destruct (find_some_id _ _ _ Eq) as [Hid' Hin'].
        assert (Hno : hasStatus c' "protect" = false).
        { apply (Hothers q' c' Hin'); [rewrite Hid'; exact Hne|rewrite Hid'; exact Ec]. }
        destruct (statusLoop_transforms st (p_id q) q' c' events (c_statuses c') 0 false
                    (unhooked st) g eq_refl) as (acc' & Hok & _ & Ht).
        exists acc'. split; [exact Hok|].
        destruct (hk_eventTransforms acc') as [|t ts] eqn:E; [reflexivity|]. exfalso.
        unfold hasStatus in Hno. rewrite Hno in Ht.
        destruct (proj1 (Ht t) (or_introl eq_refl)) as [[]|[H _]]. discriminate. }
      destruct Hnone as (acc' & Hok & Hnil).
      unfold bind at 1. rewrite Hok. cbn [resBind fst snd].
      unfold bind. rewrite Hmore. cbn [resBind fst snd]. unfold ret.
      eexists. split; [reflexivity|].
      intros t. rewrite Hnil. cbn [app]. rewrite Hin. split.
      * intros [(x & Hx & Hxid) H]. split; [exists x; split; [right; exact Hx|exact Hxid]|exact H].
      * intros [(x & [Hx|Hx] & Hxid) H]; [subst x; contradiction|].
        split; [exists x; split; assumption|exact H].
Qed.

(** X20: Protect in the resolver's pipeline.  When the active creature of
    one player has the protect status, no other active creature has it and the
    field has no entry of that id, [collectEventTransforms] succeeds without
    drawing.  An event type (damage, apply_status or modify_stage) is blocked
    when at least one event of that type is aimed at the player by another
    source; applying the returned transforms replaces every event of a blocked
    type aimed at the player by the "protected itself!" line, the player's own
    events of that type included, and keeps every other event, in order.
    Afterwards no damage, status or stage event aimed at the player by another
    source is left. *)
Theorem protect_in_the_pipeline (st : State) (events : list Event) (playerId : string)
    (p : Player) (c : Creature) (g : RngSt) :
  findPlayer st playerId = Some p ->
  getActiveCreature st playerId = Some c ->
  playerId <> "" ->
  hasStatus c "protect" = true ->
  (forall q c', In q (players st) -> p_id q <> playerId ->
                getActiveCreature st (p_id q) = Some c' -> hasStatus c' "protect" = false) ->
  existsb (fun e => String.eqb (s_id e) "protect") (f_global (field st)) = false ->
  exists transforms,
    collectEventTransforms st events g = Ok (transforms, g) /\
    applyEventTransforms events transforms = shielded playerId c events /\
    forall ev, In ev (applyEventTransforms events transforms) ->
               foreignProtected playerId ev = false.
Proof.
  intros Hp Hact Hid Hprot Hothers Hfield.
  destruct (collectStatusTransforms_protect st playerId p c events g Hp Hact Hprot Hothers
              (players st) (incl_refl _)) as (ts & Hts & Hin).
  destruct (find_some_id _ _ _ Hp) as [Hpid Hpin]. subst playerId.
  unfold collectEventTransforms, bind. rewrite Hts. cbn [resBind fst snd].
  unfold runFieldHooks. rewrite (fieldLoop_no_protect _ _ _ eq_refl Hfield).
  cbn [resBind fst snd]. unfold ret. eexists. split; [reflexivity|].
  cbn [hk_eventTransforms unhooked]. rewrite app_nil_r.
  assert (Hshield : applyEventTransforms events
                      (stableSort (fun a b => Qle_bool (transformPriority b)
                                                (transformPriority a)) ts)
                    = shielded (p_id p) c events).
  { unfold shielded. apply apply_protect_transforms; [exact Hid|].
    intros t. rewrite <- protectTransforms_members.
    split.
    - intros Ht. apply (Permutation_in _ (stableSort_perm _ ts)) in Ht.
      apply Hin in Ht. exact (proj2 Ht).
    - intros Ht. apply (Permutation_in _ (Permutation_sym (stableSort_perm _ ts))).
      apply Hin. split; [exists p; split; [exact Hpin|reflexivity]|exact Ht]. }
  split; [exact Hshield|].
  rewrite Hshield. intros ev Hev. unfold shielded in Hev. apply in_flat_map in Hev.
  destruct Hev as (e & He & Hev).
  destruct (andb _ _) eqn:Hc.
  - destruct Hev as [<-|[]]. reflexivity.
  - destruct Hev as [<-|[]].
    destruct (foreignProtected (p_id p) e) eqn:Hfp; [|reflexivity].
    exfalso.
    assert (Hty : In (eventType e) (blockedTypes (p_id p) events)).
    { unfold blockedTypes. apply in_map. apply filter_In. split; assumption. }
    apply includes_In in Hty. rewrite Hty, andb_true_r in Hc.
    unfold foreignProtected in Hfp. rewrite Hc in Hfp. discriminate.
Qed.

(** The theorem at a Tackle hit aimed at a protected Beta, followed by a
    damage event and a stage event Beta aims at itself: the self-inflicted
    damage is replaced as well (its type is blocked by the hit), the stage
    event is kept. *)
Lemma protect_in_the_pipeline_witness :
  let guarded := setStatuses beta [mkStatus "protect" (Some 1) emptyData] in
  let st := createBattleState [mkPlayerInput "p1" "A" [alpha];
                               mkPlayerInput "p2" "B" [guarded]] in
  let own := EvModifyStage "p2" (Some [("atk", 1)]) None None None
               (moveMeta (Some "tackle") "p2") in
  let hit := [ EvLog "Alpha used Tackle!" (moveMeta (Some "tackle") "p1");
               EvDamage "p2" 29 (damageMeta "p1" "p2" (Some "tackle") false false);
               EvDamage "p2" 5 (damageMeta "p2" "p2" (Some "tackle") false false);
               own ] in
  exists transforms,
    collectEventTransforms st hit (exRng []) = Ok (transforms, exRng []) /\
    applyEventTransforms hit transforms
    = [ EvLog "Alpha used Tackle!" (moveMeta (Some "tackle") "p1");
        logEvent "Beta protected itself!";
        logEvent "Beta protected itself!";
        own ].
Proof.
  intros guarded st own hit.
  destruct (protect_in_the_pipeline st hit "p2" (mkPlayer "p2" "B" [guarded] 0 None) guarded
              (exRng []) eq_refl eq_refl)
    as (transforms & Hok & Hshield & _).
  - discriminate.
  - reflexivity.
  - intros q c' [<-|[<-|[]]] Hne Hc; [|exfalso; apply Hne; reflexivity].
    injection Hc as <-. reflexivity.
  - reflexivity.
  - exists transforms. split; [exact Hok|]. rewrite Hshield. reflexivity.
Defined.

(** ** One-hit knockouts and misses *)

(** X21: the outcomes of the ohko effect on two present creatures.  It
    always succeeds and never writes to the state; it emits either a single
    log line, or the "used" line followed by one damage event whose amount is
    the target's current hit points, and only then has it drawn (exactly once).
    Against a higher-level target (unless [failIfTargetHigherLevel] is
    [false]) it emits no damage and draws nothing.  Applying a damaging
    outcome always leaves the target at 0 hit points with a pending switch. *)
Theorem ohko_outcomes (st : State) (spec : OhkoSpec) (ctx : Ctx) (g : RngSt)
    (att tgt : Creature) :
  currentCreature st (attackerPlayerId ctx) = Some att ->
  currentCreature st (targetPlayerId ctx) = Some tgt ->
  let hit := EvDamage (targetPlayerId ctx) (c_hp tgt)
               (damageMeta (attackerPlayerId ctx) (targetPlayerId ctx) (moveId_ (move ctx))
                  false true) in
  exists events g',
    applyEffect st (FxOhko spec) ctx g = Ok ((events, st), g') /\
    ((exists line, events = [EvLog line (ctxMeta ctx)] /\ (g' = g \/ g' = advance g 1)) \/
     (exists line, events = [EvLog line (ctxMeta ctx); hit] /\ g' = advance g 1)) /\
    (c_level att < c_level tgt -> oh_failIfTargetHigherLevel spec <> Some false ->
     g' = g /\ ~ In hit events) /\
    (In hit events ->
     exists st2 tgt2,
       applyEvents st events = Ok st2 /\
       getActiveCreature st2 (targetPlayerId ctx) = Some tgt2 /\
       c_hp tgt2 = 0 /\ hasStatus tgt2 "pending_switch" = true).
Proof.
  intros Hatt Htgt hit.
  assert (Hlog1 : forall line,
             exists events g',
               Ok (([EvLog line (ctxMeta ctx)], st), g) = Ok ((events, st), g') /\
               ((exists line0, events = [EvLog line0 (ctxMeta ctx)]
                               /\ (g' = g \/ g' = advance g 1)) \/
                (exists line0, events = [EvLog line0 (ctxMeta ctx); hit]
                               /\ g' = advance g 1)) /\
               (c_level att < c_level tgt -> oh_failIfTargetHigherLevel spec <> Some false ->
                g' = g /\ ~ In hit events) /\
               (In hit events ->
                exists st2 tgt2,
                  applyEvents st events = Ok st2 /\
                  getActiveCreature st2 (targetPlayerId ctx) = Some tgt2 /\
                  c_hp tgt2 = 0 /\ hasStatus tgt2 "pending_switch" = true)).
  { intros line. exists [EvLog line (ctxMeta ctx)], g. split; [reflexivity|].
    split; [left; eauto|].
    split; [intros _ _; split; [reflexivity|intros [H|[]]; discriminate]|].
    intros [H|[]]. discriminate. }
  cbn [applyEffect]. unfold fxOhko. rewrite Hatt, Htgt. unfold built, ret.
  destruct (andb (andb _ _) _); [apply Hlog1|].
  destruct (match oh_immuneTypes spec with Some _ => _ | None => _ end); [apply Hlog1|].
  destruct (andb (negb (optEqb Bool.eqb (oh_failIfTargetHigherLevel spec) (Some false)))
                 (c_level att <? c_level tgt)) eqn:Elevel; [apply Hlog1|].
  assert (Hnolower : c_level att < c_level tgt ->
                     oh_failIfTargetHigherLevel spec <> Some false -> False).
  { intros Hlt Hflag. apply andb_false_iff in Elevel. destruct Elevel as [E|E].
    - apply negb_false_iff in E. destruct (oh_failIfTargetHigherLevel spec) as [[|]|];
        simpl in E; try discriminate. apply Hflag. reflexivity.
    - apply Z.ltb_ge in E. lia. }
  unfold bind. rewrite draw_advance. cbn [resBind fst snd].
  destruct (Qgtb _ _).
  - eexists. eexists. split; [reflexivity|].
    split; [left; eexists; split; [reflexivity|right; reflexivity]|].
    split; [intros Hlt Hflag; destruct (Hnolower Hlt Hflag)|].
    intros [H|[]]. discriminate.
  - eexists. eexists. split; [reflexivity|].
    split; [right; eexists; split; reflexivity|].
    split; [intros Hlt Hflag; destruct (Hnolower Hlt Hflag)|].
    intros _.
    assert (Hact : forall s, players s = players st ->
                     getActiveCreature s (targetPlayerId ctx) = Some tgt).
    { intros s Hs. unfold getActiveCreature, findPlayer, activeOf. rewrite Hs. exact Htgt. }
    cbn [applyEvents].
    assert (Hfirst : exists s1, applyEvent st (EvLog (c_name att +++ " used "
                        +++ orDefault (moveName_ (move ctx)) "an OHKO move" +++ "!")
                        (ctxMeta ctx)) = Ok s1 /\ players s1 = players st).
    { unfold applyEvent. destruct (String.eqb _ ""); eexists; split; reflexivity. }
    destruct Hfirst as (s1 & Hs1 & Hp1). rewrite Hs1. cbn [resBind].
    unfold hit, applyEvent. rewrite (Hact s1 Hp1).
    replace (Z.max 0 (c_hp tgt - c_hp tgt)) with 0 by lia. cbn [Z.eqb resBind].
    eexists. eexists. split; [reflexivity|].
    rewrite getActive_updActive.
    rewrite getActive_updPlayer by reflexivity.
    rewrite !getActive_pushLog, getActive_updActive, (Hact s1 Hp1). cbn [option_map].
    split; [reflexivity|]. split.
    + unfold pushPendingSwitch. destruct (hasStatus _ _); reflexivity.
    + apply hasStatus_pushPendingSwitch.
Qed.

(** The theorem at an OHKO move of Alpha on Beta with a passing draw. *)
Lemma ohko_outcomes_witness :
  currentCreature exState "p1" = Some alpha /\
  currentCreature exState "p2" = Some beta /\
  exists events g',
    applyEffect exState (FxOhko (mkOhko None None None None None None None)) (exCtx None)
      (exRng [(1 # 10)%Q]) = Ok ((events, exState), g').
Proof.
  split; [reflexivity|]. split; [reflexivity|].
  destruct (ohko_outcomes exState (mkOhko None None None None None None None) (exCtx None)
              (exRng [(1 # 10)%Q]) alpha beta eq_refl eq_refl) as (events & g' & Hok & _).
  exists events, g'. exact Hok.
Defined.

(** X22: a damage effect that misses.  When the accuracy roll exceeds the
    accuracy, the effect consumes that one draw, writes nothing and emits only
    the "missed" line; building that line needs both [ctx.attacker] and
    [ctx.move], so without one of them the effect raises a TypeError instead.
    The contexts the delayed and over-time handlers build carry no move, so a
    scheduled damage effect that misses raises. *)
Theorem damage_miss (st : State) (power accuracy : option Q) (name : option string)
    (ctx : Ctx) (g : RngSt) :
  Qgtb (drawAt g 0)
       (runAbilityValueHook st (attackerPlayerId ctx)
          (OnModifyAccuracy (move ctx) (getMoveCategory (move ctx))
             (currentCreature st (targetPlayerId ctx)))
          (orDefault accuracy 1%Q)) = true ->
  (forall a mv,
     attacker ctx = Some a -> move ctx = Some mv ->
     applyEffect st (FxDamage power accuracy name) ctx g
     = Ok (([EvLog (c_name a +++ "'s " +++ m_name mv +++ " missed!") (ctxMeta ctx)], st),
           advance g 1)) /\
  (attacker ctx = None \/ move ctx = None ->
   applyEffect st (FxDamage power accuracy name) ctx g = Throw typeErrorName) /\
  (forall targetId attackerId,
     ctx = scheduledCtx st targetId attackerId ->
     applyEffect st (FxDamage power accuracy name) ctx g = Throw typeErrorName).
Proof.
  intros Hmiss.
  assert (Hstart : applyEffect st (FxDamage power accuracy name) ctx g
                   = bind (attackerName ctx)
                          (fun an => match move ctx with
                                     | None => throw typeErrorName
                                     | Some mv =>
                                         built [EvLog (an +++ "'s " +++ m_name mv
                                                       +++ " missed!") (ctxMeta ctx)] st
                                     end) (advance g 1)).
  { cbn [applyEffect]. unfold fxDamage. unfold bind at 1. rewrite draw_advance.
    cbn [resBind fst snd]. rewrite Hmiss. reflexivity. }
  assert (Hthrow : attacker ctx = None \/ move ctx = None ->
                   applyEffect st (FxDamage power accuracy name) ctx g = Throw typeErrorName).
  { intros H. rewrite Hstart. unfold bind, attackerName.
    destruct (attacker ctx) as [a|]; [|reflexivity].
    destruct H as [H|H]; [discriminate|]. rewrite H. reflexivity. }
  split; [|split].
  - intros a mv Ha Hmv. rewrite Hstart. unfold bind, attackerName. rewrite Ha, Hmv.
    reflexivity.
  - exact Hthrow.
  - intros targetId attackerId ->. apply Hthrow. right. reflexivity.
Qed.

(** The theorem at a Tackle of accuracy 1/2 and a roll of 3/4. *)
Lemma damage_miss_witness :
  applyEffect exState (FxDamage (Some 40%Q) (Some (1 # 2)%Q) None) (exCtx (Some tackle))
    (exRng [(3 # 4)%Q])
  = Ok (([EvLog "Alpha's Tackle missed!" (ctxMeta (exCtx (Some tackle)))], exState),
        advance (exRng [(3 # 4)%Q]) 1).
Proof.
  exact (proj1 (damage_miss exState (Some 40%Q) (Some (1 # 2)%Q) None (exCtx (Some tackle))
                  (exRng [(3 # 4)%Q]) eq_refl) alpha tackle eq_refl eq_refl).
Defined.

(** ** The action generator and the evaluation of the AI *)

Lemma indexed_In {A} (l : list A) (k : nat) (i : Z) (x : A) :
  In (i, x) (combine (map Z.of_nat (seq k (List.length l))) l) ->
  exists j, i = Z.of_nat (k + j) /\ nth_error l j = Some x.
Proof.
  revert k. induction l as [|y l IH]; intros k; simpl; [intros []|].
  intros [H|H].
  - injection H as <- <-. exists 0%nat. split; [f_equal; lia|reflexivity].
  - destruct (IH (S k) H) as (j & Hi & Hj). exists (S j). split; [rewrite Hi; f_equal; lia|exact Hj].
Qed.

Lemma availableSwitches_legal (playerId : string) (player : Player) (a : Action) :
  In a (availableSwitches playerId player) ->
  exists slot c,
    a = switchAction playerId slot /\ arrGet (p_team player) slot = Some c /\
    0 < c_hp c /\ slot <> p_activeSlot player.
Proof.
  unfold availableSwitches. intros H. apply in_map_iff in H.
  destruct H as ([i c] & <- & Hin). apply filter_In in Hin. destruct Hin as [Hin Hok].
  apply andb_true_iff in Hok. destruct Hok as [Hhp Hne]. simpl in *.
  apply indexed_In in Hin. destruct Hin as (j & -> & Hj).
  exists (Z.of_nat (0 + j)), c. split; [reflexivity|]. split.
  - unfold arrGet. destruct (Z.ltb_spec (Z.of_nat (0 + j)) 0); [lia|].
    rewrite Nat2Z.id. exact Hj.
  - split; [apply Z.ltb_lt; exact Hhp|].
    apply negb_true_iff, Z.eqb_neq in Hne. exact Hne.
Qed.

Lemma availableMoves_legal (playerId : string) (active : Creature) (a : Action) :
  In a (availableMoves playerId active) ->
  exists m, a = moveAction playerId m /\ In m (c_moves active) /\
            objGet (c_movePp active) m <> Some (Some 0).
Proof.
  unfold availableMoves. intros H. apply in_map_iff in H.
  destruct H as (m & <- & Hin). apply filter_In in Hin. destruct Hin as [Hin Hok].
  exists m. split; [reflexivity|]. split; [exact Hin|].
  intros Hz. rewrite Hz in Hok. discriminate.
Qed.

(** X23: the actions [getAvailableActions] offers are legal.  Every
    offered switch goes to a slot of the player's team that holds a living
    creature and is not the active slot; every offered move is one of the
    active creature's moves whose PP entry is not 0, and is offered only when
    that creature is alive; a wait is offered only alone, when no creature of
    the player can act.  A creature that must switch (fainted or pending
    switch) with a living bench is offered switches only. *)
Theorem available_actions_are_legal (st : State) (playerId : string) (player : Player)
    (actions : list Action) :
  findPlayer st playerId = Some player ->
  getAvailableActions st playerId = Ok actions ->
  (forall a, In a actions ->
     (exists slot c,
        a = switchAction playerId slot /\ arrGet (p_team player) slot = Some c /\
        0 < c_hp c /\ slot <> p_activeSlot player) \/
     (exists active m,
        getActiveCreature st playerId = Some active /\ 0 < c_hp active /\
        a = moveAction playerId m /\ In m (c_moves active) /\
        objGet (c_movePp active) m <> Some (Some 0)) \/
     (a = waitAction playerId /\ actions = [a] /\
      availableSwitches playerId player = [] /\
      forall active, getActiveCreature st playerId = Some active -> c_hp active <= 0)) /\
  ((forall active, getActiveCreature st playerId = Some active ->
                   c_hp active <= 0 \/ hasStatus active "pending_switch" = true) ->
   availableSwitches playerId player <> [] ->
   actions = availableSwitches playerId player).
Proof.
  intros Hp H. unfold getAvailableActions in H. rewrite Hp in H.
  assert (Hsw : forall a, In a (availableSwitches playerId player) ->
                  exists slot c,
                    a = switchAction playerId slot /\ arrGet (p_team player) slot = Some c /\
                    0 < c_hp c /\ slot <> p_activeSlot player)
    by apply availableSwitches_legal.
  assert (Hmixed : forall active,
             getActiveCreature st playerId = Some active -> 0 < c_hp active ->
             forall a, In a (availableMoves playerId active
                             ++ availableSwitches playerId player) ->
               (exists slot c,
                  a = switchAction playerId slot /\ arrGet (p_team player) slot = Some c /\
                  0 < c_hp c /\ slot <> p_activeSlot player) \/
               (exists active0 m,
                  Some active = Some active0 /\ 0 < c_hp active0 /\
                  a = moveAction playerId m /\ In m (c_moves active0) /\
                  objGet (c_movePp active0) m <> Some (Some 0)) \/
               (a = waitAction playerId /\
                availableMoves playerId active ++ availableSwitches playerId player = [a] /\
                availableSwitches playerId player = [] /\
                forall active0, Some active = Some active0 -> c_hp active0 <= 0)).
  { intros active Hact Hhp a Ha. apply in_app_or in Ha. destruct Ha as [Ha|Ha].
    - right. left. destruct (availableMoves_legal _ _ _ Ha) as (m & Hm).
      exists active, m. tauto.
    - left. apply Hsw. exact Ha. }
  destruct (getActiveCreature st playerId) as [active|] eqn:Hact.
  - destruct (Z.leb_spec (c_hp active) 0) as [Hdead|Halive]; cbn [orb] in H.
    + destruct (availableSwitches playerId player) as [|s ss] eqn:Es.
      * injection H as <-. split.
        -- intros a [<-|[]]. right. right. repeat split; auto.
           intros active0 Heq. injection Heq as <-. exact Hdead.
        -- intros _ Hne. contradiction.
      * injection H as <-. split; [intros a Ha; left; apply Hsw; exact Ha|reflexivity].
    + destruct (hasStatus active "pending_switch") eqn:Hpend.
      * destruct (availableSwitches playerId player) as [|s ss] eqn:Es.
        -- injection H as <-. split.
           ++ intros a Ha. apply (Hmixed active eq_refl Halive a Ha).
           ++ intros _ Hne. contradiction.
        -- injection H as <-. split; [intros a Ha; left; apply Hsw; exact Ha|reflexivity].
      * injection H as <-. split.
        -- intros a Ha. apply (Hmixed active eq_refl Halive a Ha).
        -- intros Hmust _. destruct (Hmust active eq_refl) as [Hd|Hd]; [lia|congruence].
  - destruct (availableSwitches playerId player) as [|s ss] eqn:Es.
    + injection H as <-. split.
      * intros a [<-|[]]. right. right. repeat split; auto. intros active0 Heq. discriminate.
      * intros _ Hne. contradiction.
    + injection H as <-. split; [intros a Ha; left; apply Hsw; exact Ha|reflexivity].
Qed.

(** The theorem at p1 of the bench state, whose active Alpha is alive. *)
Lemma available_actions_are_legal_witness :
  findPlayer exBenchState "p1" = Some (mkPlayer "p1" "A" [alpha; gamma] 0 None) /\
  getAvailableActions exBenchState "p1"
  = Ok [moveAction "p1" "tackle"; switchAction "p1" 1] /\
  forall a, In a [moveAction "p1" "tackle"; switchAction "p1" 1] ->
            a_playerId a = "p1".
Proof.
  split; [reflexivity|]. split; [reflexivity|].
  intros a Ha.
  destruct (proj1 (available_actions_are_legal exBenchState "p1"
                     (mkPlayer "p1" "A" [alpha; gamma] 0 None)
                     [moveAction "p1" "tackle"; switchAction "p1" 1] eq_refl eq_refl) a Ha)
    as [(slot & c & -> & _)|[(active & m & _ & _ & -> & _)|(-> & _)]]; reflexivity.
Defined.

Lemma find_other_of_two (a b : Player) :
  p_id a <> p_id b ->
  find (fun p => String.eqb (p_id p) (p_id a)) [a; b] = Some a /\
  find (fun p => String.eqb (p_id p) (p_id b)) [a; b] = Some b /\
  find (fun p => negb (String.eqb (p_id p) (p_id a))) [a; b] = Some b /\
  find (fun p => negb (String.eqb (p_id p) (p_id b))) [a; b] = Some a.
Proof.
  intros Hne. simpl. rewrite !String.eqb_refl.
  destruct (String.eqb_spec (p_id a) (p_id b)); [contradiction|].
  destruct (String.eqb_spec (p_id b) (p_id a)); [congruence|].
  simpl. repeat split; reflexivity.
Qed.

(** X24: the evaluation is zero-sum except on a double knockout.  In a
    state of two players with different ids, the score of one player is the
    opposite of the score of the other whenever at least one side has a living
    creature (and every living creature has a nonzero maxHp, so that the
    ratios are numbers); when neither has, both players score -5000.  A
    player with a living creature against a side with none scores 10000. *)
Theorem evaluation_is_zero_sum (st : State) (a b : Player) :
  players st = [a; b] ->
  p_id a <> p_id b ->
  (teamAlive a = false /\ teamAlive b = false ->
   evaluateState st (p_id a) = (-5000)%Q /\ evaluateState st (p_id b) = (-5000)%Q) /\
  ((forall c, In c (p_team a ++ p_team b) -> 0 < c_hp c -> c_maxHp c <> 0) ->
   teamAlive a = true \/ teamAlive b = true ->
   (evaluateState st (p_id a) == - evaluateState st (p_id b))%Q) /\
  (teamAlive a = true -> teamAlive b = false -> evaluateState st (p_id a) = 10000%Q).
Proof.
  intros Hps Hne. unfold evaluateState, findPlayer. rewrite Hps.
  destruct (find_other_of_two a b Hne) as (Ha & Hb & Hoa & Hob).
  rewrite Ha, Hb, Hoa, Hob.
  destruct (teamAlive a), (teamAlive b); cbn [negb andb].
  - split; [intros [H _]; discriminate|]. split; [intros _ _; ring|intros _ H; discriminate].
  - split; [intros [H _]; discriminate|]. split; [intros _ _; reflexivity|reflexivity].
  - split; [intros [_ H]; discriminate|]. split; [intros _ _; reflexivity|intros H; discriminate].
  - split; [intros _; split; reflexivity|].
    split; [intros _ [H|H]; discriminate|intros H; discriminate].
Qed.

(** The theorem at the example state (Alpha 50/100 against Beta 100/100). *)
Lemma evaluation_is_zero_sum_witness :
  players exState = [mkPlayer "p1" "A" [alpha] 0 None; mkPlayer "p2" "B" [beta] 0 None] /\
  (evaluateState exState "p1" == - evaluateState exState "p2")%Q /\
  (evaluateState exState "p1" == -50)%Q.
Proof.
  split; [reflexivity|]. split; [|reflexivity].
  apply (evaluation_is_zero_sum exState (mkPlayer "p1" "A" [alpha] 0 None)
           (mkPlayer "p2" "B" [beta] 0 None) eq_refl ltac:(discriminate)).
  - intros c [<-|[<-|[]]] _; discriminate.
  - left. reflexivity.
Defined.

(** ** What a whole turn keeps *)

Lemma grows_refl (s : State) : grows s s.
Proof. repeat split. exists []. rewrite app_nil_r. reflexivity. Qed.

Lemma grows_trans (a b c : State) : grows a b -> grows b c -> grows a c.
Proof.
  intros (R1 & T1 & H1 & l1 & L1) (R2 & T2 & H2 & l2 & L2).
  repeat split; try congruence.
  exists (l1 ++ l2). rewrite L2, L1, app_assoc. reflexivity.
Qed.

Lemma steps_refl (g : RngSt) : steps g g.
Proof. exists 0%nat. rewrite advance_0. reflexivity. Qed.

Lemma steps_trans (a b c : RngSt) : steps a b -> steps b c -> steps a c.
Proof.
  intros [k1 ->] [k2 ->]. exists (k1 + k2)%nat. apply advance_advance.
Qed.

Lemma sound_ret {A} (R : A -> Prop) (a : A) : R a -> sound R (ret a).
Proof. intros H g a' g' E. injection E as <- <-. split; [exact H|apply steps_refl]. Qed.

Lemma sound_bind {A B} (Q : A -> Prop) (R : B -> Prop) (m : M A) (k : A -> M B) :
  sound Q m -> (forall a, Q a -> sound R (k a)) -> sound R (bind m k).
Proof.
  intros Hm Hk g b g' E. unfold bind in E.
  destruct (m g) as [[a g1]|e|] eqn:Em; cbn [resBind fst snd] in E; try discriminate.
  destruct (Hm g a g1 Em) as [Ha S1]. destruct (Hk a Ha g1 b g' E) as [Hb S2].
  split; [exact Hb|exact (steps_trans _ _ _ S1 S2)].
Qed.

Lemma sound_draw : sound (@anything Q) draw.
Proof.
  intros g a g' E. rewrite draw_advance in E. injection E as <- <-.
  split; [exact I|exists 1%nat; reflexivity].
Qed.

Lemma sound_throw {A} (R : A -> Prop) (e : string) : sound R (throw e).
Proof. intros g a g' E. discriminate. Qed.

Lemma sound_timeout {A} (R : A -> Prop) : sound R timeout.
Proof. intros g a g' E. discriminate. Qed.

Lemma sound_liftRes {A} (R : A -> Prop) (r : Res A) :
  (forall a, r = Ok a -> R a) -> sound R (liftRes r).
Proof.
  intros H g a g' E. unfold liftRes in E. destruct r as [x|e|]; cbn [resBind] in E;
    try discriminate.
  injection E as <- <-. split; [apply H; reflexivity|apply steps_refl].
Qed.

Lemma sound_weaken {A} (Q R : A -> Prop) (m : M A) :
  sound Q m -> (forall a, Q a -> R a) -> sound R m.
Proof. intros Hm HQR g a g' E. destruct (Hm g a g' E). split; auto. Qed.

Lemma sound_ext {A} (R : A -> Prop) (m m' : M A) :
  (forall g, m g = m' g) -> sound R m' -> sound R m.
Proof. intros He Hm g a g' E. rewrite He in E. exact (Hm g a g' E). Qed.

(** *** States *)

Lemma rosterC_of_frame (c c' : Creature) :
  creatureFrame c' = creatureFrame c -> rosterC c' = rosterC c.
Proof.
  unfold creatureFrame, rosterC. intros H.
  injection H as -> -> -> -> _ -> _ _ -> _ -> -> -> -> ->. reflexivity.
Qed.

Lemma map_coarser {A B C} (f : A -> B) (h : A -> C) (l l' : list A) :
  (forall x y, f x = f y -> h x = h y) -> map f l' = map f l -> map h l' = map h l.
Proof.
  intros Hfh. revert l'. induction l as [|x l IH]; intros [|y l']; simpl; try discriminate;
    [reflexivity|].
  intros H. injection H as Hxy Hl. rewrite (Hfh _ _ Hxy), (IH _ Hl). reflexivity.
Qed.

Lemma roster_of_frame (s s' : State) : stateFrame s' = stateFrame s -> roster s' = roster s.
Proof.
  unfold stateFrame, roster. intros H. injection H as Hp _ _.
  apply (map_coarser playerFrame rosterP); [|exact Hp].
  intros p q Hpq. unfold playerFrame in Hpq. injection Hpq as Hid Hname Hteam.
  unfold rosterP. rewrite Hid, Hname. f_equal.
  apply (map_coarser creatureFrame rosterC); [|exact Hteam].
  intros c c'. apply rosterC_of_frame.
Qed.

Ltac grows_log :=
  first
    [ exists []; simpl; rewrite ?app_nil_r; reflexivity
    | eexists [_]; simpl; reflexivity
    | eexists [_; _]; simpl; rewrite <- ?app_assoc; reflexivity ].

Lemma grows_applyEvent (s s' : State) (ev : Event) : applyEvent s ev = Ok s' -> grows s s'.
Proof.
  intros H.
  assert (Hf : stateFrame s' = stateFrame s /\ exists added, log s' = log s ++ added).
  { unfold applyEvent in H. destruct ev; break_ok H; (split; [frame_solve|grows_log]). }
  destruct Hf as (Hf & added & Hl).
  pose proof (roster_of_frame _ _ Hf) as Hr.
  unfold stateFrame in Hf. injection Hf as _ Ht Hh.
  repeat split; try assumption. exists added. exact Hl.
Qed.

Lemma grows_applyEvents (evs : list Event) :
  forall s s', applyEvents s evs = Ok s' -> grows s s'.
Proof.
  induction evs as [|ev evs IH]; intros s s' H; simpl in H.
  - injection H as <-. apply grows_refl.
  - destruct (applyEvent s ev) as [s1|e|] eqn:E; cbn [resBind] in H; try discriminate.
    apply (grows_trans s s1 s'); [exact (grows_applyEvent _ _ _ E)|exact (IH _ _ H)].
Qed.

Lemma updNat_map_at {A B} (h : A -> B) (l : list A) (n : nat) (f : A -> A) :
  (forall x, nth_error l n = Some x -> h (f x) = h x) -> map h (updNat l n f) = map h l.
Proof.
  revert n. induction l as [|y l IH]; intros [|n] Hh; simpl; try reflexivity.
  - rewrite Hh by reflexivity. reflexivity.
  - rewrite IH by exact Hh. reflexivity.
Qed.

Lemma arrUpd_map_at {A B} (h : A -> B) (l : list A) (i : Z) (f : A -> A) :
  (forall x, arrGet l i = Some x -> h (f x) = h x) -> map h (arrUpd l i f) = map h l.
Proof.
  unfold arrGet, arrUpd. destruct (i <? 0); [reflexivity|]. apply updNat_map_at.
Qed.

Lemma updFirst_map_at {A B} (h : A -> B) (p : A -> bool) (f : A -> A) (l : list A) :
  (forall x, find p l = Some x -> h (f x) = h x) -> map h (updFirst p f l) = map h l.
Proof.
  induction l as [|y l IH]; simpl; [reflexivity|].
  destruct (p y); intros Hh; simpl.
  - rewrite Hh by reflexivity. reflexivity.
  - rewrite IH by exact Hh. reflexivity.
Qed.

Lemma grows_updActive (s : State) (playerId : string) (f : Creature -> Creature) :
  (forall c, getActiveCreature s playerId = Some c -> rosterC (f c) = rosterC c) ->
  grows s (updActive s playerId f).
Proof.
  intros Hf. repeat split; [|exists []; simpl; rewrite app_nil_r; reflexivity].
  unfold roster, updActive, updPlayer. simpl.
  apply updFirst_map_at. intros p Hp. unfold rosterP. simpl.
  rewrite arrUpd_map_at; [reflexivity|].
  intros c Hc. apply Hf. unfold getActiveCreature, findPlayer. rewrite Hp. exact Hc.
Qed.

Lemma grows_pushLog (s : State) (line : string) : grows s (pushLog s line).
Proof. repeat split. exists [line]. reflexivity. Qed.

Lemma grows_setField (s : State) (f : Field) : grows s (setField s f).
Proof. repeat split. exists []. simpl. rewrite app_nil_r. reflexivity. Qed.

Lemma rosterC_setHp c v : rosterC (setHp c v) = rosterC c.
Proof. destruct c; reflexivity. Qed.
Lemma rosterC_setStatuses c v : rosterC (setStatuses c v) = rosterC c.
Proof. destruct c; reflexivity. Qed.
Lemma rosterC_setStages c v : rosterC (setStages c v) = rosterC c.
Proof. destruct c; reflexivity. Qed.
Lemma rosterC_setAbilityData c v : rosterC (setAbilityData c v) = rosterC c.
Proof. destruct c; reflexivity. Qed.
Lemma rosterC_setVolatileData c v : rosterC (setVolatileData c v) = rosterC c.
Proof. destruct c; reflexivity. Qed.
Lemma rosterC_setItem c v : rosterC (setItem c v) = rosterC c.
Proof. destruct c; reflexivity. Qed.
Lemma rosterC_setMovePp c v : rosterC (setMovePp c v) = rosterC c.
Proof. destruct c; reflexivity. Qed.
Lemma rosterC_setTypes c v : rosterC (setTypes c v) = rosterC c.
Proof. destruct c; reflexivity. Qed.
Lemma rosterC_setAbility c v : rosterC (setAbility c v) = rosterC c.
Proof. destruct c; reflexivity. Qed.

Create Rewrite HintDb roster.

#[local] Hint Rewrite rosterC_setHp rosterC_setStatuses rosterC_setStages
  rosterC_setAbilityData rosterC_setVolatileData rosterC_setItem rosterC_setMovePp
  rosterC_setTypes rosterC_setAbility : roster.

Lemma rosterC_setItemStatus c itemId : rosterC (setItemStatus c itemId) = rosterC c.
Proof.
  unfold setItemStatus. destruct (findIndex _ _); autorewrite with roster; reflexivity.
Qed.

Lemma rosterC_clearItemStatus c : rosterC (clearItemStatus c) = rosterC c.
Proof. unfold clearItemStatus. autorewrite with roster. reflexivity. Qed.

Lemma rosterC_setProtectCount c n : rosterC (setProtectCount c n) = rosterC c.
Proof. unfold setProtectCount. autorewrite with roster. reflexivity. Qed.

Lemma rosterC_ensureMovePp c moveId moveDef :
  rosterC (fst (ensureMovePp c moveId moveDef)) = rosterC c.
Proof.
  unfold ensureMovePp. destruct (objGet _ _); simpl; autorewrite with roster; reflexivity.
Qed.

Lemma rosterC_hasMovePp c moveId moveDef :
  rosterC (fst (hasMovePp c moveId moveDef)) = rosterC c.
Proof.
  unfold hasMovePp. pose proof (rosterC_ensureMovePp c moveId moveDef) as H.
  destruct (ensureMovePp c moveId moveDef). exact H.
Qed.

Lemma rosterC_consumeMovePp c moveId moveDef :
  rosterC (fst (consumeMovePp c moveId moveDef)) = rosterC c.
Proof.
  unfold consumeMovePp. pose proof (rosterC_ensureMovePp c moveId moveDef) as H.
  destruct (ensureMovePp c moveId moveDef) as [c1 [n|]]; simpl in *; [|exact H].
  destruct (n <=? 0); simpl; autorewrite with roster; exact H.
Qed.

#[local] Hint Rewrite rosterC_setItemStatus rosterC_clearItemStatus rosterC_setProtectCount
  rosterC_ensureMovePp rosterC_hasMovePp rosterC_consumeMovePp : roster.

Ltac roster_side :=
  intros;
  repeat match goal with
         | |- context [if ?b then _ else _] => destruct b
         end;
  autorewrite with roster; try reflexivity; try congruence.

Lemma grows_markAbilityUsed (s : State) (playerId key : string) :
  grows s (markAbilityUsed s playerId key).
Proof. apply grows_updActive. roster_side. Qed.

Lemma grows_setWeather (s : State) (id : string) (turns : option Z) :
  grows s (setWeather s id turns).
Proof. apply grows_setField. Qed.

Lemma grows_tickStatuses (s : State) : grows s (tickStatuses s).
Proof.
  repeat split; [|exists []; simpl; rewrite app_nil_r; reflexivity].
  unfold roster, tickStatuses. simpl. rewrite map_map. apply map_ext.
  intros p. unfold rosterP. simpl. rewrite arrUpd_map_at; [reflexivity|].
  intros c _. apply rosterC_setStatuses.
Qed.

Lemma grows_tickFieldEffects (s : State) : grows s (tickFieldEffects s).
Proof. apply grows_setField. Qed.

(** Solve [grows a b] from the primitive writes and the hypotheses. *)
Ltac grows_solve :=
  cbn [fst snd hk_state orDefault] in *;
  match goal with
  | |- grows ?a ?a => apply grows_refl
  | H : grows ?a ?b |- grows ?a ?b => exact H
  | |- grows ?a (updActive ?b _ _) =>
      apply (grows_trans a b); [grows_solve|apply grows_updActive; roster_side]
  | |- grows ?a (pushLog ?b _) =>
      apply (grows_trans a b); [grows_solve|apply grows_pushLog]
  | |- grows ?a (setField ?b _) =>
      apply (grows_trans a b); [grows_solve|apply grows_setField]
  | |- grows ?a (setWeather ?b _ _) =>
      apply (grows_trans a b); [grows_solve|apply grows_setWeather]
  | |- grows ?a (markAbilityUsed ?b _ _) =>
      apply (grows_trans a b); [grows_solve|apply grows_markAbilityUsed]
  | |- grows ?a (tickStatuses ?b) =>
      apply (grows_trans a b); [grows_solve|apply grows_tickStatuses]
  | |- grows ?a (tickFieldEffects ?b) =>
      apply (grows_trans a b); [grows_solve|apply grows_tickFieldEffects]
  | H : applyEvent ?x _ = Ok ?b |- grows ?a ?b =>
      apply (grows_trans a x); [grows_solve|exact (grows_applyEvent _ _ _ H)]
  | H : applyEvents ?x _ = Ok ?b |- grows ?a ?b =>
      apply (grows_trans a x); [grows_solve|exact (grows_applyEvents _ _ _ H)]
  | H : grows ?x ?b |- grows ?a ?b =>
      apply (grows_trans a x); [grows_solve|exact H]
  end.

Lemma sound_liftRes_eq {A} (r : Res A) : sound (fun a => r = Ok a) (liftRes r).
Proof. apply sound_liftRes. intros a H. exact H. Qed.

Lemma sound_applyEvent (s : State) (ev : Event) : sound (grows s) (liftRes (applyEvent s ev)).
Proof. apply sound_liftRes. intros s' H. exact (grows_applyEvent _ _ _ H). Qed.

Lemma sound_applyEventsM (s : State) (evs : list Event) : sound (grows s) (applyEventsM s evs).
Proof. apply sound_liftRes. intros s' H. exact (grows_applyEvents _ _ _ H). Qed.

Lemma sound_logged (s : State) (message : string) : sound (grows s) (logged s message).
Proof. apply sound_applyEvent. Qed.

Create HintDb sound.

#[local] Hint Resolve sound_draw sound_applyEvent sound_applyEventsM sound_logged : sound.
#[local] Hint Resolve sound_liftRes_eq | 10 : sound.

Lemma sound_bind_ret {A B} (R : B -> Prop) (a : A) (k : A -> M B) :
  sound R (k a) -> sound R (bind (ret a) k).
Proof. intros H g b g' E. exact (H g b g' E). Qed.

Lemma sound_bind_throw {A B} (R : B -> Prop) (e : string) (k : A -> M B) :
  sound R (bind (throw e) k).
Proof. intros g b g' E. discriminate. Qed.

Lemma sound_bind_assoc {A B C} (R : C -> Prop) (m : M A) (k : A -> M B) (h : B -> M C) :
  sound R (bind m (fun a => bind (k a) h)) -> sound R (bind (bind m k) h).
Proof.
  intros H g c g' E. apply (H g c g'). unfold bind in *.
  destruct (m g) as [[a g1]|e|]; cbn [resBind fst snd] in *; try discriminate. exact E.
Qed.

(** One step through a computation of [M]. *)
Ltac sound_step :=
  cbv beta in *;
  match goal with
  | H : Ok _ = Ok _ |- _ => injection H as <-
  | |- sound _ (ret _) => apply sound_ret
  | |- sound _ (built _ _) => apply sound_ret
  | |- sound _ (throw _) => apply sound_throw
  | |- sound _ timeout => apply sound_timeout
  | |- sound _ (liftRes _) => apply sound_liftRes; intros
  | |- sound _ (applyEventsM _ _) => apply sound_liftRes; intros
  | |- sound _ (logged _ _) => apply sound_liftRes; intros
  | |- sound _ (bind draw _) => eapply sound_bind; [apply sound_draw|intros ? _]
  | |- sound _ (bind (match ?x with _ => _ end) _) => destruct x eqn:?
  | |- sound _ (bind (if ?x then _ else _) _) => destruct x eqn:?
  | |- sound _ (bind (ret _) _) => apply sound_bind_ret
  | |- sound _ (bind (throw _) _) => apply sound_bind_throw
  | |- sound _ (bind (bind _ _) _) => apply sound_bind_assoc
  | |- sound _ (bind _ _) => eapply sound_bind; [solve [eauto with sound]|intros]
  | |- sound _ (bind _ _) =>
      eapply (sound_bind anything); [solve [repeat sound_step; exact I]|intros ? _]
  | |- sound _ (match ?x with _ => _ end) => destruct x eqn:?
  | |- sound _ (if ?x then _ else _) => destruct x eqn:?
  | |- sound _ _ => solve [eauto with sound]
  | |- sound _ _ => eapply sound_weaken; [solve [eauto with sound]|intros]
  end.

Ltac sound_go := repeat sound_step.

Ltac sound_done :=
  cbn [fst snd hk_state hr_state orDefault growsOpt stateEvents onlyEvents emptyResult
       unhooked] in *;
  first [exact I | grows_solve].

(** *** Ability hooks *)

Lemma sound_moodyPick : sound anything moodyPick.
Proof. unfold moodyPick. sound_go. exact I. Qed.

#[local] Hint Resolve sound_moodyPick : sound.

Lemma sound_moodyDown (fuel : nat) :
  forall up down, sound anything (moodyDown fuel up down).
Proof.
  induction fuel as [|fuel IH]; intros up down; simpl; sound_go; exact I.
Qed.

#[local] Hint Resolve sound_moodyDown : sound.

Lemma growsOpt_copyFaintedAbility (st : State) (player : Player) (abilityId : string) :
  growsOpt st (hr_state (copyFaintedAbility st player abilityId)).
Proof.
  unfold copyFaintedAbility.
  repeat match goal with
         | |- context [match ?x with _ => _ end] => destruct x
         end; simpl; try exact I.
  apply grows_updActive. roster_side.
Qed.

Lemma sound_abilityHookHandler (moves : JsObj Move) (fuel : nat) (ability : string)
    (hook : Hook) (st : State) (player : Player) (active : Creature)
    (action : option Action) (h : M HookResult) :
  abilityHookHandler moves fuel ability hook st player active action = Some h ->
  sound (fun r => growsOpt st (hr_state r)) h.
Proof.
  unfold abilityHookHandler. intros H.
  destruct hook;
    repeat match type of H with
           | (if ?b then _ else _) = _ => destruct b
           end;
    try discriminate H; injection H as <-;
    sound_go; try sound_done;
    try apply growsOpt_copyFaintedAbility.
Qed.

Lemma grows_orDefault (s : State) (o : option State) :
  growsOpt s o -> grows s (orDefault o s).
Proof. destruct o; simpl; [tauto|intros _; apply grows_refl]. Qed.

Lemma sound_runAbilityHooks (moves : JsObj Move) (fuel : nat) (st : State)
    (playerId : string) (hook : Hook) (action : option Action) :
  sound (fun h => grows st (hk_state h)) (runAbilityHooks moves fuel st playerId hook action).
Proof.
  unfold runAbilityHooks.
  destruct (findPlayer st playerId) as [player|]; [|sound_go; sound_done].
  destruct (getActiveCreature st playerId) as [active|]; [|sound_go; sound_done].
  destruct (abilityHookHandler _ _ _ _ _ _ _ _) as [h|] eqn:E; [|sound_go; sound_done].
  eapply sound_bind; [exact (sound_abilityHookHandler _ _ _ _ _ _ _ _ _ E)|].
  intros r Hr. apply sound_ret. cbn [hk_state]. apply grows_orDefault. exact Hr.
Qed.

#[local] Hint Resolve sound_runAbilityHooks : sound.

Lemma sound_runAllAbilityHooksLoop (moves : JsObj Move) (fuel : nat) (hook : Hook)
    (ps : list Player) :
  forall ws events,
    sound (fun r => grows ws (fst r)) (runAllAbilityHooksLoop moves fuel ps hook ws events).
Proof.
  induction ps as [|p ps IH]; intros ws events; simpl; sound_go; sound_done.
Qed.

Lemma sound_runAllAbilityHooks (moves : JsObj Move) (fuel : nat) (st : State) (hook : Hook) :
  sound (fun r => grows st (fst r)) (runAllAbilityHooks moves fuel st hook).
Proof. apply sound_runAllAbilityHooksLoop. Qed.

#[local] Hint Resolve sound_runAllAbilityHooks : sound.

Lemma sound_settle (h : Hooked) : sound (grows (hk_state h)) (settle h).
Proof. apply sound_applyEventsM. Qed.

#[local] Hint Resolve sound_settle : sound.

Lemma sound_abilityPhase (moves : JsObj Move) (fuel : nat) (st : State) (hook : Hook) :
  sound (grows st) (abilityPhase moves fuel st hook).
Proof.
  unfold abilityPhase. sound_go. destruct a as [state1 events]. sound_go. sound_done.
Qed.

#[local] Hint Resolve sound_abilityPhase : sound.

(** *** The effect compiler *)

Lemma sound_rollCritical st att tgt ctx : sound anything (rollCritical st att tgt ctx).
Proof. unfold rollCritical. sound_go; exact I. Qed.

#[local] Hint Resolve sound_rollCritical : sound.

Lemma sound_calcDamage power att tgt st ctx : sound anything (calcDamage power att tgt st ctx).
Proof. unfold calcDamage. sound_go; exact I. Qed.

Lemma sound_passesChance chance : sound anything (passesChance chance).
Proof. unfold passesChance. sound_go; exact I. Qed.

Lemma sound_attackerName ctx : sound anything (attackerName ctx).
Proof. unfold attackerName. sound_go; exact I. Qed.

Lemma sound_repeatTimes st times ctx : sound anything (repeatTimes st times ctx).
Proof. unfold repeatTimes. sound_go; exact I. Qed.

#[local] Hint Resolve sound_calcDamage sound_passesChance sound_attackerName
  sound_repeatTimes : sound.

Ltac built_done := unfold builtFrom in *; sound_done.

Lemma sound_fxProtect st ctx : sound (builtFrom st) (fxProtect st ctx).
Proof. unfold fxProtect. sound_go; built_done. Qed.

Lemma sound_fxDamage st power accuracy name ctx :
  sound (builtFrom st) (fxDamage st power accuracy name ctx).
Proof. unfold fxDamage. sound_go; built_done. Qed.

Lemma sound_fxApplyStatus st statusId target chance duration stack data ctx :
  sound (builtFrom st) (fxApplyStatus st statusId target chance duration stack data ctx).
Proof. unfold fxApplyStatus. sound_go; built_done. Qed.

Lemma sound_fxOhko st spec ctx : sound (builtFrom st) (fxOhko st spec ctx).
Proof. unfold fxOhko. sound_go; built_done. Qed.

Lemma sound_fxRemoveStatus st statusId target ctx :
  sound (builtFrom st) (fxRemoveStatus st statusId target ctx).
Proof. unfold fxRemoveStatus. sound_go; built_done. Qed.

Lemma sound_fxDamageRatio st ratio target ctx :
  sound (builtFrom st) (fxDamageRatio st ratio target ctx).
Proof. unfold fxDamageRatio. sound_go; built_done. Qed.

Lemma sound_fxDelay st afterTurns timing effects target ctx :
  sound (builtFrom st) (fxDelay st afterTurns timing effects target ctx).
Proof. unfold fxDelay. sound_go; built_done. Qed.

Lemma sound_fxOverTime st duration timing effects target ctx :
  sound (builtFrom st) (fxOverTime st duration timing effects target ctx).
Proof. unfold fxOverTime. sound_go; built_done. Qed.

Lemma sound_fxApplyItem st target itemId ctx :
  sound (builtFrom st) (fxApplyItem st target itemId ctx).
Proof. unfold fxApplyItem. sound_go; built_done. Qed.

Lemma sound_fxRemoveItem st target ctx : sound (builtFrom st) (fxRemoveItem st target ctx).
Proof. unfold fxRemoveItem. sound_go; built_done. Qed.

Lemma sound_fxConsumeItem st target mark ctx :
  sound (builtFrom st) (fxConsumeItem st target mark ctx).
Proof. unfold fxConsumeItem. sound_go; built_done. Qed.

Lemma sizes_eq (l : list Effect) :
  (fix go (l : list Effect) : nat :=
     match l with
     | [] => O
     | x :: r => S (effectSize x + go r)
     end) l = effectsSize l.
Proof. induction l as [|x l IH]; [reflexivity|]. simpl. rewrite IH. reflexivity. Qed.

Lemma effectSize_chance p thenFx elseFx :
  effectSize (FxChance p thenFx elseFx)
  = S (optEffectsSize thenFx + optEffectsSize elseFx).
Proof.
  destruct thenFx as [l1|], elseFx as [l2|]; cbn [effectSize optEffectsSize];
    rewrite ?(sizes_eq l1), ?(sizes_eq l2); reflexivity.
Qed.

Lemma effectSize_repeat times effects :
  effectSize (FxRepeat times effects) = S (optEffectsSize effects).
Proof.
  destruct effects as [l1|]; cbn [effectSize optEffectsSize];
    rewrite ?(sizes_eq l1); reflexivity.
Qed.

Lemma effectSize_conditional cond thenFx elseFx :
  effectSize (FxConditional cond thenFx elseFx)
  = S (optEffectsSize thenFx + optEffectsSize elseFx).
Proof.
  destruct thenFx as [l1|], elseFx as [l2|]; cbn [effectSize optEffectsSize];
    rewrite ?(sizes_eq l1), ?(sizes_eq l2); reflexivity.
Qed.

Lemma sized_Forall (P : Effect -> Prop) (n : nat) (l : list Effect) :
  (forall e, (effectSize e <= n)%nat -> P e) -> (effectsSize l <= n)%nat -> Forall P l.
Proof.
  intros HP. induction l as [|x l IH]; intros Hl; constructor; simpl in Hl.
  - apply HP. lia.
  - apply IH. lia.
Qed.

Lemma sound_applyEffectsEvents_of (ctx : Ctx) (l : list Effect) :
  Forall (fun e => forall st, sound (builtFrom st) (applyEffect st e ctx)) l ->
  forall st, sound (builtFrom st) (applyEffectsEvents st l ctx).
Proof.
  induction 1 as [|e l He Hl IH]; intros st; cbn [applyEffectsEvents].
  - sound_go. built_done.
  - eapply sound_bind; [apply He|]. intros [evs1 st1] H1.
    eapply sound_bind; [apply IH|]. intros [evs2 st2] H2.
    sound_go. built_done.
Qed.

Lemma sound_repeatLoop (body : State -> M Built) (n : nat) :
  (forall s, sound (builtFrom s) (body s)) ->
  forall st collected, sound (builtFrom st) (repeatLoop n body st collected).
Proof.
  intros Hb. induction n as [|n IH]; intros st collected; cbn [repeatLoop].
  - sound_go. built_done.
  - eapply sound_bind; [apply Hb|]. intros [evs st1] H1.
    eapply sound_weaken; [apply IH|]. intros b Hbd. built_done.
Qed.

Ltac fx_simple :=
  first [ apply sound_fxProtect | apply sound_fxDamage | apply sound_fxApplyStatus
        | apply sound_fxOhko | apply sound_fxRemoveStatus | apply sound_fxDamageRatio
        | apply sound_fxDelay | apply sound_fxOverTime | apply sound_fxApplyItem
        | apply sound_fxRemoveItem | apply sound_fxConsumeItem
        | apply sound_ret; apply grows_refl ].

Lemma sound_applyEffect_sized (ctx : Ctx) (n : nat) :
  forall e, (effectSize e <= n)%nat ->
  forall st, sound (builtFrom st) (applyEffect st e ctx).
Proof.
  induction n as [|n IH].
  - intros e He st.
    destruct e; cbn [applyEffect];
      try (rewrite ?effectSize_chance, ?effectSize_repeat, ?effectSize_conditional in He;
           lia);
      fx_simple.
  - intros e He st.
    assert (Hlist : forall o, (optEffectsSize o <= n)%nat ->
                    forall s, sound (builtFrom s)
                      (match o with
                       | Some l =>
                           (fix go (effects : list Effect) (state : State) {struct effects}
                              : M Built :=
                              match effects with
                              | [] => built [] state
                              | eff :: rest =>
                                  '(evs1, state1) <- applyEffect state eff ctx ;;
                                  '(evs2, state2) <- go rest state1 ;;
                                  built (evs1 ++ evs2) state2
                              end) l s
                       | None => built [] s
                       end)).
    { intros [l|] Hl s; [|apply sound_ret; apply grows_refl].
      eapply sound_ext; [intros g; apply applyEffectsOf_eq|].
      apply sound_applyEffectsEvents_of. apply (sized_Forall _ n); [|exact Hl].
      intros e0 He0 st0. apply IH. exact He0. }
    destruct e; cbn [applyEffect]; try fx_simple.
    + (* chance *)
      rewrite effectSize_chance in He.
      eapply sound_bind; [apply sound_draw|intros roll _].
      destruct (Qle_bool roll (orDefault p 0%Q)); apply Hlist; lia.
    + (* repeat *)
      rewrite effectSize_repeat in He.
      eapply sound_bind; [apply sound_repeatTimes|intros k _].
      eapply sound_bind.
      * apply sound_repeatLoop. intros s. destruct effects as [l|].
        -- apply (Hlist (Some l)). lia.
        -- apply sound_ret. apply grows_refl.
      * intros [collected st1] H1. destruct (1 <? k); apply sound_ret; exact H1.
    + (* conditional *)
      rewrite effectSize_conditional in He.
      destruct (evaluateCondition st cond ctx); apply Hlist; lia.
Qed.

Lemma sound_applyEffect (st : State) (e : Effect) (ctx : Ctx) :
  sound (builtFrom st) (applyEffect st e ctx).
Proof. apply (sound_applyEffect_sized ctx (effectSize e)). lia. Qed.

Lemma sound_applyEffectsEvents (st : State) (l : list Effect) (ctx : Ctx) :
  sound (builtFrom st) (applyEffectsEvents st l ctx).
Proof.
  apply sound_applyEffectsEvents_of. apply Forall_forall. intros e _ st0.
  apply sound_applyEffect.
Qed.

#[local] Hint Resolve sound_applyEffect sound_applyEffectsEvents : sound.

Lemma sound_applyEffects (st : State) (l : list Effect) (ctx : Ctx) :
  sound (grows st) (applyEffects st l ctx).
Proof. unfold applyEffects. sound_go. built_done. Qed.

(** *** Status and field hooks *)

Ltac handled_done :=
  unfold handled, builtFrom in *;
  cbn [sr_state noResult evResult preventResult overrideResult ha_state growsOpt fst snd] in *;
  first [exact I | grows_solve].

Lemma sound_withPlayer_id args :
  sound anything (withPlayer args (fun p _ => ret (p_id p))).
Proof. unfold withPlayer. sound_go; exact I. Qed.

#[local] Hint Resolve sound_withPlayer_id : sound.

Lemma sound_runScheduled args status : sound (handled args) (runScheduled args status).
Proof. unfold runScheduled. sound_go; handled_done. Qed.

#[local] Hint Resolve sound_runScheduled : sound.

Lemma sound_handleDelayed args : sound (handled args) (handleDelayed args).
Proof.
  unfold handleDelayed, withStatus. sound_go; handled_done.
Qed.

Lemma sound_handleOverTime args : sound (handled args) (handleOverTime args).
Proof.
  unfold handleOverTime, withStatus. sound_go; handled_done.
Qed.

Lemma sound_statusHookHandler (id : string) (hook : Hook)
    (h : HandlerArgs -> M StatusResult) :
  statusHookHandler id hook = Some h -> forall args, sound (handled args) (h args).
Proof.
  unfold statusHookHandler. intros H args.
  destruct hook;
    repeat match type of H with
           | (if ?b then _ else _) = _ => destruct b
           end;
    try discriminate H; injection H as <-;
    first [ apply sound_handleDelayed | apply sound_handleOverTime
          | unfold withPlayer, withStatus; sound_go; handled_done ].
Qed.

Lemma sound_statusLoop (playerId : string) (proxy : Player * Creature) (hook : Hook)
    (action : option Action) (mv : option Move) (events : list Event)
    (statuses : list Status) :
  forall k replaced acc,
    sound (fun h => grows (hk_state acc) (hk_state h))
      (statusLoop statuses k replaced playerId proxy hook action mv events acc).
Proof.
  induction statuses as [|status rest IH]; intros k replaced acc; cbn [statusLoop].
  - apply sound_ret. apply grows_refl.
  - destruct (statusHookHandler (s_id status) hook) as [h|] eqn:E; [|apply IH].
    eapply sound_bind; [exact (sound_statusHookHandler _ _ _ E _)|].
    intros r Hr. unfold handled in Hr. cbn [ha_state] in Hr.
    eapply sound_weaken; [apply IH|]. intros h' Hh'. cbn [hk_state] in Hh'.
    apply (grows_trans _ _ _ (grows_orDefault _ _ Hr)).
    refine (grows_trans _ _ _ _ Hh').
    destruct (sr_writeTurns r); [|apply grows_refl].
    destruct replaced; [apply grows_refl|]. apply grows_updActive. roster_side.
Qed.

Lemma sound_runStatusHooks st playerId hook action mv events :
  sound (fun h => grows st (hk_state h)) (runStatusHooks st playerId hook action mv events).
Proof.
  unfold runStatusHooks.
  destruct (findPlayer st playerId); [|apply sound_ret; apply grows_refl].
  destruct (getActiveCreature st playerId); [|apply sound_ret; apply grows_refl].
  apply (sound_statusLoop _ _ _ _ _ _ _ _ _ (unhooked st)).
Qed.

Lemma sound_fieldLoop (hook : Hook) (events : list Event) (effects : list Status) :
  forall acc,
    sound (fun h => grows (hk_state acc) (hk_state h)) (fieldLoop effects hook events acc).
Proof.
  induction effects as [|effect rest IH]; intros acc; cbn [fieldLoop].
  - apply sound_ret. apply grows_refl.
  - destruct (statusHookHandler (s_id effect) hook) as [h|] eqn:E; [|apply IH].
    eapply sound_bind; [exact (sound_statusHookHandler _ _ _ E _)|].
    intros r Hr. unfold handled in Hr. cbn [ha_state] in Hr.
    eapply sound_weaken; [apply IH|]. intros h' Hh'. cbn [hk_state] in Hh'.
    exact (grows_trans _ _ _ (grows_orDefault _ _ Hr) Hh').
Qed.

Lemma sound_runFieldHooks st hook events :
  sound (fun h => grows st (hk_state h)) (runFieldHooks st hook events).
Proof. apply (sound_fieldLoop _ _ _ (unhooked st)). Qed.

#[local] Hint Resolve sound_runStatusHooks sound_runFieldHooks : sound.

Lemma sound_statusPhase (hook : Hook) (ps : list Player) :
  forall next, sound (grows next) (statusPhase next ps hook).
Proof.
  induction ps as [|p ps IH]; intros next; cbn [statusPhase]; sound_go; sound_done.
Qed.

Lemma sound_fieldPhase next hook : sound (grows next) (fieldPhase next hook).
Proof. unfold fieldPhase. sound_go. sound_done. Qed.

#[local] Hint Resolve sound_statusPhase sound_fieldPhase : sound.

(** *** The resolver *)

Lemma sound_collectStatusTransforms st events (ps : list Player) :
  sound anything (collectStatusTransforms st ps events).
Proof. induction ps as [|p ps IH]; cbn [collectStatusTransforms]; sound_go; exact I. Qed.

#[local] Hint Resolve sound_collectStatusTransforms : sound.

Lemma sound_collectEventTransforms st events :
  sound anything (collectEventTransforms st events).
Proof. unfold collectEventTransforms. sound_go; exact I. Qed.

#[local] Hint Resolve sound_collectEventTransforms : sound.

Lemma rosterC_filterWithPp (moves : JsObj Move) (candidates : list string) :
  forall c, exists c',
    fst (filterWithPp moves (Some c) candidates) = Some c' /\ rosterC c' = rosterC c.
Proof.
  induction candidates as [|id rest IH]; intros c; cbn [filterWithPp].
  - exists c. split; reflexivity.
  - destruct (objGet moves id) as [def|]; [|apply IH].
    pose proof (rosterC_hasMovePp c id (Some def)) as Hc.
    destruct (hasMovePp c id (Some def)) as [c1 ok]. cbn [fst] in Hc.
    destruct (IH c1) as (c' & Hf & Hr).
    destruct (filterWithPp moves (Some c1) rest) as [a l]. cbn [fst] in *.
    exists c'. split; [exact Hf|congruence].
Qed.

Lemma filterWithPp_none (moves : JsObj Move) (candidates : list string) :
  fst (filterWithPp moves None candidates) = None.
Proof.
  induction candidates as [|id rest IH]; cbn [filterWithPp]; [reflexivity|].
  destruct (objGet moves id); [|exact IH].
  destruct (filterWithPp moves None rest). exact IH.
Qed.

Lemma sound_chooseRandomMove (moves : JsObj Move) st pool attackerId :
  sound (fun r => grows st (snd r)) (chooseRandomMove moves st pool attackerId).
Proof.
  unfold chooseRandomMove.
  set (attacker := if String.eqb attackerId "" then None else getActiveCreature st attackerId).
  set (candidates := if String.eqb pool "self_moves" then _ else _).
  assert (Hst : grows st
                  match fst (filterWithPp moves attacker candidates) with
                  | Some c => updActive st attackerId (fun _ => c)
                  | None => st
                  end).
  { destruct attacker as [c|] eqn:Ea.
    - destruct (rosterC_filterWithPp moves candidates c) as (c' & -> & Hr).
      apply grows_updActive. intros c0 Hc0. subst attacker.
      destruct (String.eqb attackerId ""); [discriminate|]. congruence.
    - rewrite filterWithPp_none. apply grows_refl. }
  destruct (filterWithPp moves attacker candidates) as [attacker1 filtered].
  cbn [fst] in Hst. sound_go; exact Hst.
Qed.

#[local] Hint Resolve sound_chooseRandomMove : sound.

Lemma grows_consume (st : State) (attackerId id : string) (mv : option Move) :
  grows st
    (fst match getActiveCreature st attackerId with
         | None => (st, true)
         | Some attackerCurrent =>
             let '(c, ok) := consumeMovePp attackerCurrent id mv in
             (updActive st attackerId (fun _ => c), ok)
         end).
Proof.
  destruct (getActiveCreature st attackerId) as [c0|] eqn:E; [|apply grows_refl].
  pose proof (rosterC_consumeMovePp c0 id mv) as Hc.
  destruct (consumeMovePp c0 id mv) as [c ok]. cbn [fst] in *.
  apply grows_updActive. intros c1 Hc1. congruence.
Qed.

Lemma sound_expandRandomMoves (moves : JsObj Move) (attackerId targetId freshName : string)
    (finalEvents : list Event) :
  forall next,
    sound (fun r => grows next (snd r))
      (expandRandomMoves moves next finalEvents attackerId targetId freshName).
Proof.
  induction finalEvents as [|ev rest IH]; intros next; cbn [expandRandomMoves].
  - apply sound_ret. apply grows_refl.
  - destruct ev;
      try (eapply sound_bind; [apply IH|]; intros [more next1] H1; apply sound_ret; exact H1).
    eapply sound_bind; [apply sound_chooseRandomMove|]. intros [chosenMoveId next1] H1.
    cbn [snd] in H1.
    eapply (sound_bind (fun r => grows next (snd r))).
    + destruct (negb (truthyStr chosenMoveId)); [apply sound_ret; exact H1|].
      destruct (lookupMove moves chosenMoveId) as [chosenMove|]; [|apply sound_ret; exact H1].
      pose proof (grows_consume next1 attackerId (orDefault chosenMoveId "")
                    (Some chosenMove)) as Hc.
      destruct (match getActiveCreature next1 attackerId with
                | None => (next1, true)
                | Some attackerCurrent => _
                end) as [next2 consumed].
      cbn [fst] in Hc.
      destruct (negb consumed); [apply sound_ret; exact (grows_trans _ _ _ H1 Hc)|].
      eapply sound_bind; [apply sound_applyEffectsEvents|]. intros [subEvents next3] H3.
      apply sound_ret. unfold builtFrom in H3. cbn [snd] in *.
      exact (grows_trans _ _ _ (grows_trans _ _ _ H1 Hc) H3).
    + intros [pushed next2] H2. cbn [snd] in H2.
      eapply sound_bind; [apply IH|]. intros [more next3] H3. apply sound_ret.
      exact (grows_trans _ _ _ H2 H3).
Qed.

#[local] Hint Resolve sound_expandRandomMoves : sound.

Lemma sound_runEffect (moves : JsObj Move) next effect mv attackerId targetId freshName :
  sound (grows next) (runEffect moves next effect mv attackerId targetId freshName).
Proof. unfold runEffect. sound_go. built_done. Qed.

#[local] Hint Resolve sound_runEffect : sound.

Lemma sound_runEffects (moves : JsObj Move) mv attackerId targetId freshName
    (effects : list Effect) :
  forall next,
    sound (grows next) (runEffects moves next effects mv attackerId targetId freshName).
Proof.
  induction effects as [|e rest IH]; intros next; cbn [runEffects]; sound_go; sound_done.
Qed.

#[local] Hint Resolve sound_runEffects : sound.

Lemma sound_playerName next playerId : sound anything (playerName next playerId).
Proof. unfold playerName. sound_go; exact I. Qed.

#[local] Hint Resolve sound_playerName : sound.

Lemma sound_runSwitch (moves : JsObj Move) fuel next action :
  sound (grows next) (runSwitch moves fuel next action).
Proof. unfold runSwitch. sound_go; sound_done. Qed.

Lemma sound_runUseItem next action : sound (grows next) (runUseItem next action).
Proof. unfold runUseItem. sound_go; sound_done. Qed.

#[local] Hint Resolve sound_runSwitch sound_runUseItem : sound.

Lemma sound_runMove (moves : JsObj Move) fuel next action :
  sound (fun r => grows next (fst (fst r))) (runMove moves fuel next action).
Proof.
  unfold runMove.
  set (next0 := match lookupMove moves (a_moveId action) with
                | Some actionMove => _
                | None => next
                end).
  assert (H0 : grows next next0).
  { subst next0. destruct (lookupMove moves (a_moveId action)) as [am|]; [|apply grows_refl].
    destruct (m_effects am); [|apply grows_refl].
    destruct (negb _); [|apply grows_refl]. apply grows_updActive. roster_side. }
  clearbody next0.
  sound_go; try sound_done.
  all: match goal with
       | Hh : hasMovePp ?c ?i ?m = (?c1, _),
         Ha : getActiveCreature ?s ?p = Some ?c,
         Hb : getActiveCreature ?s ?p = Some ?c2 |- rosterC ?c1 = rosterC ?c2 =>
           rewrite Ha in Hb; injection Hb as <-;
           pose proof (rosterC_hasMovePp c i m) as Hx; rewrite Hh in Hx; exact Hx
       end.
Qed.

#[local] Hint Resolve sound_runMove : sound.

Lemma sound_runAction (moves : JsObj Move) fuel next o :
  sound (fun r => grows next (fst (fst r))) (runAction moves fuel next o).
Proof. unfold runAction. sound_go; sound_done. Qed.

#[local] Hint Resolve sound_runAction : sound.

Lemma sound_runActions (moves : JsObj Move) fuel (ordered : list Ordered) :
  forall next,
    sound (fun r => grows next (fst r) /\ List.length (snd r) = List.length ordered)
      (runActions moves fuel next ordered).
Proof.
  induction ordered as [|o rest IH]; intros next; cbn [runActions].
  - apply sound_ret. split; [apply grows_refl|reflexivity].
  - eapply sound_bind; [apply sound_runAction|]. intros [[next1 o1] flow] H1. cbn [fst] in H1.
    destruct flow.
    + eapply sound_bind; [apply IH|]. intros [next2 rest1] [H2 Hl]. apply sound_ret.
      cbn [fst snd] in *. split; [exact (grows_trans _ _ _ H1 H2)|simpl; rewrite Hl; reflexivity].
    + apply sound_ret. split; [exact H1|reflexivity].
Qed.

Lemma orderActions_draws (moves : JsObj Move) (next : State) (actions : list Action)
    (g g' : RngSt) (ordered : list Ordered) :
  orderActions moves next actions g = Ok (ordered, g') ->
  List.length ordered = List.length actions /\ g' = advance g (List.length actions).
Proof.
  unfold orderActions. intros H. apply bind_ok in H. destruct H as (keyed & g1 & Hk & Hr).
  pose proof (keyActions_keyed moves next actions g 0) as Hkeyed.
  rewrite advance_0 in Hkeyed. rewrite Hkeyed in Hk. injection Hk as <- <-.
  injection Hr as <- <-. split; [|reflexivity].
  rewrite (Permutation_length (stableSort_perm _ _)).
  rewrite <- (keyedFrom_actions moves next g 0 actions) at 2. rewrite length_map. reflexivity.
Qed.

(** The turn as a whole: the state before recording, the executed actions
    and the number of draws. *)
Lemma stepBattleM_shape (moves : JsObj Move) (fuel : nat) (st : State)
    (actions : list Action) (recordHistory : bool) (g g' : RngSt) (st' : State) :
  stepBattleM moves fuel st actions recordHistory g = Ok (st', g') ->
  exists final ordered k,
    grows (pushLog (setTurn st (turn st + 1)) (turnBanner (turn st + 1))) final /\
    List.length ordered = List.length actions /\
    g' = advance g k /\ (List.length actions <= k)%nat /\
    st' = if recordHistory
          then recordTurn final ordered (List.length (log st)) (rng_log g')
          else final.
Proof.
  unfold stepBattleM. intros H.
  apply bind_ok in H. destruct H as (n1 & g1 & E1 & H).
  assert (n1 = pushLog (setTurn st (turn st + 1)) (turnBanner (turn st + 1)) /\ g1 = g)
    as [-> ->].
  { unfold logged, liftRes, logEvent in E1. cbn in E1. injection E1 as <- <-.
    split; reflexivity. }
  clear E1.
  apply bind_ok in H. destruct H as (n2 & g2 & E2 & H).
  destruct (sound_abilityPhase _ _ _ _ _ _ _ E2) as [G2 [k2 ->]].
  apply bind_ok in H. destruct H as (n3 & g3 & E3 & H).
  destruct (sound_statusPhase _ _ _ _ _ _ E3) as [G3 [k3 ->]].
  apply bind_ok in H. destruct H as (n4 & g4 & E4 & H).
  destruct (sound_fieldPhase _ _ _ _ _ E4) as [G4 [k4 ->]].
  apply bind_ok in H. destruct H as (ordered & g5 & E5 & H).
  destruct (orderActions_draws _ _ _ _ _ _ E5) as [L5 ->].
  apply bind_ok in H. destruct H as ([n6 ordered1] & g6 & E6 & H).
  destruct (sound_runActions _ _ _ _ _ _ _ E6) as [[G6 L6] [k6 ->]]. cbn [fst snd] in *.
  apply bind_ok in H. destruct H as (n7 & g7 & E7 & H).
  destruct (sound_statusPhase _ _ _ _ _ _ E7) as [G7 [k7 ->]].
  apply bind_ok in H. destruct H as (n8 & g8 & E8 & H).
  destruct (sound_abilityPhase _ _ _ _ _ _ _ E8) as [G8 [k8 ->]].
  apply bind_ok in H. destruct H as (n9 & g9 & E9 & H).
  destruct (sound_fieldPhase _ _ _ _ _ E9) as [G9 [k9 ->]].
  rewrite !advance_advance in H.
  match type of H with context [advance g ?k] => remember (advance g k) as gfin eqn:Eg end.
  injection H as <- <-.
  exists (tickFieldEffects (tickStatuses n9)), ordered1.
  eexists. split; [|split; [congruence|split; [exact Eg|split; [lia|reflexivity]]]].
  assert (G : grows (pushLog (setTurn st (turn st + 1)) (turnBanner (turn st + 1))) n9).
  { repeat (eapply grows_trans; [eassumption|]). apply grows_refl. }
  grows_solve.
Qed.

Lemma stepBattle_shape (moves : JsObj Move) (fuel : nat) (st : State)
    (actions : list Action) (src : nat -> Q) (pos : nat) (recordHistory : bool)
    (st' : State) (n : nat) :
  stepBattle moves fuel st actions src pos recordHistory = Ok (st', n) ->
  exists final ordered k,
    grows (pushLog (setTurn st (turn st + 1)) (turnBanner (turn st + 1))) final /\
    List.length ordered = List.length actions /\
    n = (k + pos)%nat /\ (List.length actions <= k)%nat /\
    st' = if recordHistory
          then recordTurn final ordered (List.length (log st)) (map src (seq pos k))
          else final.
Proof.
  unfold stepBattle. intros H.
  destruct (stepBattleM moves fuel st actions recordHistory (mkRng src pos []))
    as [[s1 g1]|e|] eqn:E; cbn [resBind fst snd] in H; try discriminate.
  injection H as <- <-.
  destruct (stepBattleM_shape _ _ _ _ _ _ _ _ E) as (final & ordered & k & G & L & -> & Hk & ->).
  exists final, ordered, k.
  split; [exact G|]. split; [exact L|]. split; [reflexivity|]. split; [exact Hk|].
  destruct recordHistory; reflexivity.
Qed.

(** X25: what a turn keeps.  Whatever the actions and the random numbers,
    a turn that [stepBattle] completes leaves the roster as it was (the
    players, their teams, and every creature's identity, level, moves, maximum
    hit points and base stats), advances the turn counter by exactly one, and
    only appends to the log, starting with the banner of the new turn. *)
Theorem turn_keeps_the_roster (moves : JsObj Move) (fuel : nat) (st : State)
    (actions : list Action) (src : nat -> Q) (pos : nat) (recordHistory : bool)
    (st' : State) (n : nat) :
  stepBattle moves fuel st actions src pos recordHistory = Ok (st', n) ->
  roster st' = roster st /\
  turn st' = turn st + 1 /\
  exists added, log st' = log st ++ turnBanner (turn st + 1) :: added.
Proof.
  intros H.
  destruct (stepBattle_shape _ _ _ _ _ _ _ _ _ H)
    as (final & ordered & k & (R & T & _ & added & L) & _ & _ & _ & ->).
  assert (Hsame : roster (if recordHistory
                          then recordTurn final ordered (List.length (log st))
                                 (map src (seq pos k))
                          else final) = roster final
                  /\ turn (if recordHistory
                           then recordTurn final ordered (List.length (log st))
                                  (map src (seq pos k))
                           else final) = turn final
                  /\ log (if recordHistory
                          then recordTurn final ordered (List.length (log st))
                                 (map src (seq pos k))
                          else final) = log final)
    by (destruct recordHistory; repeat split; reflexivity).
  destruct Hsame as (-> & -> & ->).
  split; [exact R|]. split; [exact T|].
  exists added. rewrite L. cbn [log pushLog setLog setTurn]. rewrite <- app_assoc. reflexivity.
Qed.

(** The theorem at the turn in which Alpha and Beta tackle each other. *)
Lemma turn_keeps_the_roster_witness :
  exists st' n,
    stepBattle exMoves 1 exState [moveAction "p1" "tackle"; moveAction "p2" "tackle"]
      (listRng [(9 # 10)%Q; (1 # 10)%Q; (1 # 2)%Q; (1 # 2)%Q; (1 # 4)%Q; (3 # 4)%Q]) 0 true
    = Ok (st', n) /\
    roster st' = roster exState /\
    turn st' = turn exState + 1 /\
    exists added, log st' = log exState ++ turnBanner (turn exState + 1) :: added.
Proof.
  eexists. eexists. split; [vm_compute; reflexivity|].
  eapply (turn_keeps_the_roster exMoves 1 exState
           [moveAction "p1" "tackle"; moveAction "p2" "tackle"]
           (listRng [(9 # 10)%Q; (1 # 10)%Q; (1 # 2)%Q; (1 # 2)%Q; (1 # 4)%Q; (3 # 4)%Q])
           0 true).
  vm_compute. reflexivity.
Defined.

(** X26: what a turn records.  A completed turn draws at least one random
    number per submitted action.  With [recordHistory] it appends exactly one
    record to the history: the number of the new turn, as many actions as were
    submitted, the log lines this turn added, and exactly the random numbers
    this turn drew, in order.  Without [recordHistory] the history is left
    as it was. *)
Theorem turn_record_is_faithful (moves : JsObj Move) (fuel : nat) (st : State)
    (actions : list Action) (src : nat -> Q) (pos : nat) (recordHistory : bool)
    (st' : State) (n : nat) :
  stepBattle moves fuel st actions src pos recordHistory = Ok (st', n) ->
  (pos + List.length actions <= n)%nat /\
  if recordHistory then
    exists recorded,
      List.length recorded = List.length actions /\
      history st'
      = Some (mkHistory
                (recordedTurns st
                 ++ [mkTurnRecord (turn st + 1) recorded
                       (skipn (List.length (log st)) (log st'))
                       (map src (seq pos (n - pos)))]))
  else history st' = history st.
Proof.
  intros H.
  destruct (stepBattle_shape _ _ _ _ _ _ _ _ _ H)
    as (final & ordered & k & (R & T & Hh & added & L) & Hl & -> & Hk & ->).
  split; [lia|].
  destruct recordHistory; [|exact Hh].
  exists (map normalizeAction ordered). split; [rewrite length_map; exact Hl|].
  unfold recordTurn. cbn [history setHistory log].
  replace (k + pos - pos)%nat with k by lia.
  unfold recordedTurns. rewrite Hh, T. reflexivity.
Qed.

(** The theorem at the turn in which Alpha and Beta tackle each other. *)
Lemma turn_record_is_faithful_witness :
  exists st' n,
    stepBattle exMoves 1 exState [moveAction "p1" "tackle"; moveAction "p2" "tackle"]
      (listRng [(9 # 10)%Q; (1 # 10)%Q; (1 # 2)%Q; (1 # 2)%Q; (1 # 4)%Q; (3 # 4)%Q]) 0 true
    = Ok (st', n) /\
    (0 + 2 <= n)%nat /\
    exists recorded,
      List.length recorded = 2%nat /\
      history st'
      = Some (mkHistory
                (recordedTurns exState
                 ++ [mkTurnRecord (turn exState + 1) recorded
                       (skipn (List.length (log exState)) (log st'))
                       (map (listRng [(9 # 10)%Q; (1 # 10)%Q; (1 # 2)%Q; (1 # 2)%Q;
                                      (1 # 4)%Q; (3 # 4)%Q])
                            (seq 0 (n - 0)))])).
Proof.
  eexists. eexists. split; [vm_compute; reflexivity|].
  eapply (turn_record_is_faithful exMoves 1 exState
           [moveAction "p1" "tackle"; moveAction "p2" "tackle"]
           (listRng [(9 # 10)%Q; (1 # 10)%Q; (1 # 2)%Q; (1 # 2)%Q; (1 # 4)%Q; (3 # 4)%Q])
           0 true).
  vm_compute. reflexivity.
Defined.

(** ** Replay and auto battle *)

Lemma stepBattle_grows (moves : JsObj Move) (fuel : nat) (st : State)
    (actions : list Action) (src : nat -> Q) (pos : nat) (recordHistory : bool)
    (st' : State) (n : nat) :
  stepBattle moves fuel st actions src pos recordHistory = Ok (st', n) ->
  roster st' = roster st /\ turn st' = turn st + 1 /\
  (exists added, log st' = log st ++ added) /\
  (List.length (recordedTurns st')
   = (List.length (recordedTurns st) + if recordHistory then 1 else 0)%nat /\
   (pos <= n)%nat) /\
  (recordHistory = false -> history st' = history st).
Proof.
  intros H.
  destruct (stepBattle_shape _ _ _ _ _ _ _ _ _ H)
    as (final & ordered & k & (R & T & Hh & added & L) & _ & Hn & _ & ->).
  destruct recordHistory.
  - unfold recordTurn, recordedTurns. cbn [history setHistory h_turns].
    rewrite Hh. cbn [history pushLog setLog setTurn].
    split; [exact R|]. split; [exact T|]. split.
    + exists (turnBanner (turn st + 1) :: added). cbn [log setHistory]. rewrite L.
      cbn [log pushLog setLog setTurn]. rewrite <- app_assoc. reflexivity.
    + split; [split; [rewrite length_app; reflexivity|lia]|discriminate].
  - split; [exact R|]. split; [exact T|]. split.
    + exists (turnBanner (turn st + 1) :: added). rewrite L.
      cbn [log pushLog setLog setTurn]. rewrite <- app_assoc. reflexivity.
    + split; [split; [|lia]|intros _; exact Hh].
      unfold recordedTurns. rewrite Hh. cbn [history pushLog setLog setTurn]. lia.
Qed.

(** X27: what a replay does to the state it starts from.  A replay that
    completes has stepped once per recorded turn: the turn counter has advanced
    by the number of recorded turns, the roster is the one of the initial
    state, the log of the initial state has only been extended, and the history of the state is untouched
    (a replayed turn is not recorded again). *)
Theorem replay_steps_once_per_record (moves : JsObj Move) (fuel : nat) (st : State)
    (hist : option History) (random : nat -> Q) (st' : State) :
  replayBattle moves fuel st hist random = Ok st' ->
  roster st' = roster st /\
  turn st' = turn st + Z.of_nat (List.length (match hist with
                                              | Some h => h_turns h
                                              | None => []
                                              end)) /\
  (exists added, log st' = log st ++ added) /\
  history st' = history st.
Proof.
  unfold replayBattle.
  generalize (match hist with Some h => h_turns h | None => [] end) as turns.
  generalize 0%nat as rpos. intros rpos turns. revert st rpos st'.
  induction turns as [|t rest IH]; intros next rpos st' H; cbn [replayTurns] in H.
  - injection H as <-. split; [reflexivity|]. split; [simpl; lia|]. split; [|reflexivity].
    exists []. rewrite app_nil_r. reflexivity.
  - destruct (stepBattle moves fuel next (tr_actions t) _ 0 false) as [[s1 n1]|e|] eqn:E;
      cbn [resBind fst snd] in H; try discriminate.
    destruct (stepBattle_grows _ _ _ _ _ _ _ _ _ E) as (R1 & T1 & [a1 L1] & _ & H1).
    destruct (IH _ _ _ H) as (R2 & T2 & [a2 L2] & H2).
    split; [congruence|]. split; [rewrite T2, T1; cbn [List.length]; lia|]. split.
    + exists (a1 ++ a2). rewrite L2, L1, app_assoc. reflexivity.
    + rewrite H2. apply H1. reflexivity.
Qed.

(** The theorem at the replay of one recorded turn of two tackles. *)
Lemma replay_steps_once_per_record_witness :
  exists st',
    replayBattle exMoves 1 exState
      (Some (mkHistory
               [mkTurnRecord 1 [moveAction "p2" "tackle"; moveAction "p1" "tackle"] []
                  [(9 # 10)%Q; (1 # 10)%Q; (1 # 2)%Q; (1 # 2)%Q; (1 # 4)%Q; (3 # 4)%Q]]))
      (fun _ => 0%Q)
    = Ok st' /\
    roster st' = roster exState /\
    turn st' = turn exState + 1 /\
    (exists added, log st' = log exState ++ added) /\
    history st' = history exState.
Proof.
  eexists. split; [vm_compute; reflexivity|].
  eapply (replay_steps_once_per_record exMoves 1 exState
            (Some (mkHistory
                     [mkTurnRecord 1 [moveAction "p2" "tackle"; moveAction "p1" "tackle"] []
                        [(9 # 10)%Q; (1 # 10)%Q; (1 # 2)%Q; (1 # 2)%Q; (1 # 4)%Q;
                         (3 # 4)%Q]]))
            (fun _ => 0%Q)).
  vm_compute. reflexivity.
Defined.

(** X28: an auto battle is bounded and stops for a reason.  Whatever the
    chooser, an auto battle that completes has played at most 100 turns, one
    history record each; if it played fewer than 100, then the battle is over
    in the final state or the chooser has no action for any player there.  The
    roster is the one it started with, the log has only been extended and the
    random source has only advanced. *)
Theorem auto_battle_is_bounded (moves : JsObj Move) (fuel : nat) (st : State)
    (src : nat -> Q) (pos : nat) (chooser : State -> string -> option Action)
    (st' : State) (n : nat) :
  runAutoBattle moves fuel st src pos chooser = Ok (st', n) ->
  roster st' = roster st /\
  (exists played,
     (played <= 100)%nat /\
     turn st' = turn st + Z.of_nat played /\
     List.length (recordedTurns st') = (List.length (recordedTurns st) + played)%nat /\
     ((played < 100)%nat -> isBattleOver st' = true \/ chosenActions chooser st' = [])) /\
  (exists added, log st' = log st ++ added) /\
  (pos <= n)%nat.
Proof.
  unfold runAutoBattle. generalize 100%nat as left. intros left. revert st pos st' n.
  induction left as [|left IH]; intros st pos st' n H; cbn [autoLoop] in H.
  - injection H as <- <-. split; [reflexivity|]. split.
    + exists 0%nat. split; [lia|]. split; [simpl; lia|]. split; [lia|lia].
    + split; [exists []; rewrite app_nil_r; reflexivity|lia].
  - destruct (isBattleOver st) eqn:Eover.
    { injection H as <- <-. split; [reflexivity|]. split.
      - exists 0%nat. split; [lia|]. split; [simpl; lia|]. split; [lia|].
        intros _. left. exact Eover.
      - split; [exists []; rewrite app_nil_r; reflexivity|lia]. }
    destruct (chosenActions chooser st) as [|a actions] eqn:Eact.
    { injection H as <- <-. split; [reflexivity|]. split.
      - exists 0%nat. split; [lia|]. split; [simpl; lia|]. split; [lia|].
        intros _. right. exact Eact.
      - split; [exists []; rewrite app_nil_r; reflexivity|lia]. }
    destruct (stepBattle moves fuel st (a :: actions) src pos true) as [[s1 n1]|e|] eqn:E;
      cbn [resBind fst snd] in H; try discriminate.
    destruct (stepBattle_grows _ _ _ _ _ _ _ _ _ E) as (R1 & T1 & [a1 L1] & [H1 P1] & _).
    destruct (IH _ _ _ _ H) as (R2 & (played & Hp & T2 & H2 & Hstop) & [a2 L2] & P2).
    split; [congruence|]. split.
    + exists (S played). split; [lia|]. split; [rewrite T2, T1; lia|].
      split; [rewrite H2, H1; lia|]. intros Hlt. apply Hstop. lia.
    + split; [|lia]. exists (a1 ++ a2). rewrite L2, L1, app_assoc. reflexivity.
Qed.

(** The theorem at the auto battle of Alpha against Beta, over in two
    turns. *)
Lemma auto_battle_is_bounded_witness :
  exists st' n,
    runAutoBattle exMoves 1 exState (fun _ => (1 # 2)%Q) 0 (chooseHighestPower exMoves)
    = Ok (st', n) /\
    turn st' = 2 /\ isBattleOver st' = true /\
    roster st' = roster exState /\
    (exists played,
       (played <= 100)%nat /\
       turn st' = turn exState + Z.of_nat played /\
       List.length (recordedTurns st') = (List.length (recordedTurns exState) + played)%nat /\
       ((played < 100)%nat ->
        isBattleOver st' = true \/ chosenActions (chooseHighestPower exMoves) st' = [])) /\
    (exists added, log st' = log exState ++ added) /\
    (0 <= n)%nat.
Proof.
  eexists. eexists. split; [vm_compute; reflexivity|].
  split; [reflexivity|]. split; [vm_compute; reflexivity|].
  eapply (auto_battle_is_bounded exMoves 1 exState (fun _ => (1 # 2)%Q) 0
            (chooseHighestPower exMoves)).
  vm_compute. reflexivity.
Defined.

(** ** The default chooser *)

Lemma Qgtb_cases (p b : Q) : (Qgtb p b = true -> (b <= p)%Q) /\ (Qgtb p b = false -> (p <= b)%Q).
Proof.
  unfold Qgtb. split; intros H.
  - apply negb_true_iff in H. apply Qlt_le_weak, Qnot_le_lt. intros Hle.
    apply Qle_bool_iff in Hle. congruence.
  - apply negb_false_iff in H. apply Qle_bool_iff. exact H.
Qed.

(** The invariant of the loop of [pickBest] once [seen] has been read. *)
Lemma pickBest_loop (moves : JsObj Move) (first : option string) (rest : list string) :
  forall (seen : list string) (best : option string * option Q),
    (snd best = None /\ fst best = first /\
     (forall id mv, In id seen -> objGet moves id = Some mv -> nominalPower mv = None))
    \/ (exists id mv p,
          best = (Some id, Some p) /\ In id seen /\ objGet moves id = Some mv /\
          nominalPower mv = Some p /\
          forall id' mv' p', In id' seen -> objGet moves id' = Some mv' ->
                             nominalPower mv' = Some p' -> (p' <= p)%Q) ->
    let final :=
      fold_left (fun best moveId =>
                   match objGet moves moveId with
                   | None => best
                   | Some mv =>
                       let power := nominalPower mv in
                       if beats power (snd best) then (Some moveId, power) else best
                   end) rest best in
    (snd final = None /\ fst final = first /\
     (forall id mv, In id (seen ++ rest) -> objGet moves id = Some mv ->
                    nominalPower mv = None))
    \/ (exists id mv p,
          final = (Some id, Some p) /\ In id (seen ++ rest) /\ objGet moves id = Some mv /\
          nominalPower mv = Some p /\
          forall id' mv' p', In id' (seen ++ rest) -> objGet moves id' = Some mv' ->
                             nominalPower mv' = Some p' -> (p' <= p)%Q).
Proof.
  induction rest as [|x rest IH]; intros seen best Inv; cbn [fold_left].
  - rewrite app_nil_r. exact Inv.
  - replace (seen ++ x :: rest) with ((seen ++ [x]) ++ rest)
      by (rewrite <- app_assoc; reflexivity).
    apply IH. clear IH.
    destruct (objGet moves x) as [mv|] eqn:Ex.
    + destruct Inv as [(Hn & Hf & Hall)|(id & m0 & p & -> & Hin & Hm & Hp & Hall)].
      * rewrite Hn. destruct (nominalPower mv) as [q|] eqn:Eq; cbn [beats].
        -- right. exists x, mv, q. split; [reflexivity|].
           split; [apply in_or_app; right; left; reflexivity|]. split; [exact Ex|].
           split; [exact Eq|]. intros id' mv' p' Hin' Hm' Hp'.
           apply in_app_or in Hin'. destruct Hin' as [Hin'|[<-|[]]].
           ++ rewrite (Hall _ _ Hin' Hm') in Hp'. discriminate.
           ++ rewrite Ex in Hm'. injection Hm' as <-. rewrite Eq in Hp'.
              injection Hp' as <-. apply Qle_refl.
        -- left. split; [exact Hn|]. split; [exact Hf|]. intros id' mv' Hin' Hm'.
           apply in_app_or in Hin'. destruct Hin' as [Hin'|[<-|[]]].
           ++ exact (Hall _ _ Hin' Hm').
           ++ rewrite Ex in Hm'. injection Hm' as <-. exact Eq.
      * cbn [snd]. destruct (nominalPower mv) as [q|] eqn:Eq; cbn [beats].
        -- destruct (Qgtb q p) eqn:Eg.
           ++ right. exists x, mv, q. split; [reflexivity|].
              split; [apply in_or_app; right; left; reflexivity|]. split; [exact Ex|].
              split; [exact Eq|]. intros id' mv' p' Hin' Hm' Hp'.
              apply in_app_or in Hin'. destruct Hin' as [Hin'|[<-|[]]].
              ** apply Qle_trans with p; [exact (Hall _ _ _ Hin' Hm' Hp')|].
                 apply (proj1 (Qgtb_cases q p) Eg).
              ** rewrite Ex in Hm'. injection Hm' as <-. rewrite Eq in Hp'.
                 injection Hp' as <-. apply Qle_refl.
           ++ right. exists id, m0, p. split; [reflexivity|].
              split; [apply in_or_app; left; exact Hin|]. split; [exact Hm|].
              split; [exact Hp|]. intros id' mv' p' Hin' Hm' Hp'.
              apply in_app_or in Hin'. destruct Hin' as [Hin'|[<-|[]]].
              ** exact (Hall _ _ _ Hin' Hm' Hp').
              ** rewrite Ex in Hm'. injection Hm' as <-. rewrite Eq in Hp'.
                 injection Hp' as <-. apply (proj2 (Qgtb_cases q p) Eg).
        -- right. exists id, m0, p. split; [reflexivity|].
           split; [apply in_or_app; left; exact Hin|]. split; [exact Hm|].
           split; [exact Hp|]. intros id' mv' p' Hin' Hm' Hp'.
           apply in_app_or in Hin'. destruct Hin' as [Hin'|[<-|[]]].
           ++ exact (Hall _ _ _ Hin' Hm' Hp').
           ++ rewrite Ex in Hm'. injection Hm' as <-. rewrite Eq in Hp'. discriminate.
    + destruct Inv as [(Hn & Hf & Hall)|(id & m0 & p & -> & Hin & Hm & Hp & Hall)].
      * left. split; [exact Hn|]. split; [exact Hf|]. intros id' mv' Hin' Hm'.
        apply in_app_or in Hin'. destruct Hin' as [Hin'|[<-|[]]].
        -- exact (Hall _ _ Hin' Hm').
        -- rewrite Ex in Hm'. discriminate.
      * right. exists id, m0, p. split; [reflexivity|].
        split; [apply in_or_app; left; exact Hin|]. split; [exact Hm|].
        split; [exact Hp|]. intros id' mv' p' Hin' Hm' Hp'.
        apply in_app_or in Hin'. destruct Hin' as [Hin'|[<-|[]]].
        -- exact (Hall _ _ _ Hin' Hm' Hp').
        -- rewrite Ex in Hm'. discriminate.
Qed.

Lemma pickBest_best (moves : JsObj Move) (ids : list string) :
  (fst (pickBest moves ids) = hd_error ids /\
   (forall id mv, In id ids -> objGet moves id = Some mv -> nominalPower mv = None))
  \/ (exists id mv p,
        fst (pickBest moves ids) = Some id /\ In id ids /\ objGet moves id = Some mv /\
        nominalPower mv = Some p /\
        forall id' mv' p', In id' ids -> objGet moves id' = Some mv' ->
                           nominalPower mv' = Some p' -> (p' <= p)%Q).
Proof.
  unfold pickBest.
  assert (Hstart : snd (hd_error ids, @None Q) = None /\ fst (hd_error ids, @None Q) = hd_error ids /\
                   (forall id mv, In id [] -> objGet moves id = Some mv ->
                                  nominalPower mv = None)).
  { split; [reflexivity|]. split; [reflexivity|]. intros id mv []. }
  pose proof (pickBest_loop moves (hd_error ids) ids [] (hd_error ids, None)
                (or_introl Hstart)) as H.
  cbv zeta in H. cbn [app] in H.
  destruct H as [(_ & Hf & Hall)|(id & mv & p & Hfin & Hrest)].
  - left. split; [exact Hf|exact Hall].
  - right. exists id, mv, p. rewrite Hfin. split; [reflexivity|exact Hrest].
Qed.

Lemma backupIndex_spec (player : Player) (i : nat) :
  backupIndex player = Some i ->
  exists c, arrGet (p_team player) (Z.of_nat i) = Some c /\ 0 < c_hp c /\
            Z.of_nat i <> p_activeSlot player.
Proof.
  unfold backupIndex, findIndex, indexed.
  generalize (p_team player) as team. intros team.
  assert (Hgen : forall (l : list Creature) (k j : nat),
             findIndexFrom (fun ic => andb (0 <? c_hp (snd ic))
                                           (negb (fst ic =? p_activeSlot player)))
               (combine (map Z.of_nat (seq k (List.length l))) l) j = Some i ->
             exists c, nth_error l (i - j) = Some c /\ 0 < c_hp c /\
                       Z.of_nat (k + (i - j)) <> p_activeSlot player /\ (j <= i)%nat).
  { induction l as [|c l IH]; intros k j; cbn [List.length seq map combine findIndexFrom];
      [discriminate|].
    cbn [fst snd]. destruct (andb _ _) eqn:E.
    - intros H. injection H as <-. rewrite Nat.sub_diag. exists c.
      apply andb_true_iff in E. destruct E as [E1 E2].
      split; [reflexivity|]. split; [apply Z.ltb_lt; exact E1|].
      apply negb_true_iff, Z.eqb_neq in E2. split; [rewrite Nat.add_0_r; exact E2|lia].
    - intros H. destruct (IH (S k) (S j) H) as (c' & Hn & Hhp & Hne & Hle).
      exists c'. replace (i - j)%nat with (S (i - S j)) by lia.
      split; [exact Hn|]. split; [exact Hhp|]. split; [|lia].
      replace (k + S (i - S j))%nat with (S k + (i - S j))%nat by lia. exact Hne. }
  intros H. destruct (Hgen team 0%nat 0%nat H) as (c & Hn & Hhp & Hne & _).
  rewrite Nat.sub_0_r in Hn. cbn [Nat.add] in Hne. rewrite Nat.sub_0_r in Hne.
  exists c. split; [|split; assumption].
  unfold arrGet. destruct (Z.ltb_spec (Z.of_nat i) 0); [lia|]. rewrite Nat2Z.id. exact Hn.
Qed.

Lemma chooseMove_spec (moves : JsObj Move) (st : State) (playerId : string)
    (active : Creature) (a : Action) :
  chooseMove moves st playerId active = Some a ->
  exists opponent,
    In opponent (players st) /\ p_id opponent <> playerId /\
    a = targetedMove playerId (fst (pickBest moves (c_moves active))) (p_id opponent).
Proof.
  unfold chooseMove.
  destruct (find _ (players st)) as [opponent|] eqn:E; [|discriminate].
  destruct (String.eqb (p_id opponent) ""); [discriminate|].
  intros H. injection H as <-. apply find_some in E. destruct E as [Hin Hne].
  exists opponent. split; [exact Hin|]. split; [|reflexivity].
  apply negb_true_iff in Hne. apply String.eqb_neq. exact Hne.
Qed.

(** X29: what the default chooser picks.  [chooseHighestPower] answers
    with a switch, a wait or a move of the asking player.  A switch goes to a
    living creature of the team outside the active slot.  A move is chosen only
    for a living active creature and targets another player.  When a known
    move of the creature has a damage effect, the chosen move is a known move
    of the creature and no known move of the creature has a larger nominal
    power; otherwise the choice is the creature's first move (none if it has
    no move). *)
Theorem chooser_picks_the_strongest (moves : JsObj Move) (st : State) (playerId : string)
    (a : Action) :
  chooseHighestPower moves st playerId = Some a ->
  (exists player i c,
     findPlayer st playerId = Some player /\
     a = switchAction playerId (Z.of_nat i) /\
     arrGet (p_team player) (Z.of_nat i) = Some c /\ 0 < c_hp c /\
     Z.of_nat i <> p_activeSlot player)
  \/ (a = waitAction playerId /\
      forall active, getActiveCreature st playerId = Some active -> c_hp active <= 0)
  \/ (exists active opponent,
        getActiveCreature st playerId = Some active /\ 0 < c_hp active /\
        In opponent (players st) /\ p_id opponent <> playerId /\
        a_playerId a = playerId /\ a_type a = Some TMove /\
        a_targetId a = Some (p_id opponent) /\
        ((a_moveId a = hd_error (c_moves active) /\
          forall id mv, In id (c_moves active) -> objGet moves id = Some mv ->
                        nominalPower mv = None)
         \/ (exists id mv p,
               a_moveId a = Some id /\ In id (c_moves active) /\
               objGet moves id = Some mv /\ nominalPower mv = Some p /\
               forall id' mv' p', In id' (c_moves active) -> objGet moves id' = Some mv' ->
                                  nominalPower mv' = Some p' -> (p' <= p)%Q))).
Proof.
  unfold chooseHighestPower.
  destruct (findPlayer st playerId) as [player|] eqn:Ep; [|discriminate].
  assert (Hswitch : forall i, backupIndex player = Some i ->
                    exists player0 i0 c,
                      Some player = Some player0 /\
                      switchAction playerId (Z.of_nat i)
                      = switchAction playerId (Z.of_nat i0) /\
                      arrGet (p_team player0) (Z.of_nat i0) = Some c /\ 0 < c_hp c /\
                      Z.of_nat i0 <> p_activeSlot player0).
  { intros i Hi. destruct (backupIndex_spec player i Hi) as (c & Hc).
    exists player, i, c. split; [reflexivity|]. split; [reflexivity|exact Hc]. }
  assert (Hmove : forall active,
             getActiveCreature st playerId = Some active -> 0 < c_hp active ->
             chooseMove moves st playerId active = Some a ->
             exists active0 opponent,
               Some active = Some active0 /\ 0 < c_hp active0 /\
               In opponent (players st) /\ p_id opponent <> playerId /\
               a_playerId a = playerId /\ a_type a = Some TMove /\
               a_targetId a = Some (p_id opponent) /\
               ((a_moveId a = hd_error (c_moves active0) /\
                 forall id mv, In id (c_moves active0) -> objGet moves id = Some mv ->
                               nominalPower mv = None)
                \/ (exists id mv p,
                      a_moveId a = Some id /\ In id (c_moves active0) /\
                      objGet moves id = Some mv /\ nominalPower mv = Some p /\
                      forall id' mv' p', In id' (c_moves active0) ->
                                         objGet moves id' = Some mv' ->
                                         nominalPower mv' = Some p' -> (p' <= p)%Q))).
  { intros active Hact Hhp Hm.
    destruct (chooseMove_spec _ _ _ _ _ Hm) as (opponent & Hin & Hne & ->).
    exists active, opponent. repeat (split; [first [reflexivity|assumption]|]).
    cbn [a_moveId targetedMove]. apply pickBest_best. }
  destruct (getActiveCreature st playerId) as [active|] eqn:Ea.
  - destruct (Z.leb_spec (c_hp active) 0) as [Hdead|Halive]; cbn [orb].
    + destruct (backupIndex player) as [i|] eqn:Eb.
      * intros H. injection H as <-. left. apply Hswitch. reflexivity.
      * intros H. injection H as <-. right. left. split; [reflexivity|].
        intros active0 Heq. injection Heq as <-. exact Hdead.
    + destruct (hasStatus active "pending_switch").
      * destruct (backupIndex player) as [i|] eqn:Eb.
        -- intros H. injection H as <-. left. apply Hswitch. reflexivity.
        -- intros H. right. right. apply (Hmove active eq_refl Halive H).
      * intros H. right. right. apply (Hmove active eq_refl Halive H).
  - destruct (backupIndex player) as [i|] eqn:Eb.
    + intros H. injection H as <-. left. apply Hswitch. reflexivity.
    + intros H. injection H as <-. right. left. split; [reflexivity|].
      intros active0 Heq. discriminate.
Qed.

(** The theorem at Alpha of the example state, whose only move is Tackle. *)
Lemma chooser_picks_the_strongest_witness :
  chooseHighestPower exMoves exState "p1" = Some (targetedMove "p1" (Some "tackle") "p2") /\
  nominalPower tackle = Some 40%Q /\
  exists active opponent,
    getActiveCreature exState "p1" = Some active /\ p_id opponent <> "p1" /\
    a_targetId (targetedMove "p1" (Some "tackle") "p2") = Some (p_id opponent).
Proof.
  split; [reflexivity|]. split; [reflexivity|].
  destruct (chooser_picks_the_strongest exMoves exState "p1"
              (targetedMove "p1" (Some "tackle") "p2") eq_refl)
    as [(player & i & c & _ & Hsw & _)|[[Hw _]|(active & opponent & Ha & _ & _ & Hne & _ & _
                                                & Ht & _)]].
  - discriminate Hsw.
  - discriminate Hw.
  - exists active, opponent. split; [exact Ha|]. split; [exact Hne|exact Ht].
Defined.

(** ** Effects as a whole *)

(** X30: what no effect list can change.  Whatever the effects (however
    nested) and the context, an [applyEffects] that completes leaves the
    roster, the turn counter and the history as they were, only appends to the
    log, and only advances the random source. *)
Theorem effects_keep_the_roster (st : State) (effects : list Effect) (ctx : Ctx)
    (g : RngSt) (st' : State) (g' : RngSt) :
  applyEffects st effects ctx g = Ok (st', g') ->
  roster st' = roster st /\
  turn st' = turn st /\
  history st' = history st /\
  (exists added, log st' = log st ++ added) /\
  exists k, g' = advance g k.
Proof.
  intros H. destruct (sound_applyEffects st effects ctx g st' g' H) as [(R & T & Hh & L) S].
  split; [exact R|]. split; [exact T|]. split; [exact Hh|]. split; [exact L|exact S].
Qed.

(** The theorem at a chance effect around Tackle's damage, Alpha on Beta. *)
Lemma effects_keep_the_roster_witness :
  exists st' g',
    applyEffects exState
      [FxChance (Some (1 # 2)%Q) (Some [FxDamage (Some 40%Q) (Some 1%Q) None]) None]
      (exCtx (Some tackle)) (exRng [(1 # 4)%Q; (1 # 2)%Q; (1 # 2)%Q])
    = Ok (st', g') /\
    option_map c_hp (getActiveCreature st' "p2") = Some 73 /\
    roster st' = roster exState /\
    turn st' = turn exState /\
    history st' = history exState /\
    (exists added, log st' = log exState ++ added) /\
    exists k, g' = advance (exRng [(1 # 4)%Q; (1 # 2)%Q; (1 # 2)%Q]) k.
Proof.
  eexists. eexists. split; [vm_compute; reflexivity|].
  split; [vm_compute; reflexivity|].
  eapply (effects_keep_the_roster exState
            [FxChance (Some (1 # 2)%Q) (Some [FxDamage (Some 40%Q) (Some 1%Q) None]) None]
            (exCtx (Some tackle)) (exRng [(1 # 4)%Q; (1 # 2)%Q; (1 # 2)%Q])).
  vm_compute. reflexivity.
Defined.
